(** * Space Invaders: gameplay simulation core

    A shallow embedding of the simulation core of the game
    ([client/js/utils.js], [client/js/entities.js], [client/js/game.js])
    and the properties of it that the specification states, followed by
    further properties that the code itself shows.

    Conventions of the embedding.
    - A JavaScript number that is a measure (a position, a size, a speed,
      a time) is an exact rational [Q] in the modules of the game; the
      properties stated on them are those that rounding does not change.
      The swarm, whose timer and positions are sums of rounded terms, is
      embedded a second time on IEEE doubles, in the module [Double],
      and what depends on rounding is stated there.  A number that the
      program only ever uses as a counter (lives, score, wall health,
      level, the swarm direction) is a [Z].
    - An [await] ends the turn: the click that asks for a level and the
      arrival of that level are two events, and other events may come
      between them.
    - An object mutated in place is a record that the operation returns;
      an array is a [list], read with [!!], spliced with [delete] and
      written with [<[ i := v ]>].
    - [Math.random()] is an oracle: the state carries the sequence of
      draws and a cursor.  Particles, explosions and the screen shake are
      embedded on their own, with the draws that they take passed in;
      the record of the game does not carry them, and their draws are
      not part of its sequence.
    - Canvas drawing, the DOM, sound, local storage, the particle and
      explosion collections of the game and the colours of entities are
      presentation only, never read back by the simulation, and are left
      out. *)

From Stdlib Require Import ZArith QArith Qround Qabs Qminmax Lqa Lia Bool List String.
From Stdlib Require Import Floats.
From stdpp Require Import base list.
Import ListNotations.

(** A decimal literal of a double stands for the double nearest to it. *)
Set Warnings "-inexact-float".

(** ** Numbers *)

(** The comparisons [<] and [<=] of two numbers, as booleans. *)
Definition Qltb (a b : Q) : bool := negb (Qle_bool b a).
Definition Qleb (a b : Q) : bool := Qle_bool a b.

(** [Math.max] and [Math.min] *)
Definition Math_max (a b : Q) : Q := if Qleb a b then b else a.
Definition Math_min (a b : Q) : Q := if Qleb a b then a else b.

(** [Math.floor], as a loop bound: a negative bound runs no iteration. *)
Definition floor_nat (q : Q) : nat := Z.to_nat (Qfloor q).

(** The transcendental functions of [Math] that the auto-aim shot uses. *)
Class MathLib : Type := {
  Math_atan2 : Q -> Q -> Q;
  Math_cos : Q -> Q;
  Math_sin : Q -> Q
}.

(** The constant [Math.PI]. *)
Class MathPI : Type := Math_PI : Q.

(** ** Enumerations

    The strings that the program switches on. *)

(** The [type] of a power-up. *)
Inductive PowerUpType : Type :=
  | shield | multi_shot | auto_aim | rapid_fire | life_up | points.

(** The [type] of an enemy. *)
Inductive EnemyType : Type := basic | fast | aggressive | boss.

(** [this.gameState] *)
Inductive GameState : Type := menu | playing | paused | gameOver | levelComplete.

#[global] Instance GameState_eq_dec : EqDecision GameState.
Proof. solve_decision. Defined.

(** ** Level data

    The object that the level provider serves, [this.levelData].  The
    optional [specialMechanics] of generated levels (theme, formation,
    boss) is not part of the embedding: the levels of the procedural
    provider and both fallback literals carry none. *)

(** [levelData.walls] *)
Module WallConfig.

Record t : Type := mk {
  count : Z;
  width : Q;
  height : Q;
  health : Z;
  yPosition : Q
}.

End WallConfig.

Module Level.

Record t : Type := mk {
  level : Z;
  enemyCount : Z;
  enemySpeed : Q;
  enemyDropSpeed : Q;
  enemyBulletSpeed : Q;
  enemyBulletFrequency : Q;
  enemyMoveDirection : Z;
  enemyRows : Z;
  enemyCols : Z;
  pointsPerEnemy : Z;
  enemyType : EnemyType;
  generatedBy : option string;
  walls : option WallConfig.t
}.

End Level.

(** What awaiting a promise gives: its value, or the exception thrown at
    the [await] when it rejects. *)
Inductive Awaited (A : Type) : Type :=
  | resolved (a : A)
  | rejected.
Arguments resolved {A} a.
Arguments rejected {A}.

(** What the network does with the request of a level: [fetch] rejects,
    the response is not [ok], [response.json()] rejects, or a level
    arrives. *)
Inductive Response : Type :=
  | networkError
  | httpError (status : Z)
  | invalidBody
  | levelBody (data : Level.t).

(** ** utils.js *)

(** A rectangle [{x, y, width, height}], as [getBounds()] returns it. *)
Module Rect.

Record t : Type := mk { x : Q; y : Q; width : Q; height : Q }.

End Rect.

(** [class Particle] of entities.js, placed here because
    [Utils.createParticles] builds particles.  The colour is left out. *)
Module Particle.
Local Open Scope Q_scope.

Record t : Type := mk {
  x : Q;
  y : Q;
  width : Q;
  height : Q;
  active : bool;
  vx : Q;
  vy : Q;
  size : Q;
  life : Q;
  maxLife : Q;
  decay : Q;
  gravity : Q
}.

(** [constructor(x, y, vx, vy, color, size, life)] *)
Definition new (x0 y0 vx0 vy0 size0 life0 : Q) : t :=
  {| x := x0; y := y0; width := size0; height := size0; active := true;
     vx := vx0; vy := vy0; size := size0; life := life0; maxLife := life0;
     decay := 2 # 100; gravity := 1 # 10 |}.

(** [update(deltaTime)] *)
Definition update (deltaTime : Q) (p : t) : t :=
  let x1 := x p + vx p * deltaTime * 60 in
  let y1 := y p + vy p * deltaTime * 60 in
  let vy1 := vy p + gravity p * deltaTime * 60 in
  let life1 := life p - decay p * deltaTime * 60 in
  {| x := x1; y := y1; width := width p; height := height p;
     active := if Qleb life1 0 then false else active p;
     vx := vx p; vy := vy1; size := size p; life := life1;
     maxLife := maxLife p; decay := decay p; gravity := gravity p |}.

End Particle.

(** The object of [Utils.createScreenShake]. *)
Module ScreenShake.

Record t : Type := mk {
  intensity : Q;
  duration : Q;
  time : Q;
  offsetX : Q;
  offsetY : Q
}.

End ScreenShake.

Module Utils.
Local Open Scope Q_scope.

(** [static checkCollision(rect1, rect2)] *)
Definition checkCollision (rect1 rect2 : Rect.t) : bool :=
  Qltb (Rect.x rect1) (Rect.x rect2 + Rect.width rect2) &&
  Qltb (Rect.x rect2) (Rect.x rect1 + Rect.width rect1) &&
  Qltb (Rect.y rect1) (Rect.y rect2 + Rect.height rect2) &&
  Qltb (Rect.y rect2) (Rect.y rect1 + Rect.height rect1).

(** [static clamp(value, min, max)] *)
Definition clamp (value lo hi : Q) : Q := Math_min (Math_max value lo) hi.

(** [static async fetchLevelData(levelNumber, useAI)], on what the
    network answers.  Every exception raised in the [try] block is
    caught, so the promise always resolves. *)
Definition fetchLevelData (levelNumber : Z) (response : Response)
    : Awaited Level.t :=
  match response with
  | levelBody levelData => resolved levelData
  | networkError | httpError _ | invalidBody =>
      resolved
        {| Level.level := levelNumber; Level.enemyCount := 35;
           Level.enemySpeed := 1; Level.enemyDropSpeed := 20;
           Level.enemyBulletSpeed := 2;
           Level.enemyBulletFrequency := 3 # 1000;
           Level.enemyMoveDirection := 1;
           Level.enemyRows := 5; Level.enemyCols := 7;
           Level.pointsPerEnemy := 10; Level.enemyType := basic;
           Level.generatedBy := Some "fallback"%string;
           Level.walls := None |}
  end.

(** [static random(min, max)], on the draw [r] of [Math.random()]. *)
Definition random (r lo hi : Q) : Q := r * (hi - lo) + lo.

(** [static randomInt(min, max)], on the draw [r] of [Math.random()]. *)
Definition randomInt (r : Q) (lo hi : Z) : Z :=
  (Qfloor (r * inject_Z (hi - lo + 1)) + lo)%Z.

(** [static createParticles(x, y, count, color)]: every particle takes
    five draws, in the order of the arguments of its constructor; [draw]
    is the sequence of draws and [cursor] the first one to use. *)
Fixpoint createParticles (draw : nat -> Q) (cursor : nat) (x y : Q)
    (count : nat) : list Particle.t :=
  match count with
  | O => []
  | S n =>
      Particle.new
        (x + random (draw cursor) (-5) 5)
        (y + random (draw (cursor + 1)%nat) (-5) 5)
        (random (draw (cursor + 2)%nat) (-3) 3)
        (random (draw (cursor + 3)%nat) (-3) 3)
        (random (draw (cursor + 4)%nat) 2 5)
        1
      :: createParticles draw (cursor + 5)%nat x y n
  end.

(** [static createScreenShake(intensity, duration)] *)
Definition createScreenShake (intensity duration : Q) : ScreenShake.t :=
  {| ScreenShake.intensity := intensity; ScreenShake.duration := duration;
     ScreenShake.time := 0; ScreenShake.offsetX := 0;
     ScreenShake.offsetY := 0 |}.

(** [static updateScreenShake(shake, deltaTime)], on the two draws that
    the offsets take: the value returned and the shake afterwards. *)
Definition updateScreenShake (r1 r2 : Q) (deltaTime : Q)
    (shake : ScreenShake.t) : bool * ScreenShake.t :=
  if Qltb (ScreenShake.time shake) (ScreenShake.duration shake) then
    let time := ScreenShake.time shake + deltaTime in
    let progress := time / ScreenShake.duration shake in
    let currentIntensity := ScreenShake.intensity shake * (1 - progress) in
    (true,
     {| ScreenShake.intensity := ScreenShake.intensity shake;
        ScreenShake.duration := ScreenShake.duration shake;
        ScreenShake.time := time;
        ScreenShake.offsetX := random r1 (- currentIntensity) currentIntensity;
        ScreenShake.offsetY := random r2 (- currentIntensity) currentIntensity |})
  else
    (false,
     {| ScreenShake.intensity := ScreenShake.intensity shake;
        ScreenShake.duration := ScreenShake.duration shake;
        ScreenShake.time := ScreenShake.time shake;
        ScreenShake.offsetX := 0; ScreenShake.offsetY := 0 |}).

End Utils.

(** ** entities.js *)

(** [class Entity]: what every game object shares.  [getBounds] is the
    method of the base class; [Entity.checkCollision] works on any two
    objects that have it. *)
Class Entity (A : Type) : Type := getBounds : A -> Rect.t.

Definition entityCheckCollision {A B : Type} `{Entity A} `{Entity B}
    (this : A) (other : B) : bool :=
  Utils.checkCollision (getBounds this) (getBounds other).

Module Bullet.
Local Open Scope Q_scope.

Record t : Type := mk {
  x : Q;
  y : Q;
  width : Q;
  height : Q;
  active : bool;
  vx : Q;
  vy : Q;
  isPlayerBullet : bool;
  trail : list (Q * Q);
  maxTrailLength : nat
}.

Definition set_x (v : Q) (o : t) : t :=
  {| x := v; y := y o; width := width o; height := height o; active := active o; vx := vx o; vy := vy o; isPlayerBullet := isPlayerBullet o; trail := trail o; maxTrailLength := maxTrailLength o |}.
Definition set_y (v : Q) (o : t) : t :=
  {| x := x o; y := v; width := width o; height := height o; active := active o; vx := vx o; vy := vy o; isPlayerBullet := isPlayerBullet o; trail := trail o; maxTrailLength := maxTrailLength o |}.
Definition set_active (v : bool) (o : t) : t :=
  {| x := x o; y := y o; width := width o; height := height o; active := v; vx := vx o; vy := vy o; isPlayerBullet := isPlayerBullet o; trail := trail o; maxTrailLength := maxTrailLength o |}.
Definition set_vy (v : Q) (o : t) : t :=
  {| x := x o; y := y o; width := width o; height := height o; active := active o; vx := vx o; vy := v; isPlayerBullet := isPlayerBullet o; trail := trail o; maxTrailLength := maxTrailLength o |}.
Definition set_trail (v : list (Q * Q)) (o : t) : t :=
  {| x := x o; y := y o; width := width o; height := height o; active := active o; vx := vx o; vy := vy o; isPlayerBullet := isPlayerBullet o; trail := v; maxTrailLength := maxTrailLength o |}.

(** [constructor(x, y, vx, vy, color, isPlayerBullet)] *)
Definition new (x0 y0 vx0 vy0 : Q) (isPlayer : bool) : t :=
  {| x := x0; y := y0; width := 4; height := 8; active := true;
     vx := vx0; vy := vy0; isPlayerBullet := isPlayer;
     trail := []; maxTrailLength := 5 |}.

(** [update(deltaTime, canvasWidth, canvasHeight)] *)
Definition update (deltaTime canvasWidth canvasHeight : Q) (b : t) : t :=
  let pushed := trail b ++ [(x b, y b)] in
  let trail' := if (maxTrailLength b <? length pushed)%nat then tail pushed else pushed in
  let b1 := set_trail trail' b in
  let b2 := set_y (y b1 + vy b1) (set_x (x b1 + vx b1) b1) in
  if Qltb (y b2) (- height b2) || Qltb canvasHeight (y b2) ||
     Qltb (x b2) (- width b2) || Qltb canvasWidth (x b2)
  then set_active false b2 else b2.

#[global] Instance entity : Entity t :=
  fun b => Rect.mk (x b) (y b) (width b) (height b).

End Bullet.

Module Player.
Local Open Scope Q_scope.

Record t : Type := mk {
  x : Q;
  y : Q;
  width : Q;
  height : Q;
  active : bool;
  speed : Q;
  shootCooldown : Q;
  maxShootCooldown : Q;
  baseShootCooldown : Q;
  invulnerable : bool;
  invulnerabilityTime : Q;
  maxInvulnerabilityTime : Q;
  hasShield : bool;
  shieldTime : Q;
  hasMultiShot : bool;
  hasAutoAim : bool;
  autoAimTime : Q;
  hasRapidFire : bool;
  rapidFireTime : Q
}.

Definition set_x (v : Q) (o : t) : t :=
  {| x := v; y := y o; width := width o; height := height o; active := active o; speed := speed o; shootCooldown := shootCooldown o; maxShootCooldown := maxShootCooldown o; baseShootCooldown := baseShootCooldown o; invulnerable := invulnerable o; invulnerabilityTime := invulnerabilityTime o; maxInvulnerabilityTime := maxInvulnerabilityTime o; hasShield := hasShield o; shieldTime := shieldTime o; hasMultiShot := hasMultiShot o; hasAutoAim := hasAutoAim o; autoAimTime := autoAimTime o; hasRapidFire := hasRapidFire o; rapidFireTime := rapidFireTime o |}.
Definition set_shootCooldown (v : Q) (o : t) : t :=
  {| x := x o; y := y o; width := width o; height := height o; active := active o; speed := speed o; shootCooldown := v; maxShootCooldown := maxShootCooldown o; baseShootCooldown := baseShootCooldown o; invulnerable := invulnerable o; invulnerabilityTime := invulnerabilityTime o; maxInvulnerabilityTime := maxInvulnerabilityTime o; hasShield := hasShield o; shieldTime := shieldTime o; hasMultiShot := hasMultiShot o; hasAutoAim := hasAutoAim o; autoAimTime := autoAimTime o; hasRapidFire := hasRapidFire o; rapidFireTime := rapidFireTime o |}.
Definition set_maxShootCooldown (v : Q) (o : t) : t :=
  {| x := x o; y := y o; width := width o; height := height o; active := active o; speed := speed o; shootCooldown := shootCooldown o; maxShootCooldown := v; baseShootCooldown := baseShootCooldown o; invulnerable := invulnerable o; invulnerabilityTime := invulnerabilityTime o; maxInvulnerabilityTime := maxInvulnerabilityTime o; hasShield := hasShield o; shieldTime := shieldTime o; hasMultiShot := hasMultiShot o; hasAutoAim := hasAutoAim o; autoAimTime := autoAimTime o; hasRapidFire := hasRapidFire o; rapidFireTime := rapidFireTime o |}.
Definition set_invulnerable (v : bool) (o : t) : t :=
  {| x := x o; y := y o; width := width o; height := height o; active := active o; speed := speed o; shootCooldown := shootCooldown o; maxShootCooldown := maxShootCooldown o; baseShootCooldown := baseShootCooldown o; invulnerable := v; invulnerabilityTime := invulnerabilityTime o; maxInvulnerabilityTime := maxInvulnerabilityTime o; hasShield := hasShield o; shieldTime := shieldTime o; hasMultiShot := hasMultiShot o; hasAutoAim := hasAutoAim o; autoAimTime := autoAimTime o; hasRapidFire := hasRapidFire o; rapidFireTime := rapidFireTime o |}.
Definition set_invulnerabilityTime (v : Q) (o : t) : t :=
  {| x := x o; y := y o; width := width o; height := height o; active := active o; speed := speed o; shootCooldown := shootCooldown o; maxShootCooldown := maxShootCooldown o; baseShootCooldown := baseShootCooldown o; invulnerable := invulnerable o; invulnerabilityTime := v; maxInvulnerabilityTime := maxInvulnerabilityTime o; hasShield := hasShield o; shieldTime := shieldTime o; hasMultiShot := hasMultiShot o; hasAutoAim := hasAutoAim o; autoAimTime := autoAimTime o; hasRapidFire := hasRapidFire o; rapidFireTime := rapidFireTime o |}.
Definition set_hasShield (v : bool) (o : t) : t :=
  {| x := x o; y := y o; width := width o; height := height o; active := active o; speed := speed o; shootCooldown := shootCooldown o; maxShootCooldown := maxShootCooldown o; baseShootCooldown := baseShootCooldown o; invulnerable := invulnerable o; invulnerabilityTime := invulnerabilityTime o; maxInvulnerabilityTime := maxInvulnerabilityTime o; hasShield := v; shieldTime := shieldTime o; hasMultiShot := hasMultiShot o; hasAutoAim := hasAutoAim o; autoAimTime := autoAimTime o; hasRapidFire := hasRapidFire o; rapidFireTime := rapidFireTime o |}.
Definition set_shieldTime (v : Q) (o : t) : t :=
  {| x := x o; y := y o; width := width o; height := height o; active := active o; speed := speed o; shootCooldown := shootCooldown o; maxShootCooldown := maxShootCooldown o; baseShootCooldown := baseShootCooldown o; invulnerable := invulnerable o; invulnerabilityTime := invulnerabilityTime o; maxInvulnerabilityTime := maxInvulnerabilityTime o; hasShield := hasShield o; shieldTime := v; hasMultiShot := hasMultiShot o; hasAutoAim := hasAutoAim o; autoAimTime := autoAimTime o; hasRapidFire := hasRapidFire o; rapidFireTime := rapidFireTime o |}.
Definition set_hasMultiShot (v : bool) (o : t) : t :=
  {| x := x o; y := y o; width := width o; height := height o; active := active o; speed := speed o; shootCooldown := shootCooldown o; maxShootCooldown := maxShootCooldown o; baseShootCooldown := baseShootCooldown o; invulnerable := invulnerable o; invulnerabilityTime := invulnerabilityTime o; maxInvulnerabilityTime := maxInvulnerabilityTime o; hasShield := hasShield o; shieldTime := shieldTime o; hasMultiShot := v; hasAutoAim := hasAutoAim o; autoAimTime := autoAimTime o; hasRapidFire := hasRapidFire o; rapidFireTime := rapidFireTime o |}.
Definition set_hasAutoAim (v : bool) (o : t) : t :=
  {| x := x o; y := y o; width := width o; height := height o; active := active o; speed := speed o; shootCooldown := shootCooldown o; maxShootCooldown := maxShootCooldown o; baseShootCooldown := baseShootCooldown o; invulnerable := invulnerable o; invulnerabilityTime := invulnerabilityTime o; maxInvulnerabilityTime := maxInvulnerabilityTime o; hasShield := hasShield o; shieldTime := shieldTime o; hasMultiShot := hasMultiShot o; hasAutoAim := v; autoAimTime := autoAimTime o; hasRapidFire := hasRapidFire o; rapidFireTime := rapidFireTime o |}.
Definition set_autoAimTime (v : Q) (o : t) : t :=
  {| x := x o; y := y o; width := width o; height := height o; active := active o; speed := speed o; shootCooldown := shootCooldown o; maxShootCooldown := maxShootCooldown o; baseShootCooldown := baseShootCooldown o; invulnerable := invulnerable o; invulnerabilityTime := invulnerabilityTime o; maxInvulnerabilityTime := maxInvulnerabilityTime o; hasShield := hasShield o; shieldTime := shieldTime o; hasMultiShot := hasMultiShot o; hasAutoAim := hasAutoAim o; autoAimTime := v; hasRapidFire := hasRapidFire o; rapidFireTime := rapidFireTime o |}.
Definition set_hasRapidFire (v : bool) (o : t) : t :=
  {| x := x o; y := y o; width := width o; height := height o; active := active o; speed := speed o; shootCooldown := shootCooldown o; maxShootCooldown := maxShootCooldown o; baseShootCooldown := baseShootCooldown o; invulnerable := invulnerable o; invulnerabilityTime := invulnerabilityTime o; maxInvulnerabilityTime := maxInvulnerabilityTime o; hasShield := hasShield o; shieldTime := shieldTime o; hasMultiShot := hasMultiShot o; hasAutoAim := hasAutoAim o; autoAimTime := autoAimTime o; hasRapidFire := v; rapidFireTime := rapidFireTime o |}.
Definition set_rapidFireTime (v : Q) (o : t) : t :=
  {| x := x o; y := y o; width := width o; height := height o; active := active o; speed := speed o; shootCooldown := shootCooldown o; maxShootCooldown := maxShootCooldown o; baseShootCooldown := baseShootCooldown o; invulnerable := invulnerable o; invulnerabilityTime := invulnerabilityTime o; maxInvulnerabilityTime := maxInvulnerabilityTime o; hasShield := hasShield o; shieldTime := shieldTime o; hasMultiShot := hasMultiShot o; hasAutoAim := hasAutoAim o; autoAimTime := autoAimTime o; hasRapidFire := hasRapidFire o; rapidFireTime := v |}.

(** [constructor(x, y)] *)
Definition new (x0 y0 : Q) : t :=
  {| x := x0; y := y0; width := 40; height := 30; active := true;
     speed := 5; shootCooldown := 0;
     maxShootCooldown := 25 # 100; baseShootCooldown := 25 # 100;
     invulnerable := false; invulnerabilityTime := 0;
     maxInvulnerabilityTime := 2;
     hasShield := false; shieldTime := 0; hasMultiShot := false;
     hasAutoAim := false; autoAimTime := 0;
     hasRapidFire := false; rapidFireTime := 0 |}.

(** [update(deltaTime, canvasWidth)] *)
Definition update (deltaTime canvasWidth : Q) (p : t) : t :=
  let p1 :=
    if invulnerable p then
      let q := set_invulnerabilityTime (invulnerabilityTime p - deltaTime) p in
      if Qleb (invulnerabilityTime q) 0 then set_invulnerable false q else q
    else p in
  let p2 :=
    if Qltb 0 (shootCooldown p1)
    then set_shootCooldown (shootCooldown p1 - deltaTime) p1 else p1 in
  let p3 :=
    if hasShield p2 then
      let q := set_shieldTime (shieldTime p2 - deltaTime) p2 in
      if Qleb (shieldTime q) 0 then set_hasShield false q else q
    else p2 in
  let p4 :=
    if hasAutoAim p3 then
      let q := set_autoAimTime (autoAimTime p3 - deltaTime) p3 in
      if Qleb (autoAimTime q) 0 then set_hasAutoAim false q else q
    else p3 in
  let p5 :=
    if hasRapidFire p4 then
      let q := set_rapidFireTime (rapidFireTime p4 - deltaTime) p4 in
      if Qleb (rapidFireTime q) 0
      then set_maxShootCooldown (baseShootCooldown q) (set_hasRapidFire false q)
      else q
    else p4 in
  set_x (Utils.clamp (x p5) 0 (canvasWidth - width p5)) p5.

Definition moveLeft (p : t) : t := set_x (x p - speed p) p.
Definition moveRight (p : t) : t := set_x (x p + speed p) p.
Definition canShoot (p : t) : bool := Qleb (shootCooldown p) 0.

(** [shoot(targetX, targetY)]: the bullets fired, [None] for the [null]
    returned while the cooldown runs, and the player with its cooldown
    reset.  [target] is [None] when either argument is [null]. *)
Definition shoot `{MathLib} (target : option (Q * Q)) (p : t)
    : option (list Bullet.t) * t :=
  if canShoot p then
    let p' := set_shootCooldown (maxShootCooldown p) p in
    let bx := x p' + width p' / 2 - 2 in
    let normal := [Bullet.new bx (y p') 0 (-8) true] in
    let bullets :=
      if hasMultiShot p' then
        [Bullet.new bx (y p') 0 (-8) true;
         Bullet.new bx (y p') (-2) (-8) true;
         Bullet.new bx (y p') 2 (-8) true]
      else if hasAutoAim p' then
        match target with
        | Some (targetX, targetY) =>
            let dx := targetX - (x p' + width p' / 2) in
            let dy := targetY - y p' in
            let angle := Math_atan2 dy dx in
            let speed := 8 in
            [Bullet.new bx (y p') (Math_cos angle * speed) (Math_sin angle * speed) true]
        | None => normal
        end
      else normal in
    (Some bullets, p')
  else (None, p).

(** [activatePowerUp(type, duration)] *)
Definition activatePowerUp (type : PowerUpType) (duration : Q) (p : t) : t :=
  match type with
  | shield => set_shieldTime duration (set_hasShield true p)
  | multi_shot => set_hasMultiShot true p
  | auto_aim => set_autoAimTime duration (set_hasAutoAim true p)
  | rapid_fire =>
      set_maxShootCooldown (1 # 10)
        (set_rapidFireTime duration (set_hasRapidFire true p))
  | life_up | points => p
  end.

(** [takeDamage()]: the value returned and the player afterwards. *)
Definition takeDamage (p : t) : bool * t :=
  if hasShield p then
    (false, set_shieldTime 0 (set_hasShield false p))
  else
    let p1 := if hasMultiShot p then set_hasMultiShot false p else p in
    if negb (invulnerable p1) then
      (true, set_invulnerabilityTime (maxInvulnerabilityTime p1)
               (set_invulnerable true p1))
    else (false, p1).

#[global] Instance entity : Entity t :=
  fun p => Rect.mk (x p) (y p) (width p) (height p).

End Player.

Module Enemy.
Local Open Scope Q_scope.

Record t : Type := mk {
  x : Q;
  y : Q;
  width : Q;
  height : Q;
  active : bool;
  type : EnemyType;
  speed : Q;
  dropSpeed : Q;
  direction : Z;
  points : Z;
  shootFrequency : Q;
  animFrame : Q;
  animSpeed : Q
}.

Definition set_x (v : Q) (o : t) : t :=
  {| x := v; y := y o; width := width o; height := height o; active := active o; type := type o; speed := speed o; dropSpeed := dropSpeed o; direction := direction o; points := points o; shootFrequency := shootFrequency o; animFrame := animFrame o; animSpeed := animSpeed o |}.
Definition set_y (v : Q) (o : t) : t :=
  {| x := x o; y := v; width := width o; height := height o; active := active o; type := type o; speed := speed o; dropSpeed := dropSpeed o; direction := direction o; points := points o; shootFrequency := shootFrequency o; animFrame := animFrame o; animSpeed := animSpeed o |}.
Definition set_width (v : Q) (o : t) : t :=
  {| x := x o; y := y o; width := v; height := height o; active := active o; type := type o; speed := speed o; dropSpeed := dropSpeed o; direction := direction o; points := points o; shootFrequency := shootFrequency o; animFrame := animFrame o; animSpeed := animSpeed o |}.
Definition set_height (v : Q) (o : t) : t :=
  {| x := x o; y := y o; width := width o; height := v; active := active o; type := type o; speed := speed o; dropSpeed := dropSpeed o; direction := direction o; points := points o; shootFrequency := shootFrequency o; animFrame := animFrame o; animSpeed := animSpeed o |}.
Definition set_speed (v : Q) (o : t) : t :=
  {| x := x o; y := y o; width := width o; height := height o; active := active o; type := type o; speed := v; dropSpeed := dropSpeed o; direction := direction o; points := points o; shootFrequency := shootFrequency o; animFrame := animFrame o; animSpeed := animSpeed o |}.
Definition set_dropSpeed (v : Q) (o : t) : t :=
  {| x := x o; y := y o; width := width o; height := height o; active := active o; type := type o; speed := speed o; dropSpeed := v; direction := direction o; points := points o; shootFrequency := shootFrequency o; animFrame := animFrame o; animSpeed := animSpeed o |}.
Definition set_points (v : Z) (o : t) : t :=
  {| x := x o; y := y o; width := width o; height := height o; active := active o; type := type o; speed := speed o; dropSpeed := dropSpeed o; direction := direction o; points := v; shootFrequency := shootFrequency o; animFrame := animFrame o; animSpeed := animSpeed o |}.
Definition set_shootFrequency (v : Q) (o : t) : t :=
  {| x := x o; y := y o; width := width o; height := height o; active := active o; type := type o; speed := speed o; dropSpeed := dropSpeed o; direction := direction o; points := points o; shootFrequency := v; animFrame := animFrame o; animSpeed := animSpeed o |}.
Definition set_animFrame (v : Q) (o : t) : t :=
  {| x := x o; y := y o; width := width o; height := height o; active := active o; type := type o; speed := speed o; dropSpeed := dropSpeed o; direction := direction o; points := points o; shootFrequency := shootFrequency o; animFrame := v; animSpeed := animSpeed o |}.

(** [setTypeProperties()] *)
Definition setTypeProperties (e : t) : t :=
  match type e with
  | basic => set_shootFrequency (5 # 100000) (set_points 10%Z e)
  | fast =>
      let e1 := set_shootFrequency (1 # 10000) (set_points 20%Z e) in
      set_speed (speed e1 * (12 # 10)) e1
  | aggressive =>
      let e1 := set_shootFrequency (15 # 100000) (set_points 30%Z e) in
      set_speed (speed e1 * (11 # 10)) e1
  | boss =>
      set_height 35
        (set_width 40 (set_shootFrequency (3 # 10000) (set_points 50%Z e)))
  end.

(** [constructor(x, y, type)] *)
Definition new (x0 y0 : Q) (ty : EnemyType) : t :=
  setTypeProperties
    {| x := x0; y := y0; width := 30; height := 25; active := true;
       type := ty; speed := 1; dropSpeed := 20; direction := 1%Z;
       points := 10%Z; shootFrequency := 3 # 1000;
       animFrame := 0; animSpeed := 1 # 10 |}.

(** [update(deltaTime)] *)
Definition update (deltaTime : Q) (e : t) : t :=
  set_animFrame (animFrame e + animSpeed e * deltaTime) e.

(** [moveDown()] *)
Definition moveDown (e : t) : t := set_y (y e + dropSpeed e) e.

(** [shouldShoot()], on the draw [r] of [Math.random()]. *)
Definition shouldShoot (r : Q) (e : t) : bool := Qltb r (shootFrequency e).

(** [shoot()] *)
Definition shoot (e : t) : Bullet.t :=
  Bullet.new (x e + width e / 2 - 2) (y e + height e) 0 3 false.

#[global] Instance entity : Entity t :=
  fun e => Rect.mk (x e) (y e) (width e) (height e).

End Enemy.

Module PowerUp.
Local Open Scope Q_scope.

Record t : Type := mk {
  x : Q;
  y : Q;
  width : Q;
  height : Q;
  active : bool;
  type : option PowerUpType;
  vy : Q;
  animFrame : Q;
  animSpeed : Q;
  lifetime : Q;
  duration : Q
}.

Definition set_y (v : Q) (o : t) : t :=
  {| x := x o; y := v; width := width o; height := height o; active := active o; type := type o; vy := vy o; animFrame := animFrame o; animSpeed := animSpeed o; lifetime := lifetime o; duration := duration o |}.
Definition set_active (v : bool) (o : t) : t :=
  {| x := x o; y := y o; width := width o; height := height o; active := v; type := type o; vy := vy o; animFrame := animFrame o; animSpeed := animSpeed o; lifetime := lifetime o; duration := duration o |}.
Definition set_animFrame (v : Q) (o : t) : t :=
  {| x := x o; y := y o; width := width o; height := height o; active := active o; type := type o; vy := vy o; animFrame := v; animSpeed := animSpeed o; lifetime := lifetime o; duration := duration o |}.
Definition set_lifetime (v : Q) (o : t) : t :=
  {| x := x o; y := y o; width := width o; height := height o; active := active o; type := type o; vy := vy o; animFrame := animFrame o; animSpeed := animSpeed o; lifetime := v; duration := duration o |}.
Definition set_duration (v : Q) (o : t) : t :=
  {| x := x o; y := y o; width := width o; height := height o; active := active o; type := type o; vy := vy o; animFrame := animFrame o; animSpeed := animSpeed o; lifetime := lifetime o; duration := v |}.

(** [setPowerUpProperties()] *)
Definition setPowerUpProperties (u : t) : t :=
  match type u with
  | Some rapid_fire => set_duration 8 u
  | Some shield => set_duration 10 u
  | Some multi_shot => set_duration 0 u
  | Some auto_aim => set_duration 12 u
  | Some life_up => set_duration 0 u
  | Some points => set_duration 0 u
  | None => u
  end.

(** [constructor(x, y, type)].  [type] is [None] for [undefined], the
    value of an array read out of range; [duration], which the
    constructor leaves to [setPowerUpProperties], then stays unset (here
    0, and never read). *)
Definition new (x0 y0 : Q) (ty : option PowerUpType) : t :=
  setPowerUpProperties
    {| x := x0; y := y0; width := 25; height := 25; active := true;
       type := ty; vy := 2; animFrame := 0; animSpeed := 5 # 100;
       lifetime := 10; duration := 0 |}.

(** [update(deltaTime, canvasHeight)] *)
Definition update (deltaTime canvasHeight : Q) (u : t) : t :=
  let u1 := set_y (y u + vy u) u in
  let u2 := set_animFrame (animFrame u1 + animSpeed u1 * deltaTime) u1 in
  let u3 := set_lifetime (lifetime u2 - deltaTime) u2 in
  if Qltb canvasHeight (y u3) || Qleb (lifetime u3) 0
  then set_active false u3 else u3.

#[global] Instance entity : Entity t :=
  fun u => Rect.mk (x u) (y u) (width u) (height u).

End PowerUp.

(** One element of [this.blocks] of a wall: [{x, y, active}], in
    wall-local coordinates. *)
Module Block.

Record t : Type := mk { x : Q; y : Q; active : bool }.

End Block.

Module Wall.
Local Open Scope Q_scope.

Record t : Type := mk {
  x : Q;
  y : Q;
  width : Q;
  height : Q;
  active : bool;
  maxHealth : Z;
  health : Z;
  blockSize : Q;
  blocks : list Block.t
}.

Definition set_active (v : bool) (o : t) : t :=
  {| x := x o; y := y o; width := width o; height := height o; active := v; maxHealth := maxHealth o; health := health o; blockSize := blockSize o; blocks := blocks o |}.
Definition set_health (v : Z) (o : t) : t :=
  {| x := x o; y := y o; width := width o; height := height o; active := active o; maxHealth := maxHealth o; health := v; blockSize := blockSize o; blocks := blocks o |}.
Definition set_blocks (v : list Block.t) (o : t) : t :=
  {| x := x o; y := y o; width := width o; height := height o; active := active o; maxHealth := maxHealth o; health := health o; blockSize := blockSize o; blocks := v |}.

(** [createBlocks()]: row by row, [cols] blocks a row. *)
Definition createBlocks (width0 height0 blockSize0 : Q) : list Block.t :=
  let cols := floor_nat (width0 / blockSize0) in
  let rows := floor_nat (height0 / blockSize0) in
  flat_map (fun row =>
    map (fun col =>
      Block.mk (inject_Z (Z.of_nat col) * blockSize0)
              (inject_Z (Z.of_nat row) * blockSize0) true)
      (seq 0 cols))
    (seq 0 rows).

(** [constructor(x, y, width, height, health)], called with all five
    arguments. *)
Definition new (x0 y0 width0 height0 : Q) (health0 : Z) : t :=
  {| x := x0; y := y0; width := width0; height := height0; active := true;
     maxHealth := health0; health := health0; blockSize := 4;
     blocks := createBlocks width0 height0 4 |}.

(** [Math.sqrt(Math.pow(dx, 2) + Math.pow(dy, 2)) < radius].  A square
    root is below [radius] exactly when [radius] is positive and the sum
    of squares is below its square, which is how the test is written
    here. *)
Definition distanceBelow (dx dy radius : Q) : bool :=
  Qltb 0 radius && Qltb (dx * dx + dy * dy) (radius * radius).

(** The test of the [forEach] body of [takeDamage] on a live block. *)
Definition inImpact (blockSize0 localX localY impactRadius : Q) (b : Block.t) : bool :=
  let blockCenterX := Block.x b + blockSize0 / 2 in
  let blockCenterY := Block.y b + blockSize0 / 2 in
  distanceBelow (blockCenterX - localX) (blockCenterY - localY) impactRadius.

(** The [forEach] of [takeDamage]: the blocks afterwards and
    [blocksDestroyed]. *)
Fixpoint damageBlocks (blockSize0 localX localY impactRadius : Q)
    (bs : list Block.t) : list Block.t * Z :=
  match bs with
  | [] => ([], 0%Z)
  | b :: rest =>
      let (rest', destroyed) :=
        damageBlocks blockSize0 localX localY impactRadius rest in
      if negb (Block.active b) then (b :: rest', destroyed)
      else if inImpact blockSize0 localX localY impactRadius b
           then (Block.mk (Block.x b) (Block.y b) false :: rest', (destroyed + 1)%Z)
           else (b :: rest', destroyed)
  end.

(** [takeDamage(bulletX, bulletY, isPlayerBullet)]: the value returned
    and the wall afterwards. *)
Definition takeDamage (bulletX bulletY : Q) (isPlayerBullet : bool) (w : t)
    : bool * t :=
  if (health w <=? 0)%Z then (false, set_active false w)
  else
    let impactRadius := if isPlayerBullet then 6 else 8 in
    let localX := bulletX - x w in
    let localY := bulletY - y w in
    let (blocks', blocksDestroyed) :=
      damageBlocks (blockSize w) localX localY impactRadius (blocks w) in
    let w1 := set_blocks blocks' w in
    if (0 <? blocksDestroyed)%Z then
      let w2 := set_health (Z.max 0 (health w1 - 1)) w1 in
      let activeBlocks := length (List.filter Block.active (blocks w2)) in
      let w3 :=
        if (activeBlocks =? 0)%nat || (health w2 <=? 0)%Z
        then set_active false w2 else w2 in
      (true, w3)
    else (false, w1).

#[global] Instance entity : Entity t :=
  fun w => Rect.mk (x w) (y w) (width w) (height w).

End Wall.

(** [class Explosion]; the colours are left out. *)
Module Explosion.
Local Open Scope Q_scope.

Record t : Type := mk {
  x : Q;
  y : Q;
  size : Q;
  maxSize : Q;
  duration : Q;
  time : Q;
  active : bool;
  particles : list Particle.t
}.

(** The loop of the constructor, from particle [i] on, [todo] particles
    to go: every particle takes three draws, for its speed, its colour
    and its size. *)
Fixpoint burst `{MathLib} `{MathPI} (draw : nat -> Q) (cursor : nat)
    (x0 y0 : Q) (i : nat) (todo : nat) : list Particle.t :=
  match todo with
  | O => []
  | S n =>
      let angle := inject_Z (Z.of_nat i) / 12 * Math_PI * 2 in
      let speed := Utils.random (draw cursor) 2 5 in
      Particle.new x0 y0 (Math_cos angle * speed) (Math_sin angle * speed)
        (inject_Z (Utils.randomInt (draw (cursor + 2)%nat) 3 6)) 1
      :: burst draw (cursor + 3)%nat x0 y0 (S i) n
  end.

(** [constructor(x, y, size, duration)] *)
Definition new `{MathLib} `{MathPI} (draw : nat -> Q) (cursor : nat)
    (x0 y0 size0 duration0 : Q) : t :=
  {| x := x0; y := y0; size := size0; maxSize := size0;
     duration := duration0; time := 0; active := true;
     particles := burst draw cursor x0 y0 0 12 |}.

(** [update(deltaTime)] *)
Definition update (deltaTime : Q) (e : t) : t :=
  let time1 := time e + deltaTime in
  if Qleb (duration e) time1 then
    {| x := x e; y := y e; size := size e; maxSize := maxSize e;
       duration := duration e; time := time1; active := false;
       particles := particles e |}
  else
    let particles1 :=
      List.filter Particle.active
        (map (Particle.update deltaTime) (particles e)) in
    let progress := time1 / duration e in
    {| x := x e; y := y e; size := maxSize e * (1 - progress);
       maxSize := maxSize e; duration := duration e; time := time1;
       active := active e; particles := particles1 |}.

End Explosion.

(** The filters of [updateEffects] on [this.particles] and
    [this.explosions], two arrays that the record of the game below
    does not carry. *)
Definition updateParticles (deltaTime : Q) (particles : list Particle.t)
    : list Particle.t :=
  List.filter Particle.active (map (Particle.update deltaTime) particles).

Definition updateExplosions (deltaTime : Q) (explosions : list Explosion.t)
    : list Explosion.t :=
  List.filter Explosion.active (map (Explosion.update deltaTime) explosions).

(** ** game.js *)

(** [e.code] of a keyboard event, for the keys the game reads. *)
Inductive KeyCode : Type :=
  | ArrowLeft | ArrowRight | KeyA | KeyD | Space | KeyP | KeyR | OtherKey.

#[global] Instance KeyCode_eq_dec : EqDecision KeyCode.
Proof. solve_decision. Defined.

Module Game.
Local Open Scope Q_scope.

(** The fields of [SpaceInvadersGame] that the simulation reads.
    [canvasWidth] and [canvasHeight] stand for [this.canvas.width] and
    [this.canvas.height], the three [touch] flags for the fields of
    [this.touchControls], and [levelData] is [None] while it is [null],
    before the first level is loaded.  Code that reads a field of a
    [null] level would throw; it never runs then (lemma
    [reachable_levelData]) and the embedding leaves the game as it is
    there.  [randomSource] and [randomCursor] are the oracle of
    [Math.random()]. *)
Record t : Type := mk {
  canvasWidth : Q;
  canvasHeight : Q;
  gameState : GameState;
  player : Player.t;
  enemies : list Enemy.t;
  bullets : list Bullet.t;
  enemyBullets : list Bullet.t;
  powerUps : list PowerUp.t;
  walls : list Wall.t;
  score : Z;
  lives : Z;
  currentLevel : Z;
  levelData : option Level.t;
  enemiesKilled : Z;
  totalEnemies : Z;
  keys : KeyCode -> bool;
  touchLeft : bool;
  touchRight : bool;
  touchFire : bool;
  lastTime : Q;
  enemyMoveTimer : Q;
  enemyMoveInterval : Q;
  enemyDirection : Z;
  randomSource : nat -> Q;
  randomCursor : nat
}.

Definition set_gameState (v : GameState) (o : t) : t :=
  {| canvasWidth := canvasWidth o; canvasHeight := canvasHeight o; gameState := v; player := player o; enemies := enemies o; bullets := bullets o; enemyBullets := enemyBullets o; powerUps := powerUps o; walls := walls o; score := score o; lives := lives o; currentLevel := currentLevel o; levelData := levelData o; enemiesKilled := enemiesKilled o; totalEnemies := totalEnemies o; keys := keys o; touchLeft := touchLeft o; touchRight := touchRight o; touchFire := touchFire o; lastTime := lastTime o; enemyMoveTimer := enemyMoveTimer o; enemyMoveInterval := enemyMoveInterval o; enemyDirection := enemyDirection o; randomSource := randomSource o; randomCursor := randomCursor o |}.
Definition set_player (v : Player.t) (o : t) : t :=
  {| canvasWidth := canvasWidth o; canvasHeight := canvasHeight o; gameState := gameState o; player := v; enemies := enemies o; bullets := bullets o; enemyBullets := enemyBullets o; powerUps := powerUps o; walls := walls o; score := score o; lives := lives o; currentLevel := currentLevel o; levelData := levelData o; enemiesKilled := enemiesKilled o; totalEnemies := totalEnemies o; keys := keys o; touchLeft := touchLeft o; touchRight := touchRight o; touchFire := touchFire o; lastTime := lastTime o; enemyMoveTimer := enemyMoveTimer o; enemyMoveInterval := enemyMoveInterval o; enemyDirection := enemyDirection o; randomSource := randomSource o; randomCursor := randomCursor o |}.
Definition set_enemies (v : list Enemy.t) (o : t) : t :=
  {| canvasWidth := canvasWidth o; canvasHeight := canvasHeight o; gameState := gameState o; player := player o; enemies := v; bullets := bullets o; enemyBullets := enemyBullets o; powerUps := powerUps o; walls := walls o; score := score o; lives := lives o; currentLevel := currentLevel o; levelData := levelData o; enemiesKilled := enemiesKilled o; totalEnemies := totalEnemies o; keys := keys o; touchLeft := touchLeft o; touchRight := touchRight o; touchFire := touchFire o; lastTime := lastTime o; enemyMoveTimer := enemyMoveTimer o; enemyMoveInterval := enemyMoveInterval o; enemyDirection := enemyDirection o; randomSource := randomSource o; randomCursor := randomCursor o |}.
Definition set_bullets (v : list Bullet.t) (o : t) : t :=
  {| canvasWidth := canvasWidth o; canvasHeight := canvasHeight o; gameState := gameState o; player := player o; enemies := enemies o; bullets := v; enemyBullets := enemyBullets o; powerUps := powerUps o; walls := walls o; score := score o; lives := lives o; currentLevel := currentLevel o; levelData := levelData o; enemiesKilled := enemiesKilled o; totalEnemies := totalEnemies o; keys := keys o; touchLeft := touchLeft o; touchRight := touchRight o; touchFire := touchFire o; lastTime := lastTime o; enemyMoveTimer := enemyMoveTimer o; enemyMoveInterval := enemyMoveInterval o; enemyDirection := enemyDirection o; randomSource := randomSource o; randomCursor := randomCursor o |}.
Definition set_enemyBullets (v : list Bullet.t) (o : t) : t :=
  {| canvasWidth := canvasWidth o; canvasHeight := canvasHeight o; gameState := gameState o; player := player o; enemies := enemies o; bullets := bullets o; enemyBullets := v; powerUps := powerUps o; walls := walls o; score := score o; lives := lives o; currentLevel := currentLevel o; levelData := levelData o; enemiesKilled := enemiesKilled o; totalEnemies := totalEnemies o; keys := keys o; touchLeft := touchLeft o; touchRight := touchRight o; touchFire := touchFire o; lastTime := lastTime o; enemyMoveTimer := enemyMoveTimer o; enemyMoveInterval := enemyMoveInterval o; enemyDirection := enemyDirection o; randomSource := randomSource o; randomCursor := randomCursor o |}.
Definition set_powerUps (v : list PowerUp.t) (o : t) : t :=
  {| canvasWidth := canvasWidth o; canvasHeight := canvasHeight o; gameState := gameState o; player := player o; enemies := enemies o; bullets := bullets o; enemyBullets := enemyBullets o; powerUps := v; walls := walls o; score := score o; lives := lives o; currentLevel := currentLevel o; levelData := levelData o; enemiesKilled := enemiesKilled o; totalEnemies := totalEnemies o; keys := keys o; touchLeft := touchLeft o; touchRight := touchRight o; touchFire := touchFire o; lastTime := lastTime o; enemyMoveTimer := enemyMoveTimer o; enemyMoveInterval := enemyMoveInterval o; enemyDirection := enemyDirection o; randomSource := randomSource o; randomCursor := randomCursor o |}.
Definition set_walls (v : list Wall.t) (o : t) : t :=
  {| canvasWidth := canvasWidth o; canvasHeight := canvasHeight o; gameState := gameState o; player := player o; enemies := enemies o; bullets := bullets o; enemyBullets := enemyBullets o; powerUps := powerUps o; walls := v; score := score o; lives := lives o; currentLevel := currentLevel o; levelData := levelData o; enemiesKilled := enemiesKilled o; totalEnemies := totalEnemies o; keys := keys o; touchLeft := touchLeft o; touchRight := touchRight o; touchFire := touchFire o; lastTime := lastTime o; enemyMoveTimer := enemyMoveTimer o; enemyMoveInterval := enemyMoveInterval o; enemyDirection := enemyDirection o; randomSource := randomSource o; randomCursor := randomCursor o |}.
Definition set_score (v : Z) (o : t) : t :=
  {| canvasWidth := canvasWidth o; canvasHeight := canvasHeight o; gameState := gameState o; player := player o; enemies := enemies o; bullets := bullets o; enemyBullets := enemyBullets o; powerUps := powerUps o; walls := walls o; score := v; lives := lives o; currentLevel := currentLevel o; levelData := levelData o; enemiesKilled := enemiesKilled o; totalEnemies := totalEnemies o; keys := keys o; touchLeft := touchLeft o; touchRight := touchRight o; touchFire := touchFire o; lastTime := lastTime o; enemyMoveTimer := enemyMoveTimer o; enemyMoveInterval := enemyMoveInterval o; enemyDirection := enemyDirection o; randomSource := randomSource o; randomCursor := randomCursor o |}.
Definition set_lives (v : Z) (o : t) : t :=
  {| canvasWidth := canvasWidth o; canvasHeight := canvasHeight o; gameState := gameState o; player := player o; enemies := enemies o; bullets := bullets o; enemyBullets := enemyBullets o; powerUps := powerUps o; walls := walls o; score := score o; lives := v; currentLevel := currentLevel o; levelData := levelData o; enemiesKilled := enemiesKilled o; totalEnemies := totalEnemies o; keys := keys o; touchLeft := touchLeft o; touchRight := touchRight o; touchFire := touchFire o; lastTime := lastTime o; enemyMoveTimer := enemyMoveTimer o; enemyMoveInterval := enemyMoveInterval o; enemyDirection := enemyDirection o; randomSource := randomSource o; randomCursor := randomCursor o |}.
Definition set_currentLevel (v : Z) (o : t) : t :=
  {| canvasWidth := canvasWidth o; canvasHeight := canvasHeight o; gameState := gameState o; player := player o; enemies := enemies o; bullets := bullets o; enemyBullets := enemyBullets o; powerUps := powerUps o; walls := walls o; score := score o; lives := lives o; currentLevel := v; levelData := levelData o; enemiesKilled := enemiesKilled o; totalEnemies := totalEnemies o; keys := keys o; touchLeft := touchLeft o; touchRight := touchRight o; touchFire := touchFire o; lastTime := lastTime o; enemyMoveTimer := enemyMoveTimer o; enemyMoveInterval := enemyMoveInterval o; enemyDirection := enemyDirection o; randomSource := randomSource o; randomCursor := randomCursor o |}.
Definition set_levelData (v : option Level.t) (o : t) : t :=
  {| canvasWidth := canvasWidth o; canvasHeight := canvasHeight o; gameState := gameState o; player := player o; enemies := enemies o; bullets := bullets o; enemyBullets := enemyBullets o; powerUps := powerUps o; walls := walls o; score := score o; lives := lives o; currentLevel := currentLevel o; levelData := v; enemiesKilled := enemiesKilled o; totalEnemies := totalEnemies o; keys := keys o; touchLeft := touchLeft o; touchRight := touchRight o; touchFire := touchFire o; lastTime := lastTime o; enemyMoveTimer := enemyMoveTimer o; enemyMoveInterval := enemyMoveInterval o; enemyDirection := enemyDirection o; randomSource := randomSource o; randomCursor := randomCursor o |}.
Definition set_enemiesKilled (v : Z) (o : t) : t :=
  {| canvasWidth := canvasWidth o; canvasHeight := canvasHeight o; gameState := gameState o; player := player o; enemies := enemies o; bullets := bullets o; enemyBullets := enemyBullets o; powerUps := powerUps o; walls := walls o; score := score o; lives := lives o; currentLevel := currentLevel o; levelData := levelData o; enemiesKilled := v; totalEnemies := totalEnemies o; keys := keys o; touchLeft := touchLeft o; touchRight := touchRight o; touchFire := touchFire o; lastTime := lastTime o; enemyMoveTimer := enemyMoveTimer o; enemyMoveInterval := enemyMoveInterval o; enemyDirection := enemyDirection o; randomSource := randomSource o; randomCursor := randomCursor o |}.
Definition set_totalEnemies (v : Z) (o : t) : t :=
  {| canvasWidth := canvasWidth o; canvasHeight := canvasHeight o; gameState := gameState o; player := player o; enemies := enemies o; bullets := bullets o; enemyBullets := enemyBullets o; powerUps := powerUps o; walls := walls o; score := score o; lives := lives o; currentLevel := currentLevel o; levelData := levelData o; enemiesKilled := enemiesKilled o; totalEnemies := v; keys := keys o; touchLeft := touchLeft o; touchRight := touchRight o; touchFire := touchFire o; lastTime := lastTime o; enemyMoveTimer := enemyMoveTimer o; enemyMoveInterval := enemyMoveInterval o; enemyDirection := enemyDirection o; randomSource := randomSource o; randomCursor := randomCursor o |}.
Definition set_keys (v : KeyCode -> bool) (o : t) : t :=
  {| canvasWidth := canvasWidth o; canvasHeight := canvasHeight o; gameState := gameState o; player := player o; enemies := enemies o; bullets := bullets o; enemyBullets := enemyBullets o; powerUps := powerUps o; walls := walls o; score := score o; lives := lives o; currentLevel := currentLevel o; levelData := levelData o; enemiesKilled := enemiesKilled o; totalEnemies := totalEnemies o; keys := v; touchLeft := touchLeft o; touchRight := touchRight o; touchFire := touchFire o; lastTime := lastTime o; enemyMoveTimer := enemyMoveTimer o; enemyMoveInterval := enemyMoveInterval o; enemyDirection := enemyDirection o; randomSource := randomSource o; randomCursor := randomCursor o |}.
Definition set_touchLeft (v : bool) (o : t) : t :=
  {| canvasWidth := canvasWidth o; canvasHeight := canvasHeight o; gameState := gameState o; player := player o; enemies := enemies o; bullets := bullets o; enemyBullets := enemyBullets o; powerUps := powerUps o; walls := walls o; score := score o; lives := lives o; currentLevel := currentLevel o; levelData := levelData o; enemiesKilled := enemiesKilled o; totalEnemies := totalEnemies o; keys := keys o; touchLeft := v; touchRight := touchRight o; touchFire := touchFire o; lastTime := lastTime o; enemyMoveTimer := enemyMoveTimer o; enemyMoveInterval := enemyMoveInterval o; enemyDirection := enemyDirection o; randomSource := randomSource o; randomCursor := randomCursor o |}.
Definition set_touchRight (v : bool) (o : t) : t :=
  {| canvasWidth := canvasWidth o; canvasHeight := canvasHeight o; gameState := gameState o; player := player o; enemies := enemies o; bullets := bullets o; enemyBullets := enemyBullets o; powerUps := powerUps o; walls := walls o; score := score o; lives := lives o; currentLevel := currentLevel o; levelData := levelData o; enemiesKilled := enemiesKilled o; totalEnemies := totalEnemies o; keys := keys o; touchLeft := touchLeft o; touchRight := v; touchFire := touchFire o; lastTime := lastTime o; enemyMoveTimer := enemyMoveTimer o; enemyMoveInterval := enemyMoveInterval o; enemyDirection := enemyDirection o; randomSource := randomSource o; randomCursor := randomCursor o |}.
Definition set_touchFire (v : bool) (o : t) : t :=
  {| canvasWidth := canvasWidth o; canvasHeight := canvasHeight o; gameState := gameState o; player := player o; enemies := enemies o; bullets := bullets o; enemyBullets := enemyBullets o; powerUps := powerUps o; walls := walls o; score := score o; lives := lives o; currentLevel := currentLevel o; levelData := levelData o; enemiesKilled := enemiesKilled o; totalEnemies := totalEnemies o; keys := keys o; touchLeft := touchLeft o; touchRight := touchRight o; touchFire := v; lastTime := lastTime o; enemyMoveTimer := enemyMoveTimer o; enemyMoveInterval := enemyMoveInterval o; enemyDirection := enemyDirection o; randomSource := randomSource o; randomCursor := randomCursor o |}.
Definition set_lastTime (v : Q) (o : t) : t :=
  {| canvasWidth := canvasWidth o; canvasHeight := canvasHeight o; gameState := gameState o; player := player o; enemies := enemies o; bullets := bullets o; enemyBullets := enemyBullets o; powerUps := powerUps o; walls := walls o; score := score o; lives := lives o; currentLevel := currentLevel o; levelData := levelData o; enemiesKilled := enemiesKilled o; totalEnemies := totalEnemies o; keys := keys o; touchLeft := touchLeft o; touchRight := touchRight o; touchFire := touchFire o; lastTime := v; enemyMoveTimer := enemyMoveTimer o; enemyMoveInterval := enemyMoveInterval o; enemyDirection := enemyDirection o; randomSource := randomSource o; randomCursor := randomCursor o |}.
Definition set_enemyMoveTimer (v : Q) (o : t) : t :=
  {| canvasWidth := canvasWidth o; canvasHeight := canvasHeight o; gameState := gameState o; player := player o; enemies := enemies o; bullets := bullets o; enemyBullets := enemyBullets o; powerUps := powerUps o; walls := walls o; score := score o; lives := lives o; currentLevel := currentLevel o; levelData := levelData o; enemiesKilled := enemiesKilled o; totalEnemies := totalEnemies o; keys := keys o; touchLeft := touchLeft o; touchRight := touchRight o; touchFire := touchFire o; lastTime := lastTime o; enemyMoveTimer := v; enemyMoveInterval := enemyMoveInterval o; enemyDirection := enemyDirection o; randomSource := randomSource o; randomCursor := randomCursor o |}.
Definition set_enemyMoveInterval (v : Q) (o : t) : t :=
  {| canvasWidth := canvasWidth o; canvasHeight := canvasHeight o; gameState := gameState o; player := player o; enemies := enemies o; bullets := bullets o; enemyBullets := enemyBullets o; powerUps := powerUps o; walls := walls o; score := score o; lives := lives o; currentLevel := currentLevel o; levelData := levelData o; enemiesKilled := enemiesKilled o; totalEnemies := totalEnemies o; keys := keys o; touchLeft := touchLeft o; touchRight := touchRight o; touchFire := touchFire o; lastTime := lastTime o; enemyMoveTimer := enemyMoveTimer o; enemyMoveInterval := v; enemyDirection := enemyDirection o; randomSource := randomSource o; randomCursor := randomCursor o |}.
Definition set_enemyDirection (v : Z) (o : t) : t :=
  {| canvasWidth := canvasWidth o; canvasHeight := canvasHeight o; gameState := gameState o; player := player o; enemies := enemies o; bullets := bullets o; enemyBullets := enemyBullets o; powerUps := powerUps o; walls := walls o; score := score o; lives := lives o; currentLevel := currentLevel o; levelData := levelData o; enemiesKilled := enemiesKilled o; totalEnemies := totalEnemies o; keys := keys o; touchLeft := touchLeft o; touchRight := touchRight o; touchFire := touchFire o; lastTime := lastTime o; enemyMoveTimer := enemyMoveTimer o; enemyMoveInterval := enemyMoveInterval o; enemyDirection := v; randomSource := randomSource o; randomCursor := randomCursor o |}.
Definition set_randomCursor (v : nat) (o : t) : t :=
  {| canvasWidth := canvasWidth o; canvasHeight := canvasHeight o; gameState := gameState o; player := player o; enemies := enemies o; bullets := bullets o; enemyBullets := enemyBullets o; powerUps := powerUps o; walls := walls o; score := score o; lives := lives o; currentLevel := currentLevel o; levelData := levelData o; enemiesKilled := enemiesKilled o; totalEnemies := totalEnemies o; keys := keys o; touchLeft := touchLeft o; touchRight := touchRight o; touchFire := touchFire o; lastTime := lastTime o; enemyMoveTimer := enemyMoveTimer o; enemyMoveInterval := enemyMoveInterval o; enemyDirection := enemyDirection o; randomSource := randomSource o; randomCursor := v |}.

(** [Math.random()]: the next draw, and the game with the cursor moved. *)
Definition Math_random (g : t) : Q * t :=
  (randomSource g (randomCursor g), set_randomCursor (S (randomCursor g)) g).

(** *** Levels *)

(** [createEnemies()] *)
Definition createEnemies (g : t) : t :=
  match levelData g with
  | None => g
  | Some ld =>
      let enemySpacing := 50 in
      let startX := 50 in
      let startY := 80 in
      let created :=
        flat_map (fun row =>
          map (fun col =>
            let x := startX + inject_Z (Z.of_nat col) * enemySpacing in
            let y := startY + inject_Z (Z.of_nat row) * enemySpacing in
            let enemy := Enemy.new x y (Level.enemyType ld) in
            Enemy.set_points (Level.pointsPerEnemy ld)
              (Enemy.set_shootFrequency (Level.enemyBulletFrequency ld)
                (Enemy.set_dropSpeed (Level.enemyDropSpeed ld)
                  (Enemy.set_speed (Level.enemySpeed ld) enemy))))
            (seq 0 (Z.to_nat (Level.enemyCols ld))))
          (seq 0 (Z.to_nat (Level.enemyRows ld))) in
      let g1 := set_enemies created g in
      let g2 := set_totalEnemies (Z.of_nat (length (enemies g1))) g1 in
      let g3 := set_enemiesKilled 0%Z g2 in
      let g4 := set_enemyDirection (Level.enemyMoveDirection ld) g3 in
      set_enemyMoveInterval
        (Math_max (3 # 10) ((15 # 10) - inject_Z (currentLevel g4) * (1 # 10))) g4
  end.

(** [createWalls()] *)
Definition createWalls (g : t) : t :=
  match levelData g with
  | None => g
  | Some ld =>
      let wallConfig :=
        match Level.walls ld with
        | Some c => c
        | None =>
            {| WallConfig.count := 4; WallConfig.width := 80;
               WallConfig.height := 60; WallConfig.health := 5;
               WallConfig.yPosition := canvasHeight g - 150 |}
        end in
      let count := WallConfig.count wallConfig in
      let width := WallConfig.width wallConfig in
      let totalWidth := inject_Z count * width in
      let spacing := (canvasWidth g - totalWidth) / (inject_Z count + 1) in
      set_walls
        (map (fun i =>
           let x := spacing + inject_Z (Z.of_nat i) * (width + spacing) in
           let y := WallConfig.yPosition wallConfig in
           Wall.new x y width (WallConfig.height wallConfig)
             (WallConfig.health wallConfig))
           (seq 0 (Z.to_nat count)))
        g
  end.

(** The literal of the [catch] block of [loadLevel]. *)
Definition defaultLevelData (levelNumber : Z) : Level.t :=
  {| Level.level := levelNumber; Level.enemyCount := 15;
     Level.enemySpeed := 1; Level.enemyDropSpeed := 20;
     Level.enemyBulletSpeed := 2;
     Level.enemyBulletFrequency := 5 # 100000;
     Level.enemyMoveDirection := 1;
     Level.enemyRows := 3; Level.enemyCols := 5;
     Level.pointsPerEnemy := 10; Level.enemyType := basic;
     Level.generatedBy := Some "fallback"%string;
     Level.walls := None |}.

(** The body of [loadLevel(levelNumber)] from the [await] on: [fetched]
    is what awaiting [Utils.fetchLevelData] gave.  With level data that
    has no [specialMechanics], [applyAIEnhancements] returns at once. *)
Definition loadLevelFrom (levelNumber : Z) (fetched : Awaited Level.t) (g : t) : t :=
  match fetched with
  | resolved data => createWalls (createEnemies (set_levelData (Some data) g))
  | rejected =>
      createWalls (createEnemies
        (set_levelData (Some (defaultLevelData levelNumber)) g))
  end.

(** [async loadLevel(levelNumber)], on what the network answers. *)
Definition loadLevel (levelNumber : Z) (response : Response) (g : t) : t :=
  loadLevelFrom levelNumber (Utils.fetchLevelData levelNumber response) g.

(** *** Construction *)

(** [constructor(canvas)], with the player that [initializeGame] creates
    before its first [await]. *)
Definition new (width height : Q) (random : nat -> Q) : t :=
  {| canvasWidth := width; canvasHeight := height; gameState := menu;
     player := Player.new (width / 2 - 20) (height - 50);
     enemies := []; bullets := []; enemyBullets := []; powerUps := [];
     walls := [];
     score := 0; lives := 3; currentLevel := 1; levelData := None;
     enemiesKilled := 0; totalEnemies := 0;
     keys := fun _ => false;
     touchLeft := false; touchRight := false; touchFire := false;
     lastTime := 0; enemyMoveTimer := 0; enemyMoveInterval := 1;
     enemyDirection := 1;
     randomSource := random; randomCursor := 0 |}.

(** [async initializeGame()], up to the start of the game loop. *)
Definition initializeGame (response : Response) (g : t) : t :=
  loadLevel (currentLevel g) response g.

(** *** State changes *)

(** [resetGame()]; the [loadLevel] it starts completes later, as an
    event of its own. *)
Definition resetGame (g : t) : t :=
  let g1 := set_currentLevel 1%Z (set_lives 3%Z (set_score 0%Z g)) in
  let g2 :=
    set_walls [] (set_powerUps [] (set_enemyBullets [] (set_bullets [] g1))) in
  set_player
    (Player.new (canvasWidth g2 / 2 - 20) (canvasHeight g2 - 50)) g2.

Definition startGame (g : t) : t := resetGame (set_gameState playing g).
Definition pauseGame (g : t) : t := set_gameState paused g.
Definition restartGame (g : t) : t := resetGame (set_gameState playing g).

Definition togglePause (g : t) : t :=
  match gameState g with
  | playing => pauseGame g
  | paused => set_gameState playing g
  | _ => g
  end.

(** [levelComplete()] and [gameOver()]; the plain names are those of the
    states. *)
Definition levelComplete_ (g : t) : t :=
  set_currentLevel (currentLevel g + 1)%Z (set_gameState levelComplete g).

Definition gameOver_ (g : t) : t := set_gameState gameOver g.

(** [checkGameConditions()] *)
Definition checkGameConditions (g : t) : t :=
  if (lives g <=? 0)%Z && negb (bool_decide (gameState g = gameOver))
  then gameOver_ g
  else if (length (enemies g) =? 0)%nat && bool_decide (gameState g = playing)
       then levelComplete_ g
       else g.

(** [async handleOverlayAction()], up to its [await].  In the
    [levelComplete] case the call of [loadLevel] runs as far as the
    request of the level, which changes no field, and the function
    yields; the overlay stays in place and other events are handled
    until the level arrives. *)
Definition handleOverlayAction (g : t) : t :=
  match gameState g with
  | paused => togglePause g
  | levelComplete => g
  | gameOver => restartGame g
  | _ => startGame g
  end.

(** What [handleOverlayAction()] runs once the level that it awaits in
    the [levelComplete] case has arrived: the rest of [loadLevel], then
    [this.gameState = 'playing'], whatever the state has become in
    between. *)
Definition handleOverlayAction_resumed (levelNumber : Z)
    (response : Response) (g : t) : t :=
  set_gameState playing (loadLevel levelNumber response g).

(** *** Input *)

Inductive TouchButton : Type := leftBtn | rightBtn | fireBtn.

(** [playerShoot()] *)
Definition playerShoot `{MathLib} (g : t) : t :=
  let target :=
    if Player.hasAutoAim (player g) && (0 <? length (enemies g))%nat then
      let playerCenter := Player.x (player g) + Player.width (player g) / 2 in
      let closest :=
        fold_left (fun (found : option (Q * Enemy.t)) enemy =>
          let dist := Qabs (Enemy.x enemy + Enemy.width enemy / 2 - playerCenter) in
          match found with
          | None => Some (dist, enemy)
          | Some (minDist, _) =>
              if Qltb dist minDist then Some (dist, enemy) else found
          end) (enemies g) None in
      match closest with
      | Some (_, closestEnemy) =>
          Some (Enemy.x closestEnemy + Enemy.width closestEnemy / 2,
                Enemy.y closestEnemy + Enemy.height closestEnemy / 2)
      | None => None
      end
    else None in
  match Player.shoot target (player g) with
  | (Some fired, p') => set_bullets (bullets g ++ fired) (set_player p' g)
  | (None, p') => set_player p' g
  end.

(** [handleInput()] *)
Definition handleInput `{MathLib} (g : t) : t :=
  let g1 :=
    if keys g ArrowLeft || keys g KeyA || touchLeft g
    then set_player (Player.moveLeft (player g)) g else g in
  let g2 :=
    if keys g1 ArrowRight || keys g1 KeyD || touchRight g1
    then set_player (Player.moveRight (player g1)) g1 else g1 in
  if keys g2 Space || touchFire g2 then playerShoot g2 else g2.

(** *** The swarm *)

(** The test of the first [forEach] of [moveEnemies]. *)
Definition atEdge (g : t) (enemy : Enemy.t) : bool :=
  (Qleb (Enemy.x enemy) 0 && (enemyDirection g =? -1)%Z) ||
  (Qleb (canvasWidth g) (Enemy.x enemy + Enemy.width enemy) &&
   (enemyDirection g =? 1)%Z).

(** [moveEnemies()] *)
Definition moveEnemies (g : t) : t :=
  let hitEdge :=
    fold_left (fun flag enemy => if atEdge g enemy then true else flag)
      (enemies g) false in
  if hitEdge then
    let g1 := set_enemyDirection (enemyDirection g * -1)%Z g in
    set_enemies (map Enemy.moveDown (enemies g1)) g1
  else
    set_enemies
      (map (fun enemy =>
         Enemy.set_x
           (Enemy.x enemy + Enemy.speed enemy * inject_Z (enemyDirection g))
           enemy)
         (enemies g))
      g.

(** The second [forEach] of [updateEnemies], on the enemies still to
    visit: the enemies as updated, and the game with the bullets fired
    and the draws consumed. *)
Fixpoint enemiesAct (deltaTime : Q) (todo : list Enemy.t) (g : t)
    : list Enemy.t * t :=
  match todo with
  | [] => ([], g)
  | enemy :: rest =>
      let enemy' := Enemy.update deltaTime enemy in
      let (r, g1) := Math_random g in
      let g2 :=
        if Enemy.shouldShoot r enemy' then
          let bullet := Enemy.shoot enemy' in
          let bullet' :=
            match levelData g1 with
            | Some ld => Bullet.set_vy (Level.enemyBulletSpeed ld) bullet
            | None => bullet
            end in
          set_enemyBullets (enemyBullets g1 ++ [bullet']) g1
        else g1 in
      let (rest', g3) := enemiesAct deltaTime rest g2 in
      (enemy' :: rest', g3)
  end.

(** [updateEnemies(deltaTime)] *)
Definition updateEnemies (deltaTime : Q) (g : t) : t :=
  let g1 := set_enemyMoveTimer (enemyMoveTimer g + deltaTime) g in
  let g2 :=
    if Qleb (enemyMoveInterval g1) (enemyMoveTimer g1)
    then set_enemyMoveTimer 0 (moveEnemies g1)
    else g1 in
  let (enemies', g3) := enemiesAct deltaTime (enemies g2) g2 in
  set_enemies enemies' g3.

(** *** Projectiles and power-ups in flight *)

(** [updateBullets(deltaTime)] *)
Definition updateBullets (deltaTime : Q) (g : t) : t :=
  let step := Bullet.update deltaTime (canvasWidth g) (canvasHeight g) in
  let g1 := set_bullets (List.filter Bullet.active (map step (bullets g))) g in
  set_enemyBullets (List.filter Bullet.active (map step (enemyBullets g1))) g1.

(** [updateEffects(deltaTime)], for the power-ups. *)
Definition updateEffects (deltaTime : Q) (g : t) : t :=
  set_powerUps
    (List.filter PowerUp.active
       (map (PowerUp.update deltaTime (canvasHeight g)) (powerUps g)))
    g.

(** *** Power-ups *)

(** [array[index]] for a computed index: [None] out of range. *)
Definition element {A : Type} (array : list A) (index : Z) : option A :=
  if (index <? 0)%Z then None else array !! Z.to_nat index.

(** The array [types] of [spawnPowerUp]. *)
Definition types : list PowerUpType :=
  [shield; multi_shot; auto_aim; rapid_fire; life_up].

(** [spawnPowerUp(x, y)] *)
Definition spawnPowerUp (x y : Q) (g : t) : t :=
  let (r, g1) := Math_random g in
  let type := element types (Qfloor (r * inject_Z (Z.of_nat (length types)))) in
  set_powerUps (powerUps g1 ++ [PowerUp.new (x - 12) y type]) g1.

(** [applyPowerUp(powerUp)] *)
Definition applyPowerUp (powerUp : PowerUp.t) (g : t) : t :=
  let activate type :=
    set_player
      (Player.activatePowerUp type (PowerUp.duration powerUp) (player g)) g in
  match PowerUp.type powerUp with
  | Some shield => activate shield
  | Some multi_shot => activate multi_shot
  | Some auto_aim => activate auto_aim
  | Some rapid_fire => activate rapid_fire
  | Some life_up => set_lives (Z.min (lives g + 1) 5) g
  | Some points => set_score (score g + 500)%Z g
  | None => g
  end.

(** *** Collisions *)

(** The centre of a bullet, where it hits a wall. *)
Definition impactPoint (bullet : Bullet.t) : Q * Q :=
  (Bullet.x bullet + Bullet.width bullet / 2,
   Bullet.y bullet + Bullet.height bullet / 2).

(** The inner loop over [this.walls], from index [w] up: the first
    active wall that the bullet overlaps. *)
Fixpoint firstWallHit (bullet : Bullet.t) (candidates : list Wall.t) (w : nat)
    : option (nat * Wall.t) :=
  match candidates with
  | [] => None
  | wall :: rest =>
      if Wall.active wall && entityCheckCollision bullet wall
      then Some (w, wall)
      else firstWallHit bullet rest (S w)
  end.

(** The loop of bullets against walls, [i] counting down from the length
    of the array: a bullet that hits is spliced out on the spot and the
    wall is damaged in place. *)
Fixpoint bulletsVsWalls (isPlayerBullet : bool) (i : nat)
    (shots : list Bullet.t) (barriers : list Wall.t)
    : list Bullet.t * list Wall.t :=
  match i with
  | O => (shots, barriers)
  | S i' =>
      match shots !! i' with
      | Some bullet =>
          match firstWallHit bullet barriers 0 with
          | Some (w, wall) =>
              let (cx, cy) := impactPoint bullet in
              let wall' := snd (Wall.takeDamage cx cy isPlayerBullet wall) in
              bulletsVsWalls isPlayerBullet i'
                (delete i' shots) (<[w := wall']> barriers)
          | None => bulletsVsWalls isPlayerBullet i' shots barriers
          end
      | None => bulletsVsWalls isPlayerBullet i' shots barriers
      end
  end.

(** Phase 1: player bullets against walls. *)
Definition playerBulletsVsWalls (g : t) : t :=
  let (shots, barriers) :=
    bulletsVsWalls true (length (bullets g)) (bullets g) (walls g) in
  set_walls barriers (set_bullets shots g).

(** [this.walls = this.walls.filter(wall => wall.active)] *)
Definition cleanUpWalls (g : t) : t :=
  set_walls (List.filter Wall.active (walls g)) g.

(** The inner loop over [this.enemies], [j] counting down: the last
    enemy that the bullet overlaps. *)
Fixpoint lastEnemyHit (bullet : Bullet.t) (targets : list Enemy.t) (j : nat)
    : option (nat * Enemy.t) :=
  match j with
  | O => None
  | S j' =>
      match targets !! j' with
      | Some enemy =>
          if entityCheckCollision bullet enemy then Some (j', enemy)
          else lastEnemyHit bullet targets j'
      | None => lastEnemyHit bullet targets j'
      end
  end.

(** Phase 2: player bullets against enemies, [i] counting down. *)
Fixpoint playerBulletsVsEnemies (i : nat) (g : t) : t :=
  match i with
  | O => g
  | S i' =>
      match bullets g !! i' with
      | Some bullet =>
          match lastEnemyHit bullet (enemies g) (length (enemies g)) with
          | Some (j, enemy) =>
              let g1 := set_score (score g + Enemy.points enemy)%Z g in
              let g2 := set_enemiesKilled (enemiesKilled g1 + 1)%Z g1 in
              let (r, g3) := Math_random g2 in
              let g4 :=
                if Qltb r (1 # 10) then
                  spawnPowerUp (Enemy.x enemy + Enemy.width enemy / 2)
                    (Enemy.y enemy + Enemy.height enemy / 2) g3
                else g3 in
              let g5 := set_bullets (delete i' (bullets g4)) g4 in
              let g6 := set_enemies (delete j (enemies g5)) g5 in
              playerBulletsVsEnemies i' g6
          | None => playerBulletsVsEnemies i' g
          end
      | None => playerBulletsVsEnemies i' g
      end
  end.

(** Phase 3: power-ups against the player, [i] counting down. *)
Fixpoint powerUpsVsPlayer (i : nat) (g : t) : t :=
  match i with
  | O => g
  | S i' =>
      match powerUps g !! i' with
      | Some powerUp =>
          if entityCheckCollision powerUp (player g) then
            let g1 := applyPowerUp powerUp g in
            powerUpsVsPlayer i' (set_powerUps (delete i' (powerUps g1)) g1)
          else powerUpsVsPlayer i' g
      | None => powerUpsVsPlayer i' g
      end
  end.

(** Phase 4: enemy bullets against walls. *)
Definition enemyBulletsVsWalls (g : t) : t :=
  let (shots, barriers) :=
    bulletsVsWalls false (length (enemyBullets g)) (enemyBullets g) (walls g) in
  set_walls barriers (set_enemyBullets shots g).

(** Phase 5: enemy bullets against the player, [i] counting down. *)
Fixpoint enemyBulletsVsPlayer (i : nat) (g : t) : t :=
  match i with
  | O => g
  | S i' =>
      match enemyBullets g !! i' with
      | Some bullet =>
          if entityCheckCollision bullet (player g) then
            let (damaged, p') := Player.takeDamage (player g) in
            let g1 := set_player p' g in
            let g2 := if damaged then set_lives (lives g1 - 1)%Z g1 else g1 in
            enemyBulletsVsPlayer i'
              (set_enemyBullets (delete i' (enemyBullets g2)) g2)
          else enemyBulletsVsPlayer i' g
      | None => enemyBulletsVsPlayer i' g
      end
  end.

(** Phase 6: the enemies that reached the player. *)
Definition enemiesReachedPlayer (g : t) : t :=
  fold_left (fun g' enemy =>
    if Qleb (Player.y (player g')) (Enemy.y enemy + Enemy.height enemy)
    then set_lives 0%Z g' else g')
    (enemies g) g.

(** [checkCollisions()] *)
Definition checkCollisions (g : t) : t :=
  let g1 := cleanUpWalls (playerBulletsVsWalls g) in
  let g2 := playerBulletsVsEnemies (length (bullets g1)) g1 in
  let g3 := powerUpsVsPlayer (length (powerUps g2)) g2 in
  let g4 := enemyBulletsVsWalls g3 in
  let g5 := enemyBulletsVsPlayer (length (enemyBullets g4)) g4 in
  enemiesReachedPlayer g5.

(** *** The tick and the events *)

(** [update(deltaTime)] *)
Definition update `{MathLib} (deltaTime : Q) (g : t) : t :=
  let g1 := handleInput g in
  let g2 := set_player (Player.update deltaTime (canvasWidth g1) (player g1)) g1 in
  let g3 := updateEnemies deltaTime g2 in
  let g4 := updateBullets deltaTime g3 in
  let g5 := updateEffects deltaTime g4 in
  let g6 := checkCollisions g5 in
  checkGameConditions g6.

(** [gameLoop(currentTime)]: one animation frame. *)
Definition gameLoop `{MathLib} (currentTime : Q) (g : t) : t :=
  let deltaTime := (currentTime - lastTime g) / 1000 in
  let g1 := set_lastTime currentTime g in
  if bool_decide (gameState g1 = playing) then update deltaTime g1 else g1.

(** [handleKeyDown(e)] *)
Definition handleKeyDown `{MathLib} (code : KeyCode) (g : t) : t :=
  let g1 := set_keys (fun k => if decide (k = code) then true else keys g k) g in
  match code with
  | Space =>
      match gameState g1 with
      | playing => playerShoot g1
      | menu | gameOver => startGame g1
      | _ => g1
      end
  | KeyP =>
      match gameState g1 with
      | playing | paused => togglePause g1
      | _ => g1
      end
  | KeyR => restartGame g1
  | _ => g1
  end.

(** [handleKeyUp(e)] *)
Definition handleKeyUp (code : KeyCode) (g : t) : t :=
  set_keys (fun k => if decide (k = code) then false else keys g k) g.

(** The listeners of the touch buttons. *)
Definition touch (button : TouchButton) (down : bool) (g : t) : t :=
  match button with
  | leftBtn => set_touchLeft down g
  | rightBtn => set_touchRight down g
  | fireBtn => set_touchFire down g
  end.

(** What the browser delivers to the game, one at a time. *)
Inductive Event : Type :=
  | keydown (code : KeyCode)
  | keyup (code : KeyCode)
  | touchstart (button : TouchButton)
  | touchend (button : TouchButton)
  | blur
  | clickStart
  | clickPause
  | clickRestart
  | clickOverlayAction
  | levelLoaded (levelNumber : Z) (response : Response)
  | overlayLevelLoaded (levelNumber : Z) (response : Response)
  | animationFrame (currentTime : Q).

(** The listener that [bindEvents] registers for each event.  The
    arrival of a level is an event like the others: at [levelLoaded] the
    [loadLevel] that [resetGame] started and did not await completes,
    at [overlayLevelLoaded] the one that [handleOverlayAction] awaits,
    each with the level number that its call was given. *)
Definition handle `{MathLib} (event : Event) (g : t) : t :=
  match event with
  | keydown code => handleKeyDown code g
  | keyup code => handleKeyUp code g
  | touchstart button => touch button true g
  | touchend button => touch button false g
  | blur => if bool_decide (gameState g = playing) then pauseGame g else g
  | clickStart => startGame g
  | clickPause => togglePause g
  | clickRestart => restartGame g
  | clickOverlayAction => handleOverlayAction g
  | levelLoaded levelNumber response => loadLevel levelNumber response g
  | overlayLevelLoaded levelNumber response =>
      handleOverlayAction_resumed levelNumber response g
  | animationFrame currentTime => gameLoop currentTime g
  end.

(** The states of a run: the game as initialised, then any events, in
    any order.  The runs of the program are among them: there a level
    arrives only after the call that asked for it. *)
Inductive reachable `{MathLib} (width height : Q) (random : nat -> Q) : t -> Prop :=
  | reachable_init response :
      reachable width height random
        (initializeGame response (new width height random))
  | reachable_event g event :
      reachable width height random g ->
      reachable width height random (handle event g).

End Game.

(** * The swarm on doubles

    The numbers of the program are IEEE 754 doubles, and every sum and
    product is rounded to the nearest one.  Where a statement depends on
    that rounding, on which tick a timer reaches its mark or whether two
    sums are the same distance apart as their operands, the rationals
    above do not decide it.  The functions of the swarm are therefore
    embedded a second time here, on the binary64 floats of Rocq, whose
    operations are those of the doubles of JavaScript.  A literal such
    as [0.1] stands for the double nearest to it, as it does in the
    program.  The record of the game holds the fields that these
    functions read or write; the counters are integers as above. *)

Module Double.
Local Open Scope float_scope.

(** The double of an integer, exact up to [2^53]. *)
Definition of_Z (z : Z) : float :=
  match z with
  | Z0 => 0
  | Zpos _ => of_uint63 (Uint63.of_Z z)
  | Zneg p => - of_uint63 (Uint63.of_Z (Zpos p))
  end.

Definition of_nat (n : nat) : float := of_Z (Z.of_nat n).

(** The rational that a finite double stands for, in lowest terms;
    [None] for [NaN] and the infinities. *)
Definition value (f : float) : option Q :=
  match Prim2SF f with
  | S754_zero _ => Some 0%Q
  | S754_finite sign m e =>
      Some (Qred ((if sign then -1 else 1) * inject_Z (Zpos m) * Qpower 2 e))%Q
  | S754_infinity _ | S754_nan => None
  end.

(** [Math.max(a, b)]: [NaN] when either is, and [+0] above [-0]. *)
Definition Math_max (a b : float) : float :=
  if is_nan a || is_nan b then nan
  else if a <? b then b
  else if b <? a then a
  else if is_zero a && get_sign a then b else a.

(** [this.levelData], as far as the swarm reads it. *)
Module Level.

Record t : Type := mk {
  enemySpeed : float;
  enemyDropSpeed : float;
  enemyBulletSpeed : float;
  enemyBulletFrequency : float;
  enemyMoveDirection : float;
  enemyRows : Z;
  enemyCols : Z;
  pointsPerEnemy : Z;
  enemyType : EnemyType
}.

End Level.

(** [class Bullet], as built by [Enemy.shoot]. *)
Module Bullet.

Record t : Type := mk {
  x : float;
  y : float;
  width : float;
  height : float;
  active : bool;
  vx : float;
  vy : float;
  isPlayerBullet : bool;
  trail : list (float * float);
  maxTrailLength : nat
}.

Definition set_vy (v : float) (o : t) : t :=
  {| x := x o; y := y o; width := width o; height := height o;
     active := active o; vx := vx o; vy := v;
     isPlayerBullet := isPlayerBullet o; trail := trail o;
     maxTrailLength := maxTrailLength o |}.

(** [constructor(x, y, vx, vy, color, isPlayerBullet)] *)
Definition new (x0 y0 vx0 vy0 : float) (isPlayer : bool) : t :=
  {| x := x0; y := y0; width := 4; height := 8; active := true;
     vx := vx0; vy := vy0; isPlayerBullet := isPlayer;
     trail := []; maxTrailLength := 5 |}.

End Bullet.

(** [class Enemy] *)
Module Enemy.

Record t : Type := mk {
  x : float;
  y : float;
  width : float;
  height : float;
  active : bool;
  type : EnemyType;
  speed : float;
  dropSpeed : float;
  direction : float;
  points : Z;
  shootFrequency : float;
  animFrame : float;
  animSpeed : float
}.

Definition set_x (v : float) (o : t) : t :=
  {| x := v; y := y o; width := width o; height := height o;
     active := active o; type := type o; speed := speed o;
     dropSpeed := dropSpeed o; direction := direction o;
     points := points o; shootFrequency := shootFrequency o;
     animFrame := animFrame o; animSpeed := animSpeed o |}.
Definition set_y (v : float) (o : t) : t :=
  {| x := x o; y := v; width := width o; height := height o;
     active := active o; type := type o; speed := speed o;
     dropSpeed := dropSpeed o; direction := direction o;
     points := points o; shootFrequency := shootFrequency o;
     animFrame := animFrame o; animSpeed := animSpeed o |}.
Definition set_width (v : float) (o : t) : t :=
  {| x := x o; y := y o; width := v; height := height o;
     active := active o; type := type o; speed := speed o;
     dropSpeed := dropSpeed o; direction := direction o;
     points := points o; shootFrequency := shootFrequency o;
     animFrame := animFrame o; animSpeed := animSpeed o |}.
Definition set_height (v : float) (o : t) : t :=
  {| x := x o; y := y o; width := width o; height := v;
     active := active o; type := type o; speed := speed o;
     dropSpeed := dropSpeed o; direction := direction o;
     points := points o; shootFrequency := shootFrequency o;
     animFrame := animFrame o; animSpeed := animSpeed o |}.
Definition set_speed (v : float) (o : t) : t :=
  {| x := x o; y := y o; width := width o; height := height o;
     active := active o; type := type o; speed := v;
     dropSpeed := dropSpeed o; direction := direction o;
     points := points o; shootFrequency := shootFrequency o;
     animFrame := animFrame o; animSpeed := animSpeed o |}.
Definition set_dropSpeed (v : float) (o : t) : t :=
  {| x := x o; y := y o; width := width o; height := height o;
     active := active o; type := type o; speed := speed o;
     dropSpeed := v; direction := direction o;
     points := points o; shootFrequency := shootFrequency o;
     animFrame := animFrame o; animSpeed := animSpeed o |}.
Definition set_points (v : Z) (o : t) : t :=
  {| x := x o; y := y o; width := width o; height := height o;
     active := active o; type := type o; speed := speed o;
     dropSpeed := dropSpeed o; direction := direction o;
     points := v; shootFrequency := shootFrequency o;
     animFrame := animFrame o; animSpeed := animSpeed o |}.
Definition set_shootFrequency (v : float) (o : t) : t :=
  {| x := x o; y := y o; width := width o; height := height o;
     active := active o; type := type o; speed := speed o;
     dropSpeed := dropSpeed o; direction := direction o;
     points := points o; shootFrequency := v;
     animFrame := animFrame o; animSpeed := animSpeed o |}.
Definition set_animFrame (v : float) (o : t) : t :=
  {| x := x o; y := y o; width := width o; height := height o;
     active := active o; type := type o; speed := speed o;
     dropSpeed := dropSpeed o; direction := direction o;
     points := points o; shootFrequency := shootFrequency o;
     animFrame := v; animSpeed := animSpeed o |}.

(** [setTypeProperties()] *)
Definition setTypeProperties (e : t) : t :=
  match type e with
  | basic => set_shootFrequency 0.00005 (set_points 10%Z e)
  | fast =>
      let e1 := set_shootFrequency 0.0001 (set_points 20%Z e) in
      set_speed (speed e1 * 1.2) e1
  | aggressive =>
      let e1 := set_shootFrequency 0.00015 (set_points 30%Z e) in
      set_speed (speed e1 * 1.1) e1
  | boss =>
      set_height 35
        (set_width 40 (set_shootFrequency 0.0003 (set_points 50%Z e)))
  end.

(** [constructor(x, y, type)] *)
Definition new (x0 y0 : float) (ty : EnemyType) : t :=
  setTypeProperties
    {| x := x0; y := y0; width := 30; height := 25; active := true;
       type := ty; speed := 1; dropSpeed := 20; direction := 1;
       points := 10%Z; shootFrequency := 0.003;
       animFrame := 0; animSpeed := 0.1 |}.

(** [update(deltaTime)] *)
Definition update (deltaTime : float) (e : t) : t :=
  set_animFrame (animFrame e + animSpeed e * deltaTime) e.

(** [moveDown()] *)
Definition moveDown (e : t) : t := set_y (y e + dropSpeed e) e.

(** [shouldShoot()], on the draw [r] of [Math.random()]. *)
Definition shouldShoot (r : float) (e : t) : bool := r <? shootFrequency e.

(** [shoot()] *)
Definition shoot (e : t) : Bullet.t :=
  Bullet.new (x e + width e / 2 - 2) (y e + height e) 0 3 false.

End Enemy.

(** The part of [SpaceInvadersGame] that belongs to the swarm. *)
Module Game.

Record t : Type := mk {
  canvasWidth : float;
  enemies : list Enemy.t;
  enemyBullets : list Bullet.t;
  currentLevel : Z;
  levelData : option Level.t;
  enemiesKilled : Z;
  totalEnemies : Z;
  enemyMoveTimer : float;
  enemyMoveInterval : float;
  enemyDirection : float;
  randomSource : nat -> float;
  randomCursor : nat
}.

Definition set_enemies (v : list Enemy.t) (o : t) : t :=
  {| canvasWidth := canvasWidth o; enemies := v;
     enemyBullets := enemyBullets o; currentLevel := currentLevel o;
     levelData := levelData o; enemiesKilled := enemiesKilled o;
     totalEnemies := totalEnemies o; enemyMoveTimer := enemyMoveTimer o;
     enemyMoveInterval := enemyMoveInterval o;
     enemyDirection := enemyDirection o; randomSource := randomSource o;
     randomCursor := randomCursor o |}.
Definition set_enemyBullets (v : list Bullet.t) (o : t) : t :=
  {| canvasWidth := canvasWidth o; enemies := enemies o;
     enemyBullets := v; currentLevel := currentLevel o;
     levelData := levelData o; enemiesKilled := enemiesKilled o;
     totalEnemies := totalEnemies o; enemyMoveTimer := enemyMoveTimer o;
     enemyMoveInterval := enemyMoveInterval o;
     enemyDirection := enemyDirection o; randomSource := randomSource o;
     randomCursor := randomCursor o |}.
Definition set_enemiesKilled (v : Z) (o : t) : t :=
  {| canvasWidth := canvasWidth o; enemies := enemies o;
     enemyBullets := enemyBullets o; currentLevel := currentLevel o;
     levelData := levelData o; enemiesKilled := v;
     totalEnemies := totalEnemies o; enemyMoveTimer := enemyMoveTimer o;
     enemyMoveInterval := enemyMoveInterval o;
     enemyDirection := enemyDirection o; randomSource := randomSource o;
     randomCursor := randomCursor o |}.
Definition set_totalEnemies (v : Z) (o : t) : t :=
  {| canvasWidth := canvasWidth o; enemies := enemies o;
     enemyBullets := enemyBullets o; currentLevel := currentLevel o;
     levelData := levelData o; enemiesKilled := enemiesKilled o;
     totalEnemies := v; enemyMoveTimer := enemyMoveTimer o;
     enemyMoveInterval := enemyMoveInterval o;
     enemyDirection := enemyDirection o; randomSource := randomSource o;
     randomCursor := randomCursor o |}.
Definition set_enemyMoveTimer (v : float) (o : t) : t :=
  {| canvasWidth := canvasWidth o; enemies := enemies o;
     enemyBullets := enemyBullets o; currentLevel := currentLevel o;
     levelData := levelData o; enemiesKilled := enemiesKilled o;
     totalEnemies := totalEnemies o; enemyMoveTimer := v;
     enemyMoveInterval := enemyMoveInterval o;
     enemyDirection := enemyDirection o; randomSource := randomSource o;
     randomCursor := randomCursor o |}.
Definition set_enemyMoveInterval (v : float) (o : t) : t :=
  {| canvasWidth := canvasWidth o; enemies := enemies o;
     enemyBullets := enemyBullets o; currentLevel := currentLevel o;
     levelData := levelData o; enemiesKilled := enemiesKilled o;
     totalEnemies := totalEnemies o; enemyMoveTimer := enemyMoveTimer o;
     enemyMoveInterval := v;
     enemyDirection := enemyDirection o; randomSource := randomSource o;
     randomCursor := randomCursor o |}.
Definition set_enemyDirection (v : float) (o : t) : t :=
  {| canvasWidth := canvasWidth o; enemies := enemies o;
     enemyBullets := enemyBullets o; currentLevel := currentLevel o;
     levelData := levelData o; enemiesKilled := enemiesKilled o;
     totalEnemies := totalEnemies o; enemyMoveTimer := enemyMoveTimer o;
     enemyMoveInterval := enemyMoveInterval o;
     enemyDirection := v; randomSource := randomSource o;
     randomCursor := randomCursor o |}.
Definition set_randomCursor (v : nat) (o : t) : t :=
  {| canvasWidth := canvasWidth o; enemies := enemies o;
     enemyBullets := enemyBullets o; currentLevel := currentLevel o;
     levelData := levelData o; enemiesKilled := enemiesKilled o;
     totalEnemies := totalEnemies o; enemyMoveTimer := enemyMoveTimer o;
     enemyMoveInterval := enemyMoveInterval o;
     enemyDirection := enemyDirection o; randomSource := randomSource o;
     randomCursor := v |}.

(** [Math.random()]: the next draw, and the game with the cursor moved. *)
Definition Math_random (g : t) : float * t :=
  (randomSource g (randomCursor g), set_randomCursor (S (randomCursor g)) g).

(** [createEnemies()] *)
Definition createEnemies (g : t) : t :=
  match levelData g with
  | None => g
  | Some ld =>
      let enemySpacing := 50 in
      let startX := 50 in
      let startY := 80 in
      let created :=
        flat_map (fun row =>
          map (fun col =>
            let x := startX + of_nat col * enemySpacing in
            let y := startY + of_nat row * enemySpacing in
            let enemy := Enemy.new x y (Level.enemyType ld) in
            Enemy.set_points (Level.pointsPerEnemy ld)
              (Enemy.set_shootFrequency (Level.enemyBulletFrequency ld)
                (Enemy.set_dropSpeed (Level.enemyDropSpeed ld)
                  (Enemy.set_speed (Level.enemySpeed ld) enemy))))
            (seq 0 (Z.to_nat (Level.enemyCols ld))))
          (seq 0 (Z.to_nat (Level.enemyRows ld))) in
      let g1 := set_enemies created g in
      let g2 := set_totalEnemies (Z.of_nat (length (enemies g1))) g1 in
      let g3 := set_enemiesKilled 0%Z g2 in
      let g4 := set_enemyDirection (Level.enemyMoveDirection ld) g3 in
      set_enemyMoveInterval
        (Math_max 0.3 (1.5 - of_Z (currentLevel g4) * 0.1)) g4
  end.

(** The test of the first [forEach] of [moveEnemies]. *)
Definition atEdge (g : t) (enemy : Enemy.t) : bool :=
  ((Enemy.x enemy <=? 0) && (enemyDirection g =? -1)) ||
  ((canvasWidth g <=? Enemy.x enemy + Enemy.width enemy) &&
   (enemyDirection g =? 1)).

(** The flag [hitEdge] after the first [forEach] of [moveEnemies]. *)
Definition hitEdge (g : t) : bool :=
  fold_left (fun flag enemy => if atEdge g enemy then true else flag)
    (enemies g) false.

(** [moveEnemies()] *)
Definition moveEnemies (g : t) : t :=
  if hitEdge g then
    let g1 := set_enemyDirection (enemyDirection g * -1) g in
    set_enemies (map Enemy.moveDown (enemies g1)) g1
  else
    set_enemies
      (map (fun enemy =>
         Enemy.set_x
           (Enemy.x enemy + Enemy.speed enemy * enemyDirection g) enemy)
         (enemies g))
      g.

(** The second [forEach] of [updateEnemies], on the enemies still to
    visit: the enemies as updated, and the game with the bullets fired
    and the draws consumed. *)
Fixpoint enemiesAct (deltaTime : float) (todo : list Enemy.t) (g : t)
    : list Enemy.t * t :=
  match todo with
  | [] => ([], g)
  | enemy :: rest =>
      let enemy' := Enemy.update deltaTime enemy in
      let (r, g1) := Math_random g in
      let g2 :=
        if Enemy.shouldShoot r enemy' then
          let bullet := Enemy.shoot enemy' in
          let bullet' :=
            match levelData g1 with
            | Some ld => Bullet.set_vy (Level.enemyBulletSpeed ld) bullet
            | None => bullet
            end in
          set_enemyBullets (enemyBullets g1 ++ [bullet']) g1
        else g1 in
      let (rest', g3) := enemiesAct deltaTime rest g2 in
      (enemy' :: rest', g3)
  end.

(** [updateEnemies(deltaTime)] *)
Definition updateEnemies (deltaTime : float) (g : t) : t :=
  let g1 := set_enemyMoveTimer (enemyMoveTimer g + deltaTime) g in
  let g2 :=
    if enemyMoveInterval g1 <=? enemyMoveTimer g1
    then set_enemyMoveTimer 0 (moveEnemies g1)
    else g1 in
  let (enemies', g3) := enemiesAct deltaTime (enemies g2) g2 in
  set_enemies enemies' g3.

End Game.

End Double.

(** * Properties *)

(** ** What the statements below speak of *)

Module Spec.
Local Open Scope Q_scope.

(** The point [(px, py)] lies strictly inside the rectangle. *)
Definition inside (r : Rect.t) (px py : Q) : Prop :=
  Rect.x r < px /\ px < Rect.x r + Rect.width r /\
  Rect.y r < py /\ py < Rect.y r + Rect.height r.

(** The four strict inequalities of the overlap contract. *)
Definition overlap (a b : Rect.t) : Prop :=
  Rect.x a < Rect.x b + Rect.width b /\
  Rect.x a + Rect.width a > Rect.x b /\
  Rect.y a < Rect.y b + Rect.height b /\
  Rect.y a + Rect.height a > Rect.y b.

(** A side of [a] lies on the line of the opposite side of [b]. *)
Definition touching (a b : Rect.t) : Prop :=
  Rect.x a + Rect.width a == Rect.x b \/
  Rect.x b + Rect.width b == Rect.x a \/
  Rect.y a + Rect.height a == Rect.y b \/
  Rect.y b + Rect.height b == Rect.y a.

(** The hit-edge condition of the wave step, for one enemy: at the left
    edge while the swarm moves left, or at the right edge while it moves
    right. *)
Definition atCanvasEdge (g : Game.t) (e : Enemy.t) : Prop :=
  (Enemy.x e <= 0 /\ Game.enemyDirection g = (-1)%Z) \/
  (Game.canvasWidth g <= Enemy.x e + Enemy.width e /\
   Game.enemyDirection g = 1%Z).

(** The hit-edge flag: some enemy of the swarm is at its edge. *)
Definition hitEdge (g : Game.t) : Prop :=
  exists e, In e (Game.enemies g) /\ atCanvasEdge g e.

(** [e'] is [e] moved down by its [dropSpeed], [x] as it was. *)
Definition dropped (e e' : Enemy.t) : Prop :=
  Enemy.x e' = Enemy.x e /\ Enemy.y e' = Enemy.y e + Enemy.dropSpeed e.

(** [e'] is [e] moved sideways by its [speed] times [direction], [y] as
    it was. *)
Definition advanced (direction : Z) (e e' : Enemy.t) : Prop :=
  Enemy.x e' = Enemy.x e + Enemy.speed e * inject_Z direction /\
  Enemy.y e' = Enemy.y e.

(** [e'] is [e] displaced by [(dx, dy)]. *)
Definition displaced (dx dy : Q) (e e' : Enemy.t) : Prop :=
  Enemy.x e' == Enemy.x e + dx /\ Enemy.y e' == Enemy.y e + dy.

(** Every enemy has speed [s] and drop speed [d]. *)
Definition uniform (s d : Q) (es : list Enemy.t) : Prop :=
  forall e, In e es -> Enemy.speed e == s /\ Enemy.dropSpeed e == d.

(** Where the enemies are, in the order of the array. *)
Definition positions (g : Game.t) : list (Q * Q) :=
  map (fun e => (Enemy.x e, Enemy.y e)) (Game.enemies g).

(** The move timer of the swarm, the interval it runs to, and the level
    loaded. *)
Definition moveClock (g : Game.t) : Q * Q * option Level.t :=
  (Game.enemyMoveTimer g, Game.enemyMoveInterval g, Game.levelData g).

(** The counter of lives and the state of the game. *)
Definition vitals (g : Game.t) : Z * GameState :=
  (Game.lives g, Game.gameState g).

(** The invariant of the lives: between 0 and 5, and at least 1 as long
    as the game is not over. *)
Definition livesInvariant (g : Game.t) : Prop :=
  (0 <= Game.lives g <= 5)%Z /\
  (Game.gameState g <> gameOver -> (1 <= Game.lives g)%Z).

(** An event that finds the game as the call that led to it left it: the
    level that [handleOverlayAction] awaits arrives while the state is
    still [levelComplete]. *)
Definition inTurn (event : Game.Event) (g : Game.t) : Prop :=
  match event with
  | Game.overlayLevelLoaded _ _ => Game.gameState g = levelComplete
  | _ => True
  end.

(** The states of the runs in which every event arrives in turn. *)
Inductive reachableInTurn `{MathLib} (width height : Q) (random : nat -> Q)
    : Game.t -> Prop :=
  | inTurn_init response :
      reachableInTurn width height random
        (Game.initializeGame response (Game.new width height random))
  | inTurn_event g event :
      reachableInTurn width height random g -> inTurn event g ->
      reachableInTurn width height random (Game.handle event g).

(** The game after the events [events], from the game as initialised
    with the level [first] on a canvas of 800 by 600; every draw of
    [Math.random()] gives [draw]. *)
Definition run `{MathLib} (draw : Q) (first : Response)
    (events : list Game.Event) : Game.t :=
  fold_left (fun g event => Game.handle event g) events
    (Game.initializeGame first (Game.new 800 600 (fun _ => draw))).

(** A level without enemies, which is complete at its first tick. *)
Definition emptyLevel : Level.t :=
  {| Level.level := 1; Level.enemyCount := 0; Level.enemySpeed := 1;
     Level.enemyDropSpeed := 20; Level.enemyBulletSpeed := 2;
     Level.enemyBulletFrequency := 1 # 1000; Level.enemyMoveDirection := 1;
     Level.enemyRows := 0; Level.enemyCols := 0; Level.pointsPerEnemy := 10;
     Level.enemyType := basic; Level.generatedBy := None;
     Level.walls := None |}.

(** A level of ten rows of seven enemies: the last row starts with its
    bottom side at 555, below the top of the player at 550. *)
Definition tallLevel : Level.t :=
  {| Level.level := 2; Level.enemyCount := 70; Level.enemySpeed := 1;
     Level.enemyDropSpeed := 20; Level.enemyBulletSpeed := 2;
     Level.enemyBulletFrequency := 3 # 1000; Level.enemyMoveDirection := 1;
     Level.enemyRows := 10; Level.enemyCols := 7; Level.pointsPerEnemy := 10;
     Level.enemyType := basic; Level.generatedBy := None;
     Level.walls := None |}.

(** A run with two clicks on the button of the overlay while level 1 is
    complete.  The left arrow is held down from the start.  The level
    asked for by the first click arrives and the game goes on; its first
    tick ends the game, the last row of enemies being below the top of
    the player.  Then the level asked for by the second click arrives:
    that request failed, so it is the fallback level of
    [Utils.fetchLevelData].  One more frame follows. *)
Definition lateLevelEvents : list Game.Event :=
  [Game.keydown ArrowLeft; Game.clickStart;
   Game.levelLoaded 1 (levelBody emptyLevel);
   Game.animationFrame 16;
   Game.clickOverlayAction; Game.clickOverlayAction;
   Game.overlayLevelLoaded 2 (levelBody tallLevel);
   Game.animationFrame 32;
   Game.overlayLevelLoaded 2 networkError;
   Game.animationFrame 48].

(** Where the enemies of the swarm on doubles are, in the order of the
    array. *)
Definition doublePositions (g : Double.Game.t) : list (float * float) :=
  map (fun e => (Double.Enemy.x e, Double.Enemy.y e)) (Double.Game.enemies g).

(** Every enemy of [es] has the speed [s] and the drop speed [d]. *)
Definition doubleUniform (s d : float) (es : list Double.Enemy.t) : Prop :=
  Forall (fun e => Double.Enemy.speed e = s /\ Double.Enemy.dropSpeed e = d) es.

(** The rational that the [x] of enemy [i] stands for. *)
Definition doubleX (i : nat) (g : Double.Game.t) : option Q :=
  match Double.Game.enemies g !! i with
  | Some e => Double.value (Double.Enemy.x e)
  | None => None
  end.

(** Levels 2 and 5 as the server has them. *)
Definition shippedLevel2 : Double.Level.t :=
  {| Double.Level.enemySpeed := 1.2%float;
     Double.Level.enemyDropSpeed := 25%float;
     Double.Level.enemyBulletSpeed := 2.5%float;
     Double.Level.enemyBulletFrequency := 0.0015%float;
     Double.Level.enemyMoveDirection := 1%float;
     Double.Level.enemyRows := 5; Double.Level.enemyCols := 8;
     Double.Level.pointsPerEnemy := 15; Double.Level.enemyType := basic |}.

Definition shippedLevel5 : Double.Level.t :=
  {| Double.Level.enemySpeed := 2%float;
     Double.Level.enemyDropSpeed := 40%float;
     Double.Level.enemyBulletSpeed := 4%float;
     Double.Level.enemyBulletFrequency := 0.003%float;
     Double.Level.enemyMoveDirection := 1%float;
     Double.Level.enemyRows := 5; Double.Level.enemyCols := 11;
     Double.Level.pointsPerEnemy := 30; Double.Level.enemyType := aggressive |}.

(** The swarm that [createEnemies] makes of the level data [ld] at level
    [level], on a canvas 800 wide; every draw of [Math.random()] gives
    0.5, at which no enemy of these levels shoots. *)
Definition doubleSwarm (level : Z) (ld : Double.Level.t) : Double.Game.t :=
  Double.Game.createEnemies
    {| Double.Game.canvasWidth := 800%float; Double.Game.enemies := [];
       Double.Game.enemyBullets := []; Double.Game.currentLevel := level;
       Double.Game.levelData := Some ld; Double.Game.enemiesKilled := 0;
       Double.Game.totalEnemies := 0;
       Double.Game.enemyMoveTimer := 0%float;
       Double.Game.enemyMoveInterval := 1%float;
       Double.Game.enemyDirection := 1%float;
       Double.Game.randomSource := fun _ => 0.5%float;
       Double.Game.randomCursor := 0 |}.

(** The swarm after [n] calls of [updateEnemies(deltaTime)]. *)
Definition doubleTicks (n : nat) (deltaTime : float) (g : Double.Game.t)
    : Double.Game.t :=
  Nat.iter n (Double.Game.updateEnemies deltaTime) g.

(** Bullet [bullet] overlaps an active wall of [barriers]. *)
Definition hitsWall (barriers : list Wall.t) (bullet : Bullet.t) : bool :=
  existsb (fun wall => Wall.active wall && entityCheckCollision bullet wall)
    barriers.

(** Bullet [bullet] overlaps an enemy of [targets]. *)
Definition hitsEnemy (targets : list Enemy.t) (bullet : Bullet.t) : bool :=
  existsb (fun enemy => entityCheckCollision bullet enemy) targets.

(** Enemy [enemy] is overlapped by a bullet of [shots]. *)
Definition hitByBullet (shots : list Bullet.t) (enemy : Enemy.t) : bool :=
  existsb (fun bullet => entityCheckCollision bullet enemy) shots.

(** The walls [barriers'] are the walls [barriers], each in its place
    and none of them active again. *)
Definition worn (barriers barriers' : list Wall.t) : Prop :=
  Forall2 (fun wall wall' =>
      getBounds wall' = getBounds wall /\
      (Wall.active wall' = true -> Wall.active wall = true))
    barriers barriers'.

(** A game in which the player has auto-aim and two enemies are in the
    top row, one far to the left and one above the player. *)
Definition aimingGame : Game.t :=
  let g := Game.new 800 600 (fun _ => 0%Q) in
  Game.set_player (Player.activatePowerUp auto_aim 10 (Game.player g))
    (Game.set_enemies [Enemy.new 50 80 basic; Enemy.new 400 80 basic] g).

(** A game with a level of 15 enemies whose firing frequency is 1. *)
Definition firingGame : Game.t :=
  Game.createEnemies
    (Game.set_levelData
       (Some (Level.mk 1 15 1 20 2 1 1 3 5 10 basic None None))
       (Game.new 800 600 (fun _ => (1 # 2)%Q))).

(** What the last phase of the collisions reads: the enemies and the
    height at which the player is. *)
Definition arena (g : Game.t) : list Enemy.t * Q :=
  (Game.enemies g, Player.y (Game.player g)).

(** Some enemy has its bottom side at or below the top of the player. *)
Definition enemyReachedPlayer (g : Game.t) : Prop :=
  exists e, In e (Game.enemies g) /\
    Player.y (Game.player g) <= Enemy.y e + Enemy.height e.

(** The centre of block [b] of wall [w] lies strictly within the impact
    radius, 6 for a bullet of the player and 8 for one of an enemy, of
    the impact point [(impactX, impactY)]. *)
Definition withinImpact (w : Wall.t) (impactX impactY : Q)
    (isPlayerBullet : bool) (b : Block.t) : Prop :=
  let radius := if isPlayerBullet then 6 else 8 in
  let dx := Block.x b + Wall.blockSize w / 2 - (impactX - Wall.x w) in
  let dy := Block.y b + Wall.blockSize w / 2 - (impactY - Wall.y w) in
  dx * dx + dy * dy < radius * radius.

(** The hit destroys a block: a live block lies within the impact. *)
Definition destroysBlock (w : Wall.t) (impactX impactY : Q)
    (isPlayerBullet : bool) : Prop :=
  exists b, In b (Wall.blocks w) /\ Block.active b = true /\
    withinImpact w impactX impactY isPlayerBullet b.

(** Block [b'] is block [b] after the hit: in place, and alive exactly
    when [b] was alive and out of the impact. *)
Definition blockAfter (w : Wall.t) (impactX impactY : Q)
    (isPlayerBullet : bool) (b b' : Block.t) : Prop :=
  Block.x b' = Block.x b /\ Block.y b' = Block.y b /\
  (Block.active b' = true <->
   Block.active b = true /\ ~ withinImpact w impactX impactY isPlayerBullet b).

(** No block of the wall is alive. *)
Definition noBlockAlive (w : Wall.t) : Prop :=
  forall b, In b (Wall.blocks w) -> Block.active b = false.

(** The request of the level failed: no level arrived. *)
Definition failed (response : Response) : Prop :=
  match response with
  | levelBody _ => False
  | networkError | httpError _ | invalidBody => True
  end.

(** The fields of a level that the fallbacks fix, in the order
    [enemyCount], [enemyRows], [enemyCols], [enemySpeed],
    [enemyDropSpeed], [enemyBulletSpeed], [enemyBulletFrequency],
    [enemyType], [pointsPerEnemy]. *)
Definition settings (ld : Level.t) : Z * Z * Z * Q * Q * Q * Q * EnemyType * Z :=
  (Level.enemyCount ld, Level.enemyRows ld, Level.enemyCols ld,
   Level.enemySpeed ld, Level.enemyDropSpeed ld, Level.enemyBulletSpeed ld,
   Level.enemyBulletFrequency ld, Level.enemyType ld, Level.pointsPerEnemy ld).

(** A game in which a bullet of an enemy is on a wall of health 1. *)
Definition wallBreakGame : Game.t :=
  Game.set_enemyBullets [Bullet.new 102 450 0 3 false]
    (Game.set_walls [Wall.new 100 450 8 8 1]
       (Game.new 800 600 (fun _ => 1 # 2))).

(** A game in which a bullet of the player is on an enemy. *)
Definition killGame : Game.t :=
  Game.set_bullets [Bullet.new 60 90 0 (-8) true]
    (Game.set_enemies [Enemy.new 50 80 basic]
       (Game.new 800 600 (fun _ => 1 # 2))).

(** An instance of [MathLib] to run examples with: every angle is taken
    to be 0. *)
Definition flatMath : MathLib :=
  {| Math_atan2 := fun _ _ => 0; Math_cos := fun _ => 1; Math_sin := fun _ => 0 |}.

(** A game to run examples on: an 800 by 600 canvas, the level of
    [Utils.fetchLevelData] when the network fails, and draws that are
    all one half. *)
Definition sampleGame : Game.t :=
  Game.initializeGame networkError (Game.new 800 600 (fun _ => 1 # 2)).

(** Every draw of the random source lies in [0, 1), as those of
    [Math.random()] do. *)
Definition unitDraws (draw : nat -> Q) : Prop :=
  forall n, 0 <= draw n /\ draw n < 1.

(** The player after a run of ticks, one [update] for each elapsed time. *)
Definition playerTicks (canvasWidth : Q) (deltaTimes : list Q) (p : Player.t)
    : Player.t :=
  fold_left (fun q deltaTime => Player.update deltaTime canvasWidth q)
    deltaTimes p.

(** The point [(px, py)] is on the screen for a bullet of the size of [b]:
    the negation of the test of [Bullet.update]. *)
Definition onScreen (canvasWidth canvasHeight : Q) (b : Bullet.t) (px py : Q)
    : Prop :=
  - Bullet.height b <= py /\ py <= canvasHeight /\
  - Bullet.width b <= px /\ px <= canvasWidth.

(** A bullet after a run of ticks. *)
Definition bulletTicks (canvasWidth canvasHeight : Q) (deltaTimes : list Q)
    (b : Bullet.t) : Bullet.t :=
  fold_left (fun q deltaTime => Bullet.update deltaTime canvasWidth canvasHeight q)
    deltaTimes b.

(** A number of ticks, as a factor. *)
Definition times (n : nat) : Q := inject_Z (Z.of_nat n).

(** The cooldown between shots is the one of rapid fire while rapid fire
    is on, and the base cooldown otherwise. *)
Definition cooldownSet (p : Player.t) : Prop :=
  Player.maxShootCooldown p =
    if Player.hasRapidFire p then 1 # 10 else Player.baseShootCooldown p.

(** [p'] is [p] up to its position along the bottom, its timers and its
    power-ups. *)
Definition playerKept (p p' : Player.t) : Prop :=
  Player.y p' = Player.y p /\ Player.width p' = Player.width p /\
  Player.height p' = Player.height p /\ Player.speed p' = Player.speed p /\
  Player.baseShootCooldown p' = Player.baseShootCooldown p /\
  Player.maxInvulnerabilityTime p' = Player.maxInvulnerabilityTime p /\
  (cooldownSet p -> cooldownSet p').

(** The player as the game builds it: 40 by 30, 50 above the bottom of
    the canvas, with the constants of the constructor. *)
Definition playerBuilt (canvasHeight : Q) (p : Player.t) : Prop :=
  Player.width p = 40 /\ Player.height p = 30 /\
  Player.y p = canvasHeight - 50 /\ Player.speed p = 5 /\
  Player.baseShootCooldown p = 25 # 100 /\
  Player.maxInvulnerabilityTime p = 2 /\
  cooldownSet p.

(** The player is within the canvas from side to side. *)
Definition playerOnCanvas (canvasWidth : Q) (p : Player.t) : Prop :=
  0 <= Player.x p /\ Player.x p + Player.width p <= canvasWidth.

(** A bullet in flight: active and on the screen. *)
Definition inFlight (canvasWidth canvasHeight : Q) (b : Bullet.t) : Prop :=
  Bullet.active b = true /\
  onScreen canvasWidth canvasHeight b (Bullet.x b) (Bullet.y b).

(** Every enemy of the level is either alive or counted as killed. *)
Definition census (g : Game.t) : Prop :=
  (Game.enemiesKilled g + Z.of_nat (length (Game.enemies g))
   = Game.totalEnemies g)%Z.

(** What a step of the game keeps: the canvas, the player as built, and
    the number of enemies alive or killed. *)
Definition steady (g g' : Game.t) : Prop :=
  Game.canvasWidth g' = Game.canvasWidth g /\
  Game.canvasHeight g' = Game.canvasHeight g /\
  Game.totalEnemies g' = Game.totalEnemies g /\
  playerKept (Game.player g) (Game.player g') /\
  (Game.enemiesKilled g' + Z.of_nat (length (Game.enemies g'))
   = Game.enemiesKilled g + Z.of_nat (length (Game.enemies g)))%Z.

(** What a phase of the collisions keeps on top of that: the place of
    the player, and no bullet is added. *)
Definition settles (g g' : Game.t) : Prop :=
  steady g g' /\
  Player.x (Game.player g') = Player.x (Game.player g) /\
  sublist (Game.bullets g') (Game.bullets g) /\
  sublist (Game.enemyBullets g') (Game.enemyBullets g).

(** The part of the game that the invariant below speaks of. *)
Definition core (g : Game.t)
    : Q * Q * Player.t * list Bullet.t * list Bullet.t * list Enemy.t * Z * Z :=
  (Game.canvasWidth g, Game.canvasHeight g, Game.player g, Game.bullets g,
   Game.enemyBullets g, Game.enemies g, Game.enemiesKilled g,
   Game.totalEnemies g).

(** The invariant of a run on a canvas of [width] by [height]. *)
Definition gameInvariant (width height : Q) (g : Game.t) : Prop :=
  Game.canvasWidth g = width /\ Game.canvasHeight g = height /\
  playerBuilt height (Game.player g) /\
  census g /\
  (40 <= width -> playerOnCanvas width (Game.player g)) /\
  (40 <= width -> 50 <= height ->
   Forall (inFlight width height) (Game.bullets g) /\
   Forall (inFlight width height) (Game.enemyBullets g)).

End Spec.

(** ** Comparisons *)

Lemma Qltb_lt (a b : Q) : Qltb a b = true <-> (a < b)%Q.
Proof.
  unfold Qltb. rewrite negb_true_iff, <- not_true_iff_false, Qle_bool_iff.
  split; [apply Qnot_le_lt | apply Qlt_not_le].
Qed.

Lemma Qltb_ge (a b : Q) : Qltb a b = false <-> (b <= a)%Q.
Proof.
  unfold Qltb. rewrite negb_false_iff. apply Qle_bool_iff.
Qed.

Lemma Qleb_le (a b : Q) : Qleb a b = true <-> (a <= b)%Q.
Proof. apply Qle_bool_iff. Qed.

Lemma Qleb_gt (a b : Q) : Qleb a b = false <-> (b < a)%Q.
Proof.
  unfold Qleb. rewrite <- not_true_iff_false, Qle_bool_iff.
  split; [apply Qnot_le_lt | apply Qlt_not_le].
Qed.

(** ** The overlap predicate *)

Lemma checkCollision_overlap (a b : Rect.t) :
  Utils.checkCollision a b = true <-> Spec.overlap a b.
Proof.
  unfold Utils.checkCollision, Spec.overlap.
  rewrite !andb_true_iff, !Qltb_lt. tauto.
Qed.

Lemma intervals_share_point (a1 a2 b1 b2 : Q) :
  (a1 < a2 -> b1 < b2 -> a1 < b2 -> b1 < a2 ->
   exists p, a1 < p /\ p < a2 /\ b1 < p /\ p < b2)%Q.
Proof.
  intros Ha Hb Hab Hba.
  destruct (Qlt_le_dec a1 b1) as [Hlo | Hlo], (Qlt_le_dec a2 b2) as [Hhi | Hhi].
  - exists ((b1 + a2) * (1 # 2))%Q. repeat split; lra.
  - exists ((b1 + b2) * (1 # 2))%Q. repeat split; lra.
  - exists ((a1 + a2) * (1 # 2))%Q. repeat split; lra.
  - exists ((a1 + b2) * (1 # 2))%Q. repeat split; lra.
Qed.

(** For rectangles of positive size, the converse of the last part of
    C2: rectangles that collide have a common inner point. *)
Lemma overlap_has_inside_point (a b : Rect.t) :
  (0 < Rect.width a)%Q -> (0 < Rect.height a)%Q ->
  (0 < Rect.width b)%Q -> (0 < Rect.height b)%Q ->
  Utils.checkCollision a b = true ->
  exists px py, Spec.inside a px py /\ Spec.inside b px py.
Proof.
  rewrite checkCollision_overlap.
  destruct a as [ax ay aw ah], b as [bx by_ bw bh].
  unfold Spec.overlap, Spec.inside; simpl. intros ? ? ? ? (H1 & H2 & H3 & H4).
  destruct (intervals_share_point ax (ax + aw) bx (bx + bw)) as (px & Hpx); [lra.. |].
  destruct (intervals_share_point ay (ay + ah) by_ (by_ + bh)) as (py & Hpy); [lra.. |].
  exists px, py. tauto.
Qed.

(** C2.  [checkCollision] is true exactly when the four strict
    inequalities hold; rectangles of which a side only touches the
    opposite side of the other do not collide; and two rectangles that
    have a point strictly inside both, that is, an intersection of
    positive area, collide. *)
Theorem checkCollision_strict_aabb (a b : Rect.t) :
  (Utils.checkCollision a b = true <->
     (Rect.x a < Rect.x b + Rect.width b /\
      Rect.x a + Rect.width a > Rect.x b /\
      Rect.y a < Rect.y b + Rect.height b /\
      Rect.y a + Rect.height a > Rect.y b)%Q) /\
  (Spec.touching a b -> Utils.checkCollision a b = false) /\
  ((exists px py, Spec.inside a px py /\ Spec.inside b px py) ->
     Utils.checkCollision a b = true).
Proof.
  split; [apply checkCollision_overlap |]. split.
  - intros Ht. apply not_true_iff_false. rewrite checkCollision_overlap.
    unfold Spec.touching, Spec.overlap in *. intros (H1 & H2 & H3 & H4).
    destruct Ht as [Ht | [Ht | [Ht | Ht]]]; lra.
  - intros (px & py & Ha & Hb). apply checkCollision_overlap.
    unfold Spec.inside, Spec.overlap in *. repeat split; lra.
Qed.

Lemma checkCollision_strict_aabb_witness :
  Utils.checkCollision (Rect.mk 0 0 4 8) (Rect.mk 4 0 30 25) = false /\
  Utils.checkCollision (Rect.mk 0 0 4 8) (Rect.mk 3 7 30 25) = true.
Proof.
  split.
  - apply (checkCollision_strict_aabb (Rect.mk 0 0 4 8) (Rect.mk 4 0 30 25)).
    left. reflexivity.
  - apply (checkCollision_strict_aabb (Rect.mk 0 0 4 8) (Rect.mk 3 7 30 25)).
    exists (7 # 2)%Q, (15 # 2)%Q. vm_compute. intuition congruence.
Defined.

(** ** Damage to the player *)

Lemma takeDamage_with_shield (p : Player.t) :
  Player.hasShield p = true ->
  Player.takeDamage p =
    (false, Player.set_shieldTime 0 (Player.set_hasShield false p)).
Proof. intros Hs. unfold Player.takeDamage. now rewrite Hs. Qed.

Lemma takeDamage_without_shield (p : Player.t) :
  Player.hasShield p = false ->
  let p' := snd (Player.takeDamage p) in
  fst (Player.takeDamage p) = negb (Player.invulnerable p) /\
  Player.hasShield p' = false /\
  Player.shieldTime p' = Player.shieldTime p /\
  Player.hasMultiShot p' = false /\
  Player.invulnerable p' = true /\
  Player.invulnerabilityTime p' =
    (if Player.invulnerable p then Player.invulnerabilityTime p
     else Player.maxInvulnerabilityTime p).
Proof.
  intros Hs. unfold Player.takeDamage. rewrite Hs.
  destruct p; simpl in *.
  destruct hasMultiShot, invulnerable; simpl; auto 10.
Qed.

(** C4.  [takeDamage()] on any player: with the shield up, the shield
    and its timer are cleared, nothing else changes and no damage is
    reported; without it, multi-shot is lost, and damage is reported,
    with invulnerability set for its fixed time, exactly when the player
    was not invulnerable.  So the hit that follows the pick-up of a
    shield costs no life, and the hit after that one is resolved as for
    the same player without a shield. *)
Theorem takeDamage_resolution (p : Player.t) :
  (Player.hasShield p = true ->
     Player.takeDamage p =
       (false, Player.set_shieldTime 0 (Player.set_hasShield false p)) /\
     Player.invulnerable (snd (Player.takeDamage p)) = Player.invulnerable p /\
     Player.hasMultiShot (snd (Player.takeDamage p)) = Player.hasMultiShot p) /\
  (Player.hasShield p = false -> Player.invulnerable p = false ->
     fst (Player.takeDamage p) = true /\
     Player.hasMultiShot (snd (Player.takeDamage p)) = false /\
     Player.invulnerable (snd (Player.takeDamage p)) = true /\
     Player.invulnerabilityTime (snd (Player.takeDamage p)) =
       Player.maxInvulnerabilityTime p) /\
  (Player.hasShield p = false -> Player.invulnerable p = true ->
     fst (Player.takeDamage p) = false /\
     Player.hasMultiShot (snd (Player.takeDamage p)) = false /\
     Player.invulnerable (snd (Player.takeDamage p)) = true /\
     Player.invulnerabilityTime (snd (Player.takeDamage p)) =
       Player.invulnerabilityTime p) /\
  (forall duration,
     let shielded := Player.activatePowerUp shield duration p in
     let afterFirst := snd (Player.takeDamage shielded) in
     fst (Player.takeDamage shielded) = false /\
     Player.hasShield afterFirst = false /\
     Player.takeDamage afterFirst =
       Player.takeDamage
         (Player.set_shieldTime 0 (Player.set_hasShield false p))) /\
  (forall g bullet,
     Game.player g = p ->
     Game.enemyBullets g = [bullet] ->
     entityCheckCollision bullet p = true ->
     let g' := Game.enemyBulletsVsPlayer 1 g in
     Game.enemyBullets g' = [] /\
     Game.player g' = snd (Player.takeDamage p) /\
     Game.lives g' =
       (if Player.hasShield p || Player.invulnerable p
        then Game.lives g else Game.lives g - 1)%Z).
Proof.
  split; [| split; [| split; [| split]]].
  - intros Hs. rewrite (takeDamage_with_shield p Hs). destruct p; auto.
  - intros Hs Hi.
    destruct (takeDamage_without_shield p Hs) as (H1 & _ & _ & H2 & H3 & H4).
    rewrite Hi in *. auto.
  - intros Hs Hi.
    destruct (takeDamage_without_shield p Hs) as (H1 & _ & _ & H2 & H3 & H4).
    rewrite Hi in *. auto.
  - intros duration. cbn zeta.
    rewrite (takeDamage_with_shield (Player.activatePowerUp shield duration p));
      [| now destruct p].
    now destruct p.
  - intros g bullet Hp Hb Hc. cbn zeta. simpl. rewrite Hb. simpl.
    rewrite Hp, Hc.
    destruct (Player.hasShield p) eqn:Hs.
    + rewrite (takeDamage_with_shield p Hs). simpl. destruct g; simpl in *.
      subst. auto.
    + destruct (takeDamage_without_shield p Hs) as (H1 & _).
      destruct (Player.takeDamage p) as [damaged p'] eqn:Ht. simpl in *.
      subst damaged.
      destruct (Player.invulnerable p); simpl; destruct g; simpl in *;
        subst; auto.
Qed.

Lemma takeDamage_resolution_witness :
  let p := Player.activatePowerUp shield 10 (Player.new 380 550) in
  Player.takeDamage p =
    (false, Player.set_shieldTime 0 (Player.set_hasShield false p)) /\
  fst (Player.takeDamage (snd (Player.takeDamage p))) = true.
Proof.
  cbn zeta. split.
  - apply (proj1 (takeDamage_resolution
             (Player.activatePowerUp shield 10 (Player.new 380 550)))).
    reflexivity.
  - apply (proj1 (proj2 (takeDamage_resolution
             (snd (Player.takeDamage
                (Player.activatePowerUp shield 10 (Player.new 380 550)))))));
      reflexivity.
Defined.

(** ** The wave step *)

Lemma hitEdge_flag (g : Game.t) (es : list Enemy.t) (flag : bool) :
  fold_left (fun flag enemy => if Game.atEdge g enemy then true else flag) es flag
  = flag || existsb (Game.atEdge g) es.
Proof.
  revert flag. induction es as [| e es IH]; intros flag; simpl.
  - now rewrite orb_false_r.
  - rewrite IH. destruct (Game.atEdge g e), flag; reflexivity.
Qed.

Lemma atEdge_spec (g : Game.t) (e : Enemy.t) :
  Game.atEdge g e = true <-> Spec.atCanvasEdge g e.
Proof.
  unfold Game.atEdge, Spec.atCanvasEdge.
  rewrite orb_true_iff, !andb_true_iff, !Qleb_le, !Z.eqb_eq. tauto.
Qed.

Lemma hitEdge_spec (g : Game.t) :
  fold_left (fun flag enemy => if Game.atEdge g enemy then true else flag)
    (Game.enemies g) false = true <-> Spec.hitEdge g.
Proof.
  rewrite hitEdge_flag. simpl. rewrite existsb_exists. unfold Spec.hitEdge.
  split; intros (e & He & Hedge); exists e; split; auto; now apply atEdge_spec.
Qed.

Lemma moveEnemies_hit (g : Game.t) :
  Spec.hitEdge g ->
  Game.moveEnemies g =
    Game.set_enemies (map Enemy.moveDown (Game.enemies g))
      (Game.set_enemyDirection (Game.enemyDirection g * -1)%Z g).
Proof.
  intros Hh. apply hitEdge_spec in Hh. unfold Game.moveEnemies.
  rewrite Hh. now destruct g.
Qed.

Lemma moveEnemies_no_hit (g : Game.t) :
  ~ Spec.hitEdge g ->
  Game.moveEnemies g =
    Game.set_enemies
      (map (fun enemy =>
         Enemy.set_x
           (Enemy.x enemy + Enemy.speed enemy * inject_Z (Game.enemyDirection g))%Q
           enemy) (Game.enemies g)) g.
Proof.
  intros Hh. rewrite <- hitEdge_spec in Hh. apply not_true_is_false in Hh.
  unfold Game.moveEnemies. now rewrite Hh.
Qed.

Lemma Forall2_map_same {A : Type} (R : A -> A -> Prop) (f : A -> A) (l : list A) :
  (forall a, R a (f a)) -> Forall2 R l (map f l).
Proof. intros HR. induction l; simpl; constructor; auto. Qed.

Lemma moveEnemies_dropped (g : Game.t) :
  Spec.hitEdge g ->
  Game.enemyDirection (Game.moveEnemies g) = (- Game.enemyDirection g)%Z /\
  Forall2 Spec.dropped (Game.enemies g) (Game.enemies (Game.moveEnemies g)).
Proof.
  intros Hh. rewrite (moveEnemies_hit g Hh). destruct g; simpl. split.
  - lia.
  - apply Forall2_map_same. intros e. now destruct e.
Qed.

Lemma moveEnemies_advanced (g : Game.t) :
  ~ Spec.hitEdge g ->
  Game.enemyDirection (Game.moveEnemies g) = Game.enemyDirection g /\
  Forall2 (Spec.advanced (Game.enemyDirection g))
    (Game.enemies g) (Game.enemies (Game.moveEnemies g)).
Proof.
  intros Hh. rewrite (moveEnemies_no_hit g Hh). destruct g; simpl. split.
  - reflexivity.
  - apply Forall2_map_same. intros e. now destruct e.
Qed.

(** C1.  A wave step first computes one hit-edge flag over all the
    enemies, for the current direction.  With the flag set, the shared
    direction is negated and every enemy moves down by its [dropSpeed],
    no [x] changing; otherwise the direction stays and every enemy moves
    by [speed * direction] in [x], no [y] changing.  In particular, a
    swarm moving right with an enemy whose right side is at the canvas
    width turns left and drops. *)
Theorem moveEnemies_wave_step (g : Game.t) :
  (Spec.hitEdge g ->
     Game.enemyDirection (Game.moveEnemies g) = (- Game.enemyDirection g)%Z /\
     Forall2 Spec.dropped (Game.enemies g) (Game.enemies (Game.moveEnemies g))) /\
  (~ Spec.hitEdge g ->
     Game.enemyDirection (Game.moveEnemies g) = Game.enemyDirection g /\
     Forall2 (Spec.advanced (Game.enemyDirection g))
       (Game.enemies g) (Game.enemies (Game.moveEnemies g))) /\
  (Game.enemyDirection g = 1%Z ->
   (exists e, In e (Game.enemies g) /\
      (Enemy.x e + Enemy.width e == Game.canvasWidth g)%Q) ->
     Game.enemyDirection (Game.moveEnemies g) = (-1)%Z /\
     Forall2 Spec.dropped (Game.enemies g) (Game.enemies (Game.moveEnemies g))).
Proof.
  split; [apply moveEnemies_dropped |]. split; [apply moveEnemies_advanced |].
  intros Hd (e & He & Hx).
  assert (Hh : Spec.hitEdge g).
  { exists e. split; [assumption |]. right. split; [lra | assumption]. }
  destruct (moveEnemies_dropped g Hh) as [Hdir Hdrop].
  rewrite Hd in Hdir. auto.
Qed.

Lemma moveEnemies_wave_step_witness :
  let g :=
    Game.set_enemies [Enemy.new 50 80 basic; Enemy.new 770 80 basic]
      (Game.new 800 600 (fun _ => 0%Q)) in
  Game.enemyDirection (Game.moveEnemies g) = (-1)%Z /\
  Forall2 Spec.dropped (Game.enemies g) (Game.enemies (Game.moveEnemies g)).
Proof.
  cbn zeta.
  apply (proj2 (proj2 (moveEnemies_wave_step
           (Game.set_enemies [Enemy.new 50 80 basic; Enemy.new 770 80 basic]
              (Game.new 800 600 (fun _ => 0%Q)))))).
  - reflexivity.
  - exists (Enemy.new 770 80 basic). split.
    + right. left. reflexivity.
    + reflexivity.
Defined.

(** The scenario of the specification: 5 rows of 7 enemies of speed 1
    and drop speed 20 on a canvas 800 wide, moving right.  After 420
    steps the rightmost enemies have their right side at 800; step 421
    turns the swarm left and moves every enemy down by 20, no [x]
    changing. *)
Example wave_turns_at_right_edge :
  let g420 := Nat.iter 420 Game.moveEnemies Spec.sampleGame in
  Game.enemyDirection g420 = 1%Z /\
  existsb (fun e => Qleb 800 (Enemy.x e + Enemy.width e)) (Game.enemies g420)
    = true /\
  Game.enemyDirection (Game.moveEnemies g420) = (-1)%Z /\
  Spec.positions (Game.moveEnemies g420) =
    map (fun xy => (fst xy, snd xy + 20)%Q) (Spec.positions g420).
Proof. vm_compute. auto. Qed.

(** ** The formation moves rigidly *)

Lemma createEnemies_speeds (g : Game.t) (ld : Level.t) :
  Game.levelData g = Some ld ->
  forall e, In e (Game.enemies (Game.createEnemies g)) ->
    Enemy.speed e = Level.enemySpeed ld /\
    Enemy.dropSpeed e = Level.enemyDropSpeed ld.
Proof.
  intros Hld e. unfold Game.createEnemies. rewrite Hld.
  destruct g; simpl. rewrite in_flat_map. intros (row & _ & Hrow).
  rewrite in_map_iff in Hrow. destruct Hrow as (col & <- & _).
  unfold Enemy.new, Enemy.setTypeProperties; simpl.
  destruct (Level.enemyType ld); auto.
Qed.

Lemma Forall2_impl_In {A : Type} (R R' : A -> A -> Prop) (l k : list A) :
  Forall2 R l k -> (forall a b, In a l -> R a b -> R' a b) -> Forall2 R' l k.
Proof.
  induction 1 as [| a b l k Hab Hlk IH]; intros Himp; constructor.
  - apply Himp; [now left | assumption].
  - apply IH. intros a' b' Hin. apply Himp. now right.
Qed.

Lemma hitEdge_decidable (g : Game.t) : Spec.hitEdge g \/ ~ Spec.hitEdge g.
Proof.
  rewrite <- hitEdge_spec.
  destruct (fold_left _ (Game.enemies g) false); [left | right]; congruence.
Qed.

Lemma moveEnemies_displaced (g : Game.t) (s d : Q) :
  Spec.uniform s d (Game.enemies g) ->
  exists dx dy,
    Forall2 (Spec.displaced dx dy)
      (Game.enemies g) (Game.enemies (Game.moveEnemies g)).
Proof.
  intros Hu. destruct (hitEdge_decidable g) as [Hh | Hh].
  - exists 0%Q, d. destruct (moveEnemies_dropped g Hh) as [_ Hdrop].
    apply Forall2_impl_In with (R := Spec.dropped); [exact Hdrop |].
    intros a b Hin [Hx Hy].
    destruct (Hu a Hin) as [_ Hd]. unfold Spec.displaced.
    rewrite Hx, Hy. split; lra.
  - exists (s * inject_Z (Game.enemyDirection g))%Q, 0%Q.
    destruct (moveEnemies_advanced g Hh) as [_ Hadv].
    apply Forall2_impl_In with (R := Spec.advanced (Game.enemyDirection g));
      [exact Hadv |].
    intros a b Hin [Hx Hy].
    destruct (Hu a Hin) as [Hs _]. unfold Spec.displaced.
    rewrite Hx, Hy. split; [rewrite Hs |]; lra.
Qed.

(** In exact arithmetic a wave step on a swarm whose enemies all have
    the same speed and the same drop speed displaces every enemy by one
    and the same [(dx, dy)], and the difference of the positions of any
    two enemies is what it was before the step.  The sums of the program
    are rounded: see [moveEnemies_same_displacement] below. *)
Lemma moveEnemies_rigid_exact (g : Game.t) :
  (forall ld, Game.levelData g = Some ld ->
     Spec.uniform (Level.enemySpeed ld) (Level.enemyDropSpeed ld)
       (Game.enemies (Game.createEnemies g))) /\
  (forall s d, Spec.uniform s d (Game.enemies g) ->
     length (Game.enemies (Game.moveEnemies g)) = length (Game.enemies g) /\
     (exists dx dy,
        Forall2 (Spec.displaced dx dy)
          (Game.enemies g) (Game.enemies (Game.moveEnemies g))) /\
     (forall i j a b a' b',
        Game.enemies g !! i = Some a ->
        Game.enemies g !! j = Some b ->
        Game.enemies (Game.moveEnemies g) !! i = Some a' ->
        Game.enemies (Game.moveEnemies g) !! j = Some b' ->
        (Enemy.x a' - Enemy.x b' == Enemy.x a - Enemy.x b /\
         Enemy.y a' - Enemy.y b' == Enemy.y a - Enemy.y b)%Q)).
Proof.
  split.
  - intros ld Hld e He.
    destruct (createEnemies_speeds g ld Hld e He) as [-> ->]. split; reflexivity.
  - intros s d Hu.
    destruct (moveEnemies_displaced g s d Hu) as (dx & dy & Hdisp).
    split; [symmetry; eapply Forall2_length, Hdisp |].
    split; [now exists dx, dy |].
    intros i j a b a' b' Ha Hb Ha' Hb'.
    destruct (Forall2_lookup_lr _ _ _ _ _ _ Hdisp Ha Ha') as [Hax Hay].
    destruct (Forall2_lookup_lr _ _ _ _ _ _ Hdisp Hb Hb') as [Hbx Hby].
    split; lra.
Qed.

(** ** The formation on doubles *)

Lemma double_createEnemies_speeds (g : Double.Game.t) (ld : Double.Level.t) :
  Double.Game.levelData g = Some ld ->
  Spec.doubleUniform (Double.Level.enemySpeed ld) (Double.Level.enemyDropSpeed ld)
    (Double.Game.enemies (Double.Game.createEnemies g)).
Proof.
  intros Hld. unfold Double.Game.createEnemies. rewrite Hld.
  unfold Spec.doubleUniform. cbn.
  apply List.Forall_forall. intros e He.
  apply in_flat_map in He. destruct He as (row & _ & He).
  apply in_map_iff in He. destruct He as (col & <- & _).
  split; reflexivity.
Qed.

Lemma double_moveEnemies_hit (g : Double.Game.t) :
  Double.Game.hitEdge g = true ->
  Double.Game.enemyDirection (Double.Game.moveEnemies g) =
    (Double.Game.enemyDirection g * -1)%float /\
  Double.Game.enemies (Double.Game.moveEnemies g) =
    map Double.Enemy.moveDown (Double.Game.enemies g).
Proof.
  intros Hhit. unfold Double.Game.moveEnemies. rewrite Hhit.
  now destruct g.
Qed.

Lemma double_moveEnemies_no_hit (g : Double.Game.t) :
  Double.Game.hitEdge g = false ->
  Double.Game.enemyDirection (Double.Game.moveEnemies g) =
    Double.Game.enemyDirection g /\
  Double.Game.enemies (Double.Game.moveEnemies g) =
    map (fun enemy =>
           Double.Enemy.set_x
             (Double.Enemy.x enemy
              + Double.Enemy.speed enemy * Double.Game.enemyDirection g)%float
             enemy)
      (Double.Game.enemies g).
Proof.
  intros Hhit. unfold Double.Game.moveEnemies. rewrite Hhit.
  now destruct g.
Qed.

Lemma Forall2_map_uniform {A : Type} (P : A -> Prop) (R : A -> A -> Prop)
    (f : A -> A) (l : list A) :
  (forall a, P a -> R a (f a)) -> Forall P l -> Forall2 R l (map f l).
Proof.
  intros Hf Hl. induction Hl as [| a l Ha _ IH]; simpl; constructor; auto.
Qed.

(** C10, as the code has it.  [createEnemies] gives every enemy the
    speed and the drop speed of the level.  On a swarm whose enemies all
    have the speed [s] and the drop speed [d], a wave step adds one and
    the same displacement to every enemy: on a step that hits an edge
    the direction is negated, no [x] changes and every [y] becomes the
    double nearest to [y + d]; otherwise the direction stays, no [y]
    changes and every [x] becomes the double nearest to
    [x + s * direction]. *)
Theorem moveEnemies_same_displacement (g : Double.Game.t) :
  (forall ld, Double.Game.levelData g = Some ld ->
     Spec.doubleUniform
       (Double.Level.enemySpeed ld) (Double.Level.enemyDropSpeed ld)
       (Double.Game.enemies (Double.Game.createEnemies g))) /\
  (forall s d, Spec.doubleUniform s d (Double.Game.enemies g) ->
     (Double.Game.hitEdge g = true ->
        Double.Game.enemyDirection (Double.Game.moveEnemies g) =
          (Double.Game.enemyDirection g * -1)%float /\
        Forall2 (fun e e' =>
            Double.Enemy.x e' = Double.Enemy.x e /\
            Double.Enemy.y e' = (Double.Enemy.y e + d)%float)
          (Double.Game.enemies g)
          (Double.Game.enemies (Double.Game.moveEnemies g))) /\
     (Double.Game.hitEdge g = false ->
        Double.Game.enemyDirection (Double.Game.moveEnemies g) =
          Double.Game.enemyDirection g /\
        Forall2 (fun e e' =>
            Double.Enemy.x e' =
              (Double.Enemy.x e + s * Double.Game.enemyDirection g)%float /\
            Double.Enemy.y e' = Double.Enemy.y e)
          (Double.Game.enemies g)
          (Double.Game.enemies (Double.Game.moveEnemies g)))).
Proof.
  split; [apply double_createEnemies_speeds |].
  intros s d Hu. split; intros Hhit.
  - destruct (double_moveEnemies_hit g Hhit) as [-> ->].
    split; [reflexivity |].
    eapply Forall2_map_uniform; [| exact Hu].
    intros e [_ <-]. now destruct e.
  - destruct (double_moveEnemies_no_hit g Hhit) as [-> ->].
    split; [reflexivity |].
    eapply Forall2_map_uniform; [| exact Hu].
    intros e [<- _]. now destruct e.
Qed.

Lemma moveEnemies_same_displacement_witness :
  let g := Spec.doubleSwarm 2 Spec.shippedLevel2 in
  Double.Game.enemyDirection (Double.Game.moveEnemies g) =
    Double.Game.enemyDirection g /\
  Forall2 (fun e e' =>
      Double.Enemy.x e' =
        (Double.Enemy.x e + 1.2 * Double.Game.enemyDirection g)%float /\
      Double.Enemy.y e' = Double.Enemy.y e)
    (Double.Game.enemies g)
    (Double.Game.enemies (Double.Game.moveEnemies g)).
Proof.
  cbn zeta.
  destruct (moveEnemies_same_displacement
              (Spec.doubleSwarm 2 Spec.shippedLevel2)) as [_ Hstep].
  apply (Hstep 1.2%float 25%float).
  - apply (double_createEnemies_speeds _ Spec.shippedLevel2). reflexivity.
  - vm_compute. reflexivity.
Defined.

(** C10 as stated fails on level 2 as the server has it, where the speed
    is 1.2.  All forty enemies have that speed and the drop speed 25.
    Before the first wave step the second and the third enemy of the
    first row are at 100 and 150, exactly 50 apart; after it they are at
    the doubles nearest to 101.2 and 151.2, which are less than 50
    apart. *)
Lemma moveEnemies_gap_changes :
  let g := Spec.doubleSwarm 2 Spec.shippedLevel2 in
  let g' := Double.Game.moveEnemies g in
  Spec.doubleUniform 1.2%float 25%float (Double.Game.enemies g) /\
  Spec.doubleX 1 g = Some 100%Q /\ Spec.doubleX 2 g = Some 150%Q /\
  exists a b,
    Spec.doubleX 1 g' = Some a /\ Spec.doubleX 2 g' = Some b /\
    (b - a < 50)%Q /\ (49 < b - a)%Q.
Proof.
  cbn zeta. split.
  - apply (double_createEnemies_speeds _ Spec.shippedLevel2). reflexivity.
  - split; [vm_compute; reflexivity |]. split; [vm_compute; reflexivity |].
    eexists. eexists.
    split; [vm_compute; reflexivity |]. split; [vm_compute; reflexivity |].
    split; reflexivity.
Qed.

(** ** The move timer of the swarm *)

Lemma enemiesAct_spec (deltaTime : Q) (es : list Enemy.t) (g : Game.t) :
  exists shots cursor,
    Game.enemiesAct deltaTime es g =
      (map (Enemy.update deltaTime) es,
       Game.set_randomCursor cursor (Game.set_enemyBullets shots g)).
Proof.
  revert g. induction es as [| e es IH]; intros g; simpl.
  - exists (Game.enemyBullets g), (Game.randomCursor g). now destruct g.
  - match goal with
    | |- context [Game.enemiesAct deltaTime es ?g2] =>
        destruct (IH g2) as (shots & cursor & ->)
    end.
    destruct (Enemy.shouldShoot _ _); destruct g; simpl; eauto.
Qed.

Lemma moveEnemies_set_enemyMoveTimer (v : Q) (g : Game.t) :
  Game.moveEnemies (Game.set_enemyMoveTimer v g) =
  Game.set_enemyMoveTimer v (Game.moveEnemies g).
Proof.
  unfold Game.moveEnemies.
  replace (fold_left _ (Game.enemies (Game.set_enemyMoveTimer v g)) false)
    with (fold_left (fun flag enemy => if Game.atEdge g enemy then true else flag)
            (Game.enemies g) false)
    by now destruct g.
  destruct (fold_left _ (Game.enemies g) false); now destruct g.
Qed.

Lemma positions_update (deltaTime : Q) (es : list Enemy.t) :
  map (fun e => (Enemy.x e, Enemy.y e)) (map (Enemy.update deltaTime) es) =
  map (fun e => (Enemy.x e, Enemy.y e)) es.
Proof. rewrite map_map. apply map_ext. intros e. now destruct e. Qed.

Lemma Math_max_spec (a b : Q) :
  (a <= Math_max a b /\ b <= Math_max a b /\
   (Math_max a b = a \/ Math_max a b = b))%Q.
Proof.
  unfold Math_max. destruct (Qleb a b) eqn:H.
  - apply Qleb_le in H. repeat split; auto; lra.
  - apply Qleb_gt in H. repeat split; auto; lra.
Qed.

(** *** What leaves the move timer alone *)


Lemma moveClock_levelData (a b : Game.t) :
  Spec.moveClock a = Spec.moveClock b -> Game.levelData a = Game.levelData b.
Proof. unfold Spec.moveClock. intros Hc. now inversion Hc. Qed.

Lemma handleInput_moveClock `{MathLib} (g : Game.t) :
  Spec.moveClock (Game.handleInput g) = Spec.moveClock g.
Proof.
  assert (Hshoot : forall g0, Spec.moveClock (Game.playerShoot g0) = Spec.moveClock g0).
  { intros g0. unfold Game.playerShoot.
    destruct (Player.shoot _ (Game.player g0)) as [[fired |] p']; now destruct g0. }
  assert (Hplayer : forall p g0,
            Spec.moveClock (Game.set_player p g0) = Spec.moveClock g0)
    by (intros p g0; now destruct g0).
  unfold Game.handleInput. cbn zeta.
  repeat match goal with
         | |- context [if ?c then _ else _] => destruct c
         end;
    rewrite ?Hshoot, ?Hplayer; reflexivity.
Qed.

Lemma playerBulletsVsEnemies_moveClock (i : nat) (g : Game.t) :
  Spec.moveClock (Game.playerBulletsVsEnemies i g) = Spec.moveClock g.
Proof.
  revert g. induction i as [| i IH]; intros g; simpl; [reflexivity |].
  destruct (Game.bullets g !! i) as [bullet |]; [| apply IH].
  destruct (Game.lastEnemyHit _ _ _) as [[j enemy] |]; [| apply IH].
  rewrite IH. destruct (Qltb _ _); now destruct g.
Qed.

Lemma powerUpsVsPlayer_moveClock (i : nat) (g : Game.t) :
  Spec.moveClock (Game.powerUpsVsPlayer i g) = Spec.moveClock g.
Proof.
  revert g. induction i as [| i IH]; intros g; simpl; [reflexivity |].
  destruct (Game.powerUps g !! i) as [u |]; [| apply IH].
  destruct (entityCheckCollision u (Game.player g)); [| apply IH].
  rewrite IH. unfold Game.applyPowerUp.
  destruct (PowerUp.type u) as [[] |]; now destruct g.
Qed.

Lemma enemyBulletsVsPlayer_moveClock (i : nat) (g : Game.t) :
  Spec.moveClock (Game.enemyBulletsVsPlayer i g) = Spec.moveClock g.
Proof.
  revert g. induction i as [| i IH]; intros g; simpl; [reflexivity |].
  destruct (Game.enemyBullets g !! i) as [bullet |]; [| apply IH].
  destruct (entityCheckCollision bullet (Game.player g)); [| apply IH].
  destruct (Player.takeDamage (Game.player g)) as [[] p']; rewrite IH;
    now destruct g.
Qed.

Lemma enemiesReachedPlayer_moveClock (g : Game.t) :
  Spec.moveClock (Game.enemiesReachedPlayer g) = Spec.moveClock g.
Proof.
  unfold Game.enemiesReachedPlayer. generalize (Game.enemies g) as es.
  intros es. revert g. induction es as [| e es IH]; intros g; simpl;
    [reflexivity |].
  rewrite IH. destruct (Qleb _ _); now destruct g.
Qed.

Lemma checkCollisions_moveClock (g : Game.t) :
  Spec.moveClock (Game.checkCollisions g) = Spec.moveClock g.
Proof.
  unfold Game.checkCollisions. cbn zeta.
  rewrite enemiesReachedPlayer_moveClock, enemyBulletsVsPlayer_moveClock.
  unfold Game.enemyBulletsVsWalls at 1.
  destruct (Game.bulletsVsWalls false _ _ _) as [shots4 barriers4].
  transitivity (Spec.moveClock
    (Game.powerUpsVsPlayer
       (length (Game.powerUps
          (Game.playerBulletsVsEnemies
             (length (Game.bullets (Game.cleanUpWalls (Game.playerBulletsVsWalls g))))
             (Game.cleanUpWalls (Game.playerBulletsVsWalls g)))))
       (Game.playerBulletsVsEnemies
          (length (Game.bullets (Game.cleanUpWalls (Game.playerBulletsVsWalls g))))
          (Game.cleanUpWalls (Game.playerBulletsVsWalls g)))));
    [now destruct (Game.powerUpsVsPlayer _ _) |].
  rewrite powerUpsVsPlayer_moveClock, playerBulletsVsEnemies_moveClock.
  unfold Game.playerBulletsVsWalls.
  destruct (Game.bulletsVsWalls true _ _ _). now destruct g.
Qed.

Lemma checkGameConditions_moveClock (g : Game.t) :
  Spec.moveClock (Game.checkGameConditions g) = Spec.moveClock g.
Proof.
  unfold Game.checkGameConditions.
  destruct (_ && _); [now destruct g |]. destruct (_ && _); now destruct g.
Qed.




(** *** The level is loaded in every state of a run

    so that no tick and no creation of enemies or walls reads a field of
    a [levelData] that is [null]. *)

Lemma moveEnemies_levelData (g : Game.t) :
  Game.levelData (Game.moveEnemies g) = Game.levelData g.
Proof.
  unfold Game.moveEnemies. destruct (fold_left _ _ _); now destruct g.
Qed.

Lemma updateEnemies_levelData (deltaTime : Q) (g : Game.t) :
  Game.levelData (Game.updateEnemies deltaTime g) = Game.levelData g.
Proof.
  unfold Game.updateEnemies. cbn zeta.
  match goal with
  | |- context [Game.enemiesAct deltaTime ?es ?g2] =>
      destruct (enemiesAct_spec deltaTime es g2) as (shots & cursor & ->);
      transitivity (Game.levelData g2); [now destruct g2 |]
  end.
  destruct (Qleb _ _); [| now destruct g].
  transitivity (Game.levelData (Game.moveEnemies
    (Game.set_enemyMoveTimer (Game.enemyMoveTimer g + deltaTime) g))).
  - now destruct (Game.moveEnemies _).
  - rewrite moveEnemies_levelData. now destruct g.
Qed.

Lemma update_levelData `{MathLib} (deltaTime : Q) (g : Game.t) :
  Game.levelData (Game.update deltaTime g) = Game.levelData g.
Proof.
  unfold Game.update. cbn zeta.
  set (g1 := Game.handleInput g).
  set (g2 := Game.set_player _ g1).
  set (g3 := Game.updateEnemies deltaTime g2).
  set (g4 := Game.updateBullets deltaTime g3).
  set (g5 := Game.updateEffects deltaTime g4).
  rewrite (moveClock_levelData _ _
             (checkGameConditions_moveClock (Game.checkCollisions g5))).
  rewrite (moveClock_levelData _ _ (checkCollisions_moveClock g5)).
  transitivity (Game.levelData g3); [unfold g5, g4; now destruct g3 |].
  unfold g3. rewrite updateEnemies_levelData.
  transitivity (Game.levelData g1); [unfold g2; now destruct g1 |].
  apply (moveClock_levelData _ _ (handleInput_moveClock g)).
Qed.

Lemma loadLevel_levelData (levelNumber : Z) (response : Response) (g : Game.t) :
  exists ld, Game.levelData (Game.loadLevel levelNumber response g) = Some ld.
Proof.
  unfold Game.loadLevel. destruct response; simpl; eexists; now destruct g.
Qed.

Lemma handle_levelData `{MathLib} (event : Game.Event) (g : Game.t) :
  (exists ld, Game.levelData g = Some ld) ->
  exists ld, Game.levelData (Game.handle event g) = Some ld.
Proof.
  intros [ld Hld].
  assert (Hreset : forall g0, Game.levelData (Game.resetGame g0) = Game.levelData g0)
    by (intros g0; now destruct g0).
  assert (Htoggle : forall g0, Game.levelData (Game.togglePause g0) = Game.levelData g0)
    by (intros g0; unfold Game.togglePause;
        destruct (Game.gameState g0); now destruct g0).
  assert (Hshoot : forall g0, Game.levelData (Game.playerShoot g0) = Game.levelData g0).
  { intros g0. unfold Game.playerShoot.
    destruct (Player.shoot _ (Game.player g0)) as [[fired |] p']; now destruct g0. }
  destruct event as [code | code | button | button | | | | |
                    | levelNumber response | levelNumber response
                    | currentTime]; cbn [Game.handle];
    try apply loadLevel_levelData.
  - exists ld. rewrite <- Hld. unfold Game.handleKeyDown. cbn zeta.
    destruct code; try (now destruct g);
      try (destruct (Game.gameState _));
      rewrite ?Hshoot, ?Htoggle; unfold Game.startGame, Game.restartGame;
      rewrite ?Hreset; now destruct g.
  - exists ld. now destruct g.
  - exists ld. destruct button; now destruct g.
  - exists ld. destruct button; now destruct g.
  - exists ld. destruct (bool_decide _); now destruct g.
  - exists ld. unfold Game.startGame. rewrite Hreset. now destruct g.
  - exists ld. now rewrite Htoggle.
  - exists ld. unfold Game.restartGame. rewrite Hreset. now destruct g.
  - unfold Game.handleOverlayAction.
    destruct (Game.gameState g);
      exists ld; unfold Game.startGame, Game.restartGame;
      rewrite ?Hreset, ?Htoggle; now destruct g.
  - exists ld. rewrite <- Hld. unfold Game.gameLoop. cbn zeta.
    destruct (bool_decide _); [rewrite update_levelData |]; now destruct g.
Qed.

Lemma reachable_levelData `{MathLib} (width height : Q) (random : nat -> Q)
    (g : Game.t) :
  Game.reachable width height random g ->
  exists ld, Game.levelData g = Some ld.
Proof.
  induction 1 as [response | g event _ IH].
  - apply loadLevel_levelData.
  - now apply handle_levelData.
Qed.

(** *** The timer on doubles *)







(** The intervals of levels 1 to 12 and of level 20, as doubles.  Those
    of levels 1, 6, 7 and 11 are one step of the last place away from
    the doubles nearest to 1.4, 0.9, 0.8 and 0.4. *)
Example move_intervals :
  map (fun level =>
         Double.Game.enemyMoveInterval
           (Spec.doubleSwarm level Spec.shippedLevel5))
    [1; 2; 3; 4; 5; 6; 7; 8; 9; 10; 11; 12; 20]%Z =
  [1.3999999999999999; 1.3; 1.2; 1.1; 1; 0.8999999999999999;
   0.7999999999999999; 0.7; 0.6; 0.5; 0.3999999999999999; 0.3; 0.3]%float.
Proof. vm_compute. reflexivity. Qed.

(** At level 5, with ticks of a tenth of a second, the swarm makes its
    first wave step at the eleventh tick, not at the tenth. *)
Example first_wave_step_at_level_5 :
  let g := Spec.doubleSwarm 5 Spec.shippedLevel5 in
  Spec.doublePositions (Spec.doubleTicks 10 0.1 g) = Spec.doublePositions g /\
  Spec.doublePositions (Spec.doubleTicks 11 0.1 g) =
    Spec.doublePositions (Double.Game.moveEnemies g).
Proof. vm_compute. split; reflexivity. Qed.

(** ** The lives *)

(** *** What leaves the lives and the state of the game alone *)

Lemma playerShoot_vitals `{MathLib} (g : Game.t) :
  Spec.vitals (Game.playerShoot g) = Spec.vitals g.
Proof.
  unfold Game.playerShoot.
  destruct (Player.shoot _ (Game.player g)) as [[fired |] p']; now destruct g.
Qed.

Lemma set_player_vitals (p : Player.t) (g : Game.t) :
  Spec.vitals (Game.set_player p g) = Spec.vitals g.
Proof. now destruct g. Qed.

Lemma handleInput_vitals `{MathLib} (g : Game.t) :
  Spec.vitals (Game.handleInput g) = Spec.vitals g.
Proof.
  unfold Game.handleInput. cbn zeta.
  repeat match goal with
         | |- context [if ?c then _ else _] => destruct c
         end;
    rewrite ?playerShoot_vitals, ?set_player_vitals; reflexivity.
Qed.

Lemma moveEnemies_vitals (g : Game.t) :
  Spec.vitals (Game.moveEnemies g) = Spec.vitals g.
Proof.
  unfold Game.moveEnemies. destruct (fold_left _ _ _); now destruct g.
Qed.

Lemma updateEnemies_vitals (deltaTime : Q) (g : Game.t) :
  Spec.vitals (Game.updateEnemies deltaTime g) = Spec.vitals g.
Proof.
  unfold Game.updateEnemies. cbn zeta.
  match goal with
  | |- context [Game.enemiesAct deltaTime ?es ?g2] =>
      destruct (enemiesAct_spec deltaTime es g2) as (shots & cursor & ->);
      transitivity (Spec.vitals g2); [now destruct g2 |]
  end.
  destruct (Qleb _ _).
  - transitivity (Spec.vitals (Game.moveEnemies (Game.set_enemyMoveTimer
                    (Game.enemyMoveTimer g + deltaTime) g))).
    + now destruct (Game.moveEnemies _).
    + rewrite moveEnemies_vitals. now destruct g.
  - now destruct g.
Qed.

Lemma updateBullets_vitals (deltaTime : Q) (g : Game.t) :
  Spec.vitals (Game.updateBullets deltaTime g) = Spec.vitals g.
Proof. now destruct g. Qed.

Lemma updateEffects_vitals (deltaTime : Q) (g : Game.t) :
  Spec.vitals (Game.updateEffects deltaTime g) = Spec.vitals g.
Proof. now destruct g. Qed.

Lemma playerBulletsVsWalls_vitals (g : Game.t) :
  Spec.vitals (Game.playerBulletsVsWalls g) = Spec.vitals g.
Proof.
  unfold Game.playerBulletsVsWalls.
  destruct (Game.bulletsVsWalls _ _ _ _). now destruct g.
Qed.

Lemma enemyBulletsVsWalls_vitals (g : Game.t) :
  Spec.vitals (Game.enemyBulletsVsWalls g) = Spec.vitals g.
Proof.
  unfold Game.enemyBulletsVsWalls.
  destruct (Game.bulletsVsWalls _ _ _ _). now destruct g.
Qed.

Lemma cleanUpWalls_vitals (g : Game.t) :
  Spec.vitals (Game.cleanUpWalls g) = Spec.vitals g.
Proof. now destruct g. Qed.

Lemma spawnPowerUp_vitals (x y : Q) (g : Game.t) :
  Spec.vitals (Game.spawnPowerUp x y g) = Spec.vitals g.
Proof. now destruct g. Qed.

Lemma playerBulletsVsEnemies_vitals (i : nat) (g : Game.t) :
  Spec.vitals (Game.playerBulletsVsEnemies i g) = Spec.vitals g.
Proof.
  revert g. induction i as [| i IH]; intros g; simpl; [reflexivity |].
  destruct (Game.bullets g !! i) as [bullet |]; [| apply IH].
  destruct (Game.lastEnemyHit _ _ _) as [[j enemy] |]; [| apply IH].
  rewrite IH. destruct (Qltb _ _); [| now destruct g].
  match goal with
  | |- context [Game.spawnPowerUp ?x ?y ?g3] =>
      transitivity (Spec.vitals (Game.spawnPowerUp x y g3));
        [now destruct (Game.spawnPowerUp x y g3) |];
      rewrite spawnPowerUp_vitals
  end.
  now destruct g.
Qed.

Lemma loadLevel_vitals (levelNumber : Z) (response : Response) (g : Game.t) :
  Spec.vitals (Game.loadLevel levelNumber response g) = Spec.vitals g.
Proof.
  unfold Game.loadLevel, Game.loadLevelFrom.
  destruct (Utils.fetchLevelData levelNumber response);
    unfold Game.createWalls, Game.createEnemies; now destruct g.
Qed.

(** *** What changes the lives *)

Lemma applyPowerUp_lives (u : PowerUp.t) (g : Game.t) :
  Game.gameState (Game.applyPowerUp u g) = Game.gameState g /\
  Game.lives (Game.applyPowerUp u g) =
    match PowerUp.type u with
    | Some life_up => Z.min (Game.lives g + 1) 5
    | _ => Game.lives g
    end.
Proof.
  unfold Game.applyPowerUp. destruct (PowerUp.type u) as [[] |]; now destruct g.
Qed.

Lemma powerUpsVsPlayer_lives (i : nat) (g : Game.t) :
  Game.gameState (Game.powerUpsVsPlayer i g) = Game.gameState g /\
  (Z.min (Game.lives g) 5 <= Game.lives (Game.powerUpsVsPlayer i g)
     <= Z.max (Game.lives g) 5)%Z.
Proof.
  revert g. induction i as [| i IH]; intros g; simpl;
    [split; [reflexivity | lia] |].
  destruct (Game.powerUps g !! i) as [u |]; [| apply IH].
  destruct (entityCheckCollision u (Game.player g)); [| apply IH].
  match goal with
  | |- context [Game.powerUpsVsPlayer i ?g'] =>
      destruct (IH g') as [Hs Hl];
      change (Game.gameState g')
        with (Game.gameState (Game.applyPowerUp u g)) in Hs;
      change (Game.lives g') with (Game.lives (Game.applyPowerUp u g)) in Hl
  end.
  rewrite Hs.
  destruct (applyPowerUp_lives u g) as [Hs' Hl'].
  split; [assumption |].
  destruct (PowerUp.type u) as [[] |]; lia.
Qed.

Lemma enemyBulletsVsPlayer_state (i : nat) (g : Game.t) :
  Game.gameState (Game.enemyBulletsVsPlayer i g) = Game.gameState g.
Proof.
  revert g. induction i as [| i IH]; intros g; simpl; [reflexivity |].
  destruct (Game.enemyBullets g !! i) as [bullet |]; [| apply IH].
  destruct (entityCheckCollision bullet (Game.player g)); [| apply IH].
  destruct (Player.takeDamage (Game.player g)) as [[] p']; rewrite IH;
    now destruct g.
Qed.

(** Once the player is invulnerable and has no shield, the bullets of
    the rest of the loop take no life. *)
Lemma enemyBulletsVsPlayer_invulnerable (i : nat) (g : Game.t) :
  Player.hasShield (Game.player g) = false ->
  Player.invulnerable (Game.player g) = true ->
  Game.lives (Game.enemyBulletsVsPlayer i g) = Game.lives g.
Proof.
  revert g. induction i as [| i IH]; intros g Hs Hi; simpl; [reflexivity |].
  destruct (Game.enemyBullets g !! i) as [bullet |]; [| now apply IH].
  destruct (entityCheckCollision bullet (Game.player g)); [| now apply IH].
  destruct (takeDamage_without_shield (Game.player g) Hs)
    as (Hd & Hs' & _ & _ & Hi' & _).
  destruct (Player.takeDamage (Game.player g)) as [damaged p']. simpl in *.
  rewrite Hi in Hd. subst damaged.
  rewrite IH; destruct g; simpl; auto.
Qed.

Lemma enemyBulletsVsPlayer_lives (i : nat) (g : Game.t) :
  (Game.lives g - 1 <= Game.lives (Game.enemyBulletsVsPlayer i g)
     <= Game.lives g)%Z.
Proof.
  revert g. induction i as [| i IH]; intros g; simpl; [lia |].
  destruct (Game.enemyBullets g !! i) as [bullet |]; [| apply IH].
  destruct (entityCheckCollision bullet (Game.player g)); [| apply IH].
  destruct (Player.hasShield (Game.player g)) eqn:Hs.
  - rewrite (takeDamage_with_shield _ Hs).
    match goal with
    | |- context [Game.enemyBulletsVsPlayer i ?g'] =>
        specialize (IH g'); replace (Game.lives g) with (Game.lives g')
          by now destruct g
    end.
    exact IH.
  - destruct (takeDamage_without_shield (Game.player g) Hs)
      as (Hd & Hs' & _ & _ & Hi' & _).
    destruct (Player.takeDamage (Game.player g)) as [damaged p']. simpl in *.
    rewrite enemyBulletsVsPlayer_invulnerable;
      [| destruct damaged, g; simpl; assumption ..].
    destruct damaged; destruct g; simpl; lia.
Qed.

Lemma enemiesReachedPlayer_fold (es : list Enemy.t) (g : Game.t) :
  let g' :=
    fold_left (fun g' enemy =>
      if Qleb (Player.y (Game.player g')) (Enemy.y enemy + Enemy.height enemy)
      then Game.set_lives 0%Z g' else g') es g in
  Game.gameState g' = Game.gameState g /\
  Game.player g' = Game.player g /\
  ((exists e, In e es /\
      (Player.y (Game.player g) <= Enemy.y e + Enemy.height e)%Q) ->
   Game.lives g' = 0%Z) /\
  (Game.lives g' = 0%Z \/ Game.lives g' = Game.lives g).
Proof.
  revert g. induction es as [| e es IH]; intros g; simpl.
  - repeat split; auto. intros (e & [] & _).
  - match goal with
    | |- context [fold_left _ es ?g1] =>
        destruct (IH g1) as (Hs & Hp & Hreach & Hl);
        assert (Hs1 : Game.gameState g1 = Game.gameState g)
          by (destruct (Qleb _ _); now destruct g);
        assert (Hp1 : Game.player g1 = Game.player g)
          by (destruct (Qleb _ _); now destruct g)
    end.
    rewrite Hs, Hp, Hs1, Hp1. rewrite Hp1 in Hreach.
    repeat split.
    + intros (e' & [<- | Hin] & Hle).
      * apply Qleb_le in Hle. rewrite Hle in *.
        destruct Hl as [Hl | Hl]; [exact Hl | rewrite Hl; now destruct g].
      * apply Hreach. eauto.
    + destruct (Qleb _ _); destruct Hl as [Hl | Hl]; auto;
        left; rewrite Hl; now destruct g.
Qed.

Lemma enemiesReachedPlayer_lives (g : Game.t) :
  Game.gameState (Game.enemiesReachedPlayer g) = Game.gameState g /\
  (Spec.enemyReachedPlayer g -> Game.lives (Game.enemiesReachedPlayer g) = 0%Z) /\
  (Game.lives (Game.enemiesReachedPlayer g) = 0%Z \/
   Game.lives (Game.enemiesReachedPlayer g) = Game.lives g).
Proof.
  destruct (enemiesReachedPlayer_fold (Game.enemies g) g) as (Hs & _ & Hr & Hl).
  auto.
Qed.

Lemma checkCollisions_lives (g : Game.t) :
  Game.gameState (Game.checkCollisions g) = Game.gameState g /\
  (Game.lives (Game.checkCollisions g) = 0 \/
   Z.min (Game.lives g) 5 - 1 <= Game.lives (Game.checkCollisions g)
     <= Z.max (Game.lives g) 5)%Z.
Proof.
  unfold Game.checkCollisions. cbn zeta.
  set (g1 := Game.cleanUpWalls (Game.playerBulletsVsWalls g)).
  set (g2 := Game.playerBulletsVsEnemies _ g1).
  set (g3 := Game.powerUpsVsPlayer _ g2).
  set (g4 := Game.enemyBulletsVsWalls g3).
  set (g5 := Game.enemyBulletsVsPlayer _ g4).
  assert (H1 : Spec.vitals g1 = Spec.vitals g)
    by (unfold g1; now rewrite cleanUpWalls_vitals, playerBulletsVsWalls_vitals).
  assert (H2 : Spec.vitals g2 = Spec.vitals g1)
    by apply playerBulletsVsEnemies_vitals.
  destruct (powerUpsVsPlayer_lives (length (Game.powerUps g2)) g2) as [Hs3 Hl3].
  fold g3 in Hs3, Hl3.
  assert (H4 : Spec.vitals g4 = Spec.vitals g3)
    by apply enemyBulletsVsWalls_vitals.
  pose proof (enemyBulletsVsPlayer_state (length (Game.enemyBullets g4)) g4) as Hs5.
  pose proof (enemyBulletsVsPlayer_lives (length (Game.enemyBullets g4)) g4) as Hl5.
  fold g5 in Hs5, Hl5.
  destruct (enemiesReachedPlayer_lives g5) as (Hs6 & _ & Hl6).
  unfold Spec.vitals in H1, H2, H4.
  injection H1 as Hl1 Hs1. injection H2 as Hl2 Hs2. injection H4 as Hl4 Hs4.
  split; [congruence |]. lia.
Qed.

(** *** The invariant *)

Lemma vitals_eq (a b : Game.t) :
  Spec.vitals a = Spec.vitals b ->
  Game.lives a = Game.lives b /\ Game.gameState a = Game.gameState b.
Proof. unfold Spec.vitals. intros Hv. now inversion Hv. Qed.

Lemma checkGameConditions_lives (g : Game.t) :
  Game.lives (Game.checkGameConditions g) = Game.lives g /\
  ((Game.lives g <= 0)%Z -> Game.gameState (Game.checkGameConditions g) = gameOver) /\
  (Game.gameState (Game.checkGameConditions g) = gameOver ->
   (Game.lives g <= 0)%Z \/ Game.gameState g = gameOver).
Proof.
  unfold Game.checkGameConditions. destruct g; simpl.
  destruct (Z.leb_spec lives 0), gameState, (length enemies =? 0)%nat;
    simpl; repeat split; intros; try lia; try discriminate; auto.
Qed.

Section Lives.
Context `{MathLib}.

Lemma update_lives (deltaTime : Q) (g : Game.t) :
  let g' := Game.update deltaTime g in
  (Game.lives g' = 0 \/
   Z.min (Game.lives g) 5 - 1 <= Game.lives g' <= Z.max (Game.lives g) 5)%Z /\
  ((Game.lives g' <= 0)%Z -> Game.gameState g' = gameOver) /\
  (Game.gameState g' = gameOver ->
   (Game.lives g' <= 0)%Z \/ Game.gameState g = gameOver).
Proof.
  unfold Game.update. cbn zeta.
  set (g1 := Game.handleInput g).
  set (g2 := Game.set_player _ g1).
  set (g3 := Game.updateEnemies deltaTime g2).
  set (g4 := Game.updateBullets deltaTime g3).
  set (g5 := Game.updateEffects deltaTime g4).
  assert (H5 : Spec.vitals g5 = Spec.vitals g).
  { unfold g5, g4, g3, g2, g1.
    now rewrite updateEffects_vitals, updateBullets_vitals,
      updateEnemies_vitals, set_player_vitals, handleInput_vitals. }
  apply vitals_eq in H5. destruct H5 as [Hl5 Hs5].
  destruct (checkCollisions_lives g5) as [Hs6 Hl6].
  destruct (checkGameConditions_lives (Game.checkCollisions g5))
    as (Hl7 & Hover & Hback).
  rewrite Hl7. rewrite Hl5 in Hl6. repeat split; auto.
  intros Hg. destruct (Hback Hg); [now left | right; congruence].
Qed.

Lemma gameLoop_lives (currentTime : Q) (g : Game.t) :
  Spec.livesInvariant g ->
  let g' := Game.gameLoop currentTime g in
  Spec.livesInvariant g' /\
  (Game.lives g' = 0 \/ Game.lives g - 1 <= Game.lives g')%Z /\
  ((Game.lives g' <= 0)%Z -> Game.gameState g' = gameOver).
Proof.
  intros [Hrange Hpos]. unfold Game.gameLoop. cbn zeta.
  set (g1 := Game.set_lastTime currentTime g).
  assert (H1 : Spec.vitals g1 = Spec.vitals g) by now destruct g.
  apply vitals_eq in H1. destruct H1 as [Hl1 Hs1].
  destruct (bool_decide_reflect (Game.gameState g1 = playing)) as [Hp | Hp].
  - destruct (update_lives ((currentTime - Game.lastTime g) / 1000) g1)
      as (Hl & Hover & Hback).
    rewrite Hl1 in Hl.
    assert (1 <= Game.lives g)%Z by (apply Hpos; congruence).
    repeat split; try lia; auto.
    intros Hg.
    destruct (Z.le_gt_cases (Game.lives (Game.update
                ((currentTime - Game.lastTime g) / 1000) g1)) 0) as [Hle | Hgt];
      [| lia].
    elim Hg. auto.
  - rewrite Hl1, Hs1. unfold Spec.livesInvariant in *.
    repeat split; try lia.
    + rewrite Hl1, Hs1. exact Hpos.
    + intros Hle. destruct (decide (Game.gameState g = gameOver)); [assumption |].
      specialize (Hpos n). lia.
Qed.

Lemma resetGame_lives (g : Game.t) :
  Game.lives (Game.resetGame g) = 3%Z /\
  Game.gameState (Game.resetGame g) = Game.gameState g.
Proof. now destruct g. Qed.

Lemma togglePause_lives (g : Game.t) :
  Spec.livesInvariant g -> Spec.livesInvariant (Game.togglePause g).
Proof.
  intros [Hrange Hpos]. unfold Game.togglePause, Spec.livesInvariant.
  destruct (Game.gameState g) eqn:Hs; try (rewrite Hs; auto);
    destruct g; simpl in *; (split; [assumption |]); intros _; apply Hpos;
    discriminate.
Qed.

Lemma started_lives (g : Game.t) :
  Spec.livesInvariant (Game.resetGame (Game.set_gameState playing g)).
Proof. destruct g; unfold Spec.livesInvariant; simpl. lia. Qed.

Lemma handle_lives (event : Game.Event) (g : Game.t) :
  Spec.livesInvariant g -> Spec.inTurn event g ->
  Spec.livesInvariant (Game.handle event g).
Proof.
  intros Hinv Hturn. pose proof Hinv as [Hrange Hpos].
  destruct event as [code | code | button | button | | | | |
                    | levelNumber response | levelNumber response
                    | currentTime]; simpl.
  - (* keydown *)
    unfold Game.handleKeyDown. cbn zeta.
    set (g1 := Game.set_keys _ g).
    assert (Hinv1 : Spec.livesInvariant g1) by now destruct g.
    destruct code; try exact Hinv1.
    + destruct (Game.gameState g1) eqn:Hs; try exact Hinv1;
        try apply started_lives.
      unfold Spec.livesInvariant.
      destruct (vitals_eq _ _ (playerShoot_vitals g1)) as [-> ->]. exact Hinv1.
    + destruct (Game.gameState g1); try exact Hinv1;
        now apply togglePause_lives.
    + apply started_lives.
  - now destruct g.
  - destruct button; now destruct g.
  - destruct button; now destruct g.
  - destruct (bool_decide_reflect (Game.gameState g = playing)); [| assumption].
    destruct g; unfold Spec.livesInvariant in *; simpl in *.
    split; [assumption |]. intros _. apply Hpos. congruence.
  - apply started_lives.
  - now apply togglePause_lives.
  - apply started_lives.
  - unfold Game.handleOverlayAction.
    destruct (Game.gameState g) eqn:Hs; try apply started_lives;
      try exact Hinv.
    now apply togglePause_lives.
  - destruct (vitals_eq _ _ (loadLevel_vitals levelNumber response g))
      as [Hl Hst].
    unfold Spec.livesInvariant. now rewrite Hl, Hst.
  - unfold Game.handleOverlayAction_resumed. simpl in Hturn.
    destruct (vitals_eq _ _ (loadLevel_vitals levelNumber response g))
      as [Hl _].
    destruct (Game.loadLevel _ _ g); unfold Spec.livesInvariant; simpl in *.
    subst. split; [assumption |]. intros _. apply Hpos. congruence.
  - now apply gameLoop_lives.
Qed.

Lemma reachableInTurn_lives (width height : Q) (random : nat -> Q)
    (g : Game.t) :
  Spec.reachableInTurn width height random g -> Spec.livesInvariant g.
Proof.
  induction 1 as [response | g event _ IH Hturn].
  - unfold Game.initializeGame.
    destruct (vitals_eq _ _ (loadLevel_vitals
      (Game.currentLevel (Game.new width height random)) response
      (Game.new width height random))) as [Hl Hst].
    unfold Spec.livesInvariant. rewrite Hl, Hst. simpl. lia.
  - now apply handle_lives.
Qed.

Lemma handle_lives_le (event : Game.Event) (g : Game.t) :
  (Game.lives g <= 5)%Z -> (Game.lives (Game.handle event g) <= 5)%Z.
Proof.
  intros Hle.
  assert (Hsame : forall g', Spec.vitals g' = Spec.vitals g ->
    (Game.lives g' <= 5)%Z).
  { intros g' Hv. destruct (vitals_eq _ _ Hv) as [-> _]. exact Hle. }
  assert (Hreset : forall g0, (Game.lives (Game.resetGame g0) <= 5)%Z).
  { intros g0. destruct (resetGame_lives g0) as [-> _]. lia. }
  assert (Htoggle : forall g0, Game.lives (Game.togglePause g0) = Game.lives g0).
  { intros g0. unfold Game.togglePause.
    destruct (Game.gameState g0); now destruct g0. }
  destruct event as [code | code | button | button | | | | |
                    | levelNumber response | levelNumber response
                    | currentTime]; cbn [Game.handle].
  - unfold Game.handleKeyDown. cbn zeta.
    set (g1 := Game.set_keys _ g).
    assert (H1 : Spec.vitals g1 = Spec.vitals g) by now destruct g.
    destruct code; try (now apply Hsame); try apply Hreset.
    + destruct (Game.gameState g1); try (now apply Hsame); try apply Hreset.
      apply Hsame. now rewrite playerShoot_vitals.
    + destruct (Game.gameState g1); try (now apply Hsame);
        rewrite Htoggle; now apply Hsame.
  - apply Hsame. now destruct g.
  - apply Hsame. destruct button; now destruct g.
  - apply Hsame. destruct button; now destruct g.
  - destruct (bool_decide _); [| exact Hle]. now destruct g.
  - apply Hreset.
  - now rewrite Htoggle.
  - apply Hreset.
  - unfold Game.handleOverlayAction.
    destruct (Game.gameState g); try apply Hreset; try exact Hle.
    now rewrite Htoggle.
  - apply Hsame. apply loadLevel_vitals.
  - unfold Game.handleOverlayAction_resumed.
    destruct (vitals_eq _ _ (loadLevel_vitals levelNumber response g))
      as [Hl _].
    destruct (Game.loadLevel _ _ g); simpl in *. lia.
  - unfold Game.gameLoop. cbn zeta.
    set (g1 := Game.set_lastTime currentTime g).
    assert (H1 : Spec.vitals g1 = Spec.vitals g) by now destruct g.
    destruct (bool_decide _); [| now apply Hsame].
    destruct (update_lives ((currentTime - Game.lastTime g) / 1000) g1)
      as (Hl & _).
    destruct (vitals_eq _ _ H1) as [Hl1 _]. rewrite Hl1 in Hl. lia.
Qed.

Lemma reachable_lives_le (width height : Q) (random : nat -> Q) (g : Game.t) :
  Game.reachable width height random g -> (Game.lives g <= 5)%Z.
Proof.
  induction 1 as [response | g event _ IH].
  - unfold Game.initializeGame.
    destruct (vitals_eq _ _ (loadLevel_vitals
      (Game.currentLevel (Game.new width height random)) response
      (Game.new width height random))) as [Hl _].
    rewrite Hl. simpl. lia.
  - now apply handle_lives_le.
Qed.

End Lives.

Lemma run_reachable `{MathLib} (draw : Q) (first : Response)
    (events : list Game.Event) :
  Game.reachable 800 600 (fun _ => draw) (Spec.run draw first events).
Proof.
  unfold Spec.run.
  assert (Hfold : forall g, Game.reachable 800 600 (fun _ => draw) g ->
    Game.reachable 800 600 (fun _ => draw)
      (fold_left (fun g event => Game.handle event g) events g)).
  { induction events as [| event events IH]; intros g Hg; simpl; [exact Hg |].
    apply IH. now apply Game.reachable_event. }
  apply Hfold. apply Game.reachable_init.
Qed.

(** C7.  The lives fall below 0 in the run [Spec.lateLevelEvents], in
    which the button of the overlay is clicked twice while a level is
    complete.  After its first eight events the game is over with no
    life left.  The level that the second click asked for arrives then,
    and the rest of [handleOverlayAction] sets the state to [playing]
    with the lives still 0.  The frame that follows runs a tick, in
    which a bullet of an enemy hits the player: it ends with -1 lives. *)
Theorem lives_below_0_after_late_level :
  let state n :=
    @Spec.run Spec.flatMath 0 (levelBody Spec.emptyLevel)
      (firstn n Spec.lateLevelEvents) in
  @Game.reachable Spec.flatMath 800 600 (fun _ => 0%Q) (state 10%nat) /\
  (Game.gameState (state 4%nat) = levelComplete /\
   Game.gameState (state 6%nat) = levelComplete) /\
  (Game.gameState (state 7%nat) = playing /\ Game.lives (state 7%nat) = 3%Z) /\
  (Game.gameState (state 8%nat) = gameOver /\ Game.lives (state 8%nat) = 0%Z) /\
  (Game.gameState (state 9%nat) = playing /\ Game.lives (state 9%nat) = 0%Z) /\
  Game.lives (state 10%nat) = (-1)%Z.
Proof.
  cbv zeta. split; [apply run_reachable |].
  vm_compute. repeat split; reflexivity.
Qed.

(** *** Where a tick changes the lives *)

Lemma bulletsVsWalls_no_walls (isPlayerBullet : bool) (i : nat)
    (shots : list Bullet.t) :
  Game.bulletsVsWalls isPlayerBullet i shots [] = (shots, []).
Proof.
  induction i as [| i IH]; simpl; [reflexivity |].
  destruct (shots !! i); exact IH.
Qed.

Lemma powerUpsVsPlayer_arena (i : nat) (g : Game.t) :
  Spec.arena (Game.powerUpsVsPlayer i g) = Spec.arena g.
Proof.
  revert g. induction i as [| i IH]; intros g; simpl; [reflexivity |].
  destruct (Game.powerUps g !! i) as [u |]; [| apply IH].
  destruct (entityCheckCollision u (Game.player g)); [| apply IH].
  rewrite IH. unfold Game.applyPowerUp, Spec.arena.
  destruct (PowerUp.type u) as [[] |]; destruct g as [? ? ? []]; reflexivity.
Qed.

Lemma enemyBulletsVsPlayer_arena (i : nat) (g : Game.t) :
  Spec.arena (Game.enemyBulletsVsPlayer i g) = Spec.arena g.
Proof.
  revert g. induction i as [| i IH]; intros g; simpl; [reflexivity |].
  destruct (Game.enemyBullets g !! i) as [bullet |]; [| apply IH].
  destruct (entityCheckCollision bullet (Game.player g)); [| apply IH].
  assert (Hy : Player.y (snd (Player.takeDamage (Game.player g))) =
               Player.y (Game.player g)).
  { unfold Player.takeDamage.
    destruct (Game.player g) as [? ? ? ? ? ? ? ? ? [] ? ? [] ? []];
      reflexivity. }
  destruct (Player.takeDamage (Game.player g)) as [damaged p'].
  rewrite IH. unfold Spec.arena. simpl in Hy.
  destruct damaged; destruct g; simpl in *; now rewrite Hy.
Qed.

Lemma enemyBulletsVsWalls_arena (g : Game.t) :
  Spec.arena (Game.enemyBulletsVsWalls g) = Spec.arena g.
Proof.
  unfold Game.enemyBulletsVsWalls.
  destruct (Game.bulletsVsWalls _ _ _ _). now destruct g.
Qed.

Lemma enemiesReachedPlayer_fold_none (es : list Enemy.t) (g : Game.t) :
  (forall e, In e es ->
     ~ (Player.y (Game.player g) <= Enemy.y e + Enemy.height e)%Q) ->
  Game.lives
    (fold_left (fun g' enemy =>
       if Qleb (Player.y (Game.player g')) (Enemy.y enemy + Enemy.height enemy)
       then Game.set_lives 0%Z g' else g') es g) = Game.lives g.
Proof.
  revert g. induction es as [| e es IH]; intros g Hnone; simpl; [reflexivity |].
  replace (Qleb _ _) with false.
  - apply IH. intros e' He'. apply Hnone. now right.
  - symmetry. apply Qleb_gt. apply Qnot_le_lt. apply Hnone. now left.
Qed.

Lemma enemiesReachedPlayer_none (g : Game.t) :
  ~ Spec.enemyReachedPlayer g ->
  Game.lives (Game.enemiesReachedPlayer g) = Game.lives g.
Proof.
  intros Hnone. apply enemiesReachedPlayer_fold_none.
  intros e He Hle. apply Hnone. now exists e.
Qed.

Lemma enemyReachedPlayer_arena (g g' : Game.t) :
  Spec.arena g' = Spec.arena g ->
  Spec.enemyReachedPlayer g' <-> Spec.enemyReachedPlayer g.
Proof.
  unfold Spec.arena, Spec.enemyReachedPlayer. intros [= -> ->]. reflexivity.
Qed.

(** With no bullet of the player in flight, collision resolution reaches
    its last phase with the enemies and the height of the player that
    it started with. *)
Lemma checkCollisions_no_bullets (g : Game.t) :
  Game.bullets g = [] ->
  exists g5,
    Game.checkCollisions g = Game.enemiesReachedPlayer g5 /\
    Spec.arena g5 = Spec.arena g.
Proof.
  intros Hb. unfold Game.checkCollisions. cbn zeta.
  eexists. split; [reflexivity |].
  rewrite enemyBulletsVsPlayer_arena, enemyBulletsVsWalls_arena,
    powerUpsVsPlayer_arena.
  unfold Game.playerBulletsVsWalls, Game.cleanUpWalls. rewrite Hb.
  destruct g; simpl in *. subst. reflexivity.
Qed.

(** On a field without walls, power-ups or bullets of the player, only
    the last two phases of collision resolution do anything. *)
Lemma checkCollisions_open_field (g : Game.t) :
  Game.bullets g = [] -> Game.walls g = [] -> Game.powerUps g = [] ->
  Game.checkCollisions g =
    Game.enemiesReachedPlayer
      (Game.enemyBulletsVsPlayer (length (Game.enemyBullets g)) g).
Proof.
  intros Hb Hw Hp.
  unfold Game.checkCollisions, Game.playerBulletsVsWalls, Game.cleanUpWalls,
    Game.enemyBulletsVsWalls.
  destruct g; simpl in *. subst. simpl.
  rewrite bulletsVsWalls_no_walls. reflexivity.
Qed.

(** The first bullet of an enemy that touches a player without shield
    or invulnerability takes one life, and the others none. *)
Lemma enemyBulletsVsPlayer_hit (i : nat) (g : Game.t) :
  Player.hasShield (Game.player g) = false ->
  Player.invulnerable (Game.player g) = false ->
  (exists k bullet, (k < i)%nat /\ Game.enemyBullets g !! k = Some bullet /\
     entityCheckCollision bullet (Game.player g) = true) ->
  Game.lives (Game.enemyBulletsVsPlayer i g) = (Game.lives g - 1)%Z.
Proof.
  revert g. induction i as [| i IH]; intros g Hs Hi (k & bullet & Hk & Hlook & Hc);
    [lia |].
  simpl.
  destruct (Game.enemyBullets g !! i) as [b |] eqn:Hb.
  - destruct (entityCheckCollision b (Game.player g)) eqn:Hcb.
    + destruct (takeDamage_without_shield (Game.player g) Hs)
        as (Hd & Hs' & _ & _ & Hi' & _).
      destruct (Player.takeDamage (Game.player g)) as [damaged p'].
      simpl in Hd, Hs', Hi'. rewrite Hi in Hd. subst damaged.
      rewrite enemyBulletsVsPlayer_invulnerable; now destruct g.
    + apply IH; [exact Hs | exact Hi |].
      exists k, bullet. split; [| auto].
      destruct (decide (k = i)) as [-> | Hne]; [congruence | lia].
  - apply IH; [exact Hs | exact Hi |].
    exists k, bullet. split; [| auto].
    destruct (decide (k = i)) as [-> | Hne]; [congruence | lia].
Qed.

(** With no bullet in flight, a single power-up that touches the player
    is applied, and the last phase starts with the lives that it
    left. *)
Lemma checkCollisions_pickup (g : Game.t) (u : PowerUp.t) :
  Game.bullets g = [] -> Game.enemyBullets g = [] -> Game.powerUps g = [u] ->
  entityCheckCollision u (Game.player g) = true ->
  exists g5,
    Game.checkCollisions g = Game.enemiesReachedPlayer g5 /\
    Spec.arena g5 = Spec.arena g /\
    Game.lives g5 = Game.lives (Game.applyPowerUp u g).
Proof.
  intros Hb He Hp Hc.
  unfold Game.checkCollisions, Game.playerBulletsVsWalls, Game.cleanUpWalls,
    Game.enemyBulletsVsWalls.
  destruct g as [cw ch st pl es bs ebs pus ws sc lv cl ld ek te ks tl tr tf lt
                 mt mi ed rs rc].
  cbn [Game.bullets Game.enemyBullets Game.powerUps Game.player] in Hb, He, Hp, Hc.
  subst bs ebs pus.
  eexists. split; [reflexivity |].
  cbn -[Z.min entityCheckCollision List.filter Game.applyPowerUp Spec.arena].
  rewrite Hc.
  unfold Game.applyPowerUp.
  destruct (PowerUp.type u) as [[] |];
    cbn -[Z.min entityCheckCollision List.filter]; split; reflexivity.
Qed.

(** X31.  In the runs in which every level that [handleOverlayAction]
    awaits arrives while the state is still [levelComplete], the lives
    are between 0 and 5 in every state and at least 1 while the game is
    not over: no tick starts without a life.  From such a state every
    event that arrives in turn, a tick included, leaves the lives
    between 0 and 5; a tick takes at most one life, unless it sets the
    lives to 0, and a tick that ends with no life left ends in
    [gameOver].  In any state, collision resolution with no bullet of
    the player in flight sets the lives to 0 when an enemy has reached
    the player; on a field without walls and power-ups it takes exactly
    one life from a player without shield or invulnerability that a
    bullet of an enemy touches while no enemy has reached it; and with
    nothing else in flight a life-up that touches the player gives
    [min (lives + 1) 5] lives. *)
Theorem lives_between_0_and_5_in_turn `{MathLib}
    (width height : Q) (random : nat -> Q) (g : Game.t) :
  Spec.reachableInTurn width height random g ->
  (0 <= Game.lives g <= 5)%Z /\
  (Game.gameState g <> gameOver -> (1 <= Game.lives g)%Z) /\
  (forall event, Spec.inTurn event g ->
     (0 <= Game.lives (Game.handle event g) <= 5)%Z) /\
  (forall currentTime,
     (Game.lives (Game.gameLoop currentTime g) = 0 \/
      Game.lives g - 1 <= Game.lives (Game.gameLoop currentTime g))%Z /\
     ((Game.lives (Game.gameLoop currentTime g) <= 0)%Z ->
      Game.gameState (Game.gameLoop currentTime g) = gameOver)) /\
  (forall g0, Game.bullets g0 = [] -> Spec.enemyReachedPlayer g0 ->
     Game.lives (Game.checkCollisions g0) = 0%Z) /\
  (forall g0 bullet,
     Game.bullets g0 = [] -> Game.walls g0 = [] -> Game.powerUps g0 = [] ->
     ~ Spec.enemyReachedPlayer g0 ->
     Player.hasShield (Game.player g0) = false ->
     Player.invulnerable (Game.player g0) = false ->
     In bullet (Game.enemyBullets g0) ->
     entityCheckCollision bullet (Game.player g0) = true ->
     Game.lives (Game.checkCollisions g0) = (Game.lives g0 - 1)%Z) /\
  (forall g0 powerUp,
     Game.bullets g0 = [] -> Game.enemyBullets g0 = [] ->
     Game.powerUps g0 = [powerUp] -> ~ Spec.enemyReachedPlayer g0 ->
     PowerUp.type powerUp = Some life_up ->
     entityCheckCollision powerUp (Game.player g0) = true ->
     Game.lives (Game.checkCollisions g0) = Z.min (Game.lives g0 + 1) 5).
Proof.
  intros Hreach.
  pose proof (reachableInTurn_lives width height random g Hreach) as Hinv.
  pose proof Hinv as [Hrange Hpos].
  split; [exact Hrange |]. split; [exact Hpos |].
  split; [| split; [| split; [| split]]].
  - intros event Hturn. apply (handle_lives event g Hinv Hturn).
  - intros currentTime.
    destruct (gameLoop_lives currentTime g Hinv) as (_ & Hone & Hover).
    split; assumption.
  - intros g0 Hb Hreached.
    destruct (checkCollisions_no_bullets g0 Hb) as (g5 & -> & Harena).
    apply enemiesReachedPlayer_lives.
    now apply (enemyReachedPlayer_arena g0 g5 Harena).
  - intros g0 bullet Hb Hw Hp Hnone Hs Hi Hin Hc.
    rewrite (checkCollisions_open_field g0 Hb Hw Hp).
    rewrite enemiesReachedPlayer_none.
    + apply enemyBulletsVsPlayer_hit; [exact Hs | exact Hi |].
      apply list_elem_of_In, list_elem_of_lookup in Hin. destruct Hin as [k Hk].
      exists k, bullet. split; [now apply lookup_lt_Some in Hk | auto].
    + intros Hr. apply Hnone.
      apply (enemyReachedPlayer_arena g0 _
               (enemyBulletsVsPlayer_arena (length (Game.enemyBullets g0)) g0)).
      exact Hr.
  - intros g0 powerUp Hb He Hp Hnone Hty Hc.
    destruct (checkCollisions_pickup g0 powerUp Hb He Hp Hc)
      as (g5 & -> & Harena & Hlives).
    rewrite enemiesReachedPlayer_none
      by (intros Hr; apply Hnone;
          now apply (enemyReachedPlayer_arena g0 g5 Harena)).
    rewrite Hlives.
    destruct (applyPowerUp_lives powerUp g0) as [_ ->]. now rewrite Hty.
Qed.

Lemma lives_between_0_and_5_in_turn_witness :
  let g :=
    @Spec.run Spec.flatMath 0 (levelBody Spec.emptyLevel)
      (firstn 7 Spec.lateLevelEvents) in
  (1 <= Game.lives g <= 5)%Z /\
  (0 <= Game.lives (@Game.handle Spec.flatMath (Game.animationFrame 32) g)
     <= 5)%Z /\
  Game.gameState (@Game.gameLoop Spec.flatMath 32 g) = gameOver.
Proof.
  cbv zeta.
  destruct (@lives_between_0_and_5_in_turn Spec.flatMath 800 600
              (fun _ => 0%Q)
              (@Spec.run Spec.flatMath 0 (levelBody Spec.emptyLevel)
                 (firstn 7 Spec.lateLevelEvents)))
    as (Hrange & Hpos & Hevent & Htick & _).
  { cbv [Spec.run Spec.lateLevelEvents firstn fold_left].
    repeat (apply Spec.inTurn_event;
            [| first [exact I | vm_compute; reflexivity]]).
    apply Spec.inTurn_init. }
  split; [split; [apply Hpos; vm_compute; discriminate | apply Hrange] |].
  split; [exact (Hevent (Game.animationFrame 32) I) |].
  apply (proj2 (Htick 32%Q)). vm_compute. discriminate.
Defined.

(** ** Damage to a wall *)

Lemma inImpact_spec (w : Wall.t) (impactX impactY : Q) (isPlayerBullet : bool)
    (b : Block.t) :
  Wall.inImpact (Wall.blockSize w) (impactX - Wall.x w) (impactY - Wall.y w)
    (if isPlayerBullet then 6 else 8) b = true
  <-> Spec.withinImpact w impactX impactY isPlayerBullet b.
Proof.
  unfold Wall.inImpact, Wall.distanceBelow, Spec.withinImpact. cbn zeta.
  rewrite andb_true_iff, !Qltb_lt. split; [tauto |].
  intros Hd. split; [destruct isPlayerBullet; reflexivity | assumption].
Qed.

Lemma damageBlocks_spec (w : Wall.t) (impactX impactY : Q)
    (isPlayerBullet : bool) (bs : list Block.t) :
  let result :=
    Wall.damageBlocks (Wall.blockSize w) (impactX - Wall.x w)
      (impactY - Wall.y w) (if isPlayerBullet then 6 else 8) bs in
  Forall2 (Spec.blockAfter w impactX impactY isPlayerBullet) bs (fst result) /\
  (0 <= snd result)%Z /\
  ((0 < snd result)%Z <->
   exists b, In b bs /\ Block.active b = true /\
     Spec.withinImpact w impactX impactY isPlayerBullet b) /\
  (snd result = 0%Z -> fst result = bs).
Proof.
  induction bs as [| b bs IH]; simpl.
  - repeat split; try constructor; try lia. intros (b & [] & _).
  - destruct (Wall.damageBlocks _ _ _ _ bs) as [rest' destroyed].
    simpl in IH. destruct IH as (Hall & Hpos & Hex & Hsame).
    pose proof (inImpact_spec w impactX impactY isPlayerBullet b) as Himp.
    destruct (Block.active b) eqn:Hb; simpl.
    + destruct (Wall.inImpact _ _ _ _ b); simpl.
      * repeat split; try lia.
        -- constructor; [| assumption]. unfold Spec.blockAfter; simpl.
           repeat split; try discriminate. intros [_ Hn]. elim Hn. now apply Himp.
        -- intros _. exists b. repeat split; auto. now apply Himp.
      * repeat split; try lia.
        -- constructor; [| assumption]. unfold Spec.blockAfter.
           repeat split; auto. intros Hw. apply Himp in Hw. discriminate.
        -- intros Hd. apply Hex in Hd. destruct Hd as (b' & ? & ? & ?). eauto.
        -- intros (b' & [<- | Hin] & Ha & Hw).
           ++ apply Himp in Hw. discriminate.
           ++ apply Hex. eauto.
        -- intros Hz. now rewrite Hsame.
    + repeat split; try lia.
      * constructor; [| assumption]. unfold Spec.blockAfter.
        repeat split; auto; intros; try tauto; congruence.
      * intros Hd. apply Hex in Hd. destruct Hd as (b' & ? & ? & ?). eauto.
      * intros (b' & [<- | Hin] & Ha & Hw); [congruence | apply Hex; eauto].
      * intros Hz. now rewrite Hsame.
Qed.

Lemma no_active_block (bs : list Block.t) :
  (length (List.filter Block.active bs) =? 0)%nat = true <->
  forall b, In b bs -> Block.active b = false.
Proof.
  rewrite Nat.eqb_eq. induction bs as [| b bs IH]; simpl.
  - split; [intros _ b [] | reflexivity].
  - destruct (Block.active b) eqn:Hb; simpl.
    + split; [discriminate |]. intros Hall. specialize (Hall b (or_introl eq_refl)).
      congruence.
    + rewrite IH. split.
      * intros Hall b' [<- | Hin]; auto.
      * intros Hall b' Hin. apply Hall. now right.
Qed.

(** C3, as the code has it.  On a wall with health above 0, every block
    stays in place and is alive afterwards exactly when it was alive and
    its centre is not strictly within the impact radius (6 for a bullet
    of the player, 8 for one of an enemy).  If the hit destroys a block,
    the call returns true, the health is one less, and an active wall is
    inactive afterwards exactly when the health has reached 0 or no
    block is alive; an inactive wall stays inactive.  If it destroys
    none, the call returns false and the wall is as it was.  On a wall
    with health 0 or less the call returns false and clears the active
    flag, changing nothing else: a wall that is already inactive is as
    it was. *)
Theorem wall_takeDamage (w : Wall.t) (impactX impactY : Q)
    (isPlayerBullet : bool) :
  let returned := fst (Wall.takeDamage impactX impactY isPlayerBullet w) in
  let w' := snd (Wall.takeDamage impactX impactY isPlayerBullet w) in
  ((0 < Wall.health w)%Z ->
     Forall2 (Spec.blockAfter w impactX impactY isPlayerBullet)
       (Wall.blocks w) (Wall.blocks w') /\
     (Spec.destroysBlock w impactX impactY isPlayerBullet ->
        returned = true /\
        Wall.health w' = (Wall.health w - 1)%Z /\
        (Wall.active w = true ->
           (Wall.active w' = false <->
            Wall.health w' = 0%Z \/ Spec.noBlockAlive w')) /\
        (Wall.active w = false -> Wall.active w' = false)) /\
     (~ Spec.destroysBlock w impactX impactY isPlayerBullet ->
        returned = false /\ w' = w)) /\
  ((Wall.health w <= 0)%Z ->
     returned = false /\
     w' = Wall.set_active false w /\
     (Wall.active w = false -> w' = w)).
Proof.
  cbn zeta. unfold Wall.takeDamage. split.
  - intros Hh. destruct (Z.leb_spec (Wall.health w) 0) as [| _]; [lia |].
    destruct (damageBlocks_spec w impactX impactY isPlayerBullet (Wall.blocks w))
      as (Hall & Hpos & Hex & Hsame).
    destruct (Wall.damageBlocks _ _ _ _ (Wall.blocks w)) as [blocks' destroyed].
    simpl in Hall, Hpos, Hex, Hsame.
    fold (Spec.destroysBlock w impactX impactY isPlayerBullet) in Hex.
    destruct (Z.ltb_spec 0 destroyed) as [Hd | Hd].
    + split; [| split].
      * destruct (_ || _); now destruct w.
      * intros _. split; [reflexivity |].
        assert (Hhealth : Z.max 0 (Wall.health w - 1) = (Wall.health w - 1)%Z) by lia.
        pose proof (no_active_block blocks') as Hnone.
        destruct w as [wx wy ww wh wactive wmax whealth wsize wblocks].
        unfold Spec.noBlockAlive. simpl in *. rewrite Hhealth.
        destruct (length (List.filter Block.active blocks') =? 0)%nat eqn:Hlen;
          simpl.
        -- split; [reflexivity | split].
           ++ intros _. split; [| reflexivity].
              intros _. right. now apply Hnone.
           ++ reflexivity.
        -- destruct (Z.leb_spec (whealth - 1) 0) as [Hz | Hz]; simpl.
           ++ split; [reflexivity | split].
              ** intros _. split; [| reflexivity]. intros _. left. lia.
              ** reflexivity.
           ++ split; [reflexivity | split].
              ** intros ->. split; [discriminate |].
                 intros [Hz' | Hz']; [lia |]. apply Hnone in Hz'. discriminate.
              ** auto.
      * intros Hn. elim Hn. now apply Hex.
    + assert (destroyed = 0%Z) as -> by lia.
      rewrite (Hsame eq_refl) in *. split; [now destruct w | split].
      * intros Hdes. apply Hex in Hdes. lia.
      * intros _. now destruct w.
  - intros Hh. destruct (Z.leb_spec (Wall.health w) 0) as [_ |]; [| lia].
    simpl. repeat split. intros Ha. destruct w; simpl in *. now subst.
Qed.

Lemma wall_takeDamage_witness :
  let w := Wall.new 100 450 8 8 2 in
  fst (Wall.takeDamage 102 452 true w) = true /\
  Wall.health (snd (Wall.takeDamage 102 452 true w)) = (2 - 1)%Z /\
  fst (Wall.takeDamage 102 452 true (Wall.set_health 0 w)) = false.
Proof.
  cbn zeta.
  destruct (proj1 (wall_takeDamage (Wall.new 100 450 8 8 2) 102 452 true))
    as (_ & Hdestroy & _); [reflexivity |].
  destruct Hdestroy as (Hret & Hhealth & _).
  { exists (Block.mk 0 0 true). split; [left; reflexivity |].
    split; reflexivity. }
  destruct (proj2 (wall_takeDamage
              (Wall.set_health 0 (Wall.new 100 450 8 8 2)) 102 452 true))
    as (Hspent & _); [discriminate |].
  exact (conj Hret (conj Hhealth Hspent)).
Defined.

(** C3 as stated fails on a wall built with health 0: the call on it is
    made with health 0 or less and yet changes a field, [active]. *)
Lemma wall_takeDamage_spent_wall_changes :
  let w := Wall.new 100 450 8 8 0 in
  (Wall.health w <= 0)%Z /\
  fst (Wall.takeDamage 102 452 true w) = false /\
  snd (Wall.takeDamage 102 452 true w) <> w.
Proof.
  cbn zeta. split; [discriminate |]. split; [reflexivity |].
  intros Heq. apply (f_equal Wall.active) in Heq. discriminate.
Qed.

(** The scenario of the specification: a wall of health 5 hit five times
    at points far apart is active after the fourth hit and inactive
    after the fifth, with blocks still alive. *)
Example wall_five_hits :
  let hit (x y : Z) (w : Wall.t) :=
    snd (Wall.takeDamage (inject_Z x) (inject_Z y) true w) in
  let w4 :=
    hit 170%Z 460%Z (hit 150%Z 460%Z (hit 130%Z 460%Z (hit 110%Z 460%Z
      (Wall.new 100 450 80 60 5)))) in
  let w5 := hit 110%Z 490%Z w4 in
  (Wall.active w4, Wall.health w4) = (true, 1%Z) /\
  (Wall.active w5, Wall.health w5) = (false, 0%Z) /\
  existsb Block.active (Wall.blocks w5) = true.
Proof. vm_compute. auto. Qed.

(** ** The type of a spawned power-up *)

Lemma Qfloor_range (q : Q) (n : Z) :
  (0 <= q < inject_Z n)%Q -> (0 <= Qfloor q < n)%Z.
Proof.
  intros [Hlo Hhi]. split.
  - assert (H : (inject_Z (-1) < inject_Z (Qfloor q))%Q).
    { pose proof (Qlt_floor q) as Hf. rewrite inject_Z_plus in Hf.
      change (inject_Z (-1)) with (-1)%Q. change (inject_Z 1) with 1%Q in Hf.
      lra. }
    rewrite <- Zlt_Qlt in H. lia.
  - rewrite Zlt_Qlt. pose proof (Qfloor_le q). lra.
Qed.

(** C5, as the code has it.  For every draw of the random source,
    which lies in [0, 1), [spawnPowerUp] adds exactly one power-up, at
    [(x - 12, y)], and its type is the element of the five-element array
    [types] at index [floor (5 * draw)]: never [points]. *)
Theorem spawnPowerUp_never_points (x y : Q) (g : Game.t) :
  (0 <= Game.randomSource g (Game.randomCursor g) < 1)%Q ->
  exists type,
    Game.types !! Z.to_nat (Qfloor (Game.randomSource g (Game.randomCursor g) * 5))
      = Some type /\
    Game.powerUps (Game.spawnPowerUp x y g) =
      Game.powerUps g ++ [PowerUp.new (x - 12) y (Some type)] /\
    type <> points.
Proof.
  intros Hr. unfold Game.spawnPowerUp, Game.Math_random, Game.element.
  set (r := Game.randomSource g (Game.randomCursor g)) in *.
  change (inject_Z (Z.of_nat (length Game.types))) with 5%Q.
  destruct (Qfloor_range (r * 5) 5) as [Hlo Hhi].
  { change (inject_Z 5) with 5%Q. lra. }
  destruct (Z.ltb_spec (Qfloor (r * 5)) 0) as [| _]; [lia |].
  assert (Hcases : (Z.to_nat (Qfloor (r * 5)) < 5)%nat) by lia.
  destruct (Z.to_nat (Qfloor (r * 5))) as [| [| [| [| [| n]]]]]; [.. | lia];
    eexists; (split; [reflexivity |]); (split; [now destruct g | discriminate]).
Qed.

Lemma spawnPowerUp_never_points_witness :
  exists type,
    Game.types !! Z.to_nat (Qfloor ((9 # 10) * 5)) = Some type /\
    Game.powerUps
      (Game.spawnPowerUp 100 100 (Game.new 800 600 (fun _ => (9 # 10)%Q))) =
      [] ++ [PowerUp.new (100 - 12) 100 (Some type)] /\
    type <> points.
Proof.
  apply (spawnPowerUp_never_points 100 100 (Game.new 800 600 (fun _ => (9 # 10)%Q))).
  simpl. lra.
Defined.

(** A draw of 0.9, which a uniform choice among six types would map to
    the sixth, [points], gives the fifth type, [life_up]. *)
Example spawnPowerUp_at_nine_tenths :
  map PowerUp.type
    (Game.powerUps
       (Game.spawnPowerUp 100 100 (Game.new 800 600 (fun _ => (9 # 10)%Q))))
  = [Some life_up].
Proof. reflexivity. Qed.

(** ** The level when the provider fails *)

(** C6.  When the promise of the level data that [loadLevel] awaits
    rejects, [loadLevel] catches the exception and substitutes its fixed
    literal: the level number asked for, 15 enemies in 3 rows of 5,
    speed 1, drop 20, bullet speed 2, bullet frequency 0.00005, type
    basic, 10 points.  It then goes on as it does with a level that
    arrived: the game is what the load of that very literal gives, with
    the 15 enemies and the four default walls created.  The call returns
    in every case, and the lives, the state of the game, the score, the
    level number, the player and whatever is in flight are as before. *)
Theorem loadLevel_default_on_rejection (levelNumber : Z) (g : Game.t) :
  let g' := Game.loadLevelFrom levelNumber rejected g in
  Game.levelData g' = Some (Game.defaultLevelData levelNumber) /\
  Level.level (Game.defaultLevelData levelNumber) = levelNumber /\
  Spec.settings (Game.defaultLevelData levelNumber) =
    (15%Z, 3%Z, 5%Z, 1%Q, 20%Q, 2%Q, (5 # 100000)%Q, basic, 10%Z) /\
  g' = Game.loadLevelFrom levelNumber
         (resolved (Game.defaultLevelData levelNumber)) g /\
  length (Game.enemies g') = 15%nat /\
  length (Game.walls g') = 4%nat /\
  Spec.vitals g' = Spec.vitals g /\
  (Game.score g', Game.currentLevel g', Game.player g') =
    (Game.score g, Game.currentLevel g, Game.player g) /\
  (Game.bullets g', Game.enemyBullets g', Game.powerUps g') =
    (Game.bullets g, Game.enemyBullets g, Game.powerUps g).
Proof.
  cbn zeta. unfold Game.loadLevelFrom.
  split; [now destruct g |]. split; [reflexivity |]. split; [reflexivity |].
  split; [reflexivity |].
  split; [now destruct g |]. split; [now destruct g |].
  split; [now destruct g |]. split; now destruct g.
Qed.

(** The scenario of the specification: the level data of level 3 is
    rejected. *)
Example loadLevel_rejected_level_3 :
  let g := Game.loadLevelFrom 3 rejected (Game.new 800 600 (fun _ => 0%Q)) in
  option_map Level.enemyType (Game.levelData g) = Some basic /\
  option_map Level.enemyRows (Game.levelData g) = Some 3%Z /\
  option_map Level.enemyCols (Game.levelData g) = Some 5%Z /\
  length (Game.enemies g) = 15%nat.
Proof. cbn zeta. repeat split. Qed.

Lemma fetchLevelData_resolves (levelNumber : Z) (response : Response) :
  exists data, Utils.fetchLevelData levelNumber response = resolved data.
Proof. destruct response; simpl; eauto. Qed.

(** The provider of this repository, [Utils.fetchLevelData], never
    rejects.  When the request fails it resolves with a literal of its
    own, 35 enemies in 5 rows of 7 with bullet frequency 0.003, and
    [loadLevel] loads that level. *)
Lemma loadLevel_failed_request (levelNumber : Z) (response : Response)
    (g : Game.t) :
  Spec.failed response ->
  (exists data,
     Utils.fetchLevelData levelNumber response = resolved data /\
     Game.levelData (Game.loadLevel levelNumber response g) = Some data /\
     Level.level data = levelNumber /\
     Spec.settings data =
       (35%Z, 5%Z, 7%Z, 1%Q, 20%Q, 2%Q, (3 # 1000)%Q, basic, 10%Z) /\
     Level.walls data = None) /\
  length (Game.enemies (Game.loadLevel levelNumber response g)) = 35%nat /\
  length (Game.walls (Game.loadLevel levelNumber response g)) = 4%nat /\
  Spec.vitals (Game.loadLevel levelNumber response g) = Spec.vitals g.
Proof.
  intros Hfail. split; [| split; [| split]].
  - destruct response; try contradiction; simpl; eexists;
      (split; [reflexivity |]); (split; [now destruct g |]); auto.
  - destruct response; try contradiction; now destruct g.
  - destruct response; try contradiction; now destruct g.
  - apply loadLevel_vitals.
Qed.

(** ** When entities leave their collections *)

Lemma bulletsVsWalls_spec (isPlayerBullet : bool) (i : nat)
    (shots : list Bullet.t) (barriers : list Wall.t) :
  length (snd (Game.bulletsVsWalls isPlayerBullet i shots barriers))
    = length barriers /\
  sublist (fst (Game.bulletsVsWalls isPlayerBullet i shots barriers)) shots.
Proof.
  revert shots barriers. induction i as [| i IH]; intros shots barriers; simpl.
  - split; reflexivity.
  - destruct (shots !! i) as [bullet |]; [| apply IH].
    destruct (Game.firstWallHit bullet barriers 0) as [[w wall] |]; [| apply IH].
    match goal with
    | |- context [Game.bulletsVsWalls isPlayerBullet i ?shots' ?barriers'] =>
        destruct (IH shots' barriers') as [Hlen Hsub]
    end.
    split.
    + now rewrite Hlen, length_insert.
    + etransitivity; [exact Hsub | apply sublist_delete].
Qed.

Lemma cleanUpWalls_active (g : Game.t) :
  Forall (fun w => Wall.active w = true) (Game.walls (Game.cleanUpWalls g)).
Proof.
  apply List.Forall_forall. intros w Hin.
  destruct g; simpl in Hin. apply filter_In in Hin. tauto.
Qed.

Lemma playerBulletsVsEnemies_walls (i : nat) (g : Game.t) :
  Game.walls (Game.playerBulletsVsEnemies i g) = Game.walls g.
Proof.
  revert g. induction i as [| i IH]; intros g; simpl; [reflexivity |].
  destruct (Game.bullets g !! i) as [bullet |]; [| apply IH].
  destruct (Game.lastEnemyHit _ _ _) as [[j enemy] |]; [| apply IH].
  rewrite IH. destruct (Qltb _ _); now destruct g.
Qed.

Lemma powerUpsVsPlayer_walls (i : nat) (g : Game.t) :
  Game.walls (Game.powerUpsVsPlayer i g) = Game.walls g.
Proof.
  revert g. induction i as [| i IH]; intros g; simpl; [reflexivity |].
  destruct (Game.powerUps g !! i) as [u |]; [| apply IH].
  destruct (entityCheckCollision u (Game.player g)); [| apply IH].
  rewrite IH. unfold Game.applyPowerUp.
  destruct (PowerUp.type u) as [[] |]; now destruct g.
Qed.

Lemma enemyBulletsVsPlayer_walls (i : nat) (g : Game.t) :
  Game.walls (Game.enemyBulletsVsPlayer i g) = Game.walls g.
Proof.
  revert g. induction i as [| i IH]; intros g; simpl; [reflexivity |].
  destruct (Game.enemyBullets g !! i) as [bullet |]; [| apply IH].
  destruct (entityCheckCollision bullet (Game.player g)); [| apply IH].
  destruct (Player.takeDamage (Game.player g)) as [[] p']; rewrite IH;
    now destruct g.
Qed.

Lemma enemiesReachedPlayer_walls (g : Game.t) :
  Game.walls (Game.enemiesReachedPlayer g) = Game.walls g.
Proof.
  unfold Game.enemiesReachedPlayer. generalize (Game.enemies g) as es.
  intros es. revert g. induction es as [| e es IH]; intros g; simpl;
    [reflexivity |].
  rewrite IH. destruct (Qleb _ _); now destruct g.
Qed.

Lemma enemyBulletsVsWalls_walls (g : Game.t) :
  length (Game.walls (Game.enemyBulletsVsWalls g)) = length (Game.walls g).
Proof.
  unfold Game.enemyBulletsVsWalls.
  destruct (bulletsVsWalls_spec false (length (Game.enemyBullets g))
              (Game.enemyBullets g) (Game.walls g)) as [Hlen _].
  destruct (Game.bulletsVsWalls _ _ _ _). now destruct g.
Qed.

Lemma checkCollisions_walls (g : Game.t) :
  length (Game.walls (Game.checkCollisions g)) =
  length (List.filter Wall.active (Game.walls (Game.playerBulletsVsWalls g))).
Proof.
  unfold Game.checkCollisions. cbn zeta.
  rewrite enemiesReachedPlayer_walls, enemyBulletsVsPlayer_walls,
    enemyBulletsVsWalls_walls, powerUpsVsPlayer_walls,
    playerBulletsVsEnemies_walls.
  now destruct (Game.playerBulletsVsWalls g).
Qed.

Lemma lastEnemyHit_lookup (bullet : Bullet.t) (targets : list Enemy.t)
    (n j : nat) (enemy : Enemy.t) :
  Game.lastEnemyHit bullet targets n = Some (j, enemy) ->
  targets !! j = Some enemy /\ entityCheckCollision bullet enemy = true.
Proof.
  induction n as [| n IH]; simpl; [discriminate |].
  destruct (targets !! n) as [e |] eqn:He; [| exact IH].
  destruct (entityCheckCollision bullet e) eqn:Hc; [| exact IH].
  intros [= <- <-]. auto.
Qed.

(** Every kill of phase 2 takes one bullet and one enemy out of their
    arrays at once. *)
Lemma playerBulletsVsEnemies_removed (i : nat) (g : Game.t) :
  let g' := Game.playerBulletsVsEnemies i g in
  let kills := (Game.enemiesKilled g' - Game.enemiesKilled g)%Z in
  (0 <= kills)%Z /\
  Z.of_nat (length (Game.bullets g')) = (Z.of_nat (length (Game.bullets g)) - kills)%Z /\
  Z.of_nat (length (Game.enemies g')) = (Z.of_nat (length (Game.enemies g)) - kills)%Z.
Proof.
  cbn zeta. revert g. induction i as [| i IH]; intros g; simpl; [lia |].
  destruct (Game.bullets g !! i) as [bullet |] eqn:Hb; [| apply IH].
  destruct (Game.lastEnemyHit _ _ _) as [[j enemy] |] eqn:Hhit; [| apply IH].
  apply lastEnemyHit_lookup in Hhit. destruct Hhit as [He _].
  match goal with
  | |- context [Game.playerBulletsVsEnemies i ?g6] =>
      destruct (IH g6) as (Hk & Hbs & Hes);
      assert (Hk6 : Game.enemiesKilled g6 = (Game.enemiesKilled g + 1)%Z)
        by (destruct (Qltb _ _); now destruct g);
      assert (Hb6 : Game.bullets g6 = delete i (Game.bullets g))
        by (destruct (Qltb _ _); now destruct g);
      assert (He6 : Game.enemies g6 = delete j (Game.enemies g))
        by (destruct (Qltb _ _); now destruct g)
  end.
  rewrite Hk6 in Hk, Hbs, Hes. rewrite Hb6 in Hbs. rewrite He6 in Hes.
  rewrite length_delete in Hbs by eauto. rewrite length_delete in Hes by eauto.
  apply lookup_lt_Some in Hb, He. lia.
Qed.

Lemma applyPowerUp_frame (u : PowerUp.t) (g : Game.t) :
  Game.powerUps (Game.applyPowerUp u g) = Game.powerUps g /\
  getBounds (Game.player (Game.applyPowerUp u g)) = getBounds (Game.player g).
Proof.
  unfold Game.applyPowerUp.
  destruct (PowerUp.type u) as [[] |]; destruct g as [? ? ? []]; auto.
Qed.

Lemma takeDamage_bounds (p : Player.t) :
  getBounds (snd (Player.takeDamage p)) = getBounds p.
Proof.
  unfold Player.takeDamage.
  destruct p as [? ? ? ? ? ? ? ? ? [] ? ? [] ? []]; reflexivity.
Qed.

Lemma collision_same_bounds {A : Type} `{Entity A} (p p' : Player.t) :
  getBounds p' = getBounds p ->
  forall a : A, negb (entityCheckCollision a p') = negb (entityCheckCollision a p).
Proof. intros Hb a. unfold entityCheckCollision. now rewrite Hb. Qed.

Lemma delete_take_drop_at {A : Type} (l : list A) (i : nat) (x : A) :
  l !! i = Some x ->
  take i (delete i l) = take i l /\ drop i (delete i l) = drop (S i) l /\
  (i <= length (delete i l))%nat.
Proof.
  intros Hx. pose proof (lookup_lt_Some _ _ _ Hx) as Hlt.
  rewrite delete_take_drop. split; [| split].
  - apply take_app_length'. rewrite length_take_le; lia.
  - apply drop_app_length'. rewrite length_take_le; lia.
  - rewrite length_app, length_take_le, length_drop; lia.
Qed.

(** Phase 3 leaves in the array the power-ups that do not touch the
    player: the others are spliced out inside the loop. *)
Lemma powerUpsVsPlayer_kept (i : nat) (g : Game.t) :
  (i <= length (Game.powerUps g))%nat ->
  Game.powerUps (Game.powerUpsVsPlayer i g) =
    List.filter (fun u => negb (entityCheckCollision u (Game.player g)))
      (take i (Game.powerUps g)) ++ drop i (Game.powerUps g).
Proof.
  revert g. induction i as [| i IH]; intros g Hi; simpl; [reflexivity |].
  destruct (lookup_lt_is_Some_2 (Game.powerUps g) i) as [u Hu]; [lia |].
  rewrite Hu, (take_S_r _ _ _ Hu), List.filter_app. simpl.
  destruct (entityCheckCollision u (Game.player g)) eqn:Hc; simpl.
  - destruct (applyPowerUp_frame u g) as [Hps Hb].
    destruct (delete_take_drop_at _ _ _ Hu) as (Htake & Hdrop & Hlen).
    rewrite IH; simpl; rewrite Hps; [| exact Hlen].
    rewrite Htake, Hdrop, app_nil_r. f_equal.
    apply List.filter_ext. apply collision_same_bounds.
    rewrite <- Hb. now destruct (Game.applyPowerUp u g).
  - rewrite IH by lia. rewrite (drop_S _ _ _ Hu), <- app_assoc. reflexivity.
Qed.

(** Phase 5 leaves in the array the bullets that do not touch the
    player: the others are spliced out inside the loop. *)
Lemma enemyBulletsVsPlayer_kept (i : nat) (g : Game.t) :
  (i <= length (Game.enemyBullets g))%nat ->
  Game.enemyBullets (Game.enemyBulletsVsPlayer i g) =
    List.filter (fun b => negb (entityCheckCollision b (Game.player g)))
      (take i (Game.enemyBullets g)) ++ drop i (Game.enemyBullets g).
Proof.
  revert g. induction i as [| i IH]; intros g Hi; simpl; [reflexivity |].
  destruct (lookup_lt_is_Some_2 (Game.enemyBullets g) i) as [b Hb]; [lia |].
  rewrite Hb, (take_S_r _ _ _ Hb), List.filter_app. simpl.
  destruct (entityCheckCollision b (Game.player g)) eqn:Hc; simpl.
  - pose proof (takeDamage_bounds (Game.player g)) as Hbounds.
    destruct (delete_take_drop_at _ _ _ Hb) as (Htake & Hdrop & Hlen).
    destruct (Player.takeDamage (Game.player g)) as [damaged p'].
    simpl in Hbounds.
    match goal with
    | |- context [Game.enemyBulletsVsPlayer i ?g2] =>
        assert (Hbs : Game.enemyBullets g2 = delete i (Game.enemyBullets g))
          by (destruct damaged; now destruct g);
        assert (Hp : Game.player g2 = p')
          by (destruct damaged; now destruct g);
        rewrite (IH g2) by (rewrite Hbs; exact Hlen);
        rewrite Hbs, Hp
    end.
    rewrite Htake, Hdrop, app_nil_r. f_equal.
    apply List.filter_ext. now apply collision_same_bounds.
  - rewrite IH by lia. rewrite (drop_S _ _ _ Hb), <- app_assoc. reflexivity.
Qed.

(** *** Which bullets and enemies a phase takes out *)

Lemma filter_sublist_impl {A : Type} (p q : A -> bool) (l : list A) :
  (forall a, In a l -> p a = true -> q a = true) ->
  sublist (List.filter p l) (List.filter q l).
Proof.
  induction l as [| a l IH]; intros Himpl; simpl; [constructor |].
  assert (IH' : sublist (List.filter p l) (List.filter q l))
    by (apply IH; intros b Hb; apply Himpl; now right).
  destruct (p a) eqn:Hp.
  - rewrite (Himpl a (or_introl eq_refl) Hp). now constructor.
  - destruct (q a); [now constructor | exact IH'].
Qed.

Lemma filter_sublist_self {A : Type} (p : A -> bool) (l : list A) :
  sublist (List.filter p l) l.
Proof.
  induction l as [| a l IH]; simpl; [constructor |].
  destruct (p a); now constructor.
Qed.

Lemma filter_delete_rejected {A : Type} (p : A -> bool) (l : list A)
    (j : nat) (a : A) :
  l !! j = Some a -> p a = false ->
  List.filter p (delete j l) = List.filter p l.
Proof.
  revert j. induction l as [| b l IH]; intros [| j] Hj Hp; simpl in *;
    try discriminate.
  - injection Hj as ->. now rewrite Hp.
  - now rewrite (IH j Hj Hp).
Qed.

Lemma existsb_sublist {A : Type} (p : A -> bool) (l k : list A) :
  sublist l k -> existsb p l = true -> existsb p k = true.
Proof.
  intros Hsub Hex. apply existsb_exists in Hex. destruct Hex as (a & Hin & Hp).
  apply existsb_exists. exists a. split; [| exact Hp].
  apply list_elem_of_In. apply list_elem_of_In in Hin.
  eapply elem_of_sublist; eauto.
Qed.

Lemma takeDamage_worn (cx cy : Q) (isPlayerBullet : bool) (wall : Wall.t) :
  getBounds (snd (Wall.takeDamage cx cy isPlayerBullet wall)) = getBounds wall /\
  (Wall.active (snd (Wall.takeDamage cx cy isPlayerBullet wall)) = true ->
   Wall.active wall = true).
Proof.
  unfold Wall.takeDamage.
  destruct (Wall.health wall <=? 0)%Z; [split; [now destruct wall | discriminate] |].
  destruct (Wall.damageBlocks _ _ _ _ _) as [blocks' destroyed].
  destruct (0 <? destroyed)%Z; [| now destruct wall].
  match goal with
  | |- context [if ?c then _ else _] => destruct c
  end; destruct wall; simpl; split; auto; discriminate.
Qed.

Lemma worn_refl (barriers : list Wall.t) : Spec.worn barriers barriers.
Proof. unfold Spec.worn. induction barriers; constructor; auto. Qed.

Lemma worn_trans (a b c : list Wall.t) :
  Spec.worn a b -> Spec.worn b c -> Spec.worn a c.
Proof.
  unfold Spec.worn. intros Hab. revert c.
  induction Hab as [| x y l k [Hb Ha] _ IH]; intros c Hbc;
    inversion Hbc as [| ? z ? m [Hb' Ha'] Hrest]; subst; constructor; auto.
  split; [congruence | auto].
Qed.

Lemma worn_insert (barriers : list Wall.t) (w : nat) (wall wall' : Wall.t) :
  barriers !! w = Some wall ->
  getBounds wall' = getBounds wall ->
  (Wall.active wall' = true -> Wall.active wall = true) ->
  Spec.worn barriers (<[w := wall']> barriers).
Proof.
  unfold Spec.worn. revert w.
  induction barriers as [| b bs IH]; intros [| w] Hw Hb Ha; simpl in *;
    try discriminate.
  - injection Hw as ->. constructor; [auto | apply worn_refl].
  - constructor; [auto | now apply IH].
Qed.

Lemma hitsWall_worn (barriers barriers' : list Wall.t) (bullet : Bullet.t) :
  Spec.worn barriers barriers' ->
  Spec.hitsWall barriers bullet = false ->
  Spec.hitsWall barriers' bullet = false.
Proof.
  unfold Spec.worn, Spec.hitsWall.
  induction 1 as [| wall wall' l k [Hb Ha] _ IH]; simpl; [auto |].
  intros Hno. apply orb_false_iff in Hno. destruct Hno as [Hwall Hrest].
  rewrite (IH Hrest), orb_false_r.
  destruct (Wall.active wall') eqn:Hact; [| reflexivity].
  rewrite (Ha eq_refl) in Hwall. simpl in *.
  unfold entityCheckCollision in *. now rewrite Hb.
Qed.

Lemma firstWallHit_spec (bullet : Bullet.t) (barriers : list Wall.t) (w0 : nat) :
  match Game.firstWallHit bullet barriers w0 with
  | Some (w, wall) =>
      (w0 <= w)%nat /\ barriers !! (w - w0)%nat = Some wall /\
      Spec.hitsWall barriers bullet = true
  | None => Spec.hitsWall barriers bullet = false
  end.
Proof.
  unfold Spec.hitsWall. revert w0.
  induction barriers as [| wall rest IH]; intros w0; simpl; [reflexivity |].
  destruct (Wall.active wall && entityCheckCollision bullet wall) eqn:Hhit.
  - split; [lia |]. split; [now rewrite Nat.sub_diag | reflexivity].
  - specialize (IH (S w0)).
    destruct (Game.firstWallHit bullet rest (S w0)) as [[w wall'] |];
      [| exact IH].
    destruct IH as (Hle & Hlook & Hex). split; [lia |].
    split; [| exact Hex].
    replace (w - w0)%nat with (S (w - S w0)) by lia. exact Hlook.
Qed.

(** The loop of bullets against walls, from index [i] down: the bullets
    above [i] are untouched, and of those below exactly the ones that
    hit nothing are left. *)
Lemma bulletsVsWalls_exact (isPlayerBullet : bool) (i : nat)
    (shots : list Bullet.t) (barriers : list Wall.t) :
  (i <= length shots)%nat ->
  Spec.worn barriers
    (snd (Game.bulletsVsWalls isPlayerBullet i shots barriers)) /\
  exists kept,
    fst (Game.bulletsVsWalls isPlayerBullet i shots barriers) =
      kept ++ drop i shots /\
    sublist kept (take i shots) /\
    Forall (fun bullet =>
        Spec.hitsWall
          (snd (Game.bulletsVsWalls isPlayerBullet i shots barriers)) bullet
        = false) kept /\
    sublist
      (List.filter (fun bullet => negb (Spec.hitsWall barriers bullet))
         (take i shots))
      kept.
Proof.
  revert shots barriers.
  induction i as [| i IH]; intros shots barriers Hi; simpl.
  - split; [apply worn_refl |]. exists []. rewrite take_0, drop_0.
    repeat split; constructor.
  - destruct (lookup_lt_is_Some_2 shots i) as [bullet Hb]; [lia |].
    rewrite Hb, (take_S_r _ _ _ Hb), List.filter_app. simpl.
    pose proof (firstWallHit_spec bullet barriers 0) as Hfirst.
    destruct (Game.firstWallHit bullet barriers 0) as [[w wall] |].
    + destruct Hfirst as (_ & Hw & Hhit). rewrite Nat.sub_0_r in Hw.
      set (cx := (Bullet.x bullet + Bullet.width bullet / 2)%Q).
      set (cy := (Bullet.y bullet + Bullet.height bullet / 2)%Q).
      destruct (takeDamage_worn cx cy isPlayerBullet wall) as [Hbounds Hact].
      pose proof (worn_insert barriers w wall _ Hw Hbounds Hact) as Hworn.
      destruct (delete_take_drop_at _ _ _ Hb) as (Htake & Hdrop & Hlen).
      destruct (IH (delete i shots)
                  (<[w := snd (Wall.takeDamage cx cy isPlayerBullet wall)]> barriers)
                  Hlen)
        as (Hworn' & kept & Hfst & Hsub & Hnone & Hall).
      rewrite Htake in Hsub, Hall. rewrite Hdrop in Hfst.
      split; [exact (worn_trans _ _ _ Hworn Hworn') |].
      exists kept. split; [exact Hfst |].
      split; [now apply sublist_inserts_r |]. split; [exact Hnone |].
      rewrite Hhit. simpl. rewrite app_nil_r.
      etransitivity; [| exact Hall].
      apply filter_sublist_impl. intros b _ Hno.
      apply negb_true_iff in Hno. apply negb_true_iff.
      exact (hitsWall_worn _ _ _ Hworn Hno).
    + destruct (IH shots barriers) as (Hworn & kept & Hfst & Hsub & Hnone & Hall);
        [lia |].
      split; [exact Hworn |].
      exists (kept ++ [bullet]).
      split; [rewrite Hfst, (drop_S _ _ _ Hb), <- app_assoc; reflexivity |].
      split; [now apply sublist_app |].
      split.
      * apply Forall_app. split; [exact Hnone |].
        constructor; [| constructor].
        exact (hitsWall_worn _ _ _ Hworn Hfirst).
      * rewrite Hfirst. simpl. now apply sublist_app.
Qed.

Lemma bulletsVsWalls_whole (isPlayerBullet : bool) (shots : list Bullet.t)
    (barriers : list Wall.t) :
  let result :=
    Game.bulletsVsWalls isPlayerBullet (length shots) shots barriers in
  Spec.worn barriers (snd result) /\
  sublist (fst result) shots /\
  Forall (fun bullet => Spec.hitsWall (snd result) bullet = false) (fst result) /\
  sublist
    (List.filter (fun bullet => negb (Spec.hitsWall barriers bullet)) shots)
    (fst result).
Proof.
  cbn zeta.
  destruct (bulletsVsWalls_exact isPlayerBullet (length shots) shots barriers)
    as (Hworn & kept & Hfst & Hsub & Hnone & Hall); [reflexivity |].
  rewrite take_ge in Hsub, Hall by reflexivity.
  rewrite drop_ge, app_nil_r in Hfst by reflexivity.
  rewrite Hfst. auto.
Qed.

Lemma lastEnemyHit_none (bullet : Bullet.t) (targets : list Enemy.t) (j : nat) :
  (length targets <= j)%nat ->
  Game.lastEnemyHit bullet targets j = None ->
  Spec.hitsEnemy targets bullet = false.
Proof.
  intros Hj Hnone.
  assert (Hall : forall k enemy, (k < j)%nat -> targets !! k = Some enemy ->
    entityCheckCollision bullet enemy = false).
  { clear Hj. induction j as [| j IH]; intros k enemy Hk Hlook; [lia |].
    simpl in Hnone.
    destruct (targets !! j) as [e |] eqn:He.
    - destruct (entityCheckCollision bullet e) eqn:Hc; [discriminate |].
      destruct (decide (k = j)) as [-> | Hne].
      + rewrite He in Hlook. now injection Hlook as <-.
      + apply (IH Hnone k); [lia | exact Hlook].
    - destruct (decide (k = j)) as [-> | Hne]; [congruence |].
      apply (IH Hnone k); [lia | exact Hlook]. }
  unfold Spec.hitsEnemy.
  destruct (existsb _ targets) eqn:Hex; [| reflexivity].
  apply existsb_exists in Hex. destruct Hex as (enemy & Hin & Hc).
  apply list_elem_of_In, list_elem_of_lookup in Hin. destruct Hin as [k Hk].
  rewrite (Hall k enemy) in Hc; [discriminate | | exact Hk].
  apply lookup_lt_Some in Hk. lia.
Qed.

(** Phase 2, from index [i] down: no bullet left below [i] overlaps an
    enemy that is left, the bullets that overlapped no enemy are all
    left, and so are the enemies that no bullet below [i] overlapped. *)
Lemma playerBulletsVsEnemies_exact (i : nat) (g : Game.t) :
  (i <= length (Game.bullets g))%nat ->
  let g' := Game.playerBulletsVsEnemies i g in
  sublist (Game.enemies g') (Game.enemies g) /\
  sublist
    (List.filter
       (fun enemy => negb (Spec.hitByBullet (take i (Game.bullets g)) enemy))
       (Game.enemies g))
    (Game.enemies g') /\
  exists kept,
    Game.bullets g' = kept ++ drop i (Game.bullets g) /\
    sublist kept (take i (Game.bullets g)) /\
    Forall (fun bullet => Spec.hitsEnemy (Game.enemies g') bullet = false) kept /\
    sublist
      (List.filter (fun bullet => negb (Spec.hitsEnemy (Game.enemies g) bullet))
         (take i (Game.bullets g)))
      kept.
Proof.
  cbn zeta. revert g. induction i as [| i IH]; intros g Hi; simpl.
  - split; [reflexivity |]. split; [apply filter_sublist_self |].
    exists []. rewrite ?take_0, ?drop_0. repeat split; constructor.
  - destruct (lookup_lt_is_Some_2 (Game.bullets g) i) as [bullet Hb]; [lia |].
    rewrite Hb, (take_S_r _ _ _ Hb).
    destruct (Game.lastEnemyHit bullet (Game.enemies g)
                (length (Game.enemies g))) as [[j enemy] |] eqn:Hlast.
    + apply lastEnemyHit_lookup in Hlast. destruct Hlast as [He Hc].
      destruct (delete_take_drop_at _ _ _ Hb) as (Htake & Hdrop & Hlen).
      match goal with
      | |- context [Game.playerBulletsVsEnemies i ?g6] =>
          assert (Hb6 : Game.bullets g6 = delete i (Game.bullets g))
            by (destruct (Qltb _ _); now destruct g);
          assert (He6 : Game.enemies g6 = delete j (Game.enemies g))
            by (destruct (Qltb _ _); now destruct g);
          destruct (IH g6) as (Hes & Hsurvive & kept & Hbs & Hsub & Hnone & Hall);
            [rewrite Hb6; exact Hlen |]
      end.
      rewrite Hb6, He6 in *. rewrite Htake in Hsub, Hall, Hsurvive.
      rewrite Hdrop in Hbs.
      assert (Hhit : Spec.hitsEnemy (Game.enemies g) bullet = true).
      { unfold Spec.hitsEnemy. apply existsb_exists. exists enemy.
        split; [| exact Hc].
        apply list_elem_of_In, list_elem_of_lookup. eauto. }
      split; [etransitivity; [exact Hes | apply sublist_delete] |].
      split.
      * etransitivity; [| exact Hsurvive].
        rewrite <- (filter_delete_rejected _ (Game.enemies g) j enemy He).
        -- apply filter_sublist_impl. intros e _ Hno.
           apply negb_true_iff in Hno. apply negb_true_iff.
           unfold Spec.hitByBullet in *. rewrite existsb_app in Hno.
           now apply orb_false_iff in Hno.
        -- apply negb_false_iff. unfold Spec.hitByBullet.
           rewrite existsb_app. simpl. rewrite Hc. now rewrite orb_true_r.
      * exists kept. split; [exact Hbs |].
        split; [now apply sublist_inserts_r |]. split; [exact Hnone |].
        rewrite List.filter_app. simpl. rewrite Hhit. simpl.
        rewrite app_nil_r. etransitivity; [| exact Hall].
        apply filter_sublist_impl. intros b _ Hno.
        apply negb_true_iff in Hno. apply negb_true_iff.
        destruct (Spec.hitsEnemy (delete j (Game.enemies g)) b) eqn:Hd;
          [| reflexivity].
        pose proof (existsb_sublist _ _ _ (sublist_delete (Game.enemies g) j) Hd)
          as Hup.
        unfold Spec.hitsEnemy in Hno. congruence.
    + apply lastEnemyHit_none in Hlast; [| reflexivity].
      destruct (IH g) as (Hes & Hsurvive & kept & Hbs & Hsub & Hnone & Hall);
        [lia |].
      split; [exact Hes |]. split.
      * etransitivity; [| exact Hsurvive].
        apply filter_sublist_impl. intros e _ Hno.
        apply negb_true_iff in Hno. apply negb_true_iff.
        unfold Spec.hitByBullet in *. rewrite existsb_app in Hno.
        now apply orb_false_iff in Hno.
      * exists (kept ++ [bullet]).
        split; [rewrite Hbs, (drop_S _ _ _ Hb), <- app_assoc; reflexivity |].
        split; [now apply sublist_app |]. split.
        -- apply Forall_app. split; [exact Hnone |].
           constructor; [| constructor].
           destruct (Spec.hitsEnemy (Game.enemies (Game.playerBulletsVsEnemies i g))
                       bullet) eqn:Hd; [| reflexivity].
           pose proof (existsb_sublist _ _ _ Hes Hd) as Hup.
           unfold Spec.hitsEnemy in Hlast. congruence.
        -- rewrite List.filter_app. simpl. rewrite Hlast. simpl.
           now apply sublist_app.
Qed.

Lemma checkCollisions_worn (g : Game.t) :
  Spec.worn (Game.walls (Game.cleanUpWalls (Game.playerBulletsVsWalls g)))
    (Game.walls (Game.checkCollisions g)).
Proof.
  unfold Game.checkCollisions. cbn zeta.
  rewrite enemiesReachedPlayer_walls, enemyBulletsVsPlayer_walls.
  set (g3 := Game.powerUpsVsPlayer _ _).
  assert (H3 : Game.walls g3 =
               Game.walls (Game.cleanUpWalls (Game.playerBulletsVsWalls g)))
    by (unfold g3; now rewrite powerUpsVsPlayer_walls, playerBulletsVsEnemies_walls).
  rewrite <- H3. unfold Game.enemyBulletsVsWalls.
  destruct (bulletsVsWalls_whole false (Game.enemyBullets g3) (Game.walls g3))
    as (Hworn & _).
  destruct (Game.bulletsVsWalls false _ _ _) as [shots barriers].
  simpl in Hworn. now destruct g3.
Qed.

(** C8, as the code has it.  Collision resolution has no pruning pass at
    its end.  The walls are filtered once, right after phase 1: every
    wall is then active, and from there to the end of
    [checkCollisions] every wall stays in the array, in its place,
    whatever phase 4 deactivated.  Each of the two phases of bullets
    against walls leaves every wall in place and takes bullets out
    inside the phase: no bullet that it leaves overlaps a wall that is
    still active, and the bullets that overlapped no active wall are
    all left.  Phase 2 takes bullets and enemies out inside the phase,
    one of each at every kill: no bullet that it leaves overlaps an
    enemy that it leaves, the bullets that overlapped no enemy are all
    left, and so are the enemies that no bullet overlapped.  Phase 3 and
    phase 5 end with exactly the power-ups and the enemy bullets that do
    not touch the player left in their arrays. *)
Theorem collisions_remove_on_the_spot (g : Game.t) :
  (Forall (fun w => Wall.active w = true)
     (Game.walls (Game.cleanUpWalls (Game.playerBulletsVsWalls g))) /\
   Spec.worn (Game.walls (Game.cleanUpWalls (Game.playerBulletsVsWalls g)))
     (Game.walls (Game.checkCollisions g)) /\
   length (Game.walls (Game.checkCollisions g)) =
     length (Game.walls (Game.cleanUpWalls (Game.playerBulletsVsWalls g)))) /\
  (let g' := Game.playerBulletsVsWalls g in
   Spec.worn (Game.walls g) (Game.walls g') /\
   sublist (Game.bullets g') (Game.bullets g) /\
   Forall (fun bullet => Spec.hitsWall (Game.walls g') bullet = false)
     (Game.bullets g') /\
   sublist
     (List.filter (fun bullet => negb (Spec.hitsWall (Game.walls g) bullet))
        (Game.bullets g))
     (Game.bullets g')) /\
  (let g' := Game.enemyBulletsVsWalls g in
   Spec.worn (Game.walls g) (Game.walls g') /\
   sublist (Game.enemyBullets g') (Game.enemyBullets g) /\
   Forall (fun bullet => Spec.hitsWall (Game.walls g') bullet = false)
     (Game.enemyBullets g') /\
   sublist
     (List.filter (fun bullet => negb (Spec.hitsWall (Game.walls g) bullet))
        (Game.enemyBullets g))
     (Game.enemyBullets g')) /\
  (let g' := Game.playerBulletsVsEnemies (length (Game.bullets g)) g in
   let kills := (Game.enemiesKilled g' - Game.enemiesKilled g)%Z in
   (0 <= kills)%Z /\
   Z.of_nat (length (Game.bullets g')) =
     (Z.of_nat (length (Game.bullets g)) - kills)%Z /\
   Z.of_nat (length (Game.enemies g')) =
     (Z.of_nat (length (Game.enemies g)) - kills)%Z /\
   sublist (Game.bullets g') (Game.bullets g) /\
   sublist (Game.enemies g') (Game.enemies g) /\
   Forall (fun bullet => Spec.hitsEnemy (Game.enemies g') bullet = false)
     (Game.bullets g') /\
   sublist
     (List.filter (fun bullet => negb (Spec.hitsEnemy (Game.enemies g) bullet))
        (Game.bullets g))
     (Game.bullets g') /\
   sublist
     (List.filter (fun enemy => negb (Spec.hitByBullet (Game.bullets g) enemy))
        (Game.enemies g))
     (Game.enemies g')) /\
  Game.powerUps (Game.powerUpsVsPlayer (length (Game.powerUps g)) g) =
    List.filter (fun u => negb (entityCheckCollision u (Game.player g)))
      (Game.powerUps g) /\
  Game.enemyBullets (Game.enemyBulletsVsPlayer (length (Game.enemyBullets g)) g) =
    List.filter (fun b => negb (entityCheckCollision b (Game.player g)))
      (Game.enemyBullets g).
Proof.
  split; [| split; [| split; [| split; [| split]]]].
  - split; [apply cleanUpWalls_active |].
    split; [apply checkCollisions_worn |].
    rewrite checkCollisions_walls. now destruct (Game.playerBulletsVsWalls g).
  - cbn zeta. unfold Game.playerBulletsVsWalls.
    destruct (bulletsVsWalls_whole true (Game.bullets g) (Game.walls g))
      as (Hworn & Hsub & Hnone & Hall).
    destruct (Game.bulletsVsWalls true _ _ _) as [shots barriers].
    simpl in Hworn, Hsub, Hnone, Hall. now destruct g.
  - cbn zeta. unfold Game.enemyBulletsVsWalls.
    destruct (bulletsVsWalls_whole false (Game.enemyBullets g) (Game.walls g))
      as (Hworn & Hsub & Hnone & Hall).
    destruct (Game.bulletsVsWalls false _ _ _) as [shots barriers].
    simpl in Hworn, Hsub, Hnone, Hall. now destruct g.
  - cbn zeta.
    destruct (playerBulletsVsEnemies_removed (length (Game.bullets g)) g)
      as (Hk & Hbs & Hes).
    destruct (playerBulletsVsEnemies_exact (length (Game.bullets g)) g)
      as (Hsube & Hsurvive & kept & Hkept & Hsub & Hnone & Hall);
      [reflexivity |].
    rewrite take_ge in Hsub, Hall, Hsurvive by reflexivity.
    rewrite drop_ge, app_nil_r in Hkept by reflexivity.
    rewrite Hkept in *. auto 10.
  - rewrite powerUpsVsPlayer_kept by reflexivity.
    now rewrite take_ge, drop_ge, app_nil_r by reflexivity.
  - rewrite enemyBulletsVsPlayer_kept by reflexivity.
    now rewrite take_ge, drop_ge, app_nil_r by reflexivity.
Qed.

(** C8 as stated fails.  A wall that a bullet of an enemy deactivates
    in phase 4 is still in the array of walls, inactive, when
    [checkCollisions] returns; and a bullet of the player and the enemy
    that it kills are out of their arrays as soon as phase 2 is over. *)
Lemma checkCollisions_not_lazy :
  Forall (fun w => Wall.active w = true) (Game.walls Spec.wallBreakGame) /\
  (exists w, In w (Game.walls (Game.checkCollisions Spec.wallBreakGame)) /\
     Wall.active w = false) /\
  length (Game.bullets Spec.killGame) = 1%nat /\
  length (Game.enemies Spec.killGame) = 1%nat /\
  Game.bullets (Game.playerBulletsVsEnemies 1 Spec.killGame) = [] /\
  Game.enemies (Game.playerBulletsVsEnemies 1 Spec.killGame) = [].
Proof.
  split; [repeat constructor |]. split; [| repeat split].
  eexists. split; [left; reflexivity | reflexivity].
Qed.

(** * Further properties of the code *)

(** ** Utilities *)

Lemma Math_min_spec (a b : Q) :
  (Math_min a b <= a /\ Math_min a b <= b /\
   (Math_min a b = a \/ Math_min a b = b))%Q.
Proof.
  unfold Math_min. destruct (Qleb a b) eqn:H.
  - apply Qleb_le in H. repeat split; auto; lra.
  - apply Qleb_gt in H. repeat split; auto; lra.
Qed.

(** X1.  [Utils.clamp] with bounds in order returns a value between
    them, and the value itself when it lies between them; with bounds out
    of order it returns the upper one, whatever the value. *)
Theorem clamp_bounds (value lo hi : Q) :
  ((lo <= hi)%Q ->
     (lo <= Utils.clamp value lo hi <= hi)%Q /\
     ((lo <= value <= hi)%Q -> (Utils.clamp value lo hi == value)%Q)) /\
  ((hi < lo)%Q -> Utils.clamp value lo hi = hi).
Proof.
  unfold Utils.clamp, Math_min, Math_max. split.
  - intros Horder.
    destruct (Qleb value lo) eqn:H1;
      [apply Qleb_le in H1 | apply Qleb_gt in H1];
      match goal with
      | |- context [Qleb ?a hi] =>
          destruct (Qleb a hi) eqn:H2;
            [apply Qleb_le in H2 | apply Qleb_gt in H2]
      end;
      (split; [lra | intros; lra]).
  - intros Horder.
    destruct (Qleb value lo) eqn:H1;
      [apply Qleb_le in H1 | apply Qleb_gt in H1];
      match goal with
      | |- context [Qleb ?a hi] =>
          destruct (Qleb a hi) eqn:H2;
            [apply Qleb_le in H2; lra | reflexivity]
      end.
Qed.

Lemma clamp_bounds_witness :
  (0 <= Utils.clamp 900 0 (800 - 40) <= 800 - 40)%Q /\
  Utils.clamp 900 0 (30 - 40) = (30 - 40)%Q.
Proof.
  split.
  - apply (proj1 (clamp_bounds 900 0 (800 - 40))). discriminate.
  - apply (proj2 (clamp_bounds 900 0 (30 - 40))). reflexivity.
Defined.

Lemma random_between (r lo hi : Q) :
  (0 <= r < 1)%Q -> (lo <= hi)%Q ->
  (lo <= Utils.random r lo hi <= hi)%Q /\
  ((lo < hi)%Q -> (Utils.random r lo hi < hi)%Q).
Proof.
  intros [Hr0 Hr1] Horder. unfold Utils.random.
  assert (H0 : (0 <= r * (hi - lo))%Q) by (apply Qmult_le_0_compat; lra).
  assert (H1 : (0 <= (1 - r) * (hi - lo))%Q) by (apply Qmult_le_0_compat; lra).
  split; [split; lra |].
  intros Hlt.
  assert (H2 : (0 < (1 - r) * (hi - lo))%Q) by (apply Qmult_lt_0_compat; lra).
  lra.
Qed.

(** X2.  On a draw in [0, 1), [Utils.random(min, max)] with
    [min <= max] lies between [min] and [max], both included. *)
Theorem random_range (r lo hi : Q) :
  (0 <= r < 1)%Q -> (lo <= hi)%Q ->
  (lo <= Utils.random r lo hi <= hi)%Q.
Proof. intros Hr Horder. now apply random_between. Qed.

Lemma random_range_witness :
  (-5 <= Utils.random (1 # 2) (-5) 5 <= 5)%Q.
Proof. apply (random_range (1 # 2) (-5) 5); [split |]; discriminate || reflexivity. Defined.

Lemma randomInt_between (r : Q) (lo hi : Z) :
  (0 <= r < 1)%Q -> (lo <= hi)%Z ->
  (lo <= Utils.randomInt r lo hi <= hi)%Z.
Proof.
  intros [Hr0 Hr1] Horder. unfold Utils.randomInt.
  assert (Hn : (0 < inject_Z (hi - lo + 1))%Q).
  { change 0%Q with (inject_Z 0). rewrite <- Zlt_Qlt. lia. }
  destruct (Qfloor_range (r * inject_Z (hi - lo + 1)) (hi - lo + 1)) as [Hlo Hhi];
    [| lia].
  split.
  - apply Qmult_le_0_compat; lra.
  - assert (H : (0 < (1 - r) * inject_Z (hi - lo + 1))%Q)
      by (apply Qmult_lt_0_compat; lra).
    lra.
Qed.

(** X3.  On a draw in [0, 1), [Utils.randomInt(min, max)] with integers
    [min <= max] is an integer between [min] and [max], both included. *)
Theorem randomInt_range (r : Q) (lo hi : Z) :
  (0 <= r < 1)%Q -> (lo <= hi)%Z ->
  (lo <= Utils.randomInt r lo hi <= hi)%Z.
Proof. apply randomInt_between. Qed.

Lemma randomInt_range_witness :
  (3 <= Utils.randomInt (99 # 100) 3 6 <= 6)%Z.
Proof.
  apply (randomInt_range (99 # 100) 3 6); [split |]; discriminate || reflexivity.
Defined.

(** ** Particles, explosions and the screen shake *)

(** X4.  With draws in [0, 1), [Utils.createParticles(x, y, count)]
    makes [count] particles, each one active with life 1, at most 5 away
    from [(x, y)] on either axis, with both velocities between -3 and 3
    and a size between 2 and 5. *)
Theorem createParticles_spread (draw : nat -> Q) (cursor : nat) (x y : Q)
    (count : nat) :
  Spec.unitDraws draw ->
  length (Utils.createParticles draw cursor x y count) = count /\
  Forall (fun p =>
      Particle.active p = true /\ Particle.life p = 1%Q /\
      (x - 5 <= Particle.x p <= x + 5)%Q /\
      (y - 5 <= Particle.y p <= y + 5)%Q /\
      (-3 <= Particle.vx p <= 3)%Q /\ (-3 <= Particle.vy p <= 3)%Q /\
      (2 <= Particle.size p <= 5)%Q)
    (Utils.createParticles draw cursor x y count).
Proof.
  intros Hdraw. revert cursor.
  induction count as [| n IH]; intros cursor; simpl.
  - split; [reflexivity | constructor].
  - destruct (IH (cursor + 5)%nat) as [Hlen Hall].
    split; [now rewrite Hlen |]. constructor; [| exact Hall]. simpl.
    destruct (random_between (draw cursor) (-5) 5 (Hdraw _)) as [? ?];
      [discriminate |].
    destruct (random_between (draw (cursor + 1)%nat) (-5) 5 (Hdraw _)) as [? ?];
      [discriminate |].
    destruct (random_between (draw (cursor + 2)%nat) (-3) 3 (Hdraw _)) as [? ?];
      [discriminate |].
    destruct (random_between (draw (cursor + 3)%nat) (-3) 3 (Hdraw _)) as [? ?];
      [discriminate |].
    destruct (random_between (draw (cursor + 4)%nat) 2 5 (Hdraw _)) as [? ?];
      [discriminate |].
    repeat split; auto; lra.
Qed.

Lemma createParticles_spread_witness :
  length (Utils.createParticles (fun _ => (1 # 2)%Q) 0 100 100 8) = 8%nat.
Proof.
  apply (createParticles_spread (fun _ => (1 # 2)%Q) 0 100 100 8).
  intros n. split; [discriminate | reflexivity].
Defined.

Lemma Qdiv_unit (a b : Q) :
  (0 <= a)%Q -> (a < b)%Q -> (0 <= a / b < 1)%Q.
Proof.
  intros Ha Hab. assert (Hb : (0 < b)%Q) by lra. split.
  - apply Qle_shift_div_l; [exact Hb | lra].
  - apply Qlt_shift_div_r; [exact Hb | lra].
Qed.

(** X6.  A tick of an explosion with elapsed time that is not negative:
    if its time then reaches its duration it is inactive; otherwise it
    stays as active as it was, its size is
    [maxSize * (1 - time / duration)], which lies between 0 and
    [maxSize], and it keeps, updated, exactly those of its particles
    that are still active. *)
Theorem explosion_update (deltaTime : Q) (e : Explosion.t) :
  (0 <= Explosion.time e)%Q -> (0 <= deltaTime)%Q ->
  (0 <= Explosion.maxSize e)%Q ->
  ((Explosion.duration e <= Explosion.time e + deltaTime)%Q ->
     Explosion.active (Explosion.update deltaTime e) = false) /\
  ((Explosion.time e + deltaTime < Explosion.duration e)%Q ->
     Explosion.active (Explosion.update deltaTime e) = Explosion.active e /\
     (0 <= Explosion.size (Explosion.update deltaTime e)
        <= Explosion.maxSize e)%Q /\
     Explosion.particles (Explosion.update deltaTime e) =
       updateParticles deltaTime (Explosion.particles e) /\
     Forall (fun p => Particle.active p = true)
       (Explosion.particles (Explosion.update deltaTime e)) /\
     (length (Explosion.particles (Explosion.update deltaTime e))
        <= length (Explosion.particles e))%nat).
Proof.
  intros Htime Hdt Hmax. unfold Explosion.update. cbn zeta. split.
  - intros Hend. apply Qleb_le in Hend. now rewrite Hend.
  - intros Hrun. pose proof Hrun as Hrun'. apply Qleb_gt in Hrun'.
    rewrite Hrun'. simpl. split; [reflexivity |].
    destruct (Qdiv_unit (Explosion.time e + deltaTime) (Explosion.duration e))
      as [Hp0 Hp1]; [lra | exact Hrun |].
    set (progress := ((Explosion.time e + deltaTime) / Explosion.duration e)%Q) in *.
    assert (H0 : (0 <= Explosion.maxSize e * (1 - progress))%Q)
      by (apply Qmult_le_0_compat; lra).
    assert (H1 : (0 <= Explosion.maxSize e * progress)%Q)
      by (apply Qmult_le_0_compat; lra).
    split; [split; lra |]. split; [reflexivity |]. split.
    + apply List.Forall_forall. intros p Hin. apply filter_In in Hin. tauto.
    + etransitivity; [apply List.filter_length_le |]. now rewrite length_map.
Qed.

Lemma explosion_update_witness :
  let e :=
    Explosion.mk 100 100 30 30 (1 # 2) 0 true [Particle.new 100 100 1 1 3 1] in
  Explosion.active (Explosion.update (1 # 2) e) = false /\
  Explosion.active (Explosion.update (1 # 60) e) = true.
Proof.
  cbn zeta.
  destruct (explosion_update (1 # 2)
    (Explosion.mk 100 100 30 30 (1 # 2) 0 true [Particle.new 100 100 1 1 3 1]))
    as [Hend _]; [discriminate .. |].
  destruct (explosion_update (1 # 60)
    (Explosion.mk 100 100 30 30 (1 # 2) 0 true [Particle.new 100 100 1 1 3 1]))
    as [_ Hrun]; [discriminate .. |].
  split; [apply Hend; discriminate | apply Hrun; reflexivity].
Defined.

Lemma burst_spec `{MathLib} `{MathPI} (draw : nat -> Q) (cursor : nat)
    (x y : Q) (i todo : nat) :
  Spec.unitDraws draw ->
  length (Explosion.burst draw cursor x y i todo) = todo /\
  Forall (fun p =>
      Particle.active p = true /\ Particle.life p = 1%Q /\
      Particle.x p = x /\ Particle.y p = y /\
      exists size, Particle.size p = inject_Z size /\ (3 <= size <= 6)%Z)
    (Explosion.burst draw cursor x y i todo).
Proof.
  intros Hdraw. revert cursor i.
  induction todo as [| n IH]; intros cursor i; simpl.
  - split; [reflexivity | constructor].
  - destruct (IH (cursor + 3)%nat (S i)) as [Hlen Hall].
    split; [now rewrite Hlen |]. constructor; [| exact Hall]. simpl.
    repeat split. eexists. split; [reflexivity |].
    apply randomInt_between; [apply Hdraw | lia].
Qed.

(** X7.  With draws in [0, 1), a new explosion is active at time 0 with
    its size at its maximum, and carries twelve particles, all at the
    centre of the explosion, active, of life 1 and of a whole size
    between 3 and 6. *)
Theorem explosion_new `{MathLib} `{MathPI} (draw : nat -> Q) (cursor : nat)
    (x y size duration : Q) :
  Spec.unitDraws draw ->
  let e := Explosion.new draw cursor x y size duration in
  Explosion.active e = true /\ Explosion.time e = 0%Q /\
  Explosion.size e = Explosion.maxSize e /\
  length (Explosion.particles e) = 12%nat /\
  Forall (fun p =>
      Particle.active p = true /\ Particle.life p = 1%Q /\
      Particle.x p = x /\ Particle.y p = y /\
      exists whole, Particle.size p = inject_Z whole /\ (3 <= whole <= 6)%Z)
    (Explosion.particles e).
Proof.
  intros Hdraw. cbn zeta. unfold Explosion.new. simpl.
  destruct (burst_spec draw cursor x y 0 12 Hdraw) as [Hlen Hall].
  repeat split; assumption.
Qed.

Lemma explosion_new_witness :
  length (Explosion.particles
            (@Explosion.new Spec.flatMath (3 : Q) (fun _ => (1 # 2)%Q) 0
               100 100 30 (1 # 2))) = 12%nat.
Proof.
  apply (@explosion_new Spec.flatMath (3 : Q) (fun _ => (1 # 2)%Q) 0
           100 100 30 (1 # 2)).
  intros n. split; [discriminate | reflexivity].
Defined.

Lemma Qabs_random (r c : Q) :
  (0 <= r < 1)%Q -> (Qabs (Utils.random r (- c) c) <= Qabs c)%Q.
Proof.
  intros [Hr0 Hr1]. unfold Utils.random.
  destruct (Qlt_le_dec c 0) as [Hc | Hc].
  - assert (0 <= r * - c)%Q by (apply Qmult_le_0_compat; lra).
    assert (0 <= (1 - r) * - c)%Q by (apply Qmult_le_0_compat; lra).
    apply Qabs_case; intros; apply Qabs_case; intros; lra.
  - assert (0 <= r * c)%Q by (apply Qmult_le_0_compat; lra).
    assert (0 <= (1 - r) * c)%Q by (apply Qmult_le_0_compat; lra).
    apply Qabs_case; intros; apply Qabs_case; intros; lra.
Qed.

(** X8.  [Utils.updateScreenShake] on draws in [0, 1): a shake whose
    time has reached its duration returns false with both offsets 0;
    one whose time has not returns true with its time advanced by the
    elapsed time, and, when its time was not negative, the advanced time
    does not pass the duration and the intensity is not negative, with
    both offsets within the intensity. *)
Theorem updateScreenShake_offsets (r1 r2 deltaTime : Q) (shake : ScreenShake.t) :
  (0 <= r1 < 1)%Q -> (0 <= r2 < 1)%Q ->
  ((ScreenShake.duration shake <= ScreenShake.time shake)%Q ->
     fst (Utils.updateScreenShake r1 r2 deltaTime shake) = false /\
     ScreenShake.offsetX (snd (Utils.updateScreenShake r1 r2 deltaTime shake)) = 0%Q /\
     ScreenShake.offsetY (snd (Utils.updateScreenShake r1 r2 deltaTime shake)) = 0%Q) /\
  ((ScreenShake.time shake < ScreenShake.duration shake)%Q ->
     fst (Utils.updateScreenShake r1 r2 deltaTime shake) = true /\
     ScreenShake.time (snd (Utils.updateScreenShake r1 r2 deltaTime shake)) =
       (ScreenShake.time shake + deltaTime)%Q /\
     ((0 <= ScreenShake.time shake)%Q -> (0 <= deltaTime)%Q ->
      (ScreenShake.time shake + deltaTime <= ScreenShake.duration shake)%Q ->
      (0 <= ScreenShake.intensity shake)%Q ->
      (Qabs (ScreenShake.offsetX
               (snd (Utils.updateScreenShake r1 r2 deltaTime shake)))
         <= ScreenShake.intensity shake)%Q /\
      (Qabs (ScreenShake.offsetY
               (snd (Utils.updateScreenShake r1 r2 deltaTime shake)))
         <= ScreenShake.intensity shake)%Q)).
Proof.
  intros Hr1 Hr2. unfold Utils.updateScreenShake. split.
  - intros Hover. apply Qltb_ge in Hover. rewrite Hover. auto.
  - intros Hrun. pose proof Hrun as Hrun'. apply Qltb_lt in Hrun'.
    rewrite Hrun'.
    cbn [fst snd ScreenShake.time ScreenShake.offsetX ScreenShake.offsetY].
    split; [reflexivity |]. split; [reflexivity |].
    intros Ht0 Hdt Ht1 Hint.
    set (t := (ScreenShake.time shake + deltaTime)%Q) in *.
    set (d := ScreenShake.duration shake) in *.
    assert (Hprog : (0 <= t / d <= 1)%Q).
    { assert (Hd : (0 < d)%Q) by lra. split.
      - apply Qle_shift_div_l; [exact Hd | unfold t; lra].
      - apply Qle_shift_div_r; [exact Hd | lra]. }
    set (c := (ScreenShake.intensity shake * (1 - t / d))%Q).
    assert (Hc0 : (0 <= c)%Q) by (apply Qmult_le_0_compat; lra).
    assert (Hc1 : (0 <= ScreenShake.intensity shake * (t / d))%Q)
      by (apply Qmult_le_0_compat; lra).
    assert (Hc : (Qabs c <= ScreenShake.intensity shake)%Q).
    { rewrite Qabs_pos by exact Hc0. unfold c. lra. }
    split; (eapply Qle_trans; [apply Qabs_random; assumption | exact Hc]).
Qed.

Lemma updateScreenShake_offsets_witness :
  fst (Utils.updateScreenShake (1 # 2) (1 # 2) (1 # 60)
         (Utils.createScreenShake 8 (3 # 10))) = true /\
  fst (Utils.updateScreenShake (1 # 2) (1 # 2) (1 # 60)
         (ScreenShake.mk 8 (3 # 10) (3 # 10) 1 1)) = false.
Proof.
  destruct (updateScreenShake_offsets (1 # 2) (1 # 2) (1 # 60)
              (Utils.createScreenShake 8 (3 # 10))) as [_ Hrun];
    [split; discriminate || reflexivity .. |].
  destruct (updateScreenShake_offsets (1 # 2) (1 # 2) (1 # 60)
              (ScreenShake.mk 8 (3 # 10) (3 # 10) 1 1)) as [Hover _];
    [split; discriminate || reflexivity .. |].
  split; [apply Hrun; reflexivity | apply Hover; discriminate].
Defined.

(** ** The player *)

Lemma player_update_step (deltaTime canvasWidth : Q) (p : Player.t) :
  let p' := Player.update deltaTime canvasWidth p in
  Player.x p' = Utils.clamp (Player.x p) 0 (canvasWidth - Player.width p) /\
  (Player.y p' = Player.y p /\ Player.width p' = Player.width p /\
   Player.height p' = Player.height p /\ Player.speed p' = Player.speed p /\
   Player.baseShootCooldown p' = Player.baseShootCooldown p /\
   Player.maxInvulnerabilityTime p' = Player.maxInvulnerabilityTime p /\
   Player.hasMultiShot p' = Player.hasMultiShot p) /\
  (Player.invulnerable p' =
     Player.invulnerable p && Qltb deltaTime (Player.invulnerabilityTime p) /\
   Player.invulnerabilityTime p' =
     if Player.invulnerable p then (Player.invulnerabilityTime p - deltaTime)%Q
     else Player.invulnerabilityTime p) /\
  (Player.hasShield p' =
     Player.hasShield p && Qltb deltaTime (Player.shieldTime p) /\
   Player.shieldTime p' =
     if Player.hasShield p then (Player.shieldTime p - deltaTime)%Q
     else Player.shieldTime p) /\
  (Player.hasAutoAim p' =
     Player.hasAutoAim p && Qltb deltaTime (Player.autoAimTime p) /\
   Player.autoAimTime p' =
     if Player.hasAutoAim p then (Player.autoAimTime p - deltaTime)%Q
     else Player.autoAimTime p) /\
  (Player.hasRapidFire p' =
     Player.hasRapidFire p && Qltb deltaTime (Player.rapidFireTime p) /\
   Player.rapidFireTime p' =
     (if Player.hasRapidFire p then (Player.rapidFireTime p - deltaTime)%Q
      else Player.rapidFireTime p) /\
   Player.maxShootCooldown p' =
     if Player.hasRapidFire p && negb (Qltb deltaTime (Player.rapidFireTime p))
     then Player.baseShootCooldown p else Player.maxShootCooldown p) /\
  Player.shootCooldown p' =
    if Qltb 0 (Player.shootCooldown p)
    then (Player.shootCooldown p - deltaTime)%Q else Player.shootCooldown p.
Proof.
  assert (Hexp : forall t, Qleb (t - deltaTime) 0 = negb (Qltb deltaTime t)).
  { intros t. destruct (Qltb deltaTime t) eqn:Hlt; simpl.
    - apply Qltb_lt in Hlt. apply Qleb_gt. lra.
    - apply Qltb_ge in Hlt. apply Qleb_le. lra. }
  pose (s1 := fun q : Player.t =>
    if Player.invulnerable q then
      let q' := Player.set_invulnerabilityTime
                  (Player.invulnerabilityTime q - deltaTime) q in
      if Qleb (Player.invulnerabilityTime q') 0
      then Player.set_invulnerable false q' else q'
    else q).
  pose (s2 := fun q : Player.t =>
    if Qltb 0 (Player.shootCooldown q)
    then Player.set_shootCooldown (Player.shootCooldown q - deltaTime) q else q).
  pose (s3 := fun q : Player.t =>
    if Player.hasShield q then
      let q' := Player.set_shieldTime (Player.shieldTime q - deltaTime) q in
      if Qleb (Player.shieldTime q') 0 then Player.set_hasShield false q' else q'
    else q).
  pose (s4 := fun q : Player.t =>
    if Player.hasAutoAim q then
      let q' := Player.set_autoAimTime (Player.autoAimTime q - deltaTime) q in
      if Qleb (Player.autoAimTime q') 0 then Player.set_hasAutoAim false q' else q'
    else q).
  pose (s5 := fun q : Player.t =>
    if Player.hasRapidFire q then
      let q' := Player.set_rapidFireTime (Player.rapidFireTime q - deltaTime) q in
      if Qleb (Player.rapidFireTime q') 0
      then Player.set_maxShootCooldown (Player.baseShootCooldown q')
             (Player.set_hasRapidFire false q')
      else q'
    else q).
  assert (H1 : forall q, s1 q =
    Player.set_invulnerable
      (Player.invulnerable q && Qltb deltaTime (Player.invulnerabilityTime q))
      (Player.set_invulnerabilityTime
         (if Player.invulnerable q
          then (Player.invulnerabilityTime q - deltaTime)%Q
          else Player.invulnerabilityTime q) q)).
  { intros [x y w h a sp sc msc bsc [] invt minvt sh sht ms aa aat rf rft];
      unfold s1; cbn -[Qminus Qleb Qltb]; [| reflexivity].
    rewrite Hexp. destruct (Qltb deltaTime invt); reflexivity. }
  assert (H2 : forall q, s2 q =
    Player.set_shootCooldown
      (if Qltb 0 (Player.shootCooldown q)
       then (Player.shootCooldown q - deltaTime)%Q else Player.shootCooldown q) q).
  { intros [x y w h a sp sc msc bsc inv invt minvt sh sht ms aa aat rf rft];
      unfold s2; cbn -[Qminus Qleb Qltb].
    destruct (Qltb 0 sc); reflexivity. }
  assert (H3 : forall q, s3 q =
    Player.set_hasShield
      (Player.hasShield q && Qltb deltaTime (Player.shieldTime q))
      (Player.set_shieldTime
         (if Player.hasShield q then (Player.shieldTime q - deltaTime)%Q
          else Player.shieldTime q) q)).
  { intros [x y w h a sp sc msc bsc inv invt minvt [] sht ms aa aat rf rft];
      unfold s3; cbn -[Qminus Qleb Qltb]; [| reflexivity].
    rewrite Hexp. destruct (Qltb deltaTime sht); reflexivity. }
  assert (H4 : forall q, s4 q =
    Player.set_hasAutoAim
      (Player.hasAutoAim q && Qltb deltaTime (Player.autoAimTime q))
      (Player.set_autoAimTime
         (if Player.hasAutoAim q then (Player.autoAimTime q - deltaTime)%Q
          else Player.autoAimTime q) q)).
  { intros [x y w h a sp sc msc bsc inv invt minvt sh sht ms [] aat rf rft];
      unfold s4; cbn -[Qminus Qleb Qltb]; [| reflexivity].
    rewrite Hexp. destruct (Qltb deltaTime aat); reflexivity. }
  assert (H5 : forall q, s5 q =
    Player.set_maxShootCooldown
      (if Player.hasRapidFire q && negb (Qltb deltaTime (Player.rapidFireTime q))
       then Player.baseShootCooldown q else Player.maxShootCooldown q)
      (Player.set_hasRapidFire
         (Player.hasRapidFire q && Qltb deltaTime (Player.rapidFireTime q))
         (Player.set_rapidFireTime
            (if Player.hasRapidFire q then (Player.rapidFireTime q - deltaTime)%Q
             else Player.rapidFireTime q) q))).
  { intros [x y w h a sp sc msc bsc inv invt minvt sh sht ms aa aat [] rft];
      unfold s5; cbn -[Qminus Qleb Qltb]; [| reflexivity].
    rewrite Hexp. destruct (Qltb deltaTime rft); reflexivity. }
  assert (E : Player.update deltaTime canvasWidth p =
              let q := s5 (s4 (s3 (s2 (s1 p)))) in
              Player.set_x
                (Utils.clamp (Player.x q) 0 (canvasWidth - Player.width q)) q)
    by reflexivity.
  cbv zeta in E |- *. rewrite E, H5, H4, H3, H2, H1. clear.
  cbn -[Qminus Qleb Qltb Utils.clamp andb negb].
  repeat split; reflexivity.
Qed.

Lemma playerTicks_snoc (canvasWidth deltaTime : Q) (deltaTimes : list Q)
    (p : Player.t) :
  Spec.playerTicks canvasWidth (deltaTimes ++ [deltaTime]) p =
  Player.update deltaTime canvasWidth (Spec.playerTicks canvasWidth deltaTimes p).
Proof. unfold Spec.playerTicks. now rewrite fold_left_app. Qed.

(** No run of updates turns a timed state of the player on. *)
Lemma timer_never_restarts (canvasWidth : Q) (flag : Player.t -> bool)
    (time : Player.t -> Q) (deltaTimes : list Q) (p : Player.t) :
  (forall deltaTime q,
     flag (Player.update deltaTime canvasWidth q) =
       flag q && Qltb deltaTime (time q)) ->
  flag (Spec.playerTicks canvasWidth deltaTimes p) = true -> flag p = true.
Proof.
  intros Hstep. revert p.
  induction deltaTimes as [| dt dts IH]; intros p; [auto |].
  change (Spec.playerTicks canvasWidth (dt :: dts) p)
    with (Spec.playerTicks canvasWidth dts (Player.update dt canvasWidth p)).
  intros Hon. apply IH in Hon. rewrite Hstep in Hon.
  now apply andb_true_iff in Hon.
Qed.

(** X9.  One update of the player keeps a timed state (invulnerability,
    shield, auto-aim, rapid fire) on exactly when it was on and the
    elapsed time of the update is below what was left on its timer;
    multi-shot has no timer and is kept.  The update in which rapid fire
    runs out sets the cooldown between shots back to its base value, and
    any other update leaves it alone.  No run of updates turns a timed
    state on. *)
Theorem player_timers_expire (canvasWidth deltaTime : Q) (p : Player.t) :
  let p' := Player.update deltaTime canvasWidth p in
  (Player.invulnerable p' = true <->
     Player.invulnerable p = true /\ (deltaTime < Player.invulnerabilityTime p)%Q) /\
  (Player.hasShield p' = true <->
     Player.hasShield p = true /\ (deltaTime < Player.shieldTime p)%Q) /\
  (Player.hasAutoAim p' = true <->
     Player.hasAutoAim p = true /\ (deltaTime < Player.autoAimTime p)%Q) /\
  (Player.hasRapidFire p' = true <->
     Player.hasRapidFire p = true /\ (deltaTime < Player.rapidFireTime p)%Q) /\
  Player.hasMultiShot p' = Player.hasMultiShot p /\
  Player.maxShootCooldown p' =
    (if Player.hasRapidFire p && Qleb (Player.rapidFireTime p) deltaTime
     then Player.baseShootCooldown p else Player.maxShootCooldown p) /\
  (forall deltaTimes,
     let q := Spec.playerTicks canvasWidth deltaTimes p in
     (Player.invulnerable q = true -> Player.invulnerable p = true) /\
     (Player.hasShield q = true -> Player.hasShield p = true) /\
     (Player.hasAutoAim q = true -> Player.hasAutoAim p = true) /\
     (Player.hasRapidFire q = true -> Player.hasRapidFire p = true)).
Proof.
  cbn zeta.
  destruct (player_update_step deltaTime canvasWidth p)
    as (_ & (_ & _ & _ & _ & _ & _ & Hmulti) & (Hi & _) & (Hs & _) & (Ha & _)
        & (Hr & _ & Hmax) & _).
  cbn zeta in *.
  rewrite Hi, Hs, Ha, Hr, Hmulti, Hmax, !andb_true_iff, !Qltb_lt.
  repeat (split; [tauto || reflexivity |]).
  split.
  - destruct (Player.hasRapidFire p); [| reflexivity]. cbn [andb].
    destruct (Qltb deltaTime (Player.rapidFireTime p)) eqn:Hlt; cbn [negb].
    + apply Qltb_lt in Hlt.
      replace (Qleb _ _) with false; [reflexivity |].
      symmetry. now apply Qleb_gt.
    + apply Qltb_ge in Hlt.
      replace (Qleb _ _) with true; [reflexivity |].
      symmetry. now apply Qleb_le.
  - intros deltaTimes. split; [| split; [| split]].
    + apply (timer_never_restarts canvasWidth Player.invulnerable
               Player.invulnerabilityTime deltaTimes p).
      intros dt q. apply (player_update_step dt canvasWidth q).
    + apply (timer_never_restarts canvasWidth Player.hasShield
               Player.shieldTime deltaTimes p).
      intros dt q. apply (player_update_step dt canvasWidth q).
    + apply (timer_never_restarts canvasWidth Player.hasAutoAim
               Player.autoAimTime deltaTimes p).
      intros dt q. apply (player_update_step dt canvasWidth q).
    + apply (timer_never_restarts canvasWidth Player.hasRapidFire
               Player.rapidFireTime deltaTimes p).
      intros dt q. apply (player_update_step dt canvasWidth q).
Qed.

Lemma player_timers_expire_witness :
  let p := Player.activatePowerUp shield 8 (Player.new 380 550) in
  Player.hasShield (Player.update (1 # 2) 800 p) = true /\
  Player.hasShield (Player.update 8 800 p) = false.
Proof.
  cbn zeta. split.
  - apply (proj1 (proj2 (player_timers_expire 800 (1 # 2)
             (Player.activatePowerUp shield 8 (Player.new 380 550))))).
    split; reflexivity.
  - destruct (Player.hasShield
                (Player.update 8 800
                   (Player.activatePowerUp shield 8 (Player.new 380 550))))
      eqn:E; [| reflexivity].
    apply (proj1 (proj2 (player_timers_expire 800 8
             (Player.activatePowerUp shield 8 (Player.new 380 550))))) in E.
    destruct E as [_ E]. vm_compute in E. discriminate.
Defined.

(** X10.  A player without a shield that is not invulnerable is damaged
    by a hit, and not by a second hit right after it.  After one update
    the next hit does damage exactly when the elapsed time of that
    update has reached [maxInvulnerabilityTime].  A hit that does damage
    after a run of updates also does damage after any longer run: the
    window does not reopen by itself. *)
Theorem player_hit_window (canvasWidth : Q) (p : Player.t) :
  Player.hasShield p = false -> Player.invulnerable p = false ->
  let hit := snd (Player.takeDamage p) in
  fst (Player.takeDamage p) = true /\
  fst (Player.takeDamage hit) = false /\
  (forall deltaTime,
     fst (Player.takeDamage (Player.update deltaTime canvasWidth hit)) = true <->
     (Player.maxInvulnerabilityTime p <= deltaTime)%Q) /\
  (forall deltaTimes deltaTime,
     fst (Player.takeDamage (Spec.playerTicks canvasWidth deltaTimes hit)) = true ->
     fst (Player.takeDamage
            (Spec.playerTicks canvasWidth (deltaTimes ++ [deltaTime]) hit)) = true).
Proof.
  intros Hs Hi. cbn zeta.
  destruct (takeDamage_without_shield p Hs) as (Hd & Hs' & _ & _ & Hi' & Ht).
  cbn zeta in *. rewrite Hi in Hd, Ht.
  set (hit := snd (Player.takeDamage p)) in *.
  assert (Hshield : forall deltaTimes,
    Player.hasShield (Spec.playerTicks canvasWidth deltaTimes hit) = false).
  { intros dts.
    destruct (Player.hasShield (Spec.playerTicks canvasWidth dts hit)) eqn:E;
      [| reflexivity].
    apply (timer_never_restarts canvasWidth Player.hasShield Player.shieldTime)
      in E; [congruence |].
    intros dt q. apply (player_update_step dt canvasWidth q). }
  split; [exact Hd |]. split; [| split].
  - destruct (takeDamage_without_shield hit Hs') as (-> & _).
    now rewrite Hi'.
  - intros deltaTime.
    pose proof (Hshield [deltaTime]) as Hs1.
    change (Spec.playerTicks canvasWidth [deltaTime] hit)
      with (Player.update deltaTime canvasWidth hit) in Hs1.
    destruct (takeDamage_without_shield _ Hs1) as (-> & _).
    destruct (player_update_step deltaTime canvasWidth hit)
      as (_ & _ & (-> & _) & _).
    rewrite Hi', Ht. cbn [andb]. rewrite negb_true_iff, Qltb_ge. reflexivity.
  - intros deltaTimes deltaTime.
    rewrite playerTicks_snoc.
    set (q := Spec.playerTicks canvasWidth deltaTimes hit).
    pose proof (Hshield deltaTimes) as Hsq. fold q in Hsq.
    pose proof (Hshield (deltaTimes ++ [deltaTime])) as Hsq'.
    rewrite playerTicks_snoc in Hsq'. fold q in Hsq'.
    destruct (takeDamage_without_shield _ Hsq) as (-> & _).
    destruct (takeDamage_without_shield _ Hsq') as (-> & _).
    destruct (player_update_step deltaTime canvasWidth q)
      as (_ & _ & (-> & _) & _).
    rewrite !negb_true_iff. intros ->. reflexivity.
Qed.

Lemma player_hit_window_witness :
  let hit := snd (Player.takeDamage (Player.new 380 550)) in
  fst (Player.takeDamage (Player.new 380 550)) = true /\
  fst (Player.takeDamage hit) = false /\
  fst (Player.takeDamage (Player.update (1 # 60) 800 hit)) = false /\
  fst (Player.takeDamage (Player.update 3 800 hit)) = true.
Proof.
  cbn zeta.
  destruct (player_hit_window 800 (Player.new 380 550) eq_refl eq_refl)
    as (Hfirst & Hsecond & Hwindow & _).
  split; [exact Hfirst |]. split; [exact Hsecond |]. split.
  - destruct (fst (Player.takeDamage
                     (Player.update (1 # 60) 800
                        (snd (Player.takeDamage (Player.new 380 550))))))
      eqn:E; [| reflexivity].
    apply Hwindow in E. vm_compute in E. elim E. reflexivity.
  - apply Hwindow. vm_compute. discriminate.
Defined.

(** X11.  [shoot] fires only while the cooldown is not running: then it
    returns one bullet, or three with multi-shot (which takes precedence
    over auto-aim), each a player bullet at the gun of the player, and
    the straight shots go up at 8 per tick; otherwise it returns [null]
    and changes nothing.  After a shot with a positive cooldown in force
    the player cannot shoot again at once, and after one update it can
    exactly when the elapsed time of that update has reached that
    cooldown. *)
Theorem player_shoot `{MathLib} (canvasWidth : Q)
    (target : option (Q * Q)) (p : Player.t) :
  (Player.canShoot p = false -> Player.shoot target p = (None, p)) /\
  (Player.canShoot p = true ->
   exists fired,
     Player.shoot target p =
       (Some fired, Player.set_shootCooldown (Player.maxShootCooldown p) p) /\
     length fired = (if Player.hasMultiShot p then 3 else 1)%nat /\
     Forall (fun b =>
       Bullet.isPlayerBullet b = true /\ Bullet.active b = true /\
       Bullet.x b = (Player.x p + Player.width p / 2 - 2)%Q /\
       Bullet.y b = Player.y p) fired /\
     (Player.hasMultiShot p = true ->
      map (fun b => (Bullet.vx b, Bullet.vy b)) fired =
        [(0, -8); (-2, -8); (2, -8)]%Q) /\
     (Player.hasMultiShot p = false ->
      Player.hasAutoAim p = false \/ target = None ->
      map (fun b => (Bullet.vx b, Bullet.vy b)) fired = [(0, -8)%Q]) /\
     ((0 < Player.maxShootCooldown p)%Q ->
      Player.canShoot (snd (Player.shoot target p)) = false /\
      forall deltaTime,
        Player.canShoot
          (Player.update deltaTime canvasWidth (snd (Player.shoot target p)))
          = true <->
        (Player.maxShootCooldown p <= deltaTime)%Q)).
Proof.
  unfold Player.shoot. split; intros Hc; rewrite Hc; [reflexivity |].
  cbn zeta. eexists. split; [reflexivity |].
  change (Player.hasMultiShot (Player.set_shootCooldown _ p))
    with (Player.hasMultiShot p).
  change (Player.hasAutoAim (Player.set_shootCooldown _ p))
    with (Player.hasAutoAim p).
  split; [| split; [| split; [| split]]].
  - destruct (Player.hasMultiShot p); [reflexivity |].
    destruct (Player.hasAutoAim p); [| reflexivity].
    destruct target as [[tx ty] |]; reflexivity.
  - destruct (Player.hasMultiShot p);
      [| destruct (Player.hasAutoAim p); [destruct target as [[tx ty] |] |]];
      repeat constructor.
  - intros ->. reflexivity.
  - intros -> [-> | ->]; [reflexivity |].
    destruct (Player.hasAutoAim p); reflexivity.
  - intros Hpos. cbn [snd].
    set (q := Player.set_shootCooldown (Player.maxShootCooldown p) p).
    assert (Hq : Player.shootCooldown q = Player.maxShootCooldown p)
      by reflexivity.
    split.
    + unfold Player.canShoot. rewrite Hq. now apply Qleb_gt.
    + intros deltaTime. unfold Player.canShoot.
      destruct (player_update_step deltaTime canvasWidth q)
        as (_ & _ & _ & _ & _ & _ & ->).
      rewrite Hq. replace (Qltb 0 _) with true
        by (symmetry; now apply Qltb_lt).
      rewrite Qleb_le. split; intros; lra.
Qed.

Lemma player_shoot_witness :
  (exists fired,
     @Player.shoot Spec.flatMath None (Player.new 380 550) =
       (Some fired,
        Player.set_shootCooldown (Player.maxShootCooldown (Player.new 380 550))
          (Player.new 380 550)) /\
     length fired = 1%nat) /\
  Player.canShoot
    (snd (@Player.shoot Spec.flatMath None (Player.new 380 550))) = false /\
  Player.canShoot
    (Player.update (1 # 2) 800
       (snd (@Player.shoot Spec.flatMath None (Player.new 380 550)))) = true.
Proof.
  destruct (proj2 (@player_shoot Spec.flatMath 800 None (Player.new 380 550))
              eq_refl) as (fired & Hshoot & Hlen & _ & _ & _ & Hwait).
  destruct Hwait as [Hnot Hagain]; [reflexivity |].
  split; [exists fired; split; [exact Hshoot | exact Hlen] |].
  split; [exact Hnot |]. apply Hagain. discriminate.
Defined.

(** ** Bullets and power-ups in flight *)

Lemma times_S (n : nat) : (Spec.times (S n) == Spec.times n + 1)%Q.
Proof.
  unfold Spec.times. rewrite Nat2Z.inj_succ, <- Z.add_1_r, inject_Z_plus.
  reflexivity.
Qed.

Lemma bullet_update_step (deltaTime canvasWidth canvasHeight : Q) (b : Bullet.t) :
  let b' := Bullet.update deltaTime canvasWidth canvasHeight b in
  (Bullet.x b' = (Bullet.x b + Bullet.vx b)%Q /\
   Bullet.y b' = (Bullet.y b + Bullet.vy b)%Q /\
   Bullet.vx b' = Bullet.vx b /\ Bullet.vy b' = Bullet.vy b /\
   Bullet.width b' = Bullet.width b /\ Bullet.height b' = Bullet.height b /\
   Bullet.isPlayerBullet b' = Bullet.isPlayerBullet b /\
   Bullet.maxTrailLength b' = Bullet.maxTrailLength b) /\
  (Bullet.active b' = true <->
     Bullet.active b = true /\
     Spec.onScreen canvasWidth canvasHeight b
       (Bullet.x b + Bullet.vx b) (Bullet.y b + Bullet.vy b)) /\
  Bullet.trail b' =
    (if (Bullet.maxTrailLength b <? S (length (Bullet.trail b)))%nat
     then tail (Bullet.trail b ++ [(Bullet.x b, Bullet.y b)])
     else Bullet.trail b ++ [(Bullet.x b, Bullet.y b)]).
Proof.
  destruct b as [x y w h a vx vy pb tr mx].
  unfold Bullet.update, Spec.onScreen.
  cbn -[Qplus Qopp Qltb Nat.ltb tail app length].
  rewrite length_app, Nat.add_1_r.
  destruct (Qltb (y + vy) (- h)) eqn:H1; cbn [orb].
  { apply Qltb_lt in H1.
    destruct (mx <? S (length tr))%nat;
      (split; [repeat split |]; split; [| reflexivity]);
      cbn; (split; [discriminate |]); intros (_ & ? & _); lra. }
  apply Qltb_ge in H1.
  destruct (Qltb canvasHeight (y + vy)) eqn:H2; cbn [orb].
  { apply Qltb_lt in H2.
    destruct (mx <? S (length tr))%nat;
      (split; [repeat split |]; split; [| reflexivity]);
      cbn; (split; [discriminate |]); intros (_ & _ & ? & _); lra. }
  apply Qltb_ge in H2.
  destruct (Qltb (x + vx) (- w)) eqn:H3; cbn [orb].
  { apply Qltb_lt in H3.
    destruct (mx <? S (length tr))%nat;
      (split; [repeat split |]; split; [| reflexivity]);
      cbn; (split; [discriminate |]); intros (_ & _ & _ & ? & _); lra. }
  apply Qltb_ge in H3.
  destruct (Qltb canvasWidth (x + vx)) eqn:H4.
  { apply Qltb_lt in H4.
    destruct (mx <? S (length tr))%nat;
      (split; [repeat split |]; split; [| reflexivity]);
      cbn; (split; [discriminate |]); intros (_ & _ & _ & _ & ?); lra. }
  apply Qltb_ge in H4.
  destruct (mx <? S (length tr))%nat;
    (split; [repeat split |]; split; [| reflexivity]);
    cbn; (split; [intros ->; auto 10 | intros [? _]; assumption]).
Qed.

Lemma times_nonneg (n : nat) : (0 <= Spec.times n)%Q.
Proof.
  unfold Spec.times. change 0%Q with (inject_Z 0). rewrite <- Zle_Qle. lia.
Qed.

Lemma length_tail_snoc {A : Type} (l : list A) (a : A) :
  length (tail (l ++ [a])) = length l.
Proof. destruct l; simpl; [reflexivity |]. rewrite length_app. simpl. lia. Qed.

Lemma bulletTicks_frame (canvasWidth canvasHeight : Q) (deltaTimes : list Q)
    (b : Bullet.t) :
  let b' := Spec.bulletTicks canvasWidth canvasHeight deltaTimes b in
  Bullet.maxTrailLength b' = Bullet.maxTrailLength b /\
  (Bullet.active b' = true -> Bullet.active b = true) /\
  ((length (Bullet.trail b) <= Bullet.maxTrailLength b)%nat ->
   length (Bullet.trail b') =
     Nat.min (length (Bullet.trail b) + length deltaTimes)
       (Bullet.maxTrailLength b)).
Proof.
  revert b. induction deltaTimes as [| dt dts IH]; intros b; cbn zeta.
  - cbn [Spec.bulletTicks fold_left length].
    split; [reflexivity |]. split; [auto |]. intros Hlen. lia.
  - change (Spec.bulletTicks canvasWidth canvasHeight (dt :: dts) b)
      with (Spec.bulletTicks canvasWidth canvasHeight dts
              (Bullet.update dt canvasWidth canvasHeight b)).
    destruct (bullet_update_step dt canvasWidth canvasHeight b)
      as ((_ & _ & _ & _ & _ & _ & _ & Hmx) & Hact & Htr).
    cbn zeta in Hmx, Hact, Htr.
    destruct (IH (Bullet.update dt canvasWidth canvasHeight b))
      as (IHmx & IHact & IHtr).
    cbn zeta in IHmx, IHact, IHtr.
    set (b1 := Bullet.update dt canvasWidth canvasHeight b) in *.
    cbn [length].
    split; [congruence |]. split.
    + intros Ha. apply IHact in Ha. now apply Hact in Ha.
    + intros Hlen. rewrite IHtr, Hmx, Htr.
      * destruct (Nat.ltb_spec (Bullet.maxTrailLength b)
                    (S (length (Bullet.trail b)))).
        -- rewrite length_tail_snoc. lia.
        -- rewrite length_app. simpl. lia.
      * rewrite Hmx, Htr.
        destruct (Nat.ltb_spec (Bullet.maxTrailLength b)
                    (S (length (Bullet.trail b)))).
        -- rewrite length_tail_snoc. lia.
        -- rewrite length_app. simpl. lia.
Qed.

Lemma bulletTicks_count (canvasWidth canvasHeight : Q)
    (deltaTimes deltaTimes' : list Q) (b : Bullet.t) :
  length deltaTimes = length deltaTimes' ->
  Spec.bulletTicks canvasWidth canvasHeight deltaTimes b =
  Spec.bulletTicks canvasWidth canvasHeight deltaTimes' b.
Proof.
  revert deltaTimes' b.
  induction deltaTimes as [| dt dts IH]; intros [| dt' dts'] b Hlen;
    try discriminate; [reflexivity |].
  change (Spec.bulletTicks canvasWidth canvasHeight dts
            (Bullet.update dt canvasWidth canvasHeight b) =
          Spec.bulletTicks canvasWidth canvasHeight dts'
            (Bullet.update dt' canvasWidth canvasHeight b)).
  change (Bullet.update dt' canvasWidth canvasHeight b)
    with (Bullet.update dt canvasWidth canvasHeight b).
  apply IH. now injection Hlen.
Qed.

(** X12.  An update moves a bullet by its velocity, whatever the time
    elapsed, and keeps the velocity; the bullet is active after it
    exactly when it was active and its new place is on the screen.  So
    where a bullet is after a run of updates depends on their number
    alone, not on the times elapsed.  No run of updates makes an
    inactive bullet active, and the trail grows by one position per
    update up to [maxTrailLength]. *)
Theorem bullet_flight (canvasWidth canvasHeight : Q)
    (deltaTimes deltaTimes' : list Q) (b : Bullet.t) :
  (forall deltaTime,
     let b' := Bullet.update deltaTime canvasWidth canvasHeight b in
     Bullet.x b' = (Bullet.x b + Bullet.vx b)%Q /\
     Bullet.y b' = (Bullet.y b + Bullet.vy b)%Q /\
     Bullet.vx b' = Bullet.vx b /\ Bullet.vy b' = Bullet.vy b /\
     (Bullet.active b' = true <->
        Bullet.active b = true /\
        Spec.onScreen canvasWidth canvasHeight b (Bullet.x b') (Bullet.y b'))) /\
  (length deltaTimes = length deltaTimes' ->
   Spec.bulletTicks canvasWidth canvasHeight deltaTimes b =
   Spec.bulletTicks canvasWidth canvasHeight deltaTimes' b) /\
  (Bullet.active (Spec.bulletTicks canvasWidth canvasHeight deltaTimes b) = true ->
   Bullet.active b = true) /\
  ((length (Bullet.trail b) <= Bullet.maxTrailLength b)%nat ->
   length (Bullet.trail (Spec.bulletTicks canvasWidth canvasHeight deltaTimes b)) =
     Nat.min (length (Bullet.trail b) + length deltaTimes)
       (Bullet.maxTrailLength b)).
Proof.
  destruct (bulletTicks_frame canvasWidth canvasHeight deltaTimes b)
    as (_ & Hact & Htr).
  cbn zeta in *. split; [| split; [apply bulletTicks_count | auto]].
  intros deltaTime.
  destruct (bullet_update_step deltaTime canvasWidth canvasHeight b)
    as ((Hx & Hy & Hvx & Hvy & _) & Hon & _).
  cbn zeta in *. rewrite Hx, Hy. auto 10.
Qed.

Lemma bullet_flight_witness :
  let b := Bullet.new 400 550 0 (-8) true in
  Spec.bulletTicks 800 600 [(1 # 60); (1 # 60); (1 # 60)]%Q b =
    Spec.bulletTicks 800 600 [(1 # 10); (1 # 30); 2]%Q b /\
  length (Bullet.trail
    (Spec.bulletTicks 800 600 [0; 0; 0; 0; 0; 0; 0]%Q b)) = 5%nat.
Proof.
  cbn zeta. split.
  - apply (proj1 (proj2 (bullet_flight 800 600
             [(1 # 60); (1 # 60); (1 # 60)]%Q [(1 # 10); (1 # 30); 2]%Q
             (Bullet.new 400 550 0 (-8) true)))).
    reflexivity.
  - apply (proj2 (proj2 (proj2 (bullet_flight 800 600
             [0; 0; 0; 0; 0; 0; 0]%Q [] (Bullet.new 400 550 0 (-8) true))))).
    simpl. lia.
Defined.

Lemma updateBullets_kept (deltaTime canvasWidth canvasHeight : Q)
    (before : list Bullet.t) :
  let step := Bullet.update deltaTime canvasWidth canvasHeight in
  let after := List.filter Bullet.active (map step before) in
  Forall (fun b =>
    Bullet.active b = true /\
    Spec.onScreen canvasWidth canvasHeight b (Bullet.x b) (Bullet.y b)) after /\
  (length after <= length before)%nat /\
  (forall b, In b before -> Bullet.active b = true ->
     Spec.onScreen canvasWidth canvasHeight b
       (Bullet.x b + Bullet.vx b) (Bullet.y b + Bullet.vy b) ->
     In (step b) after).
Proof.
  cbn zeta. split; [| split].
  - apply List.Forall_forall. intros b Hin.
    apply filter_In in Hin. destruct Hin as [Hin Ha].
    apply in_map_iff in Hin. destruct Hin as (b0 & <- & _).
    split; [exact Ha |].
    destruct (bullet_update_step deltaTime canvasWidth canvasHeight b0)
      as ((Hx & Hy & _ & _ & Hw & Hh & _) & Hact & _).
    cbn zeta in *. apply Hact in Ha. destruct Ha as [_ Hon].
    unfold Spec.onScreen in *. rewrite Hx, Hy, Hw, Hh. exact Hon.
  - etransitivity; [apply List.filter_length_le |]. now rewrite length_map.
  - intros b Hin Ha Hon. apply filter_In. split; [now apply in_map |].
    apply (bullet_update_step deltaTime canvasWidth canvasHeight b). auto.
Qed.

(** X13.  After [updateBullets] every bullet left, of the player or of
    the enemies, is active and on the screen; neither array has grown;
    and every bullet that was active and whose move keeps it on the
    screen is still there, moved. *)
Theorem updateBullets_on_screen (deltaTime : Q) (g : Game.t) :
  let g' := Game.updateBullets deltaTime g in
  let step :=
    Bullet.update deltaTime (Game.canvasWidth g) (Game.canvasHeight g) in
  let kept (before after : list Bullet.t) :=
    Forall (fun b =>
      Bullet.active b = true /\
      Spec.onScreen (Game.canvasWidth g) (Game.canvasHeight g) b
        (Bullet.x b) (Bullet.y b)) after /\
    (length after <= length before)%nat /\
    (forall b, In b before -> Bullet.active b = true ->
       Spec.onScreen (Game.canvasWidth g) (Game.canvasHeight g) b
         (Bullet.x b + Bullet.vx b) (Bullet.y b + Bullet.vy b) ->
       In (step b) after) in
  kept (Game.bullets g) (Game.bullets g') /\
  kept (Game.enemyBullets g) (Game.enemyBullets g').
Proof.
  cbn zeta. split.
  - apply (updateBullets_kept deltaTime (Game.canvasWidth g)
             (Game.canvasHeight g) (Game.bullets g)).
  - apply (updateBullets_kept deltaTime (Game.canvasWidth g)
             (Game.canvasHeight g) (Game.enemyBullets g)).
Qed.

Lemma updateBullets_on_screen_witness :
  In (Bullet.update 0 800 600 (Bullet.new 400 550 0 (-8) true))
     (Game.bullets
        (Game.updateBullets 0
           (Game.set_bullets [Bullet.new 400 550 0 (-8) true] Spec.sampleGame))).
Proof.
  apply (proj2 (proj2 (proj1 (updateBullets_on_screen 0
           (Game.set_bullets [Bullet.new 400 550 0 (-8) true] Spec.sampleGame))))).
  - left. reflexivity.
  - reflexivity.
  - unfold Spec.onScreen. vm_compute. intuition discriminate.
Defined.

Lemma powerUp_update_step (deltaTime canvasHeight : Q) (u : PowerUp.t) :
  let u' := PowerUp.update deltaTime canvasHeight u in
  (PowerUp.y u' = (PowerUp.y u + PowerUp.vy u)%Q /\
   PowerUp.lifetime u' = (PowerUp.lifetime u - deltaTime)%Q /\
   PowerUp.vy u' = PowerUp.vy u /\ PowerUp.x u' = PowerUp.x u /\
   PowerUp.width u' = PowerUp.width u /\ PowerUp.height u' = PowerUp.height u /\
   PowerUp.type u' = PowerUp.type u /\ PowerUp.duration u' = PowerUp.duration u) /\
  (PowerUp.active u' = true <->
     PowerUp.active u = true /\
     (PowerUp.y u + PowerUp.vy u <= canvasHeight)%Q /\
     (deltaTime < PowerUp.lifetime u)%Q).
Proof.
  destruct u as [x y w h a ty vy af asp lt du].
  unfold PowerUp.update. cbn -[Qplus Qminus Qmult Qltb Qleb].
  destruct (Qltb canvasHeight (y + vy)) eqn:H1; cbn [orb].
  { apply Qltb_lt in H1. split; [repeat split |]. cbn.
    split; [discriminate |]. intros (_ & ? & _). lra. }
  apply Qltb_ge in H1.
  destruct (Qleb (lt - deltaTime) 0) eqn:H2.
  { apply Qleb_le in H2. split; [repeat split |]. cbn.
    split; [discriminate |]. intros (_ & _ & ?). lra. }
  apply Qleb_gt in H2. split; [repeat split |]. cbn.
  split; [intros ->; repeat split; [exact H1 | lra] | now intros [? _]].
Qed.

(** X15.  After [updateEffects] every power-up left is active, has not
    passed the bottom of the canvas and has lifetime left; the array has
    not grown; and every power-up that was active, stays above the
    bottom after its move and outlives the tick is still there. *)
Theorem updateEffects_power_ups (deltaTime : Q) (g : Game.t) :
  let g' := Game.updateEffects deltaTime g in
  Forall (fun u =>
    PowerUp.active u = true /\ (PowerUp.y u <= Game.canvasHeight g)%Q /\
    (0 < PowerUp.lifetime u)%Q) (Game.powerUps g') /\
  (length (Game.powerUps g') <= length (Game.powerUps g))%nat /\
  (forall u, In u (Game.powerUps g) -> PowerUp.active u = true ->
     (PowerUp.y u + PowerUp.vy u <= Game.canvasHeight g)%Q ->
     (deltaTime < PowerUp.lifetime u)%Q ->
     In (PowerUp.update deltaTime (Game.canvasHeight g) u) (Game.powerUps g')).
Proof.
  cbn zeta.
  change (Game.powerUps (Game.updateEffects deltaTime g))
    with (List.filter PowerUp.active
            (map (PowerUp.update deltaTime (Game.canvasHeight g))
               (Game.powerUps g))).
  split; [| split].
  - apply List.Forall_forall. intros u Hin.
    apply filter_In in Hin. destruct Hin as [Hin Ha].
    apply in_map_iff in Hin. destruct Hin as (u0 & <- & _).
    split; [exact Ha |].
    destruct (powerUp_update_step deltaTime (Game.canvasHeight g) u0)
      as ((Hy & Hl & _) & Hact).
    cbn zeta in *. apply Hact in Ha. rewrite Hy, Hl. split; [tauto | lra].
  - etransitivity; [apply List.filter_length_le |]. now rewrite length_map.
  - intros u Hin Ha Hy Hl. apply filter_In. split; [now apply in_map |].
    apply (powerUp_update_step deltaTime (Game.canvasHeight g) u). auto.
Qed.

Lemma updateEffects_power_ups_witness :
  In (PowerUp.update (1 # 60) 600 (PowerUp.new 100 100 (Some shield)))
     (Game.powerUps
        (Game.updateEffects (1 # 60)
           (Game.set_powerUps [PowerUp.new 100 100 (Some shield)]
              Spec.sampleGame))).
Proof.
  apply (proj2 (proj2 (updateEffects_power_ups (1 # 60)
           (Game.set_powerUps [PowerUp.new 100 100 (Some shield)]
              Spec.sampleGame)))).
  - left. reflexivity.
  - reflexivity.
  - vm_compute. discriminate.
  - vm_compute. reflexivity.
Defined.

(** ** Grids *)

(** The arrays that two nested loops fill row by row. *)
Lemma lookup_map {A B : Type} (f : A -> B) (l : list A) (i : nat) :
  map f l !! i = option_map f (l !! i).
Proof.
  revert i. induction l as [| a l IH]; intros [| i]; simpl; auto.
Qed.

Lemma grid_length_from {A : Type} (f : nat -> nat -> A) (start rows cols : nat) :
  length (flat_map (fun r => map (f r) (seq 0 cols)) (seq start rows))
  = (rows * cols)%nat.
Proof.
  revert start. induction rows as [| rows IH]; intros start; simpl;
    [reflexivity |].
  rewrite length_app, length_map, length_seq, IH. reflexivity.
Qed.

Lemma grid_lookup_from {A : Type} (f : nat -> nat -> A)
    (start rows cols r c : nat) :
  (r < rows)%nat -> (c < cols)%nat ->
  flat_map (fun r => map (f r) (seq 0 cols)) (seq start rows) !! (r * cols + c)%nat
  = Some (f (start + r)%nat c).
Proof.
  revert start r. induction rows as [| rows IH]; intros start r Hr Hc; [lia |].
  simpl. destruct r as [| r].
  - rewrite lookup_app_l by (rewrite length_map, length_seq; simpl; lia).
    simpl. rewrite lookup_map, lookup_seq_lt by lia. simpl.
    now rewrite Nat.add_0_r.
  - rewrite lookup_app_r by (rewrite length_map, length_seq; simpl; lia).
    rewrite length_map, length_seq.
    replace (S r * cols + c - cols)%nat with (r * cols + c)%nat by (simpl; lia).
    rewrite IH by lia. f_equal. f_equal. lia.
Qed.

Lemma grid_In {A : Type} (f : nat -> nat -> A) (rows cols : nat) (a : A) :
  In a (flat_map (fun r => map (f r) (seq 0 cols)) (seq 0 rows)) <->
  exists r c, (r < rows)%nat /\ (c < cols)%nat /\ a = f r c.
Proof.
  rewrite in_flat_map. split.
  - intros (r & Hr & Hin). apply in_map_iff in Hin.
    destruct Hin as (c & <- & Hc). apply in_seq in Hr, Hc.
    exists r, c. repeat split; lia.
  - intros (r & c & Hr & Hc & ->). exists r. split; [apply in_seq; lia |].
    apply in_map. apply in_seq. lia.
Qed.

Lemma times_le_floor (n : nat) (q : Q) :
  (S n <= floor_nat q)%nat -> (Spec.times n + 1 <= q)%Q.
Proof.
  unfold floor_nat. intros Hn. rewrite <- times_S. unfold Spec.times.
  apply Qle_trans with (inject_Z (Qfloor q)); [| apply Qfloor_le].
  rewrite <- Zle_Qle. lia.
Qed.

Lemma floor_nat_small (q : Q) : (q < 1)%Q -> floor_nat q = 0%nat.
Proof.
  intros Hq. unfold floor_nat.
  assert (H : (inject_Z (Qfloor q) < inject_Z 1)%Q).
  { apply Qle_lt_trans with q; [apply Qfloor_le | exact Hq]. }
  rewrite <- Zlt_Qlt in H. lia.
Qed.

(** ** Walls *)

(** X16.  A new wall is a grid of [floor (height / 4)] rows of
    [floor (width / 4)] blocks, stored row by row: the block of row [r]
    and column [c] is at offset [(4 c, 4 r)], alive, and lies within the
    rectangle of the wall.  A wall less than 4 wide or high has no
    block. *)
Theorem wall_blocks_grid (x y width height : Q) (health : Z) :
  let wall := Wall.new x y width height health in
  let cols := floor_nat (width / 4) in
  let rows := floor_nat (height / 4) in
  length (Wall.blocks wall) = (rows * cols)%nat /\
  (forall r c, (r < rows)%nat -> (c < cols)%nat ->
     Wall.blocks wall !! (r * cols + c)%nat =
       Some (Block.mk (Spec.times c * 4) (Spec.times r * 4) true)) /\
  Forall (fun b =>
    Block.active b = true /\
    (0 <= Block.x b)%Q /\ (Block.x b + 4 <= width)%Q /\
    (0 <= Block.y b)%Q /\ (Block.y b + 4 <= height)%Q) (Wall.blocks wall) /\
  ((width < 4)%Q \/ (height < 4)%Q -> Wall.blocks wall = []).
Proof.
  cbn zeta. cbn [Wall.blocks Wall.new]. unfold Wall.createBlocks. cbn zeta.
  set (cols := floor_nat (width / 4)). set (rows := floor_nat (height / 4)).
  set (f := fun row col : nat =>
    Block.mk (inject_Z (Z.of_nat col) * 4) (inject_Z (Z.of_nat row) * 4) true).
  change (flat_map _ (seq 0 rows))
    with (flat_map (fun r => map (f r) (seq 0 cols)) (seq 0 rows)).
  split; [apply grid_length_from |]. split; [| split].
  - intros r c Hr Hc. now rewrite (grid_lookup_from f 0 rows cols r c Hr Hc).
  - apply List.Forall_forall. intros b Hin. apply grid_In in Hin.
    destruct Hin as (r & c & Hr & Hc & ->). unfold f. cbn [Block.active Block.x Block.y].
    pose proof (times_le_floor c (width / 4) Hc) as Hx.
    pose proof (times_le_floor r (height / 4) Hr) as Hy.
    pose proof (times_nonneg c) as Hc0. pose proof (times_nonneg r) as Hr0.
    unfold Spec.times in *.
    change (width / 4)%Q with (width * (1 # 4))%Q in Hx.
    change (height / 4)%Q with (height * (1 # 4))%Q in Hy.
    repeat split; lra.
  - intros Hsmall. apply length_zero_iff_nil.
    rewrite grid_length_from.
    destruct Hsmall as [Hw | Hh].
    + unfold cols. rewrite floor_nat_small; [lia |].
      change (width / 4)%Q with (width * (1 # 4))%Q. lra.
    + unfold rows. rewrite floor_nat_small; [lia |].
      change (height / 4)%Q with (height * (1 # 4))%Q. lra.
Qed.

Lemma wall_blocks_grid_witness :
  Wall.blocks (Wall.new 100 450 3 60 5) = [] /\
  Wall.blocks (Wall.new 100 450 80 60 5) !! (2 * floor_nat (80 / 4) + 3)%nat =
    Some (Block.mk (Spec.times 3 * 4) (Spec.times 2 * 4) true).
Proof.
  split.
  - apply (proj2 (proj2 (proj2 (wall_blocks_grid 100 450 3 60 5)))).
    left. reflexivity.
  - apply (proj1 (proj2 (wall_blocks_grid 100 450 80 60 5))).
    + vm_compute. lia.
    + vm_compute. lia.
Defined.

Lemma wall_takeDamage_cases (w : Wall.t) (impactX impactY : Q)
    (isPlayerBullet : bool) :
  let hit := Wall.takeDamage impactX impactY isPlayerBullet w in
  ((Wall.health w <= 0)%Z /\ hit = (false, Wall.set_active false w)) \/
  ((0 < Wall.health w)%Z /\
   ~ Spec.destroysBlock w impactX impactY isPlayerBullet /\ hit = (false, w)) \/
  ((0 < Wall.health w)%Z /\
   Spec.destroysBlock w impactX impactY isPlayerBullet /\
   exists blocks',
     Forall2 (Spec.blockAfter w impactX impactY isPlayerBullet)
       (Wall.blocks w) blocks' /\
     hit =
       (true,
        Wall.set_active
          (Wall.active w &&
           negb ((length (List.filter Block.active blocks') =? 0)%nat ||
                 (Wall.health w - 1 <=? 0)%Z))
          (Wall.set_health (Wall.health w - 1)
             (Wall.set_blocks blocks' w)))).
Proof.
  cbn zeta. unfold Wall.takeDamage.
  destruct (Z.leb_spec (Wall.health w) 0) as [Hh | Hh]; [left; auto |].
  right.
  destruct (damageBlocks_spec w impactX impactY isPlayerBullet (Wall.blocks w))
    as (Hall & Hpos & Hex & Hsame).
  destruct (Wall.damageBlocks _ _ _ _ (Wall.blocks w)) as [blocks' destroyed].
  cbn [fst snd] in Hall, Hpos, Hex, Hsame.
  fold (Spec.destroysBlock w impactX impactY isPlayerBullet) in Hex.
  destruct (Z.ltb_spec 0 destroyed) as [Hd | Hd].
  - right. split; [exact Hh |]. split; [now apply Hex |].
    exists blocks'. split; [exact Hall |].
    assert (Hhealth : Z.max 0 (Wall.health w - 1) = (Wall.health w - 1)%Z) by lia.
    destruct w as [wx wy ww wh wactive wmax whealth wsize wblocks].
    cbn in Hhealth |- *. rewrite Hhealth.
    destruct (_ || _), wactive; reflexivity.
  - left. split; [exact Hh |]. assert (destroyed = 0%Z) as -> by lia.
    split; [intros Hdes; apply Hex in Hdes; lia |].
    rewrite (Hsame eq_refl). now destruct w.
Qed.

(** X17.  A hit never repairs a wall: the place, the size and the grid
    of the wall stay, no dead block comes back and an inactive wall
    stays inactive.  The health goes down by one exactly when the hit
    does damage, which takes a wall with health left and a live block
    within the impact; whatever the hit, a wall with no health left is
    inactive afterwards, and a wall without blocks that has health left
    is never changed. *)
Theorem wall_takeDamage_never_repairs (w : Wall.t) (impactX impactY : Q)
    (isPlayerBullet : bool) :
  let returned := fst (Wall.takeDamage impactX impactY isPlayerBullet w) in
  let w' := snd (Wall.takeDamage impactX impactY isPlayerBullet w) in
  (Wall.x w' = Wall.x w /\ Wall.y w' = Wall.y w /\
   Wall.width w' = Wall.width w /\ Wall.height w' = Wall.height w /\
   Wall.maxHealth w' = Wall.maxHealth w /\ Wall.blockSize w' = Wall.blockSize w) /\
  Forall2 (fun b b' =>
    Block.x b' = Block.x b /\ Block.y b' = Block.y b /\
    (Block.active b' = true -> Block.active b = true))
    (Wall.blocks w) (Wall.blocks w') /\
  (Wall.active w' = true -> Wall.active w = true) /\
  Wall.health w' = (if returned then Wall.health w - 1 else Wall.health w)%Z /\
  (returned = true <->
     (0 < Wall.health w)%Z /\
     Spec.destroysBlock w impactX impactY isPlayerBullet) /\
  ((Wall.health w' <= 0)%Z -> Wall.active w' = false) /\
  (Wall.blocks w = [] -> (0 < Wall.health w)%Z -> returned = false /\ w' = w).
Proof.
  cbn zeta.
  assert (Hrefl : forall bs : list Block.t,
    Forall2 (fun b b' =>
      Block.x b' = Block.x b /\ Block.y b' = Block.y b /\
      (Block.active b' = true -> Block.active b = true)) bs bs)
    by (intros bs; induction bs; constructor; auto).
  destruct (wall_takeDamage_cases w impactX impactY isPlayerBullet)
    as [[Hh ->] | [(Hh & Hno & ->) | (Hh & Hdes & blocks' & Hall & ->)]];
    cbn [fst snd].
  - split; [now destruct w |]. split; [now destruct w |].
    split; [now destruct w |]. split; [now destruct w |].
    split; [split; [discriminate | lia] |].
    split; [now destruct w |]. lia.
  - split; [auto 10 |]. split; [apply Hrefl |]. split; [auto |].
    split; [reflexivity |]. split; [split; [discriminate | tauto] |].
    split; [lia | auto].
  - split; [now destruct w |]. split; [| split; [| split; [| split; [| split]]]].
    + cbn. eapply Forall2_impl; [exact Hall |].
      intros b b' (Hx & Hy & Ha). repeat split; auto. intros Hb. now apply Ha.
    + destruct w; cbn. now intros [? _]%andb_true_iff.
    + now destruct w.
    + split; auto.
    + destruct w as [wx wy ww wh wactive wmax whealth wsize wblocks]. cbn.
      intros Hz. destruct (Z.leb_spec (whealth - 1) 0); [| lia].
      now rewrite orb_true_r, andb_false_r.
    + intros Hnil. destruct Hdes as (b & Hin & _). rewrite Hnil in Hin.
      destruct Hin.
Qed.

Lemma wall_takeDamage_never_repairs_witness :
  fst (Wall.takeDamage 101 451 true (Wall.new 100 450 3 60 5)) = false /\
  snd (Wall.takeDamage 101 451 true (Wall.new 100 450 3 60 5))
    = Wall.new 100 450 3 60 5.
Proof.
  apply (proj2 (proj2 (proj2 (proj2 (proj2 (proj2
           (wall_takeDamage_never_repairs (Wall.new 100 450 3 60 5)
              101 451 true))))))).
  - reflexivity.
  - reflexivity.
Defined.

Lemma withinImpact_same_place (w w' : Wall.t) (impactX impactY : Q)
    (isPlayerBullet : bool) (b b' : Block.t) :
  Wall.x w' = Wall.x w -> Wall.y w' = Wall.y w ->
  Wall.blockSize w' = Wall.blockSize w ->
  Block.x b' = Block.x b -> Block.y b' = Block.y b ->
  Spec.withinImpact w' impactX impactY isPlayerBullet b' ->
  Spec.withinImpact w impactX impactY isPlayerBullet b.
Proof.
  unfold Spec.withinImpact. now intros -> -> -> -> ->.
Qed.

(** X18.  A second hit at the point of a first one, by a bullet of the
    same side, does nothing: it reports no damage and leaves the wall as
    the first hit left it. *)
Theorem wall_takeDamage_twice (w : Wall.t) (impactX impactY : Q)
    (isPlayerBullet : bool) :
  let w' := snd (Wall.takeDamage impactX impactY isPlayerBullet w) in
  Wall.takeDamage impactX impactY isPlayerBullet w' = (false, w').
Proof.
  cbn zeta.
  destruct (wall_takeDamage_cases w impactX impactY isPlayerBullet)
    as [[Hh Hhit] | [(Hh & Hno & Hhit) | (Hh & Hdes & blocks' & Hall & Hhit)]];
    cbn zeta in Hhit; rewrite Hhit; cbn [snd].
  - destruct (wall_takeDamage_cases (Wall.set_active false w) impactX impactY
                isPlayerBullet) as [[_ ->] | [(Hh' & _) | (Hh' & _)]];
      [now destruct w | destruct w; cbn in *; lia ..].
  - exact Hhit.
  - set (w' := Wall.set_active _ _).
    destruct (wall_takeDamage_cases w' impactX impactY isPlayerBullet)
      as [[Hh' ->] | [(_ & _ & ->) | (_ & Hdes' & _)]]; [| reflexivity |].
    + f_equal. unfold w'. destruct w as [wx wy ww wh wa wm whl ws wb].
      cbn in Hh' |- *. destruct (Z.leb_spec (whl - 1) 0); [| lia].
      now rewrite orb_true_r, andb_false_r.
    + exfalso. destruct Hdes' as (b' & Hin & Ha & Hw).
      assert (Hblocks : Wall.blocks w' = blocks') by now destruct w.
      rewrite Hblocks in Hin.
      apply In_nth_error in Hin. destruct Hin as (i & Hi).
      destruct (Forall2_lookup_r _ _ _ i b' Hall) as (b & Hb & Hx & Hy & Hab).
      { rewrite <- Hi. clear. revert i.
        induction blocks'; intros [| i]; simpl; auto. }
      apply Hab in Ha. destruct Ha as [_ Hout]. apply Hout.
      apply (withinImpact_same_place w w' impactX impactY isPlayerBullet b b');
        try assumption; now destruct w.
Qed.

(** ** The set-up of a level *)

Lemma times_lt (n m : nat) : (n < m)%nat -> (Spec.times n + 1 <= Spec.times m)%Q.
Proof.
  intros Hnm. rewrite <- times_S. unfold Spec.times. rewrite <- Zle_Qle. lia.
Qed.

Lemma grid_lookup_inv {A : Type} (f : nat -> nat -> A) (rows cols i : nat) (a : A) :
  flat_map (fun r => map (f r) (seq 0 cols)) (seq 0 rows) !! i = Some a ->
  exists r c, (r < rows)%nat /\ (c < cols)%nat /\ i = (r * cols + c)%nat /\
              a = f r c.
Proof.
  intros Hi. pose proof (lookup_lt_Some _ _ _ Hi) as Hlt.
  rewrite grid_length_from in Hlt.
  assert (Hcols : cols <> 0%nat) by (intros ->; lia).
  exists (i / cols)%nat, (i mod cols)%nat.
  assert (Hr : (i / cols < rows)%nat)
    by (apply Nat.Div0.div_lt_upper_bound; lia).
  assert (Hc : (i mod cols < cols)%nat) by now apply Nat.mod_upper_bound.
  assert (Heq : i = (i / cols * cols + i mod cols)%nat)
    by (rewrite Nat.mul_comm; apply Nat.div_mod_eq).
  repeat split; auto.
  rewrite Heq in Hi at 1. rewrite (grid_lookup_from f 0 rows cols _ _ Hr Hc) in Hi.
  now inversion Hi.
Qed.

Lemma createEnemies_fields (g : Game.t) (ld : Level.t) :
  Game.levelData g = Some ld ->
  let f := fun row col : nat =>
    Enemy.set_points (Level.pointsPerEnemy ld)
      (Enemy.set_shootFrequency (Level.enemyBulletFrequency ld)
         (Enemy.set_dropSpeed (Level.enemyDropSpeed ld)
            (Enemy.set_speed (Level.enemySpeed ld)
               (Enemy.new (50 + Spec.times col * 50)
                  (80 + Spec.times row * 50) (Level.enemyType ld))))) in
  let grid :=
    flat_map (fun r => map (f r) (seq 0 (Z.to_nat (Level.enemyCols ld))))
      (seq 0 (Z.to_nat (Level.enemyRows ld))) in
  Game.createEnemies g =
    Game.set_enemyMoveInterval
      (Math_max (3 # 10) ((15 # 10) - inject_Z (Game.currentLevel g) * (1 # 10)))
      (Game.set_enemyDirection (Level.enemyMoveDirection ld)
         (Game.set_enemiesKilled 0
            (Game.set_totalEnemies (Z.of_nat (length grid))
               (Game.set_enemies grid g)))).
Proof.
  intros Hld. cbn zeta. unfold Game.createEnemies. rewrite Hld. reflexivity.
Qed.

Lemma enemies_apart (e1 e2 : Enemy.t) :
  (Enemy.x e1 + Enemy.width e1 <= Enemy.x e2)%Q \/
  (Enemy.x e2 + Enemy.width e2 <= Enemy.x e1)%Q \/
  (Enemy.y e1 + Enemy.height e1 <= Enemy.y e2)%Q \/
  (Enemy.y e2 + Enemy.height e2 <= Enemy.y e1)%Q ->
  entityCheckCollision e1 e2 = false.
Proof.
  intros Hapart. apply not_true_is_false. intros Hcol.
  apply checkCollision_overlap in Hcol. unfold Spec.overlap in Hcol.
  destruct e1, e2. cbn in *. lra.
Qed.

(** X19.  [createEnemies] fills [enemies] with a grid of [enemyRows]
    rows of [enemyCols] invaders, row by row, 50 apart from (50, 80);
    each has the type, speed, drop speed, firing frequency and points of
    the level, and no two of them overlap.  It sets [totalEnemies] to
    their number, [enemiesKilled] to 0 and the direction to that of the
    level. *)
Theorem createEnemies_grid (g : Game.t) (ld : Level.t) :
  Game.levelData g = Some ld ->
  let g' := Game.createEnemies g in
  let rows := Z.to_nat (Level.enemyRows ld) in
  let cols := Z.to_nat (Level.enemyCols ld) in
  length (Game.enemies g') = (rows * cols)%nat /\
  Game.totalEnemies g' = Z.of_nat (rows * cols) /\
  Game.enemiesKilled g' = 0%Z /\
  Game.enemyDirection g' = Level.enemyMoveDirection ld /\
  (forall i e, Game.enemies g' !! i = Some e ->
     exists r c, (r < rows)%nat /\ (c < cols)%nat /\ i = (r * cols + c)%nat /\
       Enemy.x e = (50 + Spec.times c * 50)%Q /\
       Enemy.y e = (80 + Spec.times r * 50)%Q /\
       Enemy.active e = true /\
       Enemy.type e = Level.enemyType ld /\
       Enemy.speed e = Level.enemySpeed ld /\
       Enemy.dropSpeed e = Level.enemyDropSpeed ld /\
       Enemy.shootFrequency e = Level.enemyBulletFrequency ld /\
       Enemy.points e = Level.pointsPerEnemy ld) /\
  (forall i j e1 e2, i <> j ->
     Game.enemies g' !! i = Some e1 -> Game.enemies g' !! j = Some e2 ->
     entityCheckCollision e1 e2 = false).
Proof.
  intros Hld. cbn zeta. rewrite (createEnemies_fields g ld Hld). cbn zeta.
  set (rows := Z.to_nat (Level.enemyRows ld)).
  set (cols := Z.to_nat (Level.enemyCols ld)).
  set (f := fun row col : nat =>
    Enemy.set_points (Level.pointsPerEnemy ld)
      (Enemy.set_shootFrequency (Level.enemyBulletFrequency ld)
         (Enemy.set_dropSpeed (Level.enemyDropSpeed ld)
            (Enemy.set_speed (Level.enemySpeed ld)
               (Enemy.new (50 + Spec.times col * 50)
                  (80 + Spec.times row * 50) (Level.enemyType ld)))))).
  set (grid := flat_map (fun r => map (f r) (seq 0 cols)) (seq 0 rows)).
  assert (Hlen : length grid = (rows * cols)%nat) by apply grid_length_from.
  assert (Hat : forall i e, grid !! i = Some e ->
    exists r c, (r < rows)%nat /\ (c < cols)%nat /\ i = (r * cols + c)%nat /\
      e = f r c) by (intros i e; apply grid_lookup_inv).
  assert (Hf : forall r c,
    Enemy.x (f r c) = (50 + Spec.times c * 50)%Q /\
    Enemy.y (f r c) = (80 + Spec.times r * 50)%Q /\
    Enemy.active (f r c) = true /\
    Enemy.type (f r c) = Level.enemyType ld /\
    Enemy.speed (f r c) = Level.enemySpeed ld /\
    Enemy.dropSpeed (f r c) = Level.enemyDropSpeed ld /\
    Enemy.shootFrequency (f r c) = Level.enemyBulletFrequency ld /\
    Enemy.points (f r c) = Level.pointsPerEnemy ld).
  { intros r c. unfold f. destruct (Level.enemyType ld); repeat split. }
  assert (Hsize : forall r c,
    (Enemy.width (f r c) <= 50)%Q /\ (Enemy.height (f r c) <= 50)%Q).
  { intros r c. unfold f. destruct (Level.enemyType ld); split; discriminate. }
  change (Game.enemies (Game.set_enemyMoveInterval _ _)) with grid.
  change (Game.totalEnemies (Game.set_enemyMoveInterval _ _))
    with (Z.of_nat (length grid)).
  change (Game.enemiesKilled (Game.set_enemyMoveInterval _ _)) with 0%Z.
  change (Game.enemyDirection (Game.set_enemyMoveInterval _ _))
    with (Level.enemyMoveDirection ld).
  clearbody grid. clearbody f.
  split; [exact Hlen |]. split; [now rewrite Hlen |]. split; [reflexivity |].
  split; [reflexivity |]. split.
  - intros i e Hi. destruct (Hat i e Hi) as (r & c & Hr & Hc & -> & ->).
    exists r, c. split; [exact Hr |]. split; [exact Hc |].
    split; [reflexivity |]. apply Hf.
  - intros i j e1 e2 Hij H1 H2.
    destruct (Hat i e1 H1) as (r & c & Hr & Hc & -> & ->).
    destruct (Hat j e2 H2) as (r' & c' & Hr' & Hc' & -> & ->).
    destruct (Hsize r c) as [Hw1 Hh1]. destruct (Hsize r' c') as [Hw2 Hh2].
    destruct (Hf r c) as (Hx1 & Hy1 & _). destruct (Hf r' c') as (Hx2 & Hy2 & _).
    apply enemies_apart. rewrite Hx1, Hy1, Hx2, Hy2.
    destruct (Nat.lt_trichotomy c c') as [Hlt | [-> | Hlt]].
    + pose proof (times_lt _ _ Hlt). left. lra.
    + destruct (Nat.lt_trichotomy r r') as [Hlt | [-> | Hlt]].
      * pose proof (times_lt _ _ Hlt). right. right. left. lra.
      * now elim Hij.
      * pose proof (times_lt _ _ Hlt). right. right. right. lra.
    + pose proof (times_lt _ _ Hlt). right. left. lra.
Qed.

Lemma createEnemies_grid_witness :
  length (Game.enemies (Game.createEnemies
    (Game.set_levelData (Some (Game.defaultLevelData 1))
       (Game.new 800 600 (fun _ => 0%Q))))) = (3 * 5)%nat.
Proof.
  destruct (createEnemies_grid
              (Game.set_levelData (Some (Game.defaultLevelData 1))
                 (Game.new 800 600 (fun _ => 0%Q)))
              (Game.defaultLevelData 1) eq_refl) as (Hlen & _).
  exact Hlen.
Defined.

Lemma walls_apart (w1 w2 : Wall.t) :
  (Wall.x w1 + Wall.width w1 <= Wall.x w2)%Q \/
  (Wall.x w2 + Wall.width w2 <= Wall.x w1)%Q ->
  entityCheckCollision w1 w2 = false.
Proof.
  intros Hapart. apply not_true_is_false. intros Hcol.
  apply checkCollision_overlap in Hcol. unfold Spec.overlap in Hcol.
  destruct w1, w2. cbn in *. lra.
Qed.

Lemma createWalls_fields (g : Game.t) (ld : Level.t) :
  Game.levelData g = Some ld ->
  let config :=
    match Level.walls ld with
    | Some c => c
    | None => WallConfig.mk 4 80 60 5 (Game.canvasHeight g - 150)
    end in
  let spacing :=
    ((Game.canvasWidth g - inject_Z (WallConfig.count config) * WallConfig.width config)
     / (inject_Z (WallConfig.count config) + 1))%Q in
  Game.walls (Game.createWalls g) =
    map (fun i =>
      Wall.new (spacing + Spec.times i * (WallConfig.width config + spacing))
        (WallConfig.yPosition config) (WallConfig.width config)
        (WallConfig.height config) (WallConfig.health config))
      (seq 0 (Z.to_nat (WallConfig.count config))).
Proof.
  intros Hld. cbn zeta. unfold Game.createWalls. rewrite Hld. reflexivity.
Qed.

(** X20.  [createWalls] builds [count] walls of the configured size and
    health (by default 4 walls of 80 by 60 with health 5, 150 above the
    bottom), all at [yPosition].  With [spacing] the width that the
    walls leave free divided by [count + 1], wall [i] starts at
    [spacing + i (width + spacing)]: the walls and the [count + 1] equal
    gaps fill the width of the canvas exactly.  When the walls fit
    (the spacing and the width are not negative) every wall lies within
    the canvas and no two walls overlap. *)
Theorem createWalls_spacing (g : Game.t) (ld : Level.t) :
  Game.levelData g = Some ld ->
  let g' := Game.createWalls g in
  let config :=
    match Level.walls ld with
    | Some c => c
    | None => WallConfig.mk 4 80 60 5 (Game.canvasHeight g - 150)
    end in
  let count := WallConfig.count config in
  let width := WallConfig.width config in
  let spacing :=
    ((Game.canvasWidth g - inject_Z count * width) / (inject_Z count + 1))%Q in
  (0 <= count)%Z ->
  length (Game.walls g') = Z.to_nat count /\
  (forall i w, Game.walls g' !! i = Some w ->
     (i < Z.to_nat count)%nat /\
     Wall.x w = (spacing + Spec.times i * (width + spacing))%Q /\
     Wall.y w = WallConfig.yPosition config /\
     Wall.width w = width /\ Wall.height w = WallConfig.height config /\
     Wall.health w = WallConfig.health config /\
     Wall.maxHealth w = WallConfig.health config /\
     Wall.active w = true) /\
  (inject_Z count * width + (inject_Z count + 1) * spacing
     == Game.canvasWidth g)%Q /\
  ((0 <= spacing)%Q -> (0 <= width)%Q ->
   (forall i w, Game.walls g' !! i = Some w ->
      (0 <= Wall.x w)%Q /\ (Wall.x w + Wall.width w <= Game.canvasWidth g)%Q) /\
   (forall i j w1 w2, i <> j ->
      Game.walls g' !! i = Some w1 -> Game.walls g' !! j = Some w2 ->
      entityCheckCollision w1 w2 = false)).
Proof.
  intros Hld. cbn zeta. intros Hcount.
  rewrite (createWalls_fields g ld Hld). cbn zeta.
  set (config := match Level.walls ld with
                 | Some c => c
                 | None => WallConfig.mk 4 80 60 5 (Game.canvasHeight g - 150)
                 end).
  set (n := Z.to_nat (WallConfig.count config)).
  set (width := WallConfig.width config).
  assert (Hn : (inject_Z (WallConfig.count config) == Spec.times n)%Q).
  { unfold Spec.times, n. now rewrite Z2Nat.id. }
  assert (Hn0 : (0 <= Spec.times n)%Q) by apply times_nonneg.
  set (spacing := ((Game.canvasWidth g - inject_Z (WallConfig.count config) * width)
                   / (inject_Z (WallConfig.count config) + 1))%Q).
  assert (Hfill : (inject_Z (WallConfig.count config) * width
                   + (inject_Z (WallConfig.count config) + 1) * spacing
                   == Game.canvasWidth g)%Q).
  { unfold spacing. rewrite Qmult_div_r; [lra |]. rewrite Hn. lra. }
  set (F := fun i : nat =>
    Wall.new (spacing + Spec.times i * (width + spacing))
      (WallConfig.yPosition config) width
      (WallConfig.height config) (WallConfig.health config)).
  assert (Hat : forall i w, map F (seq 0 n) !! i = Some w ->
    (i < n)%nat /\ w = F i).
  { intros i w Hi. rewrite lookup_map in Hi.
    destruct (seq 0 n !! i) as [k |] eqn:Hk; [| discriminate].
    apply lookup_seq in Hk. destruct Hk as [-> Hlt]. simpl in Hi.
    split; [exact Hlt | now inversion Hi]. }
  split; [now rewrite length_map, length_seq |].
  split; [| split; [exact Hfill |]].
  - intros i w Hi. destruct (Hat i w Hi) as [Hlt ->].
    split; [exact Hlt |]. repeat split.
  - intros Hsp Hw.
    assert (Hgap : forall i j, (i < j)%nat ->
      (Wall.x (F i) + Wall.width (F i) <= Wall.x (F j))%Q).
    { intros i j Hij. unfold F. cbn [Wall.x Wall.width Wall.new].
      pose proof (times_lt _ _ Hij) as Hlt.
      assert (Hm : (0 <= (Spec.times j - Spec.times i - 1) * (width + spacing))%Q)
        by (apply Qmult_le_0_compat; lra).
      lra. }
    split.
    + intros i w Hi. destruct (Hat i w Hi) as [Hlt ->].
      unfold F. cbn [Wall.x Wall.width Wall.new].
      pose proof (times_nonneg i) as Hi0.
      pose proof (times_lt _ _ Hlt) as Hlt'.
      assert (Hm : (0 <= Spec.times i * (width + spacing))%Q)
        by (apply Qmult_le_0_compat; lra).
      assert (Hm' : (0 <= (Spec.times n - Spec.times i - 1) * (width + spacing))%Q)
        by (apply Qmult_le_0_compat; lra).
      rewrite Hn in Hfill. split; lra.
    + intros i j w1 w2 Hij H1 H2.
      destruct (Hat i w1 H1) as [_ ->]. destruct (Hat j w2 H2) as [_ ->].
      apply walls_apart.
      destruct (Nat.lt_trichotomy i j) as [Hlt | [-> | Hlt]];
        [left; now apply Hgap | now elim Hij | right; now apply Hgap].
Qed.

Lemma createWalls_spacing_witness :
  length (Game.walls (Game.createWalls
    (Game.set_levelData (Some (Game.defaultLevelData 1))
       (Game.new 800 600 (fun _ => 0%Q))))) = Z.to_nat 4.
Proof.
  destruct (createWalls_spacing
              (Game.set_levelData (Some (Game.defaultLevelData 1))
                 (Game.new 800 600 (fun _ => 0%Q)))
              (Game.defaultLevelData 1) eq_refl ltac:(discriminate))
    as (Hlen & _).
  exact Hlen.
Defined.

(** ** The states of the game *)

Section GameOver.
Context `{MathLib}.

Lemma started_state (g : Game.t) :
  Game.gameState (Game.resetGame (Game.set_gameState playing g)) = playing.
Proof. now destruct g. Qed.

Lemma togglePause_gameOver (g : Game.t) :
  Game.gameState (Game.togglePause g) = gameOver ->
  Game.togglePause g = g.
Proof.
  unfold Game.togglePause. destruct (Game.gameState g) eqn:Hs; auto;
    destruct g; discriminate.
Qed.

Lemma handle_gameOver (event : Game.Event) (g : Game.t) :
  (Game.gameState g = gameOver -> (Game.lives g <= 0)%Z) ->
  Game.gameState (Game.handle event g) = gameOver ->
  (Game.lives (Game.handle event g) <= 0)%Z.
Proof.
  intros Hinv.
  assert (Hsame : forall g', Spec.vitals g' = Spec.vitals g ->
    Game.gameState g' = gameOver -> (Game.lives g' <= 0)%Z).
  { intros g' Hv Hs. destruct (vitals_eq _ _ Hv) as [Hl Hst].
    rewrite Hl. apply Hinv. congruence. }
  destruct event as [code | code | button | button | | | | |
                    | levelNumber response | levelNumber response
                    | currentTime]; cbn [Game.handle].
  - unfold Game.handleKeyDown. cbn zeta.
    set (g1 := Game.set_keys _ g).
    assert (H1 : Spec.vitals g1 = Spec.vitals g) by now destruct g.
    destruct code; try (now apply Hsame).
    + destruct (Game.gameState g1) eqn:Hs; try (now apply Hsame);
        try (unfold Game.startGame; rewrite started_state; discriminate).
      apply Hsame. now rewrite playerShoot_vitals.
    + destruct (Game.gameState g1) eqn:Hs; try (now apply Hsame);
        intros Hover; rewrite (togglePause_gameOver _ Hover) in Hover |- *;
        now apply Hsame.
    + unfold Game.restartGame. rewrite started_state. discriminate.
  - apply Hsame. now destruct g.
  - apply Hsame. destruct button; now destruct g.
  - apply Hsame. destruct button; now destruct g.
  - destruct (bool_decide_reflect (Game.gameState g = playing)); [| exact Hinv].
    destruct g; discriminate.
  - unfold Game.startGame. rewrite started_state. discriminate.
  - intros Hover. rewrite (togglePause_gameOver _ Hover) in Hover |- *. auto.
  - unfold Game.restartGame. rewrite started_state. discriminate.
  - unfold Game.handleOverlayAction.
    destruct (Game.gameState g) eqn:Hs;
      try (unfold Game.startGame, Game.restartGame; rewrite started_state;
           discriminate).
    + intros Hover. rewrite (togglePause_gameOver _ Hover) in Hover |- *. auto.
    + rewrite Hs. discriminate.
  - apply Hsame. apply loadLevel_vitals.
  - unfold Game.handleOverlayAction_resumed.
    destruct (Game.loadLevel _ _ g); discriminate.
  - unfold Game.gameLoop. cbn zeta.
    set (g1 := Game.set_lastTime currentTime g).
    assert (H1 : Spec.vitals g1 = Spec.vitals g) by now destruct g.
    destruct (bool_decide_reflect (Game.gameState g1 = playing)) as [Hp | Hp];
      [| now apply Hsame].
    destruct (update_lives ((currentTime - Game.lastTime g) / 1000) g1)
      as (_ & _ & Hback).
    intros Hover. destruct (Hback Hover) as [Hl | Hs]; [exact Hl | congruence].
Qed.

Lemma reachable_gameOver (width height : Q) (random : nat -> Q) (g : Game.t) :
  Game.reachable width height random g ->
  Game.gameState g = gameOver -> (Game.lives g <= 0)%Z.
Proof.
  induction 1 as [response | g event _ IH].
  - unfold Game.initializeGame.
    destruct (vitals_eq _ _ (loadLevel_vitals
      (Game.currentLevel (Game.new width height random)) response
      (Game.new width height random))) as [_ Hst].
    rewrite Hst. discriminate.
  - now apply handle_gameOver.
Qed.

End GameOver.

(** X21.  In every state that a run reaches there are at most 5 lives,
    and a game that is over has no life left.  A tick of a game that is
    playing ends in [gameOver] exactly when it ends with no life
    left. *)
Theorem game_over_without_lives `{MathLib}
    (width height : Q) (random : nat -> Q) (g : Game.t) :
  Game.reachable width height random g ->
  (Game.lives g <= 5)%Z /\
  (Game.gameState g = gameOver -> (Game.lives g <= 0)%Z) /\
  (forall currentTime, Game.gameState g = playing ->
     (Game.gameState (Game.gameLoop currentTime g) = gameOver <->
      (Game.lives (Game.gameLoop currentTime g) <= 0)%Z)).
Proof.
  intros Hreach. split; [| split].
  - apply (reachable_lives_le width height random g Hreach).
  - apply (reachable_gameOver width height random g Hreach).
  - intros currentTime Hp. unfold Game.gameLoop. cbn zeta.
    set (g1 := Game.set_lastTime currentTime g).
    assert (H1 : Game.gameState g1 = playing) by (now destruct g).
    rewrite bool_decide_eq_true_2 by exact H1.
    destruct (update_lives ((currentTime - Game.lastTime g) / 1000) g1)
      as (_ & Hover & Hback).
    split; [| exact Hover].
    intros Hs. destruct (Hback Hs) as [Hl | Hg]; [exact Hl | congruence].
Qed.

Lemma game_over_without_lives_witness :
  let g :=
    @Spec.run Spec.flatMath 0 (levelBody Spec.emptyLevel)
      (firstn 7 Spec.lateLevelEvents) in
  Game.gameState g = playing /\
  Game.gameState (@Game.gameLoop Spec.flatMath 32 g) = gameOver /\
  (Game.lives (@Game.gameLoop Spec.flatMath 32 g) <= 0)%Z.
Proof.
  cbv zeta.
  destruct (@game_over_without_lives Spec.flatMath 800 600 (fun _ => 0%Q)
              (@Spec.run Spec.flatMath 0 (levelBody Spec.emptyLevel)
                 (firstn 7 Spec.lateLevelEvents))) as (_ & _ & Htick).
  { apply run_reachable. }
  assert (Hp : Game.gameState
                 (@Spec.run Spec.flatMath 0 (levelBody Spec.emptyLevel)
                    (firstn 7 Spec.lateLevelEvents)) = playing)
    by (vm_compute; reflexivity).
  split; [exact Hp |].
  assert (Ho : Game.gameState
                 (@Game.gameLoop Spec.flatMath 32
                    (@Spec.run Spec.flatMath 0 (levelBody Spec.emptyLevel)
                       (firstn 7 Spec.lateLevelEvents))) = gameOver)
    by (vm_compute; reflexivity).
  split; [exact Ho |].
  exact (proj1 (Htick 32%Q Hp) Ho).
Defined.

(** X22.  [togglePause] switches between [playing] and [paused] and
    changes nothing else, so two of them in a row give the game back as
    it was; in any other state it does nothing.  A window that loses
    focus pauses a game that is playing, and the next [togglePause]
    resumes it as it was. *)
Theorem togglePause_round_trip `{MathLib} (g : Game.t) :
  Game.togglePause (Game.togglePause g) = g /\
  (Game.gameState g = playing ->
     Game.togglePause g = Game.set_gameState paused g /\
     Game.togglePause (Game.handle Game.blur g) = g) /\
  (Game.gameState g = paused ->
     Game.togglePause g = Game.set_gameState playing g) /\
  (Game.gameState g <> playing -> Game.gameState g <> paused ->
     Game.togglePause g = g).
Proof.
  unfold Game.togglePause, Game.pauseGame. cbn [Game.handle].
  destruct g as [cw ch st]. cbn.
  destruct st; cbn; repeat split; intros; try reflexivity; try discriminate;
    try congruence.
Qed.

Lemma togglePause_round_trip_witness :
  Game.togglePause
    (@Game.handle Spec.flatMath Game.blur
       (Game.set_gameState playing Spec.sampleGame))
  = Game.set_gameState playing Spec.sampleGame.
Proof.
  apply (proj1 (proj2 (@togglePause_round_trip Spec.flatMath
           (Game.set_gameState playing Spec.sampleGame)))).
  reflexivity.
Defined.

(** ** What a run of the game keeps *)

Lemma playerKept_refl (p : Player.t) : Spec.playerKept p p.
Proof. unfold Spec.playerKept. auto 10. Qed.

Lemma playerKept_trans (p q r : Player.t) :
  Spec.playerKept p q -> Spec.playerKept q r -> Spec.playerKept p r.
Proof.
  unfold Spec.playerKept.
  intros (-> & -> & -> & -> & -> & -> & Hc) (-> & -> & -> & -> & -> & -> & Hc').
  auto 10.
Qed.

Lemma playerKept_built (canvasHeight : Q) (p p' : Player.t) :
  Spec.playerBuilt canvasHeight p -> Spec.playerKept p p' ->
  Spec.playerBuilt canvasHeight p'.
Proof.
  unfold Spec.playerBuilt, Spec.playerKept.
  intros (Hw & Hh & Hy & Hs & Hb & Hi & Hc) (-> & -> & -> & -> & -> & -> & Hc').
  auto 10.
Qed.

Lemma moveLeft_kept (p : Player.t) : Spec.playerKept p (Player.moveLeft p).
Proof. unfold Spec.playerKept, Spec.cooldownSet. destruct p; cbn; auto 10. Qed.

Lemma moveRight_kept (p : Player.t) : Spec.playerKept p (Player.moveRight p).
Proof. unfold Spec.playerKept, Spec.cooldownSet. destruct p; cbn; auto 10. Qed.

Lemma shoot_kept `{MathLib} (target : option (Q * Q)) (p : Player.t) :
  Spec.playerKept p (snd (Player.shoot target p)) /\
  Player.x (snd (Player.shoot target p)) = Player.x p.
Proof.
  unfold Player.shoot. destruct (Player.canShoot p); cbn [snd].
  - unfold Spec.playerKept, Spec.cooldownSet. destruct p; cbn; auto 10.
  - split; [apply playerKept_refl | reflexivity].
Qed.

Lemma update_kept (deltaTime canvasWidth : Q) (p : Player.t) :
  Spec.playerKept p (Player.update deltaTime canvasWidth p).
Proof.
  destruct (player_update_step deltaTime canvasWidth p)
    as (_ & (Hy & Hw & Hh & Hs & Hb & Hi & _) & _ & _ & _ & (Hrf & _ & Hm) & _).
  cbn zeta in *. unfold Spec.playerKept, Spec.cooldownSet.
  rewrite Hy, Hw, Hh, Hs, Hb, Hi, Hrf, Hm.
  repeat split. intros Hc. rewrite Hc.
  destruct (Player.hasRapidFire p), (Qltb deltaTime (Player.rapidFireTime p));
    reflexivity.
Qed.

Lemma activatePowerUp_kept (type : PowerUpType) (duration : Q) (p : Player.t) :
  Spec.playerKept p (Player.activatePowerUp type duration p) /\
  Player.x (Player.activatePowerUp type duration p) = Player.x p.
Proof.
  unfold Spec.playerKept, Spec.cooldownSet.
  destruct type, p; cbn; auto 10.
Qed.

Lemma takeDamage_kept (p : Player.t) :
  Spec.playerKept p (snd (Player.takeDamage p)) /\
  Player.x (snd (Player.takeDamage p)) = Player.x p.
Proof.
  unfold Spec.playerKept, Spec.cooldownSet, Player.takeDamage.
  destruct p as [? ? ? ? ? ? ? ? ? [] ? ? [] ? []]; cbn; auto 10.
Qed.

Lemma steady_refl (g : Game.t) : Spec.steady g g.
Proof. unfold Spec.steady. auto using playerKept_refl. Qed.

Lemma steady_trans (a b c : Game.t) :
  Spec.steady a b -> Spec.steady b c -> Spec.steady a c.
Proof.
  unfold Spec.steady.
  intros (Hw & Hh & Ht & Hp & Hc) (Hw' & Hh' & Ht' & Hp' & Hc').
  split; [congruence |]. split; [congruence |]. split; [congruence |].
  split; [eapply playerKept_trans; eauto | lia].
Qed.

Lemma steady_core (g g' : Game.t) : Spec.core g' = Spec.core g -> Spec.steady g g'.
Proof.
  unfold Spec.core, Spec.steady. intros Hcore. inversion Hcore as [Heq].
  split; [reflexivity |]. split; [reflexivity |]. split; [reflexivity |].
  split; [apply playerKept_refl | reflexivity].
Qed.

Lemma settles_refl (g : Game.t) : Spec.settles g g.
Proof. unfold Spec.settles. auto using steady_refl. Qed.

Lemma settles_trans (a b c : Game.t) :
  Spec.settles a b -> Spec.settles b c -> Spec.settles a c.
Proof.
  unfold Spec.settles. intros (Hs & Hx & Hb & He) (Hs' & Hx' & Hb' & He').
  split; [eapply steady_trans; eauto |].
  split; [congruence |]. split; etransitivity; eauto.
Qed.

Lemma settles_core (g g' : Game.t) : Spec.core g' = Spec.core g -> Spec.settles g g'.
Proof.
  intros Hcore. split; [now apply steady_core |].
  unfold Spec.core in Hcore. inversion Hcore as [Heq].
  repeat split; reflexivity.
Qed.

Lemma applyPowerUp_settles (u : PowerUp.t) (g : Game.t) :
  Spec.settles g (Game.applyPowerUp u g).
Proof.
  unfold Game.applyPowerUp.
  destruct (PowerUp.type u) as [[] |];
    try (apply settles_core; now destruct g);
    match goal with
    | |- context [Player.activatePowerUp ?ty ?d ?p] =>
        destruct (activatePowerUp_kept ty d p) as [Hk Hx]
    end;
    destruct g; unfold Spec.settles, Spec.steady; cbn in *; auto 10.
Qed.

Lemma powerUpsVsPlayer_settles (i : nat) (g : Game.t) :
  Spec.settles g (Game.powerUpsVsPlayer i g).
Proof.
  revert g. induction i as [| i IH]; intros g; simpl; [apply settles_refl |].
  destruct (Game.powerUps g !! i) as [u |]; [| apply IH].
  destruct (entityCheckCollision u (Game.player g)); [| apply IH].
  eapply settles_trans; [| apply IH].
  eapply settles_trans; [apply (applyPowerUp_settles u g) |].
  apply settles_core. now destruct (Game.applyPowerUp u g).
Qed.

Lemma enemyBulletsVsPlayer_settles (i : nat) (g : Game.t) :
  Spec.settles g (Game.enemyBulletsVsPlayer i g).
Proof.
  revert g. induction i as [| i IH]; intros g; simpl; [apply settles_refl |].
  destruct (Game.enemyBullets g !! i) as [bullet |]; [| apply IH].
  destruct (entityCheckCollision bullet (Game.player g)); [| apply IH].
  destruct (takeDamage_kept (Game.player g)) as [Hk Hx].
  destruct (Player.takeDamage (Game.player g)) as [damaged p']. cbn [snd] in *.
  eapply settles_trans; [| apply IH].
  unfold Spec.settles, Spec.steady.
  destruct damaged; destruct g; cbn in *;
    (split; [auto 10 |]); (split; [exact Hx |]);
    (split; [reflexivity | apply sublist_delete]).
Qed.

Lemma playerBulletsVsEnemies_settles (i : nat) (g : Game.t) :
  Spec.settles g (Game.playerBulletsVsEnemies i g).
Proof.
  revert g. induction i as [| i IH]; intros g; simpl; [apply settles_refl |].
  destruct (Game.bullets g !! i) as [bullet |]; [| apply IH].
  destruct (Game.lastEnemyHit _ _ _) as [[j enemy] |] eqn:Hhit; [| apply IH].
  apply lastEnemyHit_lookup in Hhit. destruct Hhit as [He _].
  eapply settles_trans; [| apply IH].
  assert (Hlen : length (delete j (Game.enemies g))
                 = (length (Game.enemies g) - 1)%nat)
    by (apply length_delete; eauto).
  apply lookup_lt_Some in He.
  unfold Spec.settles, Spec.steady.
  destruct (Qltb _ _); destruct g; cbn in *;
    (split; [repeat split; try apply playerKept_refl; lia |]);
    (split; [reflexivity |]);
    (split; [apply sublist_delete | reflexivity]).
Qed.

Lemma playerBulletsVsWalls_settles (g : Game.t) :
  Spec.settles g (Game.playerBulletsVsWalls g).
Proof.
  unfold Game.playerBulletsVsWalls.
  destruct (bulletsVsWalls_spec true (length (Game.bullets g))
              (Game.bullets g) (Game.walls g)) as [_ Hsub].
  destruct (Game.bulletsVsWalls _ _ _ _) as [shots barriers]. cbn [fst] in Hsub.
  unfold Spec.settles, Spec.steady. destruct g; cbn in *.
  split; [split; [reflexivity |]; split; [reflexivity |];
          split; [reflexivity |]; split; [apply playerKept_refl | reflexivity] |].
  split; [reflexivity |]. split; [exact Hsub | reflexivity].
Qed.

Lemma enemyBulletsVsWalls_settles (g : Game.t) :
  Spec.settles g (Game.enemyBulletsVsWalls g).
Proof.
  unfold Game.enemyBulletsVsWalls.
  destruct (bulletsVsWalls_spec false (length (Game.enemyBullets g))
              (Game.enemyBullets g) (Game.walls g)) as [_ Hsub].
  destruct (Game.bulletsVsWalls _ _ _ _) as [shots barriers]. cbn [fst] in Hsub.
  unfold Spec.settles, Spec.steady. destruct g; cbn in *.
  split; [split; [reflexivity |]; split; [reflexivity |];
          split; [reflexivity |]; split; [apply playerKept_refl | reflexivity] |].
  split; [reflexivity |]. split; [reflexivity | exact Hsub].
Qed.

Lemma enemiesReachedPlayer_core (es : list Enemy.t) (g : Game.t) :
  Spec.core
    (fold_left (fun g' enemy =>
       if Qleb (Player.y (Game.player g')) (Enemy.y enemy + Enemy.height enemy)
       then Game.set_lives 0%Z g' else g') es g)
  = Spec.core g.
Proof.
  revert g. induction es as [| e es IH]; intros g; simpl; [reflexivity |].
  rewrite IH. destruct (Qleb _ _); now destruct g.
Qed.

Lemma checkCollisions_settles (g : Game.t) :
  Spec.settles g (Game.checkCollisions g).
Proof.
  unfold Game.checkCollisions. cbn zeta.
  eapply settles_trans; [apply playerBulletsVsWalls_settles |].
  eapply settles_trans;
    [apply (settles_core _ (Game.cleanUpWalls (Game.playerBulletsVsWalls g)));
     now destruct (Game.playerBulletsVsWalls g) |].
  eapply settles_trans; [apply playerBulletsVsEnemies_settles |].
  eapply settles_trans; [apply powerUpsVsPlayer_settles |].
  eapply settles_trans; [apply enemyBulletsVsWalls_settles |].
  eapply settles_trans; [apply enemyBulletsVsPlayer_settles |].
  apply settles_core. apply enemiesReachedPlayer_core.
Qed.

Lemma clamp_range (value lo hi : Q) :
  (lo <= hi)%Q -> (lo <= Utils.clamp value lo hi <= hi)%Q.
Proof.
  intros Hle. unfold Utils.clamp.
  destruct (Math_max_spec value lo) as (_ & Hlo & _).
  destruct (Math_min_spec (Math_max value lo) hi) as (_ & Hhi & [Hm | Hm]);
    rewrite Hm in *; split; lra.
Qed.

Lemma core_fields (a b : Game.t) :
  Spec.core a = Spec.core b ->
  Game.canvasWidth a = Game.canvasWidth b /\
  Game.canvasHeight a = Game.canvasHeight b /\
  Game.player a = Game.player b /\
  Game.bullets a = Game.bullets b /\
  Game.enemyBullets a = Game.enemyBullets b /\
  Game.enemies a = Game.enemies b /\
  Game.enemiesKilled a = Game.enemiesKilled b /\
  Game.totalEnemies a = Game.totalEnemies b.
Proof. unfold Spec.core. intros Hcore. inversion Hcore. auto 10. Qed.

Lemma moveEnemies_frame (g : Game.t) :
  let g' := Game.moveEnemies g in
  Game.canvasWidth g' = Game.canvasWidth g /\
  Game.canvasHeight g' = Game.canvasHeight g /\
  Game.player g' = Game.player g /\
  Game.bullets g' = Game.bullets g /\
  Game.enemyBullets g' = Game.enemyBullets g /\
  Game.enemiesKilled g' = Game.enemiesKilled g /\
  Game.totalEnemies g' = Game.totalEnemies g /\
  length (Game.enemies g') = length (Game.enemies g).
Proof.
  cbn zeta. unfold Game.moveEnemies.
  destruct (fold_left _ _ _); destruct g; cbn; rewrite length_map; auto 10.
Qed.

Lemma updateEnemies_frame (deltaTime : Q) (g : Game.t) :
  let g' := Game.updateEnemies deltaTime g in
  Game.canvasWidth g' = Game.canvasWidth g /\
  Game.canvasHeight g' = Game.canvasHeight g /\
  Game.player g' = Game.player g /\
  Game.bullets g' = Game.bullets g /\
  Game.enemiesKilled g' = Game.enemiesKilled g /\
  Game.totalEnemies g' = Game.totalEnemies g /\
  length (Game.enemies g') = length (Game.enemies g).
Proof.
  cbn zeta. unfold Game.updateEnemies. cbn zeta.
  match goal with
  | |- context [Game.enemiesAct deltaTime ?es ?g2] =>
      destruct (enemiesAct_spec deltaTime es g2) as (shots & cursor & ->);
      set (h := g2)
  end.
  assert (Hh : Game.canvasWidth h = Game.canvasWidth g /\
               Game.canvasHeight h = Game.canvasHeight g /\
               Game.player h = Game.player g /\
               Game.bullets h = Game.bullets g /\
               Game.enemiesKilled h = Game.enemiesKilled g /\
               Game.totalEnemies h = Game.totalEnemies g /\
               length (Game.enemies h) = length (Game.enemies g)).
  { unfold h. destruct (Qleb _ _); [| now destruct g].
    match goal with
    | |- context [Game.moveEnemies ?g1] =>
        destruct (moveEnemies_frame g1)
          as (Hw & Hh & Hp & Hb & _ & Hk & Ht & Hl);
        cbn zeta in Hw, Hh, Hp, Hb, Hk, Ht, Hl;
        destruct (Game.moveEnemies g1)
    end.
    destruct g; cbn in *. auto 10. }
  destruct Hh as (Hw & Hh & Hp & Hb & Hk & Ht & Hl).
  destruct h; cbn in *. rewrite length_map. auto 10.
Qed.

Lemma Forall_sublist_of {A : Type} (P : A -> Prop) (l1 l2 : list A) :
  sublist l1 l2 -> Forall P l2 -> Forall P l1.
Proof.
  induction 1 as [| x l1 l2 _ IH | x l1 l2 _ IH]; intros Hall.
  - constructor.
  - inversion Hall; subst. constructor; auto.
  - inversion Hall; subst. auto.
Qed.

Section Invariant.
Context `{MathLib}.
Variables width height : Q.

Lemma invariant_core (g g' : Game.t) :
  Spec.core g' = Spec.core g ->
  Spec.gameInvariant width height g -> Spec.gameInvariant width height g'.
Proof.
  unfold Spec.core, Spec.gameInvariant, Spec.census.
  intros Hcore. inversion Hcore as [Heq]. auto.
Qed.

(** The bullets of a shot start in flight when the player is on the
    canvas. *)
Lemma shoot_inFlight (target : option (Q * Q)) (p : Player.t) :
  (40 <= width)%Q -> (50 <= height)%Q ->
  Spec.playerBuilt height p -> Spec.playerOnCanvas width p ->
  match fst (Player.shoot target p) with
  | Some fired => Forall (Spec.inFlight width height) fired
  | None => True
  end.
Proof.
  intros Hw Hh (Hpw & Hph & Hpy & _) [Hx0 Hx1].
  unfold Player.shoot. destruct (Player.canShoot p); cbn [fst]; [| exact I].
  cbn zeta.
  change (Player.x (Player.set_shootCooldown _ p)) with (Player.x p).
  change (Player.y (Player.set_shootCooldown _ p)) with (Player.y p).
  change (Player.width (Player.set_shootCooldown _ p)) with (Player.width p).
  rewrite Hpy. rewrite Hpw in *.
  assert (Hfly : forall vx vy,
    Spec.inFlight width height
      (Bullet.new (Player.x p + 40 / 2 - 2) (height - 50) vx vy true)).
  { intros vx vy. unfold Spec.inFlight, Spec.onScreen. cbn.
    change (40 / 2)%Q with (40 # 2)%Q. repeat split; lra. }
  destruct (Player.hasMultiShot _);
    [| destruct (Player.hasAutoAim _); [destruct target as [[tx ty] |] |]];
    repeat constructor; apply Hfly.
Qed.

Lemma playerKept_onCanvas (p p' : Player.t) :
  Spec.playerKept p p' -> Player.x p' = Player.x p ->
  Spec.playerOnCanvas width p -> Spec.playerOnCanvas width p'.
Proof.
  unfold Spec.playerOnCanvas. intros (_ & -> & _) ->. auto.
Qed.

Lemma playerShoot_invariant (g : Game.t) :
  Spec.gameInvariant width height g ->
  Spec.gameInvariant width height (Game.playerShoot g).
Proof.
  intros (Hcw & Hch & Hbuilt & Hcensus & Hon & Hfly).
  unfold Game.playerShoot. cbn zeta.
  match goal with
  | |- context [Player.shoot ?t (Game.player g)] =>
      destruct (shoot_kept t (Game.player g)) as [Hk Hx];
      pose proof (shoot_inFlight t (Game.player g)) as Hshot;
      destruct (Player.shoot t (Game.player g)) as [[fired |] p']
  end; cbn [fst snd] in *.
  - unfold Spec.gameInvariant, Spec.census in *.
    pose proof (playerKept_built height _ _ Hbuilt Hk) as Hbuilt'.
    pose proof (playerKept_onCanvas _ _ Hk Hx) as Hon'.
    destruct g; cbn in *.
    split; [exact Hcw |]. split; [exact Hch |]. split; [exact Hbuilt' |].
    split; [exact Hcensus |]. split; [auto |].
    intros Hw Hh. destruct (Hfly Hw Hh) as [Hb He].
    split; [| exact He]. apply Forall_app. split; [exact Hb | auto].
  - unfold Spec.gameInvariant, Spec.census in *.
    pose proof (playerKept_built height _ _ Hbuilt Hk) as Hbuilt'.
    pose proof (playerKept_onCanvas _ _ Hk Hx) as Hon'.
    destruct g; cbn in *. auto 10.
Qed.

Lemma set_player_steady (p' : Player.t) (g : Game.t) :
  Spec.playerKept (Game.player g) p' -> Spec.steady g (Game.set_player p' g).
Proof. intros Hk. unfold Spec.steady. destruct g; cbn in *. auto. Qed.

Lemma playerShoot_steady (g : Game.t) : Spec.steady g (Game.playerShoot g).
Proof.
  unfold Game.playerShoot. cbn zeta.
  match goal with
  | |- context [Player.shoot ?t (Game.player g)] =>
      destruct (shoot_kept t (Game.player g)) as [Hk _];
      destruct (Player.shoot t (Game.player g)) as [[fired |] p']
  end; cbn [snd] in Hk; unfold Spec.steady; destruct g; cbn in *; auto.
Qed.

Lemma move_steady (pressed : bool) (move : Player.t -> Player.t) (g : Game.t) :
  (forall p, Spec.playerKept p (move p)) ->
  Spec.steady g
    (if pressed then Game.set_player (move (Game.player g)) g else g).
Proof.
  intros Hmove. destruct pressed;
    [apply set_player_steady, Hmove | apply steady_refl].
Qed.

Lemma handleInput_steady (g : Game.t) : Spec.steady g (Game.handleInput g).
Proof.
  unfold Game.handleInput. cbn zeta.
  match goal with
  | |- Spec.steady g (if _ then Game.playerShoot ?g2 else _) =>
      match g2 with
      | (if ?c2 then _ else ?g1) =>
          match g1 with
          | (if ?c1 then _ else _) =>
              pose proof (move_steady c1 Player.moveLeft g moveLeft_kept) as H1;
              pose proof (move_steady c2 Player.moveRight g1 moveRight_kept) as H2
          end
      end;
      pose proof (playerShoot_steady g2) as H3
  end.
  eapply steady_trans; [exact H1 |]. eapply steady_trans; [exact H2 |].
  match goal with
  | |- Spec.steady _ (if ?c3 then _ else _) => generalize c3
  end.
  intros [|]; [exact H3 | apply steady_refl].
Qed.

Lemma update_invariant (deltaTime : Q) (g : Game.t) :
  Spec.gameInvariant width height g ->
  Spec.gameInvariant width height (Game.update deltaTime g).
Proof.
  intros (Hcw & Hch & Hbuilt & Hcensus & _ & _).
  unfold Game.update. cbn zeta.
  set (g1 := Game.handleInput g).
  set (g2 := Game.set_player _ g1).
  set (g3 := Game.updateEnemies deltaTime g2).
  set (g4 := Game.updateBullets deltaTime g3).
  set (g5 := Game.updateEffects deltaTime g4).
  set (g6 := Game.checkCollisions g5).
  pose proof (handleInput_steady g) as (Hw1 & Hh1 & Ht1 & Hk1 & Hc1). fold g1 in Hw1, Hh1, Ht1, Hk1, Hc1.
  pose proof (playerKept_built height _ _ Hbuilt Hk1) as Hbuilt1.
  pose proof (update_kept deltaTime (Game.canvasWidth g1) (Game.player g1)) as Hk2.
  pose proof (playerKept_built height _ _ Hbuilt1 Hk2) as Hbuilt2.
  assert (Hp2 : Game.player g2 =
                Player.update deltaTime (Game.canvasWidth g1) (Game.player g1))
    by (unfold g2; now destruct g1).
  assert (Hon2 : (40 <= width)%Q -> Spec.playerOnCanvas width (Game.player g2)).
  { intros Hw. unfold Spec.playerOnCanvas. rewrite Hp2.
    rewrite (proj1 Hbuilt2).
    destruct (player_update_step deltaTime (Game.canvasWidth g1)
                (Game.player g1)) as (Hx & _).
    cbn zeta in Hx. rewrite Hx, (proj1 Hbuilt1), Hw1, Hcw.
    destruct (clamp_range (Player.x (Game.player g1)) 0 (width - 40)); lra. }
  assert (Hcore2 : Game.canvasWidth g2 = Game.canvasWidth g1 /\
                   Game.canvasHeight g2 = Game.canvasHeight g1 /\
                   Game.enemies g2 = Game.enemies g1 /\
                   Game.enemiesKilled g2 = Game.enemiesKilled g1 /\
                   Game.totalEnemies g2 = Game.totalEnemies g1)
    by (unfold g2; now destruct g1).
  destruct Hcore2 as (Hw2 & Hh2 & He2 & Hki2 & Ht2).
  destruct (updateEnemies_frame deltaTime g2)
    as (Hw3 & Hh3 & Hp3 & Hb3 & Hki3 & Ht3 & Hl3).
  cbn zeta in Hw3, Hh3, Hp3, Hb3, Hki3, Ht3, Hl3.
  fold g3 in Hw3, Hh3, Hp3, Hb3, Hki3, Ht3, Hl3.
  assert (Hcore4 : Game.canvasWidth g4 = Game.canvasWidth g3 /\
                   Game.canvasHeight g4 = Game.canvasHeight g3 /\
                   Game.player g4 = Game.player g3 /\
                   Game.enemies g4 = Game.enemies g3 /\
                   Game.enemiesKilled g4 = Game.enemiesKilled g3 /\
                   Game.totalEnemies g4 = Game.totalEnemies g3)
    by (unfold g4; now destruct g3).
  destruct Hcore4 as (Hw4 & Hh4 & Hp4 & He4 & Hki4 & Ht4).
  assert (Hfly4 :
    Forall (Spec.inFlight (Game.canvasWidth g3) (Game.canvasHeight g3))
      (Game.bullets g4) /\
    Forall (Spec.inFlight (Game.canvasWidth g3) (Game.canvasHeight g3))
      (Game.enemyBullets g4)).
  { destruct (updateBullets_kept deltaTime (Game.canvasWidth g3)
                (Game.canvasHeight g3) (Game.bullets g3)) as (Hb & _).
    destruct (updateBullets_kept deltaTime (Game.canvasWidth g3)
                (Game.canvasHeight g3) (Game.enemyBullets g3)) as (He & _).
    cbn zeta in Hb, He. unfold g4. destruct g3; cbn in *. split; assumption. }
  assert (Hcore5 : Spec.core g5 = Spec.core g4) by (unfold g5; now destruct g4).
  apply core_fields in Hcore5.
  destruct Hcore5 as (Hw5 & Hh5 & Hp5 & Hb5 & Heb5 & He5 & Hki5 & Ht5).
  destruct (checkCollisions_settles g5)
    as ((Hw6 & Hh6 & Ht6 & Hk6 & Hc6) & Hx6 & Hsb6 & Hse6).
  fold g6 in Hw6, Hh6, Ht6, Hk6, Hc6, Hx6, Hsb6, Hse6.
  apply (invariant_core g6);
    [unfold Game.checkGameConditions;
     destruct (_ && _); [now destruct g6 |];
     destruct (_ && _); now destruct g6 |].
  assert (HW : Game.canvasWidth g3 = width) by congruence.
  assert (HH : Game.canvasHeight g3 = height) by congruence.
  rewrite HW, HH in Hfly4.
  unfold Spec.gameInvariant, Spec.census in *.
  split; [congruence |]. split; [congruence |].
  split; [apply (playerKept_built height (Game.player g5));
            [rewrite Hp5, Hp4, Hp3, Hp2; exact Hbuilt2 | exact Hk6] |].
  split; [rewrite Ht6, Hc6; rewrite Hki5, He5, Ht5, Hki4, He4, Ht4, Hki3, Hl3, Ht3,
            Hki2, He2, Ht2, Ht1; lia |].
  split.
  - intros Hw. apply (playerKept_onCanvas (Game.player g5)); [exact Hk6 | exact Hx6 |].
    rewrite Hp5, Hp4, Hp3. auto.
  - intros Hw Hh. destruct Hfly4 as [Hb He]. split.
    + eapply Forall_sublist_of; [exact Hsb6 |]. now rewrite Hb5.
    + eapply Forall_sublist_of; [exact Hse6 |]. now rewrite Heb5.
Qed.

Lemma new_player_invariant :
  Spec.playerBuilt height (Player.new (width / 2 - 20) (height - 50)) /\
  ((40 <= width)%Q ->
   Spec.playerOnCanvas width (Player.new (width / 2 - 20) (height - 50))).
Proof.
  split; [unfold Spec.playerBuilt, Spec.cooldownSet; cbn; auto 10 |].
  intros Hw. unfold Spec.playerOnCanvas. cbn.
  change (width / 2)%Q with (width * (1 # 2))%Q. lra.
Qed.

Lemma resetGame_invariant (g : Game.t) :
  Game.canvasWidth g = width -> Game.canvasHeight g = height ->
  Spec.census g ->
  Spec.gameInvariant width height (Game.resetGame g).
Proof.
  intros Hw Hh Hc. destruct new_player_invariant as [Hbuilt Hon].
  unfold Spec.gameInvariant, Spec.census in *.
  destruct g; cbn in *. rewrite Hw, Hh.
  split; [reflexivity |]. split; [reflexivity |]. split; [exact Hbuilt |].
  split; [exact Hc |]. split; [exact Hon |]. intros _ _. split; constructor.
Qed.

Lemma started_invariant (g : Game.t) :
  Spec.gameInvariant width height g ->
  Spec.gameInvariant width height (Game.resetGame (Game.set_gameState playing g)).
Proof.
  intros (Hw & Hh & _ & Hc & _). apply resetGame_invariant;
    unfold Spec.census in *; now destruct g.
Qed.

Lemma loadLevel_invariant (levelNumber : Z) (response : Response) (g : Game.t) :
  Spec.gameInvariant width height g ->
  Spec.gameInvariant width height (Game.loadLevel levelNumber response g).
Proof.
  intros (Hw & Hh & Hbuilt & _ & Hon & Hfly).
  unfold Game.loadLevel, Game.loadLevelFrom.
  destruct (Utils.fetchLevelData levelNumber response) as [data |];
    unfold Game.createWalls, Game.createEnemies;
    unfold Spec.gameInvariant, Spec.census in *;
    destruct g; cbn in *;
    (split; [exact Hw |]); (split; [exact Hh |]); (split; [exact Hbuilt |]);
    (split; [reflexivity |]); (split; assumption).
Qed.

Lemma togglePause_invariant (g : Game.t) :
  Spec.gameInvariant width height g ->
  Spec.gameInvariant width height (Game.togglePause g).
Proof.
  apply invariant_core. unfold Game.togglePause, Game.pauseGame.
  destruct (Game.gameState g); now destruct g.
Qed.

Lemma handle_invariant (event : Game.Event) (g : Game.t) :
  Spec.gameInvariant width height g ->
  Spec.gameInvariant width height (Game.handle event g).
Proof.
  intros Hinv.
  destruct event as [code | code | button | button | | | | |
                    | levelNumber response | levelNumber response
                    | currentTime]; cbn [Game.handle].
  - unfold Game.handleKeyDown. cbn zeta.
    set (g1 := Game.set_keys _ g).
    assert (Hinv1 : Spec.gameInvariant width height g1)
      by (apply (invariant_core g); [now destruct g | exact Hinv]).
    destruct code; try exact Hinv1.
    + destruct (Game.gameState g1); try exact Hinv1;
        try (now apply started_invariant).
      now apply playerShoot_invariant.
    + destruct (Game.gameState g1); try exact Hinv1;
        now apply togglePause_invariant.
    + now apply started_invariant.
  - apply (invariant_core g); [now destruct g | exact Hinv].
  - apply (invariant_core g); [destruct button; now destruct g | exact Hinv].
  - apply (invariant_core g); [destruct button; now destruct g | exact Hinv].
  - destruct (bool_decide (Game.gameState g = playing)); [| exact Hinv].
    apply (invariant_core g); [now destruct g | exact Hinv].
  - now apply started_invariant.
  - now apply togglePause_invariant.
  - now apply started_invariant.
  - unfold Game.handleOverlayAction.
    destruct (Game.gameState g); try (now apply started_invariant);
      try exact Hinv.
    now apply togglePause_invariant.
  - now apply loadLevel_invariant.
  - unfold Game.handleOverlayAction_resumed.
    apply (invariant_core (Game.loadLevel levelNumber response g));
      [now destruct (Game.loadLevel _ _ g) | now apply loadLevel_invariant].
  - unfold Game.gameLoop. cbn zeta.
    set (g1 := Game.set_lastTime currentTime g).
    assert (Hinv1 : Spec.gameInvariant width height g1)
      by (apply (invariant_core g); [now destruct g | exact Hinv]).
    destruct (bool_decide (Game.gameState g1 = playing)); [| exact Hinv1].
    now apply update_invariant.
Qed.

Lemma reachable_invariant (random : nat -> Q) (g : Game.t) :
  Game.reachable width height random g -> Spec.gameInvariant width height g.
Proof.
  induction 1 as [response | g event _ IH].
  - unfold Game.initializeGame. apply loadLevel_invariant.
    destruct new_player_invariant as [Hbuilt Hon].
    unfold Spec.gameInvariant, Spec.census. cbn.
    split; [reflexivity |]. split; [reflexivity |]. split; [exact Hbuilt |].
    split; [reflexivity |]. split; [exact Hon |]. intros _ _. split; constructor.
  - now apply handle_invariant.
Qed.

End Invariant.

(** X23.  In every state that a run reaches the canvas has the size it
    was created with, and the player is 40 by 30 and 50 above the bottom
    of the canvas; on a canvas at least 40 wide the player is within the
    canvas from side to side. *)
Theorem player_stays_on_canvas `{MathLib}
    (width height : Q) (random : nat -> Q) (g : Game.t) :
  Game.reachable width height random g ->
  Game.canvasWidth g = width /\ Game.canvasHeight g = height /\
  Player.width (Game.player g) = 40%Q /\
  Player.height (Game.player g) = 30%Q /\
  Player.y (Game.player g) = (height - 50)%Q /\
  ((40 <= width)%Q ->
   (0 <= Player.x (Game.player g))%Q /\
   (Player.x (Game.player g) + 40 <= width)%Q).
Proof.
  intros Hreach.
  destruct (reachable_invariant width height random g Hreach)
    as (Hw & Hh & (Hpw & Hph & Hpy & _) & _ & Hon & _).
  split; [exact Hw |]. split; [exact Hh |]. split; [exact Hpw |].
  split; [exact Hph |]. split; [exact Hpy |].
  intros Hwide. destruct (Hon Hwide) as [Hx0 Hx1].
  split; [exact Hx0 | now rewrite Hpw in Hx1].
Qed.

Lemma player_stays_on_canvas_witness :
  (0 <= Player.x (Game.player Spec.sampleGame))%Q /\
  (Player.x (Game.player Spec.sampleGame) + 40 <= 800)%Q.
Proof.
  apply (@player_stays_on_canvas Spec.flatMath 800 600 (fun _ => (1 # 2)%Q)
           Spec.sampleGame).
  - apply Game.reachable_init.
  - discriminate.
Defined.

(** X24.  In every state that a run reaches the cooldown between the
    shots of the player is 0.1 while rapid fire is on and 0.25
    otherwise, and the time of invulnerability after a hit is 2. *)
Theorem rapid_fire_cooldown `{MathLib}
    (width height : Q) (random : nat -> Q) (g : Game.t) :
  Game.reachable width height random g ->
  Player.maxShootCooldown (Game.player g) =
    (if Player.hasRapidFire (Game.player g) then 1 # 10 else 25 # 100)%Q /\
  Player.maxInvulnerabilityTime (Game.player g) = 2%Q.
Proof.
  intros Hreach.
  destruct (reachable_invariant width height random g Hreach)
    as (_ & _ & (_ & _ & _ & _ & Hbase & Hinv & Hcool) & _).
  unfold Spec.cooldownSet in Hcool. rewrite Hbase in Hcool. auto.
Qed.

Lemma rapid_fire_cooldown_witness :
  Player.maxShootCooldown (Game.player Spec.sampleGame) =
    (if Player.hasRapidFire (Game.player Spec.sampleGame)
     then 1 # 10 else 25 # 100)%Q.
Proof.
  apply (@rapid_fire_cooldown Spec.flatMath 800 600 (fun _ => (1 # 2)%Q)
           Spec.sampleGame).
  apply Game.reachable_init.
Defined.

(** X25.  In every state that a run reaches every enemy of the level is
    either in the array of enemies or counted as killed:
    [enemiesKilled] plus the number of enemies is [totalEnemies], so the
    kills never exceed the total and reach it exactly when no enemy is
    left. *)
Theorem kills_and_enemies `{MathLib}
    (width height : Q) (random : nat -> Q) (g : Game.t) :
  Game.reachable width height random g ->
  (Game.enemiesKilled g + Z.of_nat (length (Game.enemies g))
   = Game.totalEnemies g)%Z /\
  (Game.enemiesKilled g <= Game.totalEnemies g)%Z /\
  (Game.enemiesKilled g = Game.totalEnemies g <-> Game.enemies g = []).
Proof.
  intros Hreach.
  destruct (reachable_invariant width height random g Hreach)
    as (_ & _ & _ & Hcensus & _).
  unfold Spec.census in Hcensus.
  split; [exact Hcensus |]. split; [lia |].
  rewrite <- length_zero_iff_nil. lia.
Qed.

Lemma kills_and_enemies_witness :
  (Game.enemiesKilled Spec.sampleGame
   + Z.of_nat (length (Game.enemies Spec.sampleGame))
   = Game.totalEnemies Spec.sampleGame)%Z.
Proof.
  apply (@kills_and_enemies Spec.flatMath 800 600 (fun _ => (1 # 2)%Q)
           Spec.sampleGame).
  apply Game.reachable_init.
Defined.

(** X26.  On a canvas at least 40 wide and 50 high, in every state that
    a run reaches every bullet of the player and every bullet of the
    enemies is active and on the screen. *)
Theorem bullets_in_flight `{MathLib}
    (width height : Q) (random : nat -> Q) (g : Game.t) :
  Game.reachable width height random g ->
  (40 <= width)%Q -> (50 <= height)%Q ->
  Forall (fun b =>
    Bullet.active b = true /\
    Spec.onScreen width height b (Bullet.x b) (Bullet.y b)) (Game.bullets g) /\
  Forall (fun b =>
    Bullet.active b = true /\
    Spec.onScreen width height b (Bullet.x b) (Bullet.y b)) (Game.enemyBullets g).
Proof.
  intros Hreach Hw Hh.
  destruct (reachable_invariant width height random g Hreach)
    as (_ & _ & _ & _ & _ & Hfly).
  exact (Hfly Hw Hh).
Qed.

Lemma bullets_in_flight_witness :
  Forall (fun b =>
    Bullet.active b = true /\
    Spec.onScreen 800 600 b (Bullet.x b) (Bullet.y b))
    (Game.bullets
       (@Game.handle Spec.flatMath (Game.keydown Space)
          (@Game.handle Spec.flatMath Game.clickStart Spec.sampleGame))).
Proof.
  apply (@bullets_in_flight Spec.flatMath 800 600 (fun _ => (1 # 2)%Q)
           (@Game.handle Spec.flatMath (Game.keydown Space)
              (@Game.handle Spec.flatMath Game.clickStart Spec.sampleGame))).
  - apply Game.reachable_event. apply Game.reachable_event.
    apply Game.reachable_init.
  - discriminate.
  - discriminate.
Defined.

(** ** The swarm over several steps *)

Lemma Forall2_map_step {A : Type} (R R' : A -> A -> Prop) (f : A -> A)
    (l k : list A) :
  Forall2 R l k -> (forall a b, R a b -> R' a (f b)) -> Forall2 R' l (map f k).
Proof. induction 1; intros Hstep; simpl; constructor; auto. Qed.

Lemma Forall2_In_l {A : Type} (R : A -> A -> Prop) (l k : list A) (a : A) :
  Forall2 R l k -> In a l -> exists b, In b k /\ R a b.
Proof.
  induction 1 as [| x y l k Hxy _ IH]; intros Hin; [destruct Hin |].
  destruct Hin as [<- | Hin]; [exists y; split; [now left | assumption] |].
  destruct (IH Hin) as (b & Hb & Hab). exists b. split; [now right | assumption].
Qed.

(** X27.  After a step that drops the swarm, the next step drops it
    again exactly when some enemy is at the edge opposite to the one
    that was hit.  So a swarm that touches both edges of the canvas,
    moving left or right, never moves sideways again: each of the next
    [n] steps leaves every [x] as it is and moves every enemy down by
    its [dropSpeed].  With a direction other than 1 and -1 the swarm
    never takes the edge for hit. *)
Theorem swarm_after_a_drop (g : Game.t) :
  (Spec.hitEdge g ->
   (Spec.hitEdge (Game.moveEnemies g) <->
    exists e, In e (Game.enemies g) /\
      (((Enemy.x e <= 0)%Q /\ Game.enemyDirection g = 1%Z) \/
       ((Game.canvasWidth g <= Enemy.x e + Enemy.width e)%Q /\
        Game.enemyDirection g = (-1)%Z)))) /\
  ((Game.enemyDirection g = 1%Z \/ Game.enemyDirection g = (-1)%Z) ->
   (exists e, In e (Game.enemies g) /\ (Enemy.x e <= 0)%Q) ->
   (exists e, In e (Game.enemies g) /\
      (Game.canvasWidth g <= Enemy.x e + Enemy.width e)%Q) ->
   forall n,
     Forall2 (fun e e' =>
       Enemy.x e' = Enemy.x e /\
       (Enemy.y e' == Enemy.y e + Spec.times n * Enemy.dropSpeed e)%Q)
       (Game.enemies g) (Game.enemies (Nat.iter n Game.moveEnemies g))) /\
  (Game.enemyDirection g <> 1%Z -> Game.enemyDirection g <> (-1)%Z ->
   ~ Spec.hitEdge g).
Proof.
  split; [| split].
  - intros Hhit. rewrite (moveEnemies_hit g Hhit).
    unfold Spec.hitEdge, Spec.atCanvasEdge.
    change (Game.enemies (Game.set_enemies _ _))
      with (map Enemy.moveDown (Game.enemies g)).
    change (Game.enemyDirection (Game.set_enemies _ _))
      with (Game.enemyDirection g * -1)%Z.
    change (Game.canvasWidth (Game.set_enemies _ _)) with (Game.canvasWidth g).
    split.
    + intros (e' & Hin & Hedge). apply in_map_iff in Hin.
      destruct Hin as (e & <- & Hin). exists e. split; [exact Hin |].
      change (Enemy.x (Enemy.moveDown e)) with (Enemy.x e) in Hedge.
      change (Enemy.width (Enemy.moveDown e)) with (Enemy.width e) in Hedge.
      destruct Hedge as [[Hx Hd] | [Hx Hd]]; [left | right]; split; auto; lia.
    + intros (e & Hin & Hedge). exists (Enemy.moveDown e).
      split; [now apply in_map |].
      change (Enemy.x (Enemy.moveDown e)) with (Enemy.x e).
      change (Enemy.width (Enemy.moveDown e)) with (Enemy.width e).
      destruct Hedge as [[Hx Hd] | [Hx Hd]]; [left | right]; split; auto; lia.
  - intros Hdir Hleft Hright n.
    enough (Hn :
      Game.canvasWidth (Nat.iter n Game.moveEnemies g) = Game.canvasWidth g /\
      (Game.enemyDirection (Nat.iter n Game.moveEnemies g) = 1%Z \/
       Game.enemyDirection (Nat.iter n Game.moveEnemies g) = (-1)%Z) /\
      Forall2 (fun e e' =>
        (Enemy.x e' = Enemy.x e /\ Enemy.width e' = Enemy.width e /\
         Enemy.dropSpeed e' = Enemy.dropSpeed e) /\
        (Enemy.y e' == Enemy.y e + Spec.times n * Enemy.dropSpeed e)%Q)
        (Game.enemies g) (Game.enemies (Nat.iter n Game.moveEnemies g))).
    { destruct Hn as (_ & _ & Hall). eapply Forall2_impl; [exact Hall |].
      intros e e' [(Hx & _) Hy]. auto. }
    induction n as [| n IH].
    + split; [reflexivity |]. split; [exact Hdir |].
      cbn [Nat.iter nat_rect]. change (Spec.times 0) with 0%Q.
      clear. induction (Game.enemies g) as [| e es IHes];
        [constructor |].
      constructor; [repeat split; lra | exact IHes].
    + destruct IH as (Hcw & Hd & Hall).
      change (Nat.iter (S n) Game.moveEnemies g)
        with (Game.moveEnemies (Nat.iter n Game.moveEnemies g)).
      set (gn := Nat.iter n Game.moveEnemies g) in *.
      assert (Hhit : Spec.hitEdge gn).
      { unfold Spec.hitEdge, Spec.atCanvasEdge. rewrite Hcw.
        destruct Hd as [Hd | Hd].
        - destruct Hright as (e & Hin & Hx).
          destruct (Forall2_In_l _ _ _ e Hall Hin)
            as (e' & Hin' & (Hx' & Hw' & _) & _).
          exists e'. split; [exact Hin' |]. right. rewrite Hx', Hw'. auto.
        - destruct Hleft as (e & Hin & Hx).
          destruct (Forall2_In_l _ _ _ e Hall Hin)
            as (e' & Hin' & (Hx' & _) & _).
          exists e'. split; [exact Hin' |]. left. rewrite Hx'. auto. }
      rewrite (moveEnemies_hit gn Hhit).
      change (Game.enemies (Game.set_enemies _ _))
        with (map Enemy.moveDown (Game.enemies gn)).
      change (Game.enemyDirection (Game.set_enemies _ _))
        with (Game.enemyDirection gn * -1)%Z.
      change (Game.canvasWidth (Game.set_enemies _ _)) with (Game.canvasWidth gn).
      split; [exact Hcw |]. split; [lia |].
      eapply Forall2_map_step; [exact Hall |].
      intros e e' [(Hx & Hw & Hds) Hy].
      change (Enemy.x (Enemy.moveDown e')) with (Enemy.x e').
      change (Enemy.width (Enemy.moveDown e')) with (Enemy.width e').
      change (Enemy.dropSpeed (Enemy.moveDown e')) with (Enemy.dropSpeed e').
      change (Enemy.y (Enemy.moveDown e'))
        with (Enemy.y e' + Enemy.dropSpeed e')%Q.
      split; [auto |]. rewrite Hy, Hds, times_S. lra.
  - intros H1 H2 (e & _ & [[_ Hd] | [_ Hd]]); congruence.
Qed.

Lemma swarm_after_a_drop_witness :
  let g :=
    Game.set_enemies [Enemy.new 0 80 basic; Enemy.new 770 80 basic]
      (Game.new 800 600 (fun _ => 0%Q)) in
  Forall2 (fun e e' =>
    Enemy.x e' = Enemy.x e /\
    (Enemy.y e' == Enemy.y e + Spec.times 3 * Enemy.dropSpeed e)%Q)
    (Game.enemies g) (Game.enemies (Nat.iter 3 Game.moveEnemies g)).
Proof.
  cbn zeta.
  apply (proj1 (proj2 (swarm_after_a_drop
           (Game.set_enemies [Enemy.new 0 80 basic; Enemy.new 770 80 basic]
              (Game.new 800 600 (fun _ => 0%Q)))))).
  - left. reflexivity.
  - exists (Enemy.new 0 80 basic). split; [left; reflexivity | discriminate].
  - exists (Enemy.new 770 80 basic). split; [right; left; reflexivity |].
    vm_compute. discriminate.
Defined.

(** ** How a tick ends *)

Lemma playerShoot_level `{MathLib} (g : Game.t) :
  Game.currentLevel (Game.playerShoot g) = Game.currentLevel g.
Proof.
  unfold Game.playerShoot.
  destruct (Player.shoot _ (Game.player g)) as [[fired |] p']; now destruct g.
Qed.

Lemma handleInput_level `{MathLib} (g : Game.t) :
  Game.currentLevel (Game.handleInput g) = Game.currentLevel g.
Proof.
  unfold Game.handleInput. cbn zeta.
  repeat match goal with
         | |- context [if ?c then _ else _] => destruct c
         end;
    rewrite ?playerShoot_level; now destruct g.
Qed.

Lemma updateEnemies_level (deltaTime : Q) (g : Game.t) :
  Game.currentLevel (Game.updateEnemies deltaTime g) = Game.currentLevel g.
Proof.
  unfold Game.updateEnemies. cbn zeta.
  match goal with
  | |- context [Game.enemiesAct deltaTime ?es ?g2] =>
      destruct (enemiesAct_spec deltaTime es g2) as (shots & cursor & ->);
      transitivity (Game.currentLevel g2); [now destruct g2 |]
  end.
  destruct (Qleb _ _); [| now destruct g].
  unfold Game.moveEnemies. destruct (fold_left _ _ _); now destruct g.
Qed.

Lemma playerBulletsVsEnemies_level (i : nat) (g : Game.t) :
  Game.currentLevel (Game.playerBulletsVsEnemies i g) = Game.currentLevel g.
Proof.
  revert g. induction i as [| i IH]; intros g; simpl; [reflexivity |].
  destruct (Game.bullets g !! i) as [bullet |]; [| apply IH].
  destruct (Game.lastEnemyHit _ _ _) as [[j enemy] |]; [| apply IH].
  rewrite IH. destruct (Qltb _ _); now destruct g.
Qed.

Lemma powerUpsVsPlayer_level (i : nat) (g : Game.t) :
  Game.currentLevel (Game.powerUpsVsPlayer i g) = Game.currentLevel g.
Proof.
  revert g. induction i as [| i IH]; intros g; simpl; [reflexivity |].
  destruct (Game.powerUps g !! i) as [u |]; [| apply IH].
  destruct (entityCheckCollision u (Game.player g)); [| apply IH].
  rewrite IH. unfold Game.applyPowerUp.
  destruct (PowerUp.type u) as [[] |]; now destruct g.
Qed.

Lemma enemyBulletsVsPlayer_level (i : nat) (g : Game.t) :
  Game.currentLevel (Game.enemyBulletsVsPlayer i g) = Game.currentLevel g.
Proof.
  revert g. induction i as [| i IH]; intros g; simpl; [reflexivity |].
  destruct (Game.enemyBullets g !! i) as [bullet |]; [| apply IH].
  destruct (entityCheckCollision bullet (Game.player g)); [| apply IH].
  destruct (Player.takeDamage (Game.player g)) as [[] p']; rewrite IH;
    now destruct g.
Qed.

Lemma enemiesReachedPlayer_fold_level (es : list Enemy.t) (g : Game.t) :
  let g' :=
    fold_left (fun g' enemy =>
      if Qleb (Player.y (Game.player g')) (Enemy.y enemy + Enemy.height enemy)
      then Game.set_lives 0%Z g' else g') es g in
  Game.currentLevel g' = Game.currentLevel g /\
  Game.enemies g' = Game.enemies g.
Proof.
  revert g. induction es as [| e es IH]; intros g; simpl;
    [split; reflexivity |].
  destruct (IH (if Qleb (Player.y (Game.player g)) (Enemy.y e + Enemy.height e)
                then Game.set_lives 0%Z g else g)) as [-> ->].
  destruct (Qleb _ _); now destruct g.
Qed.

Lemma enemiesReachedPlayer_level (g : Game.t) :
  Game.currentLevel (Game.enemiesReachedPlayer g) = Game.currentLevel g /\
  Game.enemies (Game.enemiesReachedPlayer g) = Game.enemies g.
Proof. apply (enemiesReachedPlayer_fold_level (Game.enemies g) g). Qed.

Lemma checkCollisions_level (g : Game.t) :
  Game.currentLevel (Game.checkCollisions g) = Game.currentLevel g.
Proof.
  unfold Game.checkCollisions. cbn zeta.
  rewrite (proj1 (enemiesReachedPlayer_level _)), enemyBulletsVsPlayer_level.
  unfold Game.enemyBulletsVsWalls.
  destruct (Game.bulletsVsWalls false _ _ _) as [shots4 barriers4].
  transitivity (Game.currentLevel
    (Game.powerUpsVsPlayer
       (length (Game.powerUps
          (Game.playerBulletsVsEnemies
             (length (Game.bullets
                (Game.cleanUpWalls (Game.playerBulletsVsWalls g))))
             (Game.cleanUpWalls (Game.playerBulletsVsWalls g)))))
       (Game.playerBulletsVsEnemies
          (length (Game.bullets (Game.cleanUpWalls (Game.playerBulletsVsWalls g))))
          (Game.cleanUpWalls (Game.playerBulletsVsWalls g)))));
    [now destruct (Game.powerUpsVsPlayer _ _) |].
  rewrite powerUpsVsPlayer_level, playerBulletsVsEnemies_level.
  unfold Game.playerBulletsVsWalls.
  destruct (Game.bulletsVsWalls true _ _ _) as [shots1 barriers1].
  now destruct g.
Qed.

(** X28.  A tick of a game that is playing ends in one of three ways.
    With no life left the game is over and the level is not advanced,
    even if no enemy is left; with a life left and no enemy left the
    level is complete and the level number goes up by exactly one;
    otherwise the game goes on playing at the same level. *)
Theorem tick_outcome `{MathLib} (deltaTime : Q) (g : Game.t) :
  Game.gameState g = playing ->
  let g' := Game.update deltaTime g in
  ((Game.lives g' <= 0)%Z ->
     Game.gameState g' = gameOver /\
     Game.currentLevel g' = Game.currentLevel g) /\
  ((0 < Game.lives g')%Z -> Game.enemies g' = [] ->
     Game.gameState g' = levelComplete /\
     Game.currentLevel g' = (Game.currentLevel g + 1)%Z) /\
  ((0 < Game.lives g')%Z -> Game.enemies g' <> [] ->
     Game.gameState g' = playing /\
     Game.currentLevel g' = Game.currentLevel g).
Proof.
  intros Hplay. unfold Game.update. cbn zeta.
  set (g1 := Game.handleInput g).
  set (g2 := Game.set_player _ g1).
  set (g3 := Game.updateEnemies deltaTime g2).
  set (g4 := Game.updateBullets deltaTime g3).
  set (g5 := Game.updateEffects deltaTime g4).
  set (g6 := Game.checkCollisions g5).
  assert (H5 : Spec.vitals g5 = Spec.vitals g).
  { unfold g5, g4, g3, g2, g1.
    now rewrite updateEffects_vitals, updateBullets_vitals,
      updateEnemies_vitals, set_player_vitals, handleInput_vitals. }
  apply vitals_eq in H5. destruct H5 as [_ Hs5].
  destruct (checkCollisions_lives g5) as [Hs6 _]. fold g6 in Hs6.
  assert (Hstate : Game.gameState g6 = playing) by congruence.
  assert (Hlevel : Game.currentLevel g6 = Game.currentLevel g).
  { unfold g6. rewrite checkCollisions_level.
    transitivity (Game.currentLevel g4); [unfold g5; now destruct g4 |].
    transitivity (Game.currentLevel g3); [unfold g4; now destruct g3 |].
    unfold g3. rewrite updateEnemies_level.
    transitivity (Game.currentLevel g1); [unfold g2; now destruct g1 |].
    apply handleInput_level. }
  clearbody g6. clear - Hstate Hlevel.
  unfold Game.checkGameConditions, Game.levelComplete_, Game.gameOver_.
  rewrite Hstate, <- Hlevel.
  rewrite bool_decide_eq_false_2 by discriminate.
  rewrite bool_decide_eq_true_2 by reflexivity.
  cbn [negb]. rewrite !andb_true_r.
  destruct (Z.leb_spec (Game.lives g6) 0) as [Hl | Hl].
  - split; [intros _; now destruct g6 |].
    split; intros Hpos; exfalso; destruct g6; cbn in *; lia.
  - destruct (Game.enemies g6) as [| e es] eqn:Hes; cbn [length Nat.eqb].
    + split; [intros Hle; exfalso; destruct g6; cbn in *; lia |].
      split; [intros _ _; now destruct g6 |].
      intros _ Hne. exfalso. apply Hne. destruct g6; cbn in *. exact Hes.
    + split; [intros Hle; lia |].
      split; [intros _ Hnil; congruence | auto].
Qed.

Lemma tick_outcome_witness :
  Game.gameState
    (@Game.update Spec.flatMath (1 # 60)
       (Game.set_gameState playing Spec.sampleGame)) = playing /\
  Game.currentLevel
    (@Game.update Spec.flatMath (1 # 60)
       (Game.set_gameState playing Spec.sampleGame)) =
  Game.currentLevel (Game.set_gameState playing Spec.sampleGame).
Proof.
  apply (proj2 (proj2 (@tick_outcome Spec.flatMath (1 # 60)
           (Game.set_gameState playing Spec.sampleGame) eq_refl))).
  - vm_compute. reflexivity.
  - vm_compute. discriminate.
Defined.

(** ** Shots *)

Lemma closest_spec (playerCenter : Q) (es : list Enemy.t)
    (found : option (Q * Enemy.t)) :
  let dist := fun e : Enemy.t =>
    Qabs (Enemy.x e + Enemy.width e / 2 - playerCenter) in
  match found with Some (d, e0) => d = dist e0 | None => True end ->
  match
    fold_left (fun (found : option (Q * Enemy.t)) enemy =>
      let dist := Qabs (Enemy.x enemy + Enemy.width enemy / 2 - playerCenter) in
      match found with
      | None => Some (dist, enemy)
      | Some (minDist, _) =>
          if Qltb dist minDist then Some (dist, enemy) else found
      end) es found
  with
  | Some (d, e) =>
      d = dist e /\ (In e es \/ found = Some (d, e)) /\
      (forall e', In e' es -> (dist e <= dist e')%Q) /\
      match found with Some (d0, _) => (d <= d0)%Q | None => True end
  | None => es = [] /\ found = None
  end.
Proof.
  cbn zeta. revert found. induction es as [| a es IH]; intros found Hfound.
  - simpl. destruct found as [[d e] |]; [| auto].
    split; [exact Hfound |]. split; [now right |].
    split; [intros e' [] | apply Qle_refl].
  - cbn [fold_left].
    set (da := Qabs (Enemy.x a + Enemy.width a / 2 - playerCenter)) in *.
    set (found' := match found with
                   | None => Some (da, a)
                   | Some (minDist, _) =>
                       if Qltb da minDist then Some (da, a) else found
                   end).
    assert (Hfound' : match found' with
                      | Some (d, e0) =>
                          d = Qabs (Enemy.x e0 + Enemy.width e0 / 2 - playerCenter)
                      | None => True
                      end).
    { unfold found'. destruct found as [[m e0] |]; [| reflexivity].
      destruct (Qltb da m); [reflexivity | exact Hfound]. }
    assert (Hnew : exists d0' e0', found' = Some (d0', e0') /\ (d0' <= da)%Q /\
      (found' = Some (da, a) \/ found' = found) /\
      match found with Some (d0, _) => (d0' <= d0)%Q | None => True end).
    { unfold found'. destruct found as [[m e0] |].
      - destruct (Qltb da m) eqn:Hlt.
        + apply Qltb_lt in Hlt. exists da, a. repeat split; auto; lra.
        + apply Qltb_ge in Hlt. exists m, e0. repeat split; auto; lra.
      - exists da, a. repeat split; auto; lra. }
    specialize (IH found' Hfound'). clearbody found'.
    destruct Hnew as (d0' & e0' & -> & Hle & Hcase & Hold).
    destruct (fold_left _ es (Some (d0', e0'))) as [[d e] |];
      [| destruct IH as [_ IH]; discriminate].
    destruct IH as (Hd & Hin & Hmin & Hd0).
    split; [exact Hd |]. split; [| split].
    + destruct Hin as [Hin | Hin]; [left; now right |].
      inversion Hin; subst d0' e0'. destruct Hcase as [Hc | Hc].
      * inversion Hc; subst. left. now left.
      * right. rewrite <- Hc, Hd. reflexivity.
    + intros e' [<- | Hin']; [| now apply Hmin].
      rewrite <- Hd. fold da. lra.
    + destruct found as [[m e0] |]; [lra | exact I].
Qed.

(** X29.  [playerShoot] with auto-aim and at least one enemy aims at
    the centre of an enemy whose centre is nearest to that of the player
    from side to side; without auto-aim, or with no enemy, it shoots
    with no target.  Whatever the target, the bullets that the player
    fires are added at the end of [bullets]. *)
Theorem playerShoot_aims_at_nearest `{MathLib} (g : Game.t) :
  let playerCenter :=
    (Player.x (Game.player g) + Player.width (Game.player g) / 2)%Q in
  let dist := fun e : Enemy.t =>
    Qabs (Enemy.x e + Enemy.width e / 2 - playerCenter) in
  let shot := fun target =>
    match Player.shoot target (Game.player g) with
    | (Some fired, p') =>
        Game.set_bullets (Game.bullets g ++ fired) (Game.set_player p' g)
    | (None, p') => Game.set_player p' g
    end in
  (Player.hasAutoAim (Game.player g) = true -> Game.enemies g <> [] ->
   exists e, In e (Game.enemies g) /\
     (forall e', In e' (Game.enemies g) -> (dist e <= dist e')%Q) /\
     Game.playerShoot g =
       shot (Some (Enemy.x e + Enemy.width e / 2,
                   Enemy.y e + Enemy.height e / 2)%Q)) /\
  (Player.hasAutoAim (Game.player g) = false \/ Game.enemies g = [] ->
   Game.playerShoot g = shot None).
Proof.
  cbn zeta. unfold Game.playerShoot. cbn zeta. split.
  - intros Haim Hne. rewrite Haim.
    destruct (Game.enemies g) as [| a es] eqn:Hes; [congruence |].
    cbn [length Nat.ltb Nat.leb andb].
    pose proof (closest_spec
      (Player.x (Game.player g) + Player.width (Game.player g) / 2)
      (a :: es) None I) as Hclosest.
    cbn zeta in Hclosest.
    destruct (fold_left _ (a :: es) None) as [[d e] |];
      [| destruct Hclosest; discriminate].
    destruct Hclosest as (_ & [Hin | Hin] & Hmin & _); [| discriminate].
    exists e. split; [exact Hin |]. split; [exact Hmin | reflexivity].
  - intros [Hno | Hnil].
    + now rewrite Hno.
    + rewrite Hnil. cbn [length Nat.ltb Nat.leb]. now rewrite andb_false_r.
Qed.

Lemma playerShoot_aims_at_nearest_witness :
  let g := Spec.aimingGame in
  Player.hasAutoAim (Game.player g) = true /\
  length (Game.enemies g) = 2%nat /\
  exists e,
    In e (Game.enemies g) /\
    (Enemy.x e, Enemy.y e) = (400, 80)%Q /\
    Game.playerShoot (H := Spec.flatMath) g =
      match
        Player.shoot (H := Spec.flatMath)
          (Some (Enemy.x e + Enemy.width e / 2,
                 Enemy.y e + Enemy.height e / 2)%Q) (Game.player g)
      with
      | (Some fired, p') =>
          Game.set_bullets (Game.bullets g ++ fired) (Game.set_player p' g)
      | (None, p') => Game.set_player p' g
      end.
Proof.
  cbn zeta. split; [reflexivity |]. split; [reflexivity |].
  destruct (proj1 (@playerShoot_aims_at_nearest Spec.flatMath Spec.aimingGame))
    as (e & Hin & Hmin & Hshot); [reflexivity | discriminate |].
  exists e. split; [exact Hin |]. split; [| exact Hshot].
  destruct Hin as [<- | [<- | []]]; [| reflexivity].
  specialize (Hmin (Enemy.new 400 80 basic) (or_intror (or_introl eq_refl))).
  vm_compute in Hmin. elim Hmin. reflexivity.
Defined.

Lemma enemiesAct_fire (deltaTime : Q) (ld : Level.t) (todo : list Enemy.t)
    (g : Game.t) :
  Game.levelData g = Some ld -> Spec.unitDraws (Game.randomSource g) ->
  let fire := fun e => Bullet.set_vy (Level.enemyBulletSpeed ld) (Enemy.shoot e) in
  let g' := snd (Game.enemiesAct deltaTime todo g) in
  (exists fired,
     Game.enemyBullets g' = Game.enemyBullets g ++ fired /\
     sublist fired (map fire (map (Enemy.update deltaTime) todo))) /\
  ((forall e, In e todo -> (Enemy.shootFrequency e <= 0)%Q) ->
   Game.enemyBullets g' = Game.enemyBullets g) /\
  ((forall e, In e todo -> (1 <= Enemy.shootFrequency e)%Q) ->
   Game.enemyBullets g' =
     Game.enemyBullets g ++ map fire (map (Enemy.update deltaTime) todo)).
Proof.
  cbn zeta. revert g. induction todo as [| e rest IH]; intros g Hld Hunit.
  - simpl. split; [exists []; split; [now rewrite app_nil_r | constructor] |].
    split; intros _; [reflexivity | now rewrite app_nil_r].
  - cbn [Game.enemiesAct]. unfold Game.Math_random.
    set (r := Game.randomSource g (Game.randomCursor g)).
    set (g1 := Game.set_randomCursor (S (Game.randomCursor g)) g).
    set (e' := Enemy.update deltaTime e).
    set (g2 := if Enemy.shouldShoot r e' then _ else g1).
    assert (Hg2 : Game.levelData g2 = Some ld /\
                  Game.randomSource g2 = Game.randomSource g /\
                  Game.enemyBullets g2 =
                    Game.enemyBullets g ++
                    (if Enemy.shouldShoot r e'
                     then [Bullet.set_vy (Level.enemyBulletSpeed ld) (Enemy.shoot e')]
                     else [])).
    { unfold g2, g1. destruct (Enemy.shouldShoot r e').
      - destruct g; cbn in *. rewrite Hld. auto.
      - destruct g; cbn in *. rewrite app_nil_r. auto. }
    destruct Hg2 as (Hld2 & Hrs2 & Hb2).
    specialize (IH g2 Hld2 ltac:(now rewrite Hrs2)).
    destruct (Game.enemiesAct deltaTime rest g2) as [rest' g3]. cbn [snd] in *.
    destruct IH as ((fired & Hb3 & Hsub) & Hnone & Hall).
    assert (Hfreq : Enemy.shootFrequency e' = Enemy.shootFrequency e)
      by reflexivity.
    destruct (Hunit (Game.randomCursor g)) as [Hr0 Hr1]. fold r in Hr0, Hr1.
    split; [| split].
    + rewrite Hb3, Hb2, <- app_assoc. eexists. split; [reflexivity |].
      cbn [map]. destruct (Enemy.shouldShoot r e');
        [now apply sublist_skip | now apply sublist_cons].
    + intros Hquiet. rewrite Hnone by (intros a Ha; apply Hquiet; now right).
      rewrite Hb2. unfold Enemy.shouldShoot. rewrite Hfreq.
      replace (Qltb r (Enemy.shootFrequency e)) with false;
        [now rewrite app_nil_r |].
      symmetry. apply Qltb_ge.
      specialize (Hquiet e (or_introl eq_refl)). lra.
    + intros Hloud. rewrite Hall by (intros a Ha; apply Hloud; now right).
      rewrite Hb2. unfold Enemy.shouldShoot. rewrite Hfreq.
      replace (Qltb r (Enemy.shootFrequency e)) with true;
        [now rewrite <- app_assoc |].
      symmetry. apply Qltb_lt.
      specialize (Hloud e (or_introl eq_refl)). lra.
Qed.

(** X30.  With level data loaded and draws in [0, 1), [updateEnemies]
    only adds to the bullets of the enemies, at the end: the bullets
    that it adds are bullets of enemies as they are after the tick, in
    the order of the enemies, each leaving the bottom centre of its
    enemy straight down at the [enemyBulletSpeed] of the level.  Enemies
    with a firing frequency of 0 or less never fire, and enemies with a
    firing frequency of 1 or more all fire on every tick. *)
Theorem updateEnemies_fire (deltaTime : Q) (ld : Level.t) (g : Game.t) :
  Game.levelData g = Some ld -> Spec.unitDraws (Game.randomSource g) ->
  let g' := Game.updateEnemies deltaTime g in
  let fire := fun e =>
    Bullet.set_vy (Level.enemyBulletSpeed ld)
      (Bullet.new (Enemy.x e + Enemy.width e / 2 - 2)
         (Enemy.y e + Enemy.height e) 0 3 false) in
  (exists fired,
     Game.enemyBullets g' = Game.enemyBullets g ++ fired /\
     sublist fired (map fire (Game.enemies g'))) /\
  ((forall e, In e (Game.enemies g) -> (Enemy.shootFrequency e <= 0)%Q) ->
   Game.enemyBullets g' = Game.enemyBullets g) /\
  ((forall e, In e (Game.enemies g) -> (1 <= Enemy.shootFrequency e)%Q) ->
   Game.enemyBullets g' = Game.enemyBullets g ++ map fire (Game.enemies g')).
Proof.
  intros Hld Hunit. cbn zeta. unfold Game.updateEnemies. cbn zeta.
  set (g1 := Game.set_enemyMoveTimer (Game.enemyMoveTimer g + deltaTime) g).
  set (g2 := if Qleb (Game.enemyMoveInterval g1) (Game.enemyMoveTimer g1)
             then Game.set_enemyMoveTimer 0 (Game.moveEnemies g1) else g1).
  assert (Hg2 : Game.levelData g2 = Some ld /\
                Game.randomSource g2 = Game.randomSource g /\
                Game.enemyBullets g2 = Game.enemyBullets g /\
                (forall P : Q -> Prop,
                   (forall e, In e (Game.enemies g) -> P (Enemy.shootFrequency e)) ->
                   forall e, In e (Game.enemies g2) -> P (Enemy.shootFrequency e))).
  { unfold g2. destruct (Qleb _ _); [| unfold g1; destruct g; cbn in *; auto].
    unfold Game.moveEnemies.
    destruct (fold_left _ _ _); unfold g1; destruct g; cbn in *;
      (split; [exact Hld |]); (split; [reflexivity |]); (split; [reflexivity |]);
      intros P HP e Hin; apply in_map_iff in Hin;
      destruct Hin as (e0 & <- & Hin); apply (HP e0 Hin). }
  destruct Hg2 as (Hld2 & Hrs2 & Hb2 & Hfreq).
  pose proof (enemiesAct_fire deltaTime ld (Game.enemies g2) g2 Hld2
                ltac:(now rewrite Hrs2)) as Hact.
  cbn zeta in Hact.
  destruct (enemiesAct_spec deltaTime (Game.enemies g2) g2)
    as (shots & cursor & Heq).
  rewrite Heq in Hact |- *. cbn [snd] in Hact.
  change (Game.enemyBullets (Game.set_enemies _ ?h)) with (Game.enemyBullets h).
  change (Game.enemies (Game.set_enemies ?es _)) with es.
  rewrite Hb2 in Hact. destruct Hact as (Hsome & Hnone & Hall).
  split; [exact Hsome |]. split.
  - intros Hquiet. apply Hnone.
    apply (Hfreq (fun f => (f <= 0)%Q)). exact Hquiet.
  - intros Hloud. apply Hall.
    apply (Hfreq (fun f => (1 <= f)%Q)). exact Hloud.
Qed.

Lemma updateEnemies_fire_witness :
  let g := Spec.firingGame in
  let g' := Game.updateEnemies (1 # 60) g in
  Game.enemyBullets g' =
    Game.enemyBullets g ++
    map (fun e =>
           Bullet.set_vy 2
             (Bullet.new (Enemy.x e + Enemy.width e / 2 - 2)
                (Enemy.y e + Enemy.height e) 0 3 false))
      (Game.enemies g') /\
  length (Game.enemies g') = 15%nat.
Proof.
  cbn zeta. split; [| vm_compute; reflexivity].
  apply (proj2 (proj2 (updateEnemies_fire (1 # 60)
           (Level.mk 1 15 1 20 2 1 1 3 5 10 basic None None)
           Spec.firingGame eq_refl
           ltac:(intros n; split; [discriminate | reflexivity])))).
  intros e Hin. vm_compute in Hin.
  repeat (destruct Hin as [<- | Hin]; [discriminate |]). destruct Hin.
Defined.
